(** * WrapVTK: the hierarchy merge of vtkParseMerge.c and vtkWrapXML.c

    A shallow embedding of the merge bookkeeping (vtkParseMerge.c), of the
    recursive walk over the superclasses ([vtkWrapXML_MergeHelper] and
    [vtkWrapXML_MergeSuperClasses] of vtkWrapXML.c) and of the options of
    vtkParseMain.c ([OptionInfo], [check_options]), followed by the properties
    of the design document that were checked against them.  The embedding
    also covers the front end [vtkParse_Main] and the functions of
    vtkWrapXML.c that write the XML text ([indent], [vtkWrapXML_Quote],
    [vtkWrapXML_MultiLineText], the elements and attributes, the resolution
    order, the header and the footer of the file); their properties come
    last.

    Conventions of the embedding.
    - A C [int] is a [Z].  The counters of this code count elements of
      arrays that live in memory, so they stay far below [INT_MAX]; the
      arithmetic is written with the operators of the source ([Z.land],
      [Z.shiftl], [+ 1]) and without an overflow case.
    - A [malloc]ed array is a [block]: a list with one cell per allocated
      slot, [None] for a slot that was never written.  Reading outside the
      block or reading a slot never written, and writing outside the block,
      are undefined in C; here they make the operation return [None].
      [malloc] itself always succeeds (the source never tests its result),
      and [free] is not modelled.
    - The structs are records of values.  A pointer to a [FunctionInfo] or to
      an override chain is the value it points to: the code never keeps two
      pointers to an object that it writes, except for the class that
      receives the methods, which is threaded through the calls.
    - [char *] that may be [NULL] is [option string]; [strcmp (a, b) == 0] is
      [String.eqb a b].
    - [exit] and the text written to [stderr] are part of the outcome of the
      walk; the recursion of the walk is bounded by a fuel.
    - The functions whose code is in other files of the toolkit (the parser,
      the hierarchy index, the include path) and the file system are the
      fields of a record [World]; those that [vtkParse_Main] calls are the
      fields of a record [MainWorld].
    - A C string is a [string] without the NUL that ends it; [cp[i]] reads a
      character, the NUL at the index [strlen (cp)], and is undefined
      outside.  The file that the writer prints to is the text printed so
      far.
    - [size_t] and [unsigned long] have 64 bits. *)

From Stdlib Require Import ZArith String Ascii List Bool Lia.
From stdpp Require Import base option list.

Local Open Scope string_scope.
Local Open Scope list_scope.
Local Open Scope Z_scope.

(** ** Memory blocks *)

Abbreviation block A := (list (option A)).

Definition malloc {A : Type} (m : Z) : block A := replicate (Z.to_nat m) None.

Definition load {A : Type} (b : block A) (i : Z) : option A :=
  if i <? 0 then None
  else match b !! Z.to_nat i with
       | Some (Some v) => Some v
       | _ => None
       end.

Definition store {A : Type} (b : block A) (i : Z) (v : A) : option (block A) :=
  if (0 <=? i) && (i <? Z.of_nat (length b))
  then Some (<[Z.to_nat i := Some v]> b)
  else None.

(** [for (i = 0; i < n; i++) dst[i] = src[i];] run from index [i] for [fuel]
    more rounds. *)
Fixpoint copy_block {A : Type} (src dst : block A) (i : Z) (fuel : nat)
  : option (block A) :=
  match fuel with
  | O => Some dst
  | S fuel' =>
      v ← load src i;
      dst' ← store dst i v;
      copy_block src dst' (i + 1) fuel'
  end.

(** The largest value of an [int]. *)
Definition INT_MAX : Z := 2 ^ 31 - 1.

(** ** vtkParseMerge.h: MergeInfo *)

Record MergeInfo := mkMergeInfo {
  NumberOfClasses : Z;
  ClassNames : block string;
  NumberOfFunctions : Z;
  NumberOfOverrides : block Z;
  OverrideClasses : block (block Z)
}.

(** The search loop of [vtkParseMerge_PushClass], lines 31-37: the index of
    the first slot that holds [classname], if there is one. *)
Fixpoint find_classname (names : block string) (classname : string)
    (i : Z) (fuel : nat) : option (option Z) :=
  match fuel with
  | O => Some None
  | S fuel' =>
      s ← load names i;
      if String.eqb s classname then Some (Some i)
      else find_classname names classname (i + 1) fuel'
  end.

(** The slot count [m] chosen at lines 39-48 of [vtkParseMerge_PushClass]
    (two independent [if]s) ... *)
Definition PushClass_slots (n : Z) : Z :=
  let m := 0 in
  let m := if n =? 0 then 4 else m in
  let m := if (4 <=? n) && (Z.land n (n - 1) =? 0) then Z.shiftl n 1 else m in
  m.

(** ... and at lines 80-89 of [vtkParseMerge_PushFunction] ([if] / [else if]). *)
Definition PushFunction_slots (n : Z) : Z :=
  if n =? 0 then 4
  else if (4 <=? n) && (Z.land n (n - 1) =? 0) then Z.shiftl n 1
  else 0.

(** [if (m) { new = malloc(m); if (n) { copy; free(old); } array = new; }] *)
Definition regrow {A : Type} (old : block A) (n m : Z) : option (block A) :=
  if m =? 0 then Some old
  else if n =? 0 then Some (malloc m)
  else copy_block old (malloc m) 0 (Z.to_nat n).

(** add a class to the MergeInfo *)
Definition vtkParseMerge_PushClass (info : MergeInfo) (classname : string)
  : option (MergeInfo * Z) :=
  let n := NumberOfClasses info in
  found ← find_classname (ClassNames info) classname 0 (Z.to_nat n);
  match found with
  | Some i => Some (info, i)
  | None =>
      let m := PushClass_slots n in
      classnames ← regrow (ClassNames info) n m;
      classnames' ← store classnames n classname;
      Some (mkMergeInfo (n + 1) classnames' (NumberOfFunctions info)
              (NumberOfOverrides info) (OverrideClasses info), n)
  end.

(** add a function to the MergeInfo *)
Definition vtkParseMerge_PushFunction (info : MergeInfo) (depth : Z)
  : option (MergeInfo * Z) :=
  let n := NumberOfFunctions info in
  let m := PushFunction_slots n in
  overrides ← regrow (NumberOfOverrides info) n m;
  classes ← regrow (OverrideClasses info) n m;
  overrides' ← store overrides n 1;
  chain ← store (malloc 1) 0 depth;
  classes' ← store classes n chain;
  Some (mkMergeInfo (NumberOfClasses info) (ClassNames info) (n + 1)
          overrides' classes', n).

(** The scan of [vtkParseMerge_PushOverride], lines 126-132: is [depth]
    among the first [fuel] entries of the chain from index [j] on? *)
Fixpoint find_override (chain : block Z) (depth : Z) (j : Z) (fuel : nat)
  : option bool :=
  match fuel with
  | O => Some false
  | S fuel' =>
      c ← load chain j;
      if c =? depth then Some true
      else find_override chain depth (j + 1) fuel'
  end.

(** add an override to the specified function *)
Definition vtkParseMerge_PushOverride (info : MergeInfo) (i depth : Z)
  : option (MergeInfo * Z) :=
  n ← load (NumberOfOverrides info) i;
  chain ← load (OverrideClasses info) i;
  found ← find_override chain depth 0 (Z.to_nat n);
  if found : bool then Some (info, i)
  else
    classes ← (if Z.land n (n - 1) =? 0
               then copy_block chain (malloc (Z.shiftl n 1)) 0 (Z.to_nat n)
               else Some chain);
    overrides' ← store (NumberOfOverrides info) i (n + 1);
    classes' ← store classes n depth;
    table' ← store (OverrideClasses info) i classes';
    Some (mkMergeInfo (NumberOfClasses info) (ClassNames info)
            (NumberOfFunctions info) overrides' table', n).

(** ** vtkParse.h: the fields of FunctionInfo and ClassInfo that the merge uses

    The header vtkParse.h is not among the files verified here; the records carry the
    fields that vtkParseMerge.c and vtkWrapXML.c read or write.  [ArgTypes]
    and [ArgClasses] are arrays inside the struct, indexed below
    [NumberOfArguments]. *)

Record FunctionInfo := mkFunctionInfo {
  Name : option string;
  NumberOfArguments : Z;
  ArgTypes : list Z;
  ArgClasses : list (option string);
  ReturnClass : option string;
  Comment : option string;
  Signature : option string;
  IsVirtual : Z
}.

(** vtkParseMerge.c names the class [ClassName], vtkWrapXML.c names it [Name];
    it is one field here.  The counter of [Functions] is
    [Class_NumberOfFunctions] (the source's [NumberOfFunctions], which is also
    the name of a field of MergeInfo).  [SuperClasses] is only read: the list
    stands for the array and its [NumberOfSuperClasses]. *)
Record ClassInfo := mkClassInfo {
  ClassName : string;
  SuperClasses : list string;
  Class_NumberOfFunctions : Z;
  Functions : block FunctionInfo
}.

(** [f->ArgTypes[k]] *)
Definition ArgType (f : FunctionInfo) (k : Z) : Z := nth (Z.to_nat k) (ArgTypes f) 0.

(** return an initialized MergeInfo.  The load of [classInfo->Functions[i]]
    into [func] at line 166 is dead and is left out. *)
Fixpoint CreateMergeInfo_loop (fuel : nat) (info : MergeInfo) : option MergeInfo :=
  match fuel with
  | O => Some info
  | S fuel' =>
      '(info', _) ← vtkParseMerge_PushFunction info 0;
      CreateMergeInfo_loop fuel' info'
  end.

Definition vtkParseMerge_CreateMergeInfo (classInfo : ClassInfo) : option MergeInfo :=
  let info := mkMergeInfo 0 [] 0 [] [] in
  '(info, _) ← vtkParseMerge_PushClass info (ClassName classInfo);
  let n := Class_NumberOfFunctions classInfo in
  CreateMergeInfo_loop (Z.to_nat n) info.

(** make a duplicate of a function: every field is copied, the strings into
    fresh storage. *)
Definition copy_function (func : FunctionInfo) : FunctionInfo :=
  mkFunctionInfo (Name func) (NumberOfArguments func) (ArgTypes func)
    (ArgClasses func) (ReturnClass func) (Comment func) (Signature func)
    (IsVirtual func).

(** merge a function *)
Definition merge_function (merge func : FunctionInfo) : FunctionInfo :=
  let virt := if IsVirtual func =? 0 then IsVirtual merge else 1 in
  let comment :=
    match Comment func, Comment merge with
    | Some c, None => Some c
    | _, _ => Comment merge
    end in
  mkFunctionInfo (Name merge) (NumberOfArguments merge) (ArgTypes merge)
    (ArgClasses merge) (ReturnClass merge) comment (Signature merge) virt.

(** lines 277-279: [name] is the constructor or the destructor of [classname] *)
Definition is_destructor_name (name classname : string) : bool :=
  match name with
  | String c rest => Ascii.eqb c "~"%char && String.eqb rest classname
  | EmptyString => false
  end.

Definition not_inherited (name classname : string) : bool :=
  String.eqb name classname || is_destructor_name name classname.

(** lines 293-296: the value of [k] when the loop over the arguments ends *)
Fixpoint scan_args (f2 func : FunctionInfo) (k : Z) (fuel : nat) : Z :=
  match fuel with
  | O => k
  | S fuel' =>
      if negb (ArgType f2 k =? ArgType func k) then k
      else scan_args f2 func (k + 1) fuel'
  end.

(** lines 291-298: same number of arguments and the scan reached the end *)
Definition all_args_match (f2 func : FunctionInfo) : bool :=
  (NumberOfArguments f2 =? NumberOfArguments func) &&
  (scan_args f2 func 0 (Z.to_nat (NumberOfArguments f2)) =? NumberOfArguments f2).

(** lines 286-306, the loop over [j]: [fname] is [func->Name], [fns] is
    [merge->Functions], [matched] is the variable [match]. *)
Fixpoint check_overridden (func : FunctionInfo) (fname : string) (depth : Z)
    (j : Z) (fuel : nat) (info : MergeInfo) (fns : block FunctionInfo)
    (matched : bool) : option (MergeInfo * block FunctionInfo * bool) :=
  match fuel with
  | O => Some (info, fns, matched)
  | S fuel' =>
      f2 ← load fns j;
      match Name f2 with
      | Some n2 =>
          if String.eqb n2 fname then
            '(info', fns') ←
              (if all_args_match f2 func then
                 fns' ← store fns j (merge_function f2 func);
                 '(info', _) ← vtkParseMerge_PushOverride info j depth;
                 Some (info', fns')
               else Some (info, fns));
            check_overridden func fname depth (j + 1) fuel' info' fns' true
          else check_overridden func fname depth (j + 1) fuel' info fns matched
      | None => check_overridden func fname depth (j + 1) fuel' info fns matched
      end
  end.

(** lines 269-314, one round of the loop over the methods of [super].  The
    local [m] of the source always equals [merge->NumberOfFunctions] (both
    start equal and are incremented together), so the field stands for both. *)
Definition Merge_round (super : ClassInfo) (depth : Z) (i : Z)
    (info : MergeInfo) (merge : ClassInfo) : option (MergeInfo * ClassInfo) :=
  func ← load (Functions super) i;
  match Name func with
  | None => Some (info, merge)
  | Some fname =>
      if not_inherited fname (ClassName super) then Some (info, merge)
      else
        let m := Class_NumberOfFunctions merge in
        '(info', fns', matched) ←
          check_overridden func fname depth 0 (Z.to_nat m) info (Functions merge) false;
        if matched : bool then
          Some (info', mkClassInfo (ClassName merge) (SuperClasses merge) m fns')
        else
          fns'' ← store fns' m (copy_function func);
          '(info'', _) ← vtkParseMerge_PushFunction info' depth;
          Some (info'', mkClassInfo (ClassName merge) (SuperClasses merge) (m + 1) fns'')
  end.

Fixpoint Merge_loop (super : ClassInfo) (depth : Z) (i : Z) (fuel : nat)
    (info : MergeInfo) (merge : ClassInfo) : option (MergeInfo * ClassInfo) :=
  match fuel with
  | O => Some (info, merge)
  | S fuel' =>
      '(info', merge') ← Merge_round super depth i info merge;
      Merge_loop super depth (i + 1) fuel' info' merge'
  end.

(** add "super" methods to the merge *)
Definition vtkParseMerge_Merge (info : MergeInfo) (merge super : ClassInfo)
  : option (MergeInfo * ClassInfo * Z) :=
  '(info1, depth) ← vtkParseMerge_PushClass info (ClassName super);
  let n := Class_NumberOfFunctions super in
  '(info2, merge') ← Merge_loop super depth 0 (Z.to_nat n) info1 merge;
  Some (info2, merge', depth).

(** ** vtkParseMain.c: the options *)

(** This is the struct that contains the options *)
Record OptionInfo := mkOptionInfo {
  InputFileName : option string;
  OutputFileName : option string;
  IsAbstract : Z;
  IsConcrete : Z;
  IsVTKObject : Z;
  IsSpecialObject : Z;
  HierarchyFileName : option string;
  HintFileName : option string
}.

(** The calls of [check_options] into the parser. *)
Inductive parser_setting : Type :=
| IncludeDirectory (dir : string)
| DefineMacro (name : string) (definition : string)
| UndefineMacro (name : string).

(** [argv[i][0] == '-'] *)
Definition starts_with_dash (arg : string) : bool :=
  match arg with
  | String c _ => Ascii.eqb c "-"%char
  | EmptyString => false
  end.

(** [&argv[i][j]] at line 114: what follows the first ['='], and the end of
    the string when it has none. *)
Fixpoint after_equals (arg : string) : string :=
  match arg with
  | EmptyString => EmptyString
  | String c rest => if Ascii.eqb c "="%char then rest else after_equals rest
  end.

(** The options when [check_options] starts (lines 41-48). *)
Definition initial_options : OptionInfo := mkOptionInfo None None 0 0 0 0 None None.

(** The options that are followed by a value. *)
Definition takes_value (arg : string) : bool :=
  String.eqb arg "--hints" || String.eqb arg "--types" || String.eqb arg "-o" ||
  String.eqb arg "-I" || String.eqb arg "-D" || String.eqb arg "-U".

(** What the branch of such an option does with its value. *)
Definition apply_option (arg value : string) (o : OptionInfo) (calls : list parser_setting)
  : OptionInfo * list parser_setting :=
  if String.eqb arg "--hints" then
    (mkOptionInfo (InputFileName o) (OutputFileName o) (IsAbstract o) (IsConcrete o)
       (IsVTKObject o) (IsSpecialObject o) (HierarchyFileName o) (Some value), calls)
  else if String.eqb arg "--types" then
    (mkOptionInfo (InputFileName o) (OutputFileName o) (IsAbstract o) (IsConcrete o)
       (IsVTKObject o) (IsSpecialObject o) (Some value) (HintFileName o), calls)
  else if String.eqb arg "-o" then
    (mkOptionInfo (InputFileName o) (Some value) (IsAbstract o) (IsConcrete o)
       (IsVTKObject o) (IsSpecialObject o) (HierarchyFileName o) (HintFileName o), calls)
  else if String.eqb arg "-I" then (o, calls ++ [IncludeDirectory value])
  else if String.eqb arg "-D" then (o, calls ++ [DefineMacro value (after_equals value)])
  else (o, calls ++ [UndefineMacro value]).

(** The loop of [check_options], lines 50-125, on the arguments from [argv[i]]
    on: the value returned, the options, and the calls made into the parser.
    An option that is not known is passed over. *)
Fixpoint check_options_loop (args : list string) (i : Z) (o : OptionInfo)
    (calls : list parser_setting) : Z * OptionInfo * list parser_setting :=
  match args with
  | [] => (i, o, calls)
  | arg :: rest =>
      if negb (starts_with_dash arg) then (i, o, calls)
      else if String.eqb arg "--concrete" then
        check_options_loop rest (i + 1)
          (mkOptionInfo (InputFileName o) (OutputFileName o) (IsAbstract o) 1
             (IsVTKObject o) (IsSpecialObject o) (HierarchyFileName o) (HintFileName o)) calls
      else if String.eqb arg "--abstract" then
        check_options_loop rest (i + 1)
          (mkOptionInfo (InputFileName o) (OutputFileName o) 1 (IsConcrete o)
             (IsVTKObject o) (IsSpecialObject o) (HierarchyFileName o) (HintFileName o)) calls
      else if String.eqb arg "--vtkobject" then
        check_options_loop rest (i + 1)
          (mkOptionInfo (InputFileName o) (OutputFileName o) (IsAbstract o) (IsConcrete o)
             1 (IsSpecialObject o) (HierarchyFileName o) (HintFileName o)) calls
      else if String.eqb arg "--special" then
        check_options_loop rest (i + 1)
          (mkOptionInfo (InputFileName o) (OutputFileName o) (IsAbstract o) (IsConcrete o)
             (IsVTKObject o) 1 (HierarchyFileName o) (HintFileName o)) calls
      else if takes_value arg then
        match rest with
        | [] => (-1, o, calls)
        | value :: rest' =>
            if starts_with_dash value then (-1, o, calls)
            else
              let '(o', calls') := apply_option arg value o calls in
              check_options_loop rest' (i + 2) o' calls'
        end
      else check_options_loop rest (i + 1) o calls
  end.

(** Check the options: [argv[0]] is the name of the program. *)
Definition check_options (argv : list string) : Z * OptionInfo * list parser_setting :=
  check_options_loop (tail argv) 1 initial_options [].

(** ** vtkWrapXML.c: the walk over the superclasses *)

Record NamespaceInfo := mkNamespaceInfo { Classes : list ClassInfo }.

Record FileInfo := mkFileInfo { Contents : NamespaceInfo }.

Record HierarchyEntry := mkHierarchyEntry { HeaderFile : string }.

(** Modelled from the spec: vtkParseHierarchy.h is missing; the hierarchy
    index is "a read-only, pre-built mapping className -> headerFileLocation". *)
Definition HierarchyInfo := list (string * HierarchyEntry).

(** The collaborators whose code is not in vtkWrapXML.c: the hierarchy index
    (vtkParseHierarchy.c), the include-path search and the parser (vtkParse),
    and the file system.  [vtkParse_ParseFile] and [vtkParse_ReadHints] are
    handed [stderr]; what they write to it is part of their result. *)
Record World := mkWorld {
  vtkParseHierarchy_ReadFile : string -> option HierarchyInfo;
  vtkParseHierarchy_FindEntry : option HierarchyInfo -> string -> option HierarchyEntry;
  vtkParse_FindIncludeFile : string -> option string;
  fopen : string -> bool;
  vtkParse_ParseFile : string -> option FileInfo * list string;
  vtkParse_ReadHints : FileInfo -> FileInfo * list string
}.

(** How a call of a function of the walk ends. *)
Inductive outcome (A : Type) : Type :=
| Done (a : A)                            (* the function returned *)
| Exit (status : Z) (err : list string)   (* [exit (status)], with all of stderr *)
| Undefined                               (* an access outside a block *)
| OutOfFuel.                              (* the recursion is deeper than the fuel *)
Arguments Done {A} a.
Arguments Exit {A} status err.
Arguments Undefined {A}.
Arguments OutOfFuel {A}.

(** the loops at lines 1215-1223 and 1266-1274: the first class of the
    namespace with the name [classname] *)
Definition find_class (data : NamespaceInfo) (classname : string) : option ClassInfo :=
  List.find (fun c => String.eqb (ClassName c) classname) (Classes data).

(** What lines 1214-1275 of [vtkWrapXML_MergeHelper] leave in [data] and
    [cinfo], or the call of [exit]; the list is what went to stderr. *)
Inductive resolution : Type :=
| Resolved (data : NamespaceInfo) (cinfo : option ClassInfo) (err : list string)
| NoEntry
| Fatal (status : Z) (err : list string).

Definition resolve (w : World) (data : NamespaceInfo) (hinfo : option HierarchyInfo)
    (classname : string) (hintfile : bool) : resolution :=
  let n := Z.of_nat (length (Classes data)) in
  let cinfo := find_class data classname in
  if (0 <? n) && negb (bool_decide (is_Some cinfo)) then
    match vtkParseHierarchy_FindEntry w hinfo classname with
    | None => NoEntry
    | Some entry =>
        let header := HeaderFile entry in
        match vtkParse_FindIncludeFile w header with
        | None =>
            Fatal 1 ["Couldn't locate header file " ++ header ++ String "010" ""]%string
        | Some filename =>
            if negb (fopen w filename) then
              Fatal 1 ["Couldn't open header file " ++ header ++ String "010" ""]%string
            else
              match vtkParse_ParseFile w filename with
              | (None, err) => Fatal 1 err
              | (Some finfo, err) =>
                  let '(finfo', err') :=
                    if hintfile then vtkParse_ReadHints w finfo else (finfo, []) in
                  let data' := Contents finfo' in
                  Resolved data' (find_class data' classname) (err ++ err')
              end
        end
    end
  else Resolved data cinfo [].

(** The state that the walk threads: the MergeInfo, the class that receives
    the methods, and stderr. *)
Definition walk_state : Type := MergeInfo * ClassInfo * list string.

(** The loops over the superclasses at lines 1281-1285 and 1317-1322: the
    call [visit] for each name in turn, as long as the calls return. *)
Definition walk_supers (visit : string -> walk_state -> outcome walk_state)
    (supers : list string) (start : outcome walk_state) : outcome walk_state :=
  fold_left
    (fun (acc : outcome walk_state) (super : string) =>
       match acc with
       | Done st' => visit super st'
       | _ => acc
       end)
    supers start.

(** Recursive subroutine to add the methods of "classname" and all its
    superclasses to "merge".  [fuel] bounds the depth of the recursion: the
    source has no guard against a class that is its own ancestor, and recurses
    without end on such input.  ([data] holds the classes as values; the class
    that receives the methods can only be met again in [data] through such a
    cycle.) *)
Fixpoint vtkWrapXML_MergeHelper (fuel : nat) (w : World) (data : NamespaceInfo)
    (hinfo : option HierarchyInfo) (classname : string) (hintfile : bool)
    (st : walk_state) : outcome walk_state :=
  match fuel with
  | O => OutOfFuel
  | S fuel' =>
      let '(info, merge, err) := st in
      match resolve w data hinfo classname hintfile with
      | Fatal status e => Exit status (err ++ e)
      | NoEntry => Done st
      | Resolved _ None e => Done (info, merge, (err ++ e))
      | Resolved data' (Some cinfo) e =>
          match vtkParseMerge_Merge info merge cinfo with
          | None => Undefined
          | Some (info', merge', _) =>
              walk_supers
                (fun super st' =>
                   vtkWrapXML_MergeHelper fuel' w data' hinfo super hintfile st')
                (SuperClasses cinfo) (Done (info', merge', (err ++ e)))
          end
      end
  end.

(** lines 1309-1312: [hintfile] is not [NULL] when the options name a hint
    file and it opens. *)
Definition open_hints (w : World) (oinfo : OptionInfo) : bool :=
  match HintFileName oinfo with
  | Some hintFileName => fopen w hintFileName
  | None => false
  end.

(** Merge the methods from the superclasses.  [oinfo] is what
    [vtkParse_GetCommandLineOptions] returns. *)
Definition vtkWrapXML_MergeSuperClasses (fuel : nat) (w : World) (oinfo : OptionInfo)
    (data : NamespaceInfo) (classInfo : ClassInfo)
  : outcome (option MergeInfo * ClassInfo * list string) :=
  match HierarchyFileName oinfo with
  | None => Done (None, classInfo, [])
  | Some hierarchyFileName =>
      let hinfo := vtkParseHierarchy_ReadFile w hierarchyFileName in
      let hintfile := open_hints w oinfo in
      match vtkParseMerge_CreateMergeInfo classInfo with
      | None => Undefined
      | Some info =>
          match
            walk_supers
              (fun super st' =>
                 vtkWrapXML_MergeHelper fuel w data hinfo super hintfile st')
              (SuperClasses classInfo) (Done (info, classInfo, []))
          with
          | Done (info', merge', err) => Done (Some info', merge', err)
          | Exit status err => Exit status err
          | Undefined => Undefined
          | OutOfFuel => OutOfFuel
          end
      end
  end.

(** ** vtkParseMain.c: vtkParse_Main *)

(** [argv[i]]: the strings of the command line, the null pointer [argv[argc]]
    that ends them, and nothing outside. *)
Definition argv_at (argv : list string) (i : Z) : option (option string) :=
  if i <? 0 then None
  else if i <? Z.of_nat (length argv) then Some (argv !! Z.to_nat i)
  else if i =? Z.of_nat (length argv) then Some None
  else None.

(** [c == '/' || c == '\\' || c == ':'] *)
Definition is_separator (c : ascii) : bool :=
  Ascii.eqb c "/"%char || Ascii.eqb c "\"%char || Ascii.eqb c ":"%char.

(** The value of [i] when the loop
    [while (i > 0 && cp[i-1] != '/' && cp[i-1] != '\\' && cp[i-1] != ':') i--]
    that starts at [i] ends (lines 218-219; the same loop is at lines 417-420
    of vtkWrapXML.c). *)
Fixpoint basename_start (cp : string) (i : nat) : nat :=
  match i with
  | O => O
  | S i' =>
      match String.get i' cp with
      | Some c => if is_separator c then i else basename_start cp i'
      | None => basename_start cp i'
      end
  end.

(** [&cp[i]] for the [i] that the loop started at [strlen (cp)] leaves. *)
Definition basename (cp : string) : string :=
  let i := basename_start cp (String.length cp) in
  String.substring i (String.length cp - i) cp.

(** lines 221-223: the string cut at its first ['.']. *)
Fixpoint until_dot (classname : string) : string :=
  match classname with
  | EmptyString => EmptyString
  | String c rest => if Ascii.eqb c "."%char then EmptyString else String c (until_dot rest)
  end.

(** lines 215-223: the class name that [vtkParse_Main] takes from the name of
    the input file. *)
Definition classname_of_file (cp : string) : string := until_dot (basename cp).

(** The calls that [vtkParse_Main] makes into the parser before it parses;
    [Setting] is a call made by [check_options]. *)
Inductive parser_call : Type :=
| Setting (s : parser_setting)
| SetClassProperty (classname property : string)
| SetIgnoreBTX (flag : Z).

(** What [vtkParse_Main] calls and does not define: [fopen] and [atoi] of the
    C library, and the parser, whose result depends on the calls made into it
    before and which writes to [stderr]. *)
Record MainWorld := mkMainWorld {
  main_fopen : string -> bool;
  atoi : string -> Z;
  main_ParseFile : list parser_call -> string -> option FileInfo * list string;
  main_ReadHints : string -> FileInfo -> FileInfo * list string
}.

(** What a call of [vtkParse_Main] that returns leaves behind: the struct
    [options], the calls made into the parser, the value returned, the value
    stored in [data->MainClass->IsAbstract] if [data] has a main class (and no
    value when lines 246-253 store nothing), and what went to [stderr]. *)
Record Main_result := mkMain_result {
  main_options : OptionInfo;
  main_calls : list parser_call;
  main_data : FileInfo;
  main_IsAbstract : option Z;
  main_stderr : list string
}.

Definition newline : string := String "010" "".

(** The text of lines 154-166. *)
Definition usage (prog : string) : string :=
  ("Usage: " ++ prog ++ " [options] input_file" ++ newline ++
  "  -o <file>       the output file" ++ newline ++
  "  -I <dir>        add an include directory" ++ newline ++
  "  -D <macro>      add a macro definition" ++ newline ++
  "  -U <macro>      undefine a macro" ++ newline ++
  "  --concrete      force concrete class" ++ newline ++
  "  --abstract      force abstract class" ++ newline ++
  "  --vtkobject     vtkObjectBase-derived class" ++ newline ++
  "  --special       non-vtkObjectBase class" ++ newline ++
  "  --hints <file>  hints file" ++ newline ++
  "  --types <file>  type hierarchy file" ++ newline)%string.

(** lines 178-190: the arguments by position, when no option was given.
    [atoi] of the null pointer is undefined. *)
Definition positional_arguments (mw : MainWorld) (argv : list string) (argi : Z)
    (o : OptionInfo) : option OptionInfo :=
  let argc := Z.of_nat (length argv) in
  '(o, argi) ←
    (if argc =? 5 then
       hint ← argv_at argv argi;
       Some (mkOptionInfo (InputFileName o) (OutputFileName o) (IsAbstract o) (IsConcrete o)
               (IsVTKObject o) (IsSpecialObject o) (HierarchyFileName o) hint, argi + 1)
     else Some (o, argi));
  '(o, argi) ←
    (if 4 <=? argc then
       arg ← argv_at argv argi;
       text ← arg;
       let concrete := atoi mw text in
       Some (mkOptionInfo (InputFileName o) (OutputFileName o)
               (if concrete =? 0 then 1 else 0) concrete
               (IsVTKObject o) (IsSpecialObject o) (HierarchyFileName o) (HintFileName o),
             argi + 1)
     else Some (o, argi));
  output ← argv_at argv argi;
  Some (mkOptionInfo (InputFileName o) output (IsAbstract o) (IsConcrete o)
          (IsVTKObject o) (IsSpecialObject o) (HierarchyFileName o) (HintFileName o)).

(** lines 192 and 194: the hint file that is opened, if one is named. *)
Definition hint_file (o : OptionInfo) : option string :=
  match HintFileName o with
  | Some name => if String.eqb name "" then None else Some name
  | None => None
  end.

(** lines 246-253, for a [data] that has a main class. *)
Definition MainClass_IsAbstract (o : OptionInfo) : option Z :=
  if negb (IsConcrete o =? 0) then Some 0
  else if negb (IsAbstract o =? 0) then Some 1
  else None.

(** lines 213-255: from the test of [options.IsConcrete] on.  [hfile] is the
    name of the hint file if one was opened. *)
Definition parse_input (mw : MainWorld) (o : OptionInfo) (settings : list parser_setting)
    (input : string) (hfile : option string) : outcome Main_result :=
  let calls := Setting <$> settings in
  let calls :=
    if negb (IsConcrete o =? 0)
    then calls ++ [SetClassProperty (classname_of_file input) "concrete"]
    else calls in
  let calls := calls ++ [SetIgnoreBTX 0] in
  let calls :=
    match HierarchyFileName o with
    | Some _ => calls ++ [SetIgnoreBTX 1]
    | None => calls
    end in
  match main_ParseFile mw calls input with
  | (None, err) => Exit 1 err
  | (Some data, err) =>
      let '(data, err') :=
        match hfile with
        | Some name => main_ReadHints mw name data
        | None => (data, [])
        end in
      Done (mkMain_result o calls data (MainClass_IsAbstract o) (err ++ err'))
  end.

(** The front end of the wrapper generators.  [argc] is the length of [argv]. *)
Definition vtkParse_Main (mw : MainWorld) (argv : list string) : outcome Main_result :=
  let argc := Z.of_nat (length argv) in
  let '(argi, o, settings) := check_options argv in
  let has_options := (1 <? argi) && (argc - argi =? 1) in
  if negb has_options && ((argi <? 0) || (argc <? 3) || (5 <? argc)) then
    match argv_at argv 0 with
    | Some (Some prog) => Exit 1 [usage prog]
    | _ => Undefined
    end
  else
    match argv_at argv argi with
    | Some (Some input) =>
        let o := mkOptionInfo (Some input) (OutputFileName o) (IsAbstract o) (IsConcrete o)
                   (IsVTKObject o) (IsSpecialObject o) (HierarchyFileName o)
                   (HintFileName o) in
        let argi := argi + 1 in
        if negb (main_fopen mw input) then
          Exit 1 [("Error opening input file " ++ input ++ newline)%string]
        else
          match (if has_options then Some o else positional_arguments mw argv argi o) with
          | None => Undefined
          | Some o =>
              let finish := fun hfile : option string =>
                match OutputFileName o with
                | None => Exit 1 [("No output file was specified" ++ newline)%string]
                | Some _ => parse_input mw o settings input hfile
                end in
              match hint_file o with
              | Some name =>
                  if negb (main_fopen mw name) then
                    Exit 1 [("Error opening hint file " ++ name ++ newline)%string]
                  else finish (Some name)
              | None => finish None
              end
          end
    | _ => Undefined
    end.

(** ** vtkWrapXML.c: writing XML

    The file is compiled without [WRAPXML_ELEMENTS_ONLY]: the branches under
    [#else] and [#ifndef] are the ones embedded.  A [size_t] and an
    [unsigned long] have 64 bits. *)

(** [cp[i]]: a character of the string, the NUL that ends it, and nothing
    outside. *)
Definition char_at (cp : string) (i : Z) : option ascii :=
  if i <? 0 then None
  else match String.get (Z.to_nat i) cp with
       | Some c => Some c
       | None => if i =? Z.of_nat (String.length cp) then Some zero else None
       end.

(** The functions of <ctype.h> that the file calls, in the locale of the
    run. *)
Record ctype := mk_ctype {
  isprint : ascii -> bool;
  isspace : ascii -> bool
}.

(** XML state information: the text written to the file so far, the current
    indentation level, and whether the current tag is not closed. *)
Record wrapxml_state_t := mk_wrapxml_state {
  file : string;
  indentation : Z;
  unclosed : Z
}.

(** [fprintf (w->file, ...)] of the text [text]. *)
Definition fprintf (w : wrapxml_state_t) (text : string) : wrapxml_state_t :=
  mk_wrapxml_state (file w ++ text) (indentation w) (unclosed w).

(** The indentation string, default is two spaces *)
Definition VTKXML_INDENT : string := "  ".

Definition indentString : list string :=
  [""; VTKXML_INDENT; VTKXML_INDENT ++ VTKXML_INDENT;
   VTKXML_INDENT ++ VTKXML_INDENT ++ VTKXML_INDENT;
   VTKXML_INDENT ++ VTKXML_INDENT ++ VTKXML_INDENT ++ VTKXML_INDENT;
   VTKXML_INDENT ++ VTKXML_INDENT ++ VTKXML_INDENT ++ VTKXML_INDENT ++ VTKXML_INDENT]%string.

(** indent to the specified indentation level: [indentString[indentation % 6]],
    with the remainder of C, which has the sign of [indentation]. *)
Definition indent (indentation : Z) : option string :=
  let k := Z.rem indentation 6 in
  if k <? 0 then None else indentString !! Z.to_nat k.

(** The static variables of [vtkWrapXML_Quote]: the buffer, if one was
    allocated, and the [maxlen] it was allocated for. *)
Record Quote_static := mk_Quote_static {
  result : option (block ascii);
  oldmaxlen : Z
}.

(** [strcpy (&result[j], text)], and [sprintf (&result[j], text)] for a text
    without a conversion: the characters of [text] and the NUL after them. *)
Fixpoint strcpy (b : block ascii) (j : Z) (text : string) : option (block ascii) :=
  match text with
  | EmptyString => store b j zero
  | String c rest => b' ← store b j c; strcpy b' (j + 1) rest
  end.

(** The string that starts at the first byte of the block. *)
Fixpoint c_string (b : block ascii) : option string :=
  match b with
  | Some c :: b' =>
      if Ascii.eqb c zero then Some EmptyString
      else text ← c_string b'; Some (String c text)
  | _ => None
  end.

(** lines 98-132: what one character of the comment puts into the buffer. *)
Definition Quote_char (ct : ctype) (c : ascii) (result : block ascii) (j : Z)
  : option (block ascii * Z) :=
  if Ascii.eqb c "<" then result' ← strcpy result j "&lt;"; Some (result', j + 4)
  else if Ascii.eqb c ">" then result' ← strcpy result j "&gt;"; Some (result', j + 4)
  else if Ascii.eqb c "&" then result' ← strcpy result j "&amp;"; Some (result', j + 5)
  else if Ascii.eqb c "034" then result' ← strcpy result j "&quot;"; Some (result', j + 6)
  else if Ascii.eqb c "'" then result' ← strcpy result j "&apos;"; Some (result', j + 6)
  else if isprint ct c then result' ← store result j c; Some (result', j + 1)
  else if isspace ct c then result' ← store result j c; Some (result', j + 1)
  else Some (result, j).

(** lines 96-141, the loop over the characters of the comment that are left.
    [maxlen - 5] is computed in [size_t]. *)
Fixpoint Quote_loop (ct : ctype) (comment : string) (maxlen : Z) (result : block ascii)
    (j : Z) : option (block ascii * Z) :=
  match comment with
  | EmptyString => Some (result, j)
  | String c rest =>
      '(result, j) ← Quote_char ct c result j;
      if (maxlen - 5) mod 2 ^ 64 <=? j then
        result ← strcpy result j " ...";
        Some (result, j + 4)
      else Quote_loop ct rest maxlen result j
  end.

(** Convert special characters in a string into their escape codes, so that
    the string can be quoted in an xml file.  The value is the string that
    the pointer returned points to, and the static variables after the
    call.  [maxlen + 1] is computed in [size_t]. *)
Definition vtkWrapXML_Quote (ct : ctype) (st : Quote_static) (comment : option string)
    (maxlen : Z) : option (string * Quote_static) :=
  let st :=
    if oldmaxlen st <? maxlen
    then mk_Quote_static (Some (malloc ((maxlen + 1) mod 2 ^ 64))) maxlen
    else st in
  match comment with
  | None => Some (EmptyString, st)
  | Some comment =>
      buffer ← result st;
      '(buffer, j) ← Quote_loop ct comment maxlen buffer 0;
      buffer ← store buffer j zero;
      text ← c_string buffer;
      Some (text, mk_Quote_static (Some buffer) (oldmaxlen st))
  end.

(** lines 157-160: the loop that copies a line into [temp], for [fuel] more
    rounds ([200 - j] of them); the characters copied are added to [temp]. *)
Fixpoint copy_line (cp : string) (i : Z) (temp : string) (fuel : nat)
  : option (string * Z) :=
  match fuel with
  | O => Some (temp, i)
  | S fuel' =>
      c ← char_at cp i;
      if Ascii.eqb c zero || Ascii.eqb c "010" then Some (temp, i)
      else copy_line cp (i + 1) (temp ++ String c EmptyString) fuel'
  end.

(** [c == ' ' || c == '\t' || c == '\r'] *)
Definition is_blank (c : ascii) : bool :=
  Ascii.eqb c " " || Ascii.eqb c "009" || Ascii.eqb c "013".

(** lines 162-166: the value of [j] when the loop
    [while (j > 0 && (temp[j-1] == ' ' || ...)) j--] that starts at [j]
    ends. *)
Fixpoint strip_blanks (temp : string) (j : nat) : nat :=
  match j with
  | O => O
  | S j' =>
      match String.get j' temp with
      | Some c => if is_blank c then strip_blanks temp j' else j
      | None => j
      end
  end.

(** lines 157-178: one round of the loop of [vtkWrapXML_MultiLineText], from
    the index [i] of the first character of a line to the index at which the
    copy stopped. *)
Definition MultiLineText_round (ct : ctype) (st : Quote_static) (w : wrapxml_state_t)
    (cp : string) (i : Z) : option (wrapxml_state_t * Quote_static * Z) :=
  '(temp, i) ← copy_line cp i EmptyString 200;
  let j := strip_blanks temp (String.length temp) in
  let temp := String.substring 0 j temp in
  if (0 <? j)%nat then
    spaces ← indent (indentation w);
    '(quoted, st) ← vtkWrapXML_Quote ct st (Some temp) 500;
    Some (fprintf w (spaces ++ quoted ++ String "010" EmptyString), st, i)
  else Some (fprintf w (String "010" EmptyString), st, i).

(** The loop of [vtkWrapXML_MultiLineText] from the index [i] on.  Every round
    moves [i] forward, so that the loop has ended after [strlen (cp) + 1]
    tests: [fuel] counts the tests that are left. *)
Fixpoint MultiLineText_loop (ct : ctype) (st : Quote_static) (w : wrapxml_state_t)
    (cp : string) (i : Z) (fuel : nat) : outcome (wrapxml_state_t * Quote_static) :=
  match fuel with
  | O => OutOfFuel
  | S fuel' =>
      match char_at cp i with
      | None => Undefined
      | Some c =>
          if Ascii.eqb c zero then Done (w, st)
          else
            match MultiLineText_round ct st w cp i with
            | None => Undefined
            | Some (w', st', i') => MultiLineText_loop ct st' w' cp (i' + 1) fuel'
            end
      end
  end.

(** Print multi-line text at the specified indentation level. *)
Definition vtkWrapXML_MultiLineText (ct : ctype) (st : Quote_static) (w : wrapxml_state_t)
    (cp : option string) : outcome (wrapxml_state_t * Quote_static) :=
  match cp with
  | None => Done (w, st)
  | Some cp => MultiLineText_loop ct st w cp 0 (S (String.length cp))
  end.

(** Mark the beginning of the element body *)
Definition vtkWrapXML_ElementBody (w : wrapxml_state_t) : wrapxml_state_t :=
  let w := if negb (unclosed w =? 0) then fprintf w (">" ++ String "010" EmptyString) else w in
  mk_wrapxml_state (file w) (indentation w) 0.

(** Print an element start tag *)
Definition vtkWrapXML_ElementStart (w : wrapxml_state_t) (name : string)
  : option wrapxml_state_t :=
  let w := vtkWrapXML_ElementBody w in
  spaces ← indent (indentation w);
  let w := fprintf w (spaces ++ "<" ++ name) in
  Some (mk_wrapxml_state (file w) (indentation w + 1) 1).

(** Print an element end tag *)
Definition vtkWrapXML_ElementEnd (w : wrapxml_state_t) (name : string)
  : option wrapxml_state_t :=
  let w := mk_wrapxml_state (file w) (indentation w - 1) (unclosed w) in
  w ← (if negb (unclosed w =? 0) then Some (fprintf w (" />" ++ String "010" EmptyString))
       else
         spaces ← indent (indentation w);
         Some (fprintf w (spaces ++ "</" ++ name ++ ">" ++ String "010" EmptyString)));
  Some (mk_wrapxml_state (file w) (indentation w) 0).

(** Print an attribute *)
Definition vtkWrapXML_Attribute (ct : ctype) (st : Quote_static) (w : wrapxml_state_t)
    (name : string) (value : option string) : option (wrapxml_state_t * Quote_static) :=
  '(quoted, st) ← vtkWrapXML_Quote ct st value 500;
  Some (fprintf w (" " ++ name ++ "=" ++ String "034" EmptyString ++ quoted
                     ++ String "034" EmptyString), st).

(** Print the name attribute *)
Definition vtkWrapXML_Name (ct : ctype) (st : Quote_static) (w : wrapxml_state_t)
    (name : option string) : option (wrapxml_state_t * Quote_static) :=
  vtkWrapXML_Attribute ct st w "name" name.

(** Print the comment as multi-line text *)
Definition vtkWrapXML_Comment (ct : ctype) (st : Quote_static) (w : wrapxml_state_t)
    (comment : option string) : outcome (wrapxml_state_t * Quote_static) :=
  let elementName := "Comment" in
  match comment with
  | None => Done (w, st)
  | Some _ =>
      match vtkWrapXML_ElementStart w elementName with
      | None => Undefined
      | Some w =>
          let w := vtkWrapXML_ElementBody w in
          match vtkWrapXML_MultiLineText ct st w comment with
          | Done (w, st) =>
              match vtkWrapXML_ElementEnd w elementName with
              | None => Undefined
              | Some w => Done (w, st)
              end
          | other => other
          end
      end
  end.

(** lines 569-580: the loop over the classes of the MergeInfo, for [fuel]
    more rounds from the index [i]. *)
Fixpoint ClassInheritance_loop (ct : ctype) (st : Quote_static) (w : wrapxml_state_t)
    (merge : MergeInfo) (i : Z) (fuel : nat) : option (wrapxml_state_t * Quote_static) :=
  match fuel with
  | O => Some (w, st)
  | S fuel' =>
      w ← vtkWrapXML_ElementStart w "Context";
      name ← load (ClassNames merge) i;
      '(w, st) ← vtkWrapXML_Name ct st w (Some name);
      '(w, st) ← vtkWrapXML_Attribute ct st w "access" (Some "public");
      w ← vtkWrapXML_ElementEnd w "Context";
      ClassInheritance_loop ct st w merge (i + 1) fuel'
  end.

(** Write the inheritance section.  [n] is an [unsigned long]. *)
Definition vtkWrapXML_ClassInheritance (ct : ctype) (st : Quote_static) (w : wrapxml_state_t)
    (merge : MergeInfo) : option (wrapxml_state_t * Quote_static) :=
  let elementName := "ResolutionOrder" in
  let n := NumberOfClasses merge mod 2 ^ 64 in
  w ← vtkWrapXML_ElementStart w elementName;
  let w := vtkWrapXML_ElementBody w in
  '(w, st) ← ClassInheritance_loop ct st w merge 0 (Z.to_nat n);
  w ← vtkWrapXML_ElementEnd w elementName;
  Some (w, st).

(** Write the file header: [cp] is [data->FileName]. *)
Definition vtkWrapXML_FileHeader (ct : ctype) (st : Quote_static) (w : wrapxml_state_t)
    (cp : option string) : option (wrapxml_state_t * Quote_static) :=
  let elementName := "File" in
  w ← vtkWrapXML_ElementStart w elementName;
  '(w, st) ←
    match cp with
    | Some cp => vtkWrapXML_Name ct st w (Some (basename cp))
    | None => Some (w, st)
    end;
  let w := vtkWrapXML_ElementBody w in
  Some (mk_wrapxml_state (file w) (indentation w - 1) (unclosed w), st).

(** Write the file footer *)
Definition vtkWrapXML_FileFooter (w : wrapxml_state_t) : option wrapxml_state_t :=
  let elementName := "File" in
  let w := mk_wrapxml_state (file w) (indentation w + 1) (unclosed w) in
  vtkWrapXML_ElementEnd w elementName.

(** lines 1360-1365 of [vtkWrapXML_MethodHelper]: the class name of the
    context of the method at the index [i], the index at which the search of
    lines 1352-1358 for the pointer to the method stopped. *)
Definition MethodHelper_classname (merge : option MergeInfo) (classInfo : ClassInfo) (i : Z)
  : option (option string) :=
  let n := Class_NumberOfFunctions classInfo mod 2 ^ 64 in
  if i <? n then
    match merge with
    | Some merge =>
        count ← load (NumberOfOverrides merge) i;
        if negb (count =? 0) then
          chain ← load (OverrideClasses merge) i;
          depth ← load chain 0;
          classname ← load (ClassNames merge) depth;
          Some (Some classname)
        else Some None
    | None => Some None
    end
  else Some None.

(** * The lists behind the arrays

    The notions in which the properties are stated: what the blocks of a
    MergeInfo and of a ClassInfo hold, seen as lists, and the merge on these
    lists. *)

(** [c] is the least power of two that is at least [n] (for [n >= 1]). *)
Definition pow2_cap (n c : Z) : Prop :=
  exists k, 0 <= k /\ c = 2 ^ k /\ n <= c /\ c < 2 * n.

(** The number of slots behind the arrays grown by [vtkParseMerge_PushClass]
    and [vtkParseMerge_PushFunction] when they hold [n] elements: nothing is
    known of the pointer before the first push, four slots up to four
    elements, then the least power of two. *)
Definition registry_cap (n c : Z) : Prop :=
  n = 0 \/ (1 <= n <= 4 /\ c = 4) \/ (4 < n /\ pow2_cap n c).

(** The first [length l] slots of [b] were written and hold [l]. *)
Definition holds {A : Type} (b : block A) (l : list A) : Prop :=
  exists rest, b = (Some <$> l) ++ rest.

(** The position of the first element equal to [x]. *)
Fixpoint index_of {A : Type} (eqb : A -> A -> bool) (x : A) (l : list A) : option nat :=
  match l with
  | [] => None
  | y :: l' => if eqb y x then Some O else S <$> index_of eqb x l'
  end.

(** The contract of the registry in the design document: the list is left
    alone when it has [x], else [x] goes to its end. *)
Definition push_unique {A : Type} (eqb : A -> A -> bool) (l : list A) (x : A) : list A :=
  match index_of eqb x l with
  | Some _ => l
  | None => l ++ [x]
  end.

(** The index that the contract promises for [x]. *)
Definition push_index {A : Type} (eqb : A -> A -> bool) (l : list A) (x : A) : nat :=
  default (length l) (index_of eqb x l).

(** The block of one override chain: it holds the chain and has the least
    power of two of slots. *)
Definition chain_block (b : block Z) (c : list Z) : Prop :=
  holds b c /\ pow2_cap (Z.of_nat (length c)) (Z.of_nat (length b)).

(** [info] stands for the registry [names] and the override chains [chains]:
    the counters are the lengths, the blocks hold the lists, and the blocks
    have the sizes that the growth policy gives them. *)
Record rep_info (info : MergeInfo) (names : list string) (chains : list (list Z)) : Prop :=
  mk_rep_info {
    rep_nclasses : NumberOfClasses info = Z.of_nat (length names);
    rep_names : holds (ClassNames info) names;
    rep_names_cap :
      registry_cap (Z.of_nat (length names)) (Z.of_nat (length (ClassNames info)));
    rep_nfunctions : NumberOfFunctions info = Z.of_nat (length chains);
    rep_counts :
      holds (NumberOfOverrides info) ((fun c => Z.of_nat (length c)) <$> chains);
    rep_counts_cap :
      registry_cap (Z.of_nat (length chains)) (Z.of_nat (length (NumberOfOverrides info)));
    rep_chains :
      exists blocks, holds (OverrideClasses info) blocks /\ Forall2 chain_block blocks chains;
    rep_chains_cap :
      registry_cap (Z.of_nat (length chains)) (Z.of_nat (length (OverrideClasses info)))
  }.

(** [c] stands for the method list [fl]: the counter is its length and the
    pointer array holds it; the array may have more slots. *)
Definition rep_class (c : ClassInfo) (fl : list FunctionInfo) : Prop :=
  Class_NumberOfFunctions c = Z.of_nat (length fl) /\ holds (Functions c) fl.

(** [f2->Name && strcmp (f2->Name, fname) == 0] *)
Definition name_is (f2 : FunctionInfo) (fname : string) : bool :=
  match Name f2 with
  | Some n2 => String.eqb n2 fname
  | None => false
  end.

(** The test under which lines 300-301 run for the entry [f2]. *)
Definition sig_match (f2 func : FunctionInfo) (fname : string) : bool :=
  name_is f2 fname && all_args_match f2 func.

(** An entry of the flattened list and its chain after the loop over [j]. *)
Definition entry_after (func : FunctionInfo) (fname : string) (f2 : FunctionInfo)
  : FunctionInfo :=
  if sig_match f2 func fname then merge_function f2 func else f2.

Definition chain_after (func : FunctionInfo) (fname : string) (depth : Z)
    (f2 : FunctionInfo) (ch : list Z) : list Z :=
  if sig_match f2 func fname then push_unique Z.eqb ch depth else ch.

(** One round of the loop of [vtkParseMerge_Merge] on the flattened list and
    the chains. *)
Definition round_abs (cname : string) (depth : Z) (func : FunctionInfo)
    (st : list FunctionInfo * list (list Z)) : list FunctionInfo * list (list Z) :=
  match Name func with
  | None => st
  | Some fname =>
      if not_inherited fname cname then st
      else if existsb (fun f2 => name_is f2 fname) st.1
      then (entry_after func fname <$> st.1,
            zip_with (chain_after func fname depth) st.1 st.2)
      else (st.1 ++ [copy_function func], st.2 ++ [[depth]])
  end.

(** The state of a merge: [info] and [merge] stand for the registry, the
    flattened list and one chain per flattened method. *)
Definition rep (info : MergeInfo) (merge : ClassInfo) (names : list string)
    (fl : list FunctionInfo) (chains : list (list Z)) : Prop :=
  rep_info info names chains /\ rep_class merge fl /\ length chains = length fl.

(** The class and the array behind [Functions] are what they were. *)
Definition same_frame (merge merge' : ClassInfo) : Prop :=
  ClassName merge' = ClassName merge /\
  SuperClasses merge' = SuperClasses merge /\
  length (Functions merge') = length (Functions merge).

(** The whole loop on lists. *)
Definition Merge_abs (cname : string) (depth : Z) (funcs : list FunctionInfo)
    (st : list FunctionInfo * list (list Z)) : list FunctionInfo * list (list Z) :=
  fold_left (fun st func => round_abs cname depth func st) funcs st.

(** The methods that the loop of [vtkParseMerge_Merge] reads from [super]:
    the first [NumberOfFunctions] slots of its array. *)
Definition methods_of (super : ClassInfo) (sfl : list FunctionInfo) : Prop :=
  holds (Functions super) sfl /\ Z.to_nat (Class_NumberOfFunctions super) = length sfl.

(** The argument type codes of a method, in order. *)
Definition arg_codes (f : FunctionInfo) : list Z :=
  take (Z.to_nat (NumberOfArguments f)) (ArgTypes f).

(** The counter of the arguments is within the array of the type codes. *)
Definition wf_function (f : FunctionInfo) : Prop :=
  0 <= NumberOfArguments f <= Z.of_nat (length (ArgTypes f)).

(** Override equivalence as the design document defines it: the same name and
    the same argument type codes, element-wise and in order. *)
Definition override_equivalent (a b : FunctionInfo) : Prop :=
  exists name, Name a = Some name /\ Name b = Some name /\ arg_codes a = arg_codes b.

(** [vtkParseMerge_PushClass] for each name of [xs], in order. *)
Fixpoint PushClass_all (info : MergeInfo) (xs : list string) : option MergeInfo :=
  match xs with
  | [] => Some info
  | x :: xs' => '(info', _) ← vtkParseMerge_PushClass info x; PushClass_all info' xs'
  end.

(** [vtkParseMerge_PushFunction] for each depth of [ds], in order. *)
Fixpoint PushFunction_all (info : MergeInfo) (ds : list Z) : option MergeInfo :=
  match ds with
  | [] => Some info
  | d :: ds' => '(info', _) ← vtkParseMerge_PushFunction info d; PushFunction_all info' ds'
  end.

(** [vtkParseMerge_PushOverride] on the chain [i] for each depth of [ds]. *)
Fixpoint PushOverride_all (info : MergeInfo) (i : Z) (ds : list Z) : option MergeInfo :=
  match ds with
  | [] => Some info
  | d :: ds' => '(info', _) ← vtkParseMerge_PushOverride info i d; PushOverride_all info' i ds'
  end.

(** [vtkParseMerge_Merge] of each class of [supers], in order, into the same
    MergeInfo and class. *)
Fixpoint Merge_all (info : MergeInfo) (merge : ClassInfo) (supers : list ClassInfo)
  : option (MergeInfo * ClassInfo) :=
  match supers with
  | [] => Some (info, merge)
  | super :: rest =>
      '(info', merge', _) ← vtkParseMerge_Merge info merge super;
      Merge_all info' merge' rest
  end.

(** The MergeInfo has one chain per method of the class, and every chain has
    a count of at least one and a first contributor. *)
Definition lockstep (info : MergeInfo) (merge : ClassInfo) : Prop :=
  NumberOfFunctions info = Class_NumberOfFunctions merge /\
  forall i, 0 <= i < NumberOfFunctions info ->
    exists n chain c0,
      load (NumberOfOverrides info) i = Some n /\ 1 <= n /\
      load (OverrideClasses info) i = Some chain /\ load chain 0 = Some c0.

(** The flattened list after one round and after the whole loop of a merge;
    the chains play no part in it. *)
Definition round_fl (cname : string) (func : FunctionInfo) (fl : list FunctionInfo)
  : list FunctionInfo :=
  match Name func with
  | None => fl
  | Some fname =>
      if not_inherited fname cname then fl
      else if existsb (fun f2 => name_is f2 fname) fl
      then entry_after func fname <$> fl
      else fl ++ [copy_function func]
  end.

Definition Merge_fl (cname : string) (sfl fl : list FunctionInfo) : list FunctionInfo :=
  fold_left (fun fl func => round_fl cname func fl) sfl fl.

(** The number of methods that the merge of an ancestor with the methods
    [sfl] appends to the flattened list [fl]. *)
Definition appended_by (cname : string) (sfl fl : list FunctionInfo) : nat :=
  length (Merge_fl cname sfl fl) - length fl.

(** The method [func], named [fname], of a class registered at [d] is
    covered: some entry of the flattened list has its name, and the chain of
    every entry with its signature has [d]. *)
Definition covered_func (d : Z) (func : FunctionInfo) (fname : string)
    (fl : list FunctionInfo) (chains : list (list Z)) : Prop :=
  (exists f2, f2 ∈ fl /\ Name f2 = Some fname) /\
  forall (j : nat) f2 ch,
    fl !! j = Some f2 -> chains !! j = Some ch ->
    sig_match f2 func fname = true -> d ∈ ch.

(** The class [cname] with the methods [sfl] is registered, and each of its
    methods that a merge does not skip is covered. *)
Definition covered (cname : string) (sfl : list FunctionInfo) (names : list string)
    (fl : list FunctionInfo) (chains : list (list Z)) : Prop :=
  exists d : nat,
    names !! d = Some cname /\
    forall func fname,
      func ∈ sfl -> Name func = Some fname -> not_inherited fname cname = false ->
      covered_func (Z.of_nat d) func fname fl chains.

(** The classes on which the walk that starts at the name [classname] in the
    namespace [data] calls [vtkParseMerge_Merge]: the class that the name
    resolves to, and the classes that the walk visits from the names of its
    bases, in the namespace of that class. *)
Inductive Visits (w : World) (hinfo : option HierarchyInfo) (hintfile : bool)
  : NamespaceInfo -> string -> ClassInfo -> Prop :=
| Visits_here data classname data' cinfo e :
    resolve w data hinfo classname hintfile = Resolved data' (Some cinfo) e ->
    Visits w hinfo hintfile data classname cinfo
| Visits_below data classname data' cinfo e super X :
    resolve w data hinfo classname hintfile = Resolved data' (Some cinfo) e ->
    super ∈ SuperClasses cinfo ->
    Visits w hinfo hintfile data' super X ->
    Visits w hinfo hintfile data classname X.

(** The state of the walk stands for lists in which no name and no
    contributor is repeated. *)
Definition walk_ok (st : walk_state) (names : list string) (fl : list FunctionInfo)
    (chains : list (list Z)) : Prop :=
  rep st.1.1 st.1.2 names fl chains /\ NoDup names /\ Forall NoDup chains.

(** From one state of the walk to a later one: the registry is extended at
    its end and what was covered stays covered. *)
Definition grows (names : list string) (fl : list FunctionInfo) (chains : list (list Z))
    (names' : list string) (fl' : list FunctionInfo) (chains' : list (list Z)) : Prop :=
  names `prefix_of` names' /\
  forall d func fname,
    covered_func d func fname fl chains -> covered_func d func fname fl' chains'.

(** * Data of the examples *)

(** Two distinct argument type codes. *)
Definition INT_CODE : Z := 4.
Definition DOUBLE_CODE : Z := 7.

Definition method (name : string) (args : list Z) (comment : option string) (virt : Z)
  : FunctionInfo :=
  mkFunctionInfo (Some name) (Z.of_nat (length args)) args ((fun _ => None) <$> args)
    None comment None virt.

(** A class whose array of methods has [spare] free slots. *)
Definition class_of (name : string) (supers : list string) (methods : list FunctionInfo)
    (spare : nat) : ClassInfo :=
  mkClassInfo name supers (Z.of_nat (length methods))
    ((Some <$> methods) ++ replicate spare None).

(** [B] redeclares [Foo(int)] of its base [A] without a comment. *)
Definition ex_A : ClassInfo :=
  class_of "A" []
    [method "Foo" [INT_CODE] (Some "original") 1;
     method "A" [] None 0; method "~A" [] None 0;
     method "Bar" [] None 0] 0.

Definition ex_B_methods : list FunctionInfo := [method "Foo" [INT_CODE] None 0].

Definition ex_B : ClassInfo := class_of "B" ["A"] ex_B_methods 3.

(** The MergeInfo of [B] when the merge of [A] has registered [A]. *)
Definition ex_info : MergeInfo :=
  mkMergeInfo 2 [Some "B"; Some "A"; None; None] 1
    [Some 1; None; None; None] [Some [Some 0]; None; None; None].

(** The root declares [Foo(double)], its base declares [Foo(int)]. *)
Definition ex_B_double : ClassInfo :=
  class_of "B" ["A"] [method "Foo" [DOUBLE_CODE] None 0] 3.

Definition ex_A_int : ClassInfo := class_of "A" [] [method "Foo" [INT_CODE] None 0] 0.

(** [A] declares only the method [Bar]. *)
Definition ex_A_bar : ClassInfo := class_of "A" [] [method "Bar" [] None 0] 0.


Definition ex_B_ctor : ClassInfo := class_of "B" ["A"] [method "B" [] None 0] 3.

(** The MergeInfo of a class with one method, and the ten names pushed in
    the example of the growth. *)
Definition ex_one_method : ClassInfo := class_of "B" [] [method "Foo" [] None 0] 0.

Definition ex_names : list string :=
  ["c1"; "c2"; "c3"; "c4"; "c5"; "c6"; "c7"; "c8"; "c9"; "c10"; "c11"; "c12"; "c13";
   "c14"; "c15"; "c16"; "c17"].

(** [B] with no free slot behind its one method. *)
Definition ex_B_full : ClassInfo := class_of "B" ["A"] ex_B_methods 0.

(** The options of a run without and with a hierarchy file. *)
Definition ex_options_no_index : OptionInfo :=
  mkOptionInfo (Some "B.h") (Some "B.xml") 0 0 0 0 None None.

Definition ex_options : OptionInfo :=
  mkOptionInfo (Some "B.h") (Some "B.xml") 0 0 0 0 (Some "hierarchy.txt") None.

(** A world in which the index knows no class and no file can be found. *)
Definition ex_world_empty : World :=
  mkWorld (fun _ => Some []) (fun _ _ => None) (fun _ => None) (fun _ => false)
    (fun _ => (None, [])) (fun finfo => (finfo, [])).

(** A world in which the index sends every class to the header vtkObject.h,
    the header is found and opens, and the parser fails without a word. *)
Definition ex_world_parse_fails : World :=
  mkWorld (fun _ => Some []) (fun _ _ => Some (mkHierarchyEntry "vtkObject.h"))
    (fun _ => Some "/usr/include/vtk/vtkObject.h") (fun _ => true)
    (fun _ => (None, [])) (fun finfo => (finfo, [])).

(** The header of [B] declares [B] and its base [A]; or [B] alone. *)
Definition ex_data : NamespaceInfo := mkNamespaceInfo [ex_B; ex_A].

Definition ex_data_B : NamespaceInfo := mkNamespaceInfo [ex_B].

(** The diamond: [D] has the bases [B] and [C], and both have the base [A]. *)
Definition ex_diamond_A : ClassInfo :=
  class_of "A" []
    [method "Foo" [INT_CODE] (Some "original") 1; method "A" [] None 0;
     method "Bar" [] None 0] 0.

Definition ex_diamond_B : ClassInfo := class_of "B" ["A"] [method "Foo" [INT_CODE] None 0] 0.

Definition ex_diamond_C : ClassInfo := class_of "C" ["A"] [method "Baz" [DOUBLE_CODE] None 0] 0.

Definition ex_diamond_D_methods : list FunctionInfo := [method "D" [] None 0].

Definition ex_diamond_D : ClassInfo := class_of "D" ["B"; "C"] ex_diamond_D_methods 8.

Definition ex_diamond : NamespaceInfo :=
  mkNamespaceInfo [ex_diamond_D; ex_diamond_B; ex_diamond_C; ex_diamond_A].

(** The MergeInfo and the class that the walk over the diamond returns. *)
Definition ex_diamond_info : MergeInfo :=
  mkMergeInfo 4 [Some "D"; Some "B"; Some "A"; Some "C"] 4
    [Some 1; Some 2; Some 1; Some 1]
    [Some [Some 0]; Some [Some 1; Some 2]; Some [Some 2]; Some [Some 3]].

Definition ex_diamond_merged : ClassInfo :=
  class_of "D" ["B"; "C"]
    [method "D" [] None 0; method "Foo" [INT_CODE] (Some "original") 1;
     method "Bar" [] None 0; method "Baz" [DOUBLE_CODE] None 0] 5.

(** ** Diagnostics *)





(** ** The methods that a merge merges into an entry *)

(** The test under which a merge of the class [cname] runs lines 300-301 for
    the entry [f2] and the method [func] of the class: the method has a name,
    is not skipped as the constructor or the destructor, and the entry has
    its name and its argument types. *)
Definition merged_with (cname : string) (f2 func : FunctionInfo) : bool :=
  match Name func with
  | Some fname => negb (not_inherited fname cname) && sig_match f2 func fname
  | None => false
  end.

(** The methods of the class [cname] that a merge merges into the entry
    [f2], in the order of the class. *)
Definition equivalents (cname : string) (f2 : FunctionInfo) (sfl : list FunctionInfo)
  : list FunctionInfo :=
  List.filter (merged_with cname f2) sfl.

(** The first comment that the methods have. *)
Definition first_comment (l : list FunctionInfo) : option string := head (omap Comment l).

(** The MergeInfo of [B] as [vtkParseMerge_CreateMergeInfo] returns it. *)
Definition ex_info_B : MergeInfo :=
  mkMergeInfo 1 [Some "B"; None; None; None] 1
    [Some 1; None; None; None] [Some [Some 0]; None; None; None].

(** [A] declares the overloads [Foo(int)] and [Bar()]; [B] declares
    [Foo(double)]. *)
Definition ex_A_int_bar : ClassInfo :=
  class_of "A" [] [method "Foo" [INT_CODE] None 0; method "Bar" [] None 0] 0.

(** [A] declares the overloads [Foo(int)] and [Foo(double)]. *)
Definition ex_A_overloads : ClassInfo :=
  class_of "A" []
    [method "Foo" [INT_CODE] None 0; method "Foo" [DOUBLE_CODE] None 0] 0.

(** ** Command lines *)

(** The arguments that [check_options] passes over without a complaint: each
    word starts with ['-'], and a word that takes a value is followed by a
    value that does not. *)
Inductive option_words : list string -> Prop :=
| option_words_nil : option_words []
| option_words_flag a ws :
    starts_with_dash a = true -> takes_value a = false ->
    option_words ws -> option_words (a :: ws)
| option_words_value a v ws :
    takes_value a = true -> starts_with_dash v = false ->
    option_words ws -> option_words (a :: v :: ws).

(** No character of the string is a separator of directories, is a dot. *)
Definition no_separator (s : string) : bool :=
  forallb (fun c => negb (is_separator c)) (list_ascii_of_string s).

Definition no_dot (s : string) : bool :=
  forallb (fun c => negb (Ascii.eqb c "."%char)) (list_ascii_of_string s).

(** A world in which every file opens and the parser returns a file without
    classes; [atoi] is right on the texts ["0"] and ["1"]. *)
Definition ex_main_world : MainWorld :=
  mkMainWorld (fun _ => true) (fun text => if String.eqb text "1" then 1 else 0)
    (fun _ _ => (Some (mkFileInfo (mkNamespaceInfo [])), [])) (fun _ data => (data, [])).

(** ** The text that the writer produces *)

(** The escape code of a character, and nothing for a character that is
    neither printed nor a space. *)
Definition escape_char (ct : ctype) (c : ascii) : string :=
  if Ascii.eqb c "<" then "&lt;"
  else if Ascii.eqb c ">" then "&gt;"
  else if Ascii.eqb c "&" then "&amp;"
  else if Ascii.eqb c "034" then "&quot;"
  else if Ascii.eqb c "'" then "&apos;"
  else if isprint ct c || isspace ct c then String c EmptyString
  else EmptyString.

(** The string with every special character converted into its escape
    code. *)
Fixpoint escape (ct : ctype) (s : string) : string :=
  match s with
  | EmptyString => EmptyString
  | String c rest => escape_char ct c ++ escape ct rest
  end.

(** The characters that end or start a tag or an attribute value. *)
Definition is_markup (c : ascii) : bool :=
  Ascii.eqb c "<" || Ascii.eqb c ">" || Ascii.eqb c "034" || Ascii.eqb c "'".

(** No character of the string is one of them. *)
Definition no_markup (s : string) : bool :=
  forallb (fun c => negb (is_markup c)) (list_ascii_of_string s).

(** The string is the value of a C string: it has no NUL. *)
Definition c_text (s : string) : bool :=
  forallb (fun c => negb (Ascii.eqb c zero)) (list_ascii_of_string s).

(** The static variables of [vtkWrapXML_Quote] at some point of a run: no
    buffer before the first call, and then a buffer of [oldmaxlen + 1]
    bytes. *)
Definition Quote_static_ok (st : Quote_static) : Prop :=
  match result st with
  | None => oldmaxlen st = 0
  | Some buffer => 0 < oldmaxlen st /\ Z.of_nat (length buffer) = oldmaxlen st + 1
  end.

(** The static variables when the program starts. *)
Definition Quote_static_initial : Quote_static := mk_Quote_static None 0.

(** The functions of <ctype.h> on the characters of ASCII in the locale "C". *)
Definition ex_ctype : ctype :=
  mk_ctype (fun c => (32 <=? nat_of_ascii c)%nat && (nat_of_ascii c <=? 126)%nat)
    (fun c => Ascii.eqb c " " || ((9 <=? nat_of_ascii c)%nat && (nat_of_ascii c <=? 13)%nat)).

(** A text of 123 characters ['<']: its escape codes take 492 characters. *)
Definition ex_angles : string := string_of_list_ascii (replicate 123 "<"%char).

(** A line of a text: it has no NUL and no newline. *)
Definition line_text (line : string) : bool :=
  forallb (fun c => negb (Ascii.eqb c zero) && negb (Ascii.eqb c "010"))
    (list_ascii_of_string line).

(** The lines, each followed by a newline. *)
Definition join_lines (lines : list string) : string :=
  fold_right (fun line text => (line ++ String "010" text)%string) EmptyString lines.

(** A line without the blanks, tabs and carriage returns at its end. *)
Definition strip_line (line : string) : string :=
  String.substring 0 (strip_blanks line (String.length line)) line.

(** What [vtkWrapXML_MultiLineText] writes for a line: the indentation and the
    quoted line without the blanks at its end, or nothing for a line of
    blanks; and the newline. *)
Definition print_line (ct : ctype) (spaces line : string) : string :=
  if (0 <? strip_blanks line (String.length line))%nat
  then (spaces ++ escape ct (strip_line line) ++ String "010" EmptyString)%string
  else String "010" EmptyString.

Definition print_lines (ct : ctype) (spaces : string) (lines : list string) : string :=
  fold_right (fun line text => (print_line ct spaces line ++ text)%string) EmptyString lines.

(** A line that [vtkWrapXML_MultiLineText] writes whole: at most 200
    characters, and its quoted form below the 495 characters at which
    [vtkWrapXML_Quote] cuts. *)
Definition short_line (ct : ctype) (line : string) : Prop :=
  line_text line = true /\ (String.length line <= 200)%nat /\
  (String.length (escape ct (strip_line line)) < 495)%nat.

(** Three lines of a comment: blanks at the end of the first, an empty
    second line, markup in the third. *)
Definition ex_lines : list string := ["A class for   "; ""; "  a < b "].

(** The state of the writer at the indentation level 1, nothing written. *)
Definition ex_state : wrapxml_state_t := mk_wrapxml_state "" 1 0.

(** A line of 200 characters. *)
Definition ex_long_line : string := string_of_list_ascii (replicate 200 "a"%char).

(** The double quote as a string. *)
Definition dquote : string := String "034" EmptyString.

(** The text that closes a tag that is not closed. *)
Definition closing (w : wrapxml_state_t) : string :=
  if unclosed w =? 0 then EmptyString else (">" ++ newline)%string.

(** An attribute and its quoted value. *)
Definition attribute_text (ct : ctype) (name value : string) : string :=
  (" " ++ name ++ "=" ++ dquote ++ escape ct value ++ dquote)%string.

(** The element of one class in the resolution order. *)
Definition context_element (ct : ctype) (spaces name : string) : string :=
  (spaces ++ "<Context" ++ attribute_text ct "name" name
     ++ attribute_text ct "access" "public" ++ " />" ++ newline)%string.

Definition context_elements (ct : ctype) (spaces : string) (names : list string) : string :=
  fold_right (fun name text => (context_element ct spaces name ++ text)%string)
    EmptyString names.

(** A string that [vtkWrapXML_Quote] quotes whole for an attribute. *)
Definition short_value (ct : ctype) (value : string) : Prop :=
  c_text value = true /\ (String.length (escape ct value) < 495)%nat.

(** ** States of the merge *)

(** What a merge leaves of an entry [f] of the flattened list in the entry
    [f'] at its position: everything but a comment that was missing and a
    virtual flag that was not set. *)
Definition entry_kept (f f' : FunctionInfo) : Prop :=
  Name f' = Name f /\ NumberOfArguments f' = NumberOfArguments f /\
  ArgTypes f' = ArgTypes f /\ ArgClasses f' = ArgClasses f /\
  ReturnClass f' = ReturnClass f /\ Signature f' = Signature f /\
  (forall c, Comment f = Some c -> Comment f' = Some c) /\
  (IsVirtual f <> 0 -> IsVirtual f' <> 0).

(** From one state of the merge to a later one: the registry, the flattened
    list and every chain are extended at their end. *)
Definition extends (names : list string) (fl : list FunctionInfo) (chains : list (list Z))
    (names' : list string) (fl' : list FunctionInfo) (chains' : list (list Z)) : Prop :=
  names `prefix_of` names' /\
  (forall (j : nat) f, fl !! j = Some f -> exists f', fl' !! j = Some f' /\ entry_kept f f') /\
  (forall (j : nat) ch,
     chains !! j = Some ch -> exists ch', chains' !! j = Some ch' /\ ch `prefix_of` ch').

(** Every contributor of every chain is an index of the registry. *)
Definition chains_in_registry (names : list string) (chains : list (list Z)) : Prop :=
  Forall (Forall (fun d => 0 <= d < Z.of_nat (length names))) chains.

(** The virtual flag of the method is 0 or 1, as the parser sets it. *)
Definition flag_01 (f : FunctionInfo) : Prop := IsVirtual f = 0 \/ IsVirtual f = 1.

(** The method [func], named [fname], is absorbed: merging it again into an
    entry with its signature changes nothing. *)
Definition absorbed (func : FunctionInfo) (fname : string) (fl : list FunctionInfo) : Prop :=
  forall f2, f2 ∈ fl -> sig_match f2 func fname = true -> merge_function f2 func = f2.

(** The class [cname] with the methods [sfl] was merged: it is registered, at
    the index [d], and each of its methods that a merge does not skip is
    covered and absorbed. *)
Definition settled (cname : string) (sfl : list FunctionInfo) (d : nat)
    (names : list string) (fl : list FunctionInfo) (chains : list (list Z)) : Prop :=
  index_of String.eqb cname names = Some d /\
  forall func fname,
    func ∈ sfl -> Name func = Some fname -> not_inherited fname cname = false ->
    covered_func (Z.of_nat d) func fname fl chains /\ absorbed func fname fl.

(** The methods of the class [ex_A]. *)
Definition ex_A_methods : list FunctionInfo :=
  [method "Foo" [INT_CODE] (Some "original") 1;
   method "A" [] None 0; method "~A" [] None 0;
   method "Bar" [] None 0].

(** The names of the classes on which the walk that starts at the name
    [classname] calls [vtkParseMerge_Merge], in the order of the calls: the
    class itself, then what the walks from its bases visit, the bases from
    left to right. *)
Fixpoint visit_order (fuel : nat) (w : World) (data : NamespaceInfo)
    (hinfo : option HierarchyInfo) (classname : string) (hintfile : bool) : list string :=
  match fuel with
  | O => []
  | S fuel' =>
      match resolve w data hinfo classname hintfile with
      | Resolved data' (Some cinfo) _ =>
          ClassName cinfo ::
          concat ((fun super => visit_order fuel' w data' hinfo super hintfile)
                    <$> SuperClasses cinfo)
      | _ => []
      end
  end.

(** The registry after the classes of [visited] were registered in turn. *)
Definition register_all (names visited : list string) : list string :=
  fold_left (push_unique String.eqb) visited names.

(** Decide the comparisons of the source whose outcome follows from the
    hypotheses. *)
Ltac zbool :=
  repeat first
    [ rewrite (proj2 (Z.ltb_lt _ _)) by lia
    | rewrite (proj2 (Z.ltb_ge _ _)) by lia
    | rewrite (proj2 (Z.leb_le _ _)) by lia
    | rewrite (proj2 (Z.leb_gt _ _)) by lia
    | rewrite (proj2 (Z.eqb_eq _ _)) by lia
    | rewrite (proj2 (Z.eqb_neq _ _)) by lia ].

(** * Properties *)

(** ** Powers of two and the growth test [(n & (n-1)) == 0] *)

Lemma land_pow2_pred (k : Z) : 0 <= k -> Z.land (2 ^ k) (2 ^ k - 1) = 0.
Proof.
  intros Hk. replace (2 ^ k - 1) with (Z.ones k) by (rewrite Z.ones_equiv; lia).
  rewrite Z.land_ones by lia. apply Z.mod_same. 
  pose proof (Z.pow_pos_nonneg 2 k); lia.
Qed.

Lemma testbit_top (k n : Z) : 0 <= k -> 2 ^ k <= n < 2 ^ (k + 1) -> Z.testbit n k = true.
Proof.
  intros Hk Hn. 
  rewrite Z.testbit_true by lia.
  assert (H2: 0 < 2 ^ k) by (apply Z.pow_pos_nonneg; lia).
  replace (n `div` 2 ^ k) with 1; [reflexivity|].
  apply Z.div_unique with (r := n - 2 ^ k); [|lia].
  left. rewrite Z.pow_add_r in Hn by lia. change (2 ^ 1) with 2 in Hn. lia.
Qed.

Lemma land_between_pow2 (k n : Z) :
  0 <= k -> 2 ^ k < n < 2 ^ (k + 1) -> Z.land n (n - 1) <> 0.
Proof.
  intros Hk Hn Hz.
  assert (Hb : Z.testbit (Z.land n (n - 1)) k = true).
  { rewrite Z.land_spec, !testbit_top by lia. reflexivity. }
  rewrite Hz, Z.bits_0 in Hb. discriminate.
Qed.

Lemma shiftl_1 (n : Z) : Z.shiftl n 1 = 2 * n.
Proof. rewrite Z.shiftl_mul_pow2 by lia. lia. Qed.

(** The arithmetic of the pushes stays within a 32-bit [int] as long as an
    array has fewer than [2 ^ 30] elements. *)
Lemma slots_fit_int (n : Z) :
  0 <= n < 2 ^ 30 ->
  0 <= PushClass_slots n <= INT_MAX /\
  0 <= PushFunction_slots n <= INT_MAX /\
  0 <= Z.shiftl n 1 <= INT_MAX /\
  n + 1 <= INT_MAX.
Proof.
  intros Hn. unfold PushClass_slots, PushFunction_slots, INT_MAX.
  rewrite shiftl_1. change (2 ^ 30) with 1073741824 in Hn.
  change (2 ^ 31 - 1) with 2147483647.
  destruct (n =? 0), ((4 <=? n) && (Z.land n (n - 1) =? 0)); lia.
Qed.

Lemma pow2_cap_pos n c : pow2_cap n c -> 1 <= n.
Proof. intros (k & ? & ? & ? & ?). lia. Qed.

Lemma pow2_cap_test n c : pow2_cap n c -> (Z.land n (n - 1) = 0 <-> n = c).
Proof.
  intros (k & Hk & -> & Hle & Hlt). split.
  - intros Hz. destruct (Z.eq_dec n (2 ^ k)) as [|Hne]; [done|]. exfalso.
    assert (k <> 0) by (intros ->; change (2 ^ 0) with 1 in *; lia).
    apply (land_between_pow2 (k - 1) n); [lia| |done].
    replace (k - 1 + 1) with k by lia.
    replace (2 ^ k) with (2 * 2 ^ (k - 1)) in *; [lia|].
    rewrite <- Z.pow_succ_r by lia. f_equal. lia.
  - intros ->. by apply land_pow2_pred.
Qed.

Lemma pow2_cap_same n c : pow2_cap n c -> n < c -> pow2_cap (n + 1) c.
Proof. intros (k & ? & ? & ? & ?) ?. exists k. lia. Qed.

Lemma pow2_cap_double n : pow2_cap n n -> pow2_cap (n + 1) (2 * n).
Proof.
  intros (k & ? & Hn & ? & ?). exists (k + 1). 
  rewrite Z.pow_add_r by lia. change (2 ^ 1) with 2. lia.
Qed.

Lemma pow2_cap_1 : pow2_cap 1 1.
Proof. exists 0. change (2 ^ 0) with 1. lia. Qed.

Lemma pow2_cap_4 : pow2_cap 4 4.
Proof. exists 2. change (2 ^ 2) with 4. lia. Qed.

Lemma PushFunction_slots_eq n : 0 <= n -> PushFunction_slots n = PushClass_slots n.
Proof.
  intros Hn. unfold PushFunction_slots, PushClass_slots.
  destruct (n =? 0) eqn:E; [|done].
  apply Z.eqb_eq in E as ->. reflexivity.
Qed.

(** What the growth policy does at size [n] with [c] slots: either no new
    block and a free slot, or a new block of [m > n] slots. *)
Lemma PushClass_slots_spec n c :
  0 <= n -> registry_cap n c ->
  (PushClass_slots n = 0 /\ 0 < n < c /\ registry_cap (n + 1) c) \/
  (PushClass_slots n <> 0 /\ n < PushClass_slots n /\
   (n = 0 \/ n = c) /\ registry_cap (n + 1) (PushClass_slots n)).
Proof.
  intros Hn Hcap. unfold PushClass_slots, registry_cap in *.
  destruct (Z.eqb_spec n 0) as [->|Hn0].
  { right. simpl. split; [lia|]. split; [lia|]. split; [lia|]. right; left. lia. }
  destruct Hcap as [?|[[Hr ->]|[Hr Hp]]]; [lia| |].
  - destruct (Z.eq_dec n 4) as [->|].
    + right. change (Z.shiftl 4 1) with 8. simpl. split; [lia|]. split; [lia|].
      split; [lia|]. right; right. split; [lia|].
      apply (pow2_cap_double 4 pow2_cap_4).
    + left. replace (4 <=? n) with false by lia. simpl.
      split; [lia|]. split; [lia|]. right; left. lia.
  - replace (4 <=? n) with true by lia. simpl.
    pose proof (pow2_cap_test _ _ Hp) as Ht.
    destruct (Z.eqb_spec (Z.land n (n - 1)) 0) as [Hz|Hz].
    + apply Ht in Hz as <-. right. rewrite shiftl_1.
      split; [lia|]. split; [lia|]. split; [lia|].
      right; right. split; [lia|]. by apply pow2_cap_double.
    + left. assert (n <> c) by (intros ?; apply Hz, Ht; done).
      destruct Hp as (k & ? & ? & ? & ?).
      split; [lia|]. split; [lia|]. right; right. split; [lia|]. exists k. lia.
Qed.

(** ** Blocks that hold a list *)

Section blocks.
Context {A : Type}.
Implicit Types (b : block A) (l : list A).

Lemma holds_nil b : holds b [].
Proof. by exists b. Qed.

Lemma holds_length b l : holds b l -> (length l <= length b)%nat.
Proof. intros [rest ->]. rewrite length_app, length_fmap. lia. Qed.

Lemma holds_lookup b l (i : nat) x : holds b l -> l !! i = Some x -> b !! i = Some (Some x).
Proof.
  intros [rest ->] Hi. rewrite lookup_app_l.
  - by rewrite list_lookup_fmap, Hi.
  - rewrite length_fmap. by eapply lookup_lt_Some.
Qed.

Lemma holds_load b l (i : nat) x : holds b l -> l !! i = Some x -> load b (Z.of_nat i) = Some x.
Proof.
  intros Hb Hi. unfold load. zbool.
  rewrite Nat2Z.id. by rewrite (holds_lookup _ _ _ _ Hb Hi).
Qed.

Lemma holds_load_Z b l (i : Z) :
  holds b l -> 0 <= i < Z.of_nat (length l) ->
  exists x, l !! Z.to_nat i = Some x /\ load b i = Some x.
Proof.
  intros Hb Hi. destruct (lookup_lt_is_Some_2 l (Z.to_nat i)) as [x Hx]; [lia|].
  exists x. split; [done|]. rewrite <- (Z2Nat.id i) by lia. by eapply holds_load.
Qed.

Lemma holds_store_end b l v :
  holds b l -> (length l < length b)%nat ->
  exists b', store b (Z.of_nat (length l)) v = Some b' /\
             holds b' (l ++ [v]) /\ length b' = length b.
Proof.
  intros [rest ->] Hlen. rewrite length_app, length_fmap in Hlen.
  destruct rest as [|r rest]; [simpl in Hlen; lia|].
  unfold store. rewrite length_app, length_fmap. simpl length.
  zbool.
  simpl. eexists. split; [done|]. rewrite Nat2Z.id. split.
  - exists rest. rewrite fmap_app. simpl. rewrite <- app_assoc. simpl.
    rewrite insert_app_r_alt by (by rewrite length_fmap).
    rewrite length_fmap, Nat.sub_diag. reflexivity.
  - rewrite length_insert, length_app, length_fmap. reflexivity.
Qed.

Lemma store_outside b (i : Z) v : Z.of_nat (length b) <= i -> store b i v = None.
Proof.
  intros Hi. unfold store. zbool.
  by rewrite andb_false_r.
Qed.

Lemma holds_store_at b l (i : nat) v :
  holds b l -> (i < length l)%nat ->
  exists b', store b (Z.of_nat i) v = Some b' /\
             holds b' (<[i := v]> l) /\ length b' = length b.
Proof.
  intros [rest ->] Hlen.
  unfold store. rewrite length_app, length_fmap.
  zbool.
  simpl. eexists. split; [done|]. rewrite Nat2Z.id. split.
  - exists rest. rewrite insert_app_l by (by rewrite length_fmap).
    by rewrite list_fmap_insert.
  - rewrite length_insert, length_app, length_fmap. reflexivity.
Qed.

(** The copy loop, started after [length pre] elements were copied. *)
Lemma copy_block_spec b pre l (k : nat) :
  holds b (pre ++ l) ->
  (length l <= k)%nat ->
  copy_block b ((Some <$> pre) ++ replicate k None) (Z.of_nat (length pre)) (length l)
  = Some ((Some <$> (pre ++ l)) ++ replicate (k - length l) None).
Proof.
  revert pre k. induction l as [|x l IH]; intros pre k Hb Hk.
  - simpl. by rewrite app_nil_r, Nat.sub_0_r.
  - simpl. rewrite (holds_load b (pre ++ x :: l) (length pre) x Hb).
    2:{ by rewrite lookup_app_r, Nat.sub_diag by lia. }
    simpl. destruct k as [|k]; [simpl in Hk; lia|].
    edestruct (holds_store_end ((Some <$> pre) ++ replicate (S k) None) pre x)
      as (b' & Hst & Hb' & _).
    { by eexists. } { rewrite length_app, length_fmap, length_replicate. lia. }
    rewrite Hst. simpl.
    assert (b' = (Some <$> (pre ++ [x])) ++ replicate k None) as ->.
    { unfold store in Hst. case_match; [|done]. injection Hst as <-.
      rewrite Nat2Z.id.
      rewrite insert_app_r_alt by (by rewrite length_fmap).
      rewrite length_fmap, Nat.sub_diag. simpl. rewrite fmap_app. simpl.
      by rewrite <- app_assoc. }
    replace (Z.of_nat (length pre) + 1) with (Z.of_nat (length (pre ++ [x])))
      by (rewrite length_app; simpl; lia).
    rewrite IH.
    + rewrite <- app_assoc. simpl. done.
    + by rewrite <- app_assoc.
    + simpl in Hk. lia.
Qed.

Lemma regrow_spec b l (m : Z) :
  holds b l -> Z.of_nat (length l) < m ->
  exists b', regrow b (Z.of_nat (length l)) m = Some b' /\
             holds b' l /\ Z.of_nat (length b') = m.
Proof.
  intros Hb Hm. unfold regrow. zbool.
  destruct (Z.eqb_spec (Z.of_nat (length l)) 0) as [Hz|Hz].
  - destruct l; [|simpl in Hz; lia]. eexists. split; [done|]. split; [apply holds_nil|].
    unfold malloc. rewrite length_replicate. lia.
  - rewrite Nat2Z.id. unfold malloc.
    pose proof (copy_block_spec b [] l (Z.to_nat m)) as Hc. simpl in Hc.
    change (Z.of_nat 0) with 0 in Hc.
    rewrite Hc by (done || lia). eexists. split; [done|]. split; [by eexists|].
    rewrite length_app, length_fmap, length_replicate. lia.
Qed.

End blocks.

(** ** The registry seen as a list *)

Section index_of.
Context {A : Type} (eqb : A -> A -> bool).
Hypothesis eqb_eq : forall a b, eqb a b = true <-> a = b.
Implicit Types (l : list A) (x : A).

Lemma index_of_Some l x i :
  index_of eqb x l = Some i ->
  l !! i = Some x /\ forall j y, (j < i)%nat -> l !! j = Some y -> y <> x.
Proof.
  revert i. induction l as [|y l IH]; intros i; simpl; [done|].
  destruct (eqb y x) eqn:E.
  - intros [= <-]. apply eqb_eq in E as ->. split; [done|]. lia.
  - destruct (index_of eqb x l) as [i'|]; [|done]. simpl. intros [= <-].
    destruct (IH i' eq_refl) as [H1 H2]. split; [done|].
    intros [|j] z Hj; simpl.
    + intros [= ->] ->.
      assert (eqb x x = true) by (by apply eqb_eq). congruence.
    + apply H2. lia.
Qed.

Lemma index_of_None l x : index_of eqb x l = None <-> x ∉ l.
Proof.
  induction l as [|y l IH]; simpl.
  - split; [intros _; apply not_elem_of_nil|done].
  - destruct (eqb y x) eqn:E.
    + apply eqb_eq in E as ->. split; [done|]. intros []. apply elem_of_cons. by left.
    + rewrite not_elem_of_cons, <- IH.
      destruct (index_of eqb x l); simpl; split; try done.
      * by intros [_ ?].
      * intros _. split; [|done]. intros ->.
        assert (eqb y y = true) by (by apply eqb_eq). congruence.
Qed.

Lemma index_of_is_Some l x : is_Some (index_of eqb x l) <-> x ∈ l.
Proof.
  destruct (index_of eqb x l) eqn:E.
  - split; [|by eauto]. intros _. apply index_of_Some in E as [E _].
    by eapply list_elem_of_lookup_2.
  - split; [by intros [? ?]|]. intros Hin. by apply index_of_None in E.
Qed.

Lemma index_of_app_new l x :
  index_of eqb x l = None -> index_of eqb x (l ++ [x]) = Some (length l).
Proof.
  induction l as [|y l IH]; simpl.
  - intros _. by rewrite (proj2 (eqb_eq x x) eq_refl).
  - destruct (eqb y x); [done|].
    destruct (index_of eqb x l); [done|]. intros _. by rewrite IH.
Qed.

(** Repeating a key yields the index of the first push. *)
Lemma push_unique_index l x :
  index_of eqb x (push_unique eqb l x) = Some (push_index eqb l x).
Proof.
  unfold push_unique, push_index. destruct (index_of eqb x l) eqn:E; simpl; [done|].
  by apply index_of_app_new.
Qed.

Lemma push_unique_idem l x : push_unique eqb (push_unique eqb l x) x = push_unique eqb l x.
Proof.
  unfold push_unique at 1. by rewrite push_unique_index.
Qed.

Lemma push_unique_prefix l x : l `prefix_of` push_unique eqb l x.
Proof.
  unfold push_unique. destruct (index_of eqb x l); [done|]. by apply prefix_app_r.
Qed.

Lemma push_unique_elem l x : x ∈ push_unique eqb l x.
Proof.
  apply index_of_is_Some. rewrite push_unique_index. by eauto.
Qed.

Lemma push_unique_NoDup l x : NoDup l -> NoDup (push_unique eqb l x).
Proof.
  intros Hnd. unfold push_unique. destruct (index_of eqb x l) eqn:E; [done|].
  apply index_of_None in E. apply NoDup_app. split; [done|]. split.
  - intros y Hy [->|[]%elem_of_nil]%elem_of_cons. done.
  - apply NoDup_singleton.
Qed.

End index_of.

Lemma String_eqb_eq (a b : string) : String.eqb a b = true <-> a = b.
Proof. apply String.eqb_eq. Qed.

(** ** The loops that search *)

Lemma find_classname_spec (b : block string) (pre l : list string) (x : string) :
  holds b (pre ++ l) ->
  find_classname b x (Z.of_nat (length pre)) (length l)
  = Some ((fun k : nat => Z.of_nat (length pre + k)) <$> index_of String.eqb x l).
Proof.
  revert pre. induction l as [|y l IH]; intros pre Hb; simpl; [done|].
  rewrite (holds_load b (pre ++ y :: l) (length pre) y Hb).
  2:{ by rewrite lookup_app_r, Nat.sub_diag by lia. }
  simpl. destruct (String.eqb y x).
  - simpl. do 3 f_equal. lia.
  - replace (Z.of_nat (length pre) + 1) with (Z.of_nat (length (pre ++ [y])))
      by (rewrite length_app; simpl; lia).
    rewrite IH by (by rewrite <- app_assoc).
    f_equal. destruct (index_of String.eqb x l); simpl; [|done].
    f_equal. rewrite length_app. simpl. lia.
Qed.

Lemma find_override_spec (b : block Z) (pre l : list Z) (x : Z) :
  holds b (pre ++ l) ->
  find_override b x (Z.of_nat (length pre)) (length l)
  = Some (bool_decide (is_Some (index_of Z.eqb x l))).
Proof.
  revert pre. induction l as [|y l IH]; intros pre Hb; simpl.
  { reflexivity. }
  rewrite (holds_load b (pre ++ y :: l) (length pre) y Hb).
  2:{ by rewrite lookup_app_r, Nat.sub_diag by lia. }
  simpl. destruct (y =? x).
  - reflexivity.
  - replace (Z.of_nat (length pre) + 1) with (Z.of_nat (length (pre ++ [y])))
      by (rewrite length_app; simpl; lia).
    rewrite IH by (by rewrite <- app_assoc).
    f_equal. apply bool_decide_ext. by rewrite fmap_is_Some.
Qed.

(** ** The three pushes against the lists *)

(** Appending to an array that follows the growth policy of PushClass. *)
Lemma registry_append {A : Type} (b : block A) (l : list A) (v : A) :
  holds b l ->
  registry_cap (Z.of_nat (length l)) (Z.of_nat (length b)) ->
  exists b1 b2,
    regrow b (Z.of_nat (length l)) (PushClass_slots (Z.of_nat (length l))) = Some b1 /\
    store b1 (Z.of_nat (length l)) v = Some b2 /\
    holds b2 (l ++ [v]) /\
    registry_cap (Z.of_nat (length (l ++ [v]))) (Z.of_nat (length b2)) /\
    Z.of_nat (length b2) =
      (if PushClass_slots (Z.of_nat (length l)) =? 0 then Z.of_nat (length b)
       else PushClass_slots (Z.of_nat (length l))).
Proof.
  intros Hb Hcap.
  assert (Hlen : Z.of_nat (length (l ++ [v])) = Z.of_nat (length l) + 1)
    by (rewrite length_app; simpl; lia).
  rewrite Hlen.
  destruct (PushClass_slots_spec _ _ (Nat2Z.is_nonneg (length l)) Hcap)
    as [(Hm & Hn & Hcap')|(Hm & Hn & _ & Hcap')].
  - rewrite Hm. exists b. 
    destruct (holds_store_end b l v Hb) as (b2 & Hst & Hb2 & Hl2); [lia|].
    exists b2. rewrite Hl2. by repeat split.
  - destruct (regrow_spec b l _ Hb Hn) as (b1 & Hrg & Hb1 & Hl1).
    destruct (holds_store_end b1 l v Hb1) as (b2 & Hst & Hb2 & Hl2); [lia|].
    exists b1, b2. rewrite Hl2, Hl1. zbool. by repeat split.
Qed.

(** What is stored stays: a block that holds a longer list holds the values
    of the shorter one at their positions. *)
Lemma holds_prefix_load {A : Type} (b b' : block A) (l l' : list A) (k : Z) (x : A) :
  holds b l -> holds b' l' -> l `prefix_of` l' ->
  0 <= k < Z.of_nat (length l) -> load b k = Some x -> load b' k = Some x.
Proof.
  intros Hb Hb' [t ->] Hk Hload.
  destruct (holds_load_Z b l k Hb Hk) as (y & Hy & Hl). rewrite Hload in Hl.
  injection Hl as <-. rewrite <- (Z2Nat.id k) by lia. eapply holds_load; [done|].
  by apply lookup_app_l_Some.
Qed.

Lemma PushClass_spec info names chains (classname : string) :
  rep_info info names chains ->
  exists info',
    vtkParseMerge_PushClass info classname
      = Some (info', Z.of_nat (push_index String.eqb names classname)) /\
    rep_info info' (push_unique String.eqb names classname) chains /\
    (classname ∈ names -> info' = info).
Proof.
  intros [Hn Hb Hcap Hnf Hc Hccap Hch Hchcap].
  unfold vtkParseMerge_PushClass, push_index, push_unique.
  rewrite Hn, Nat2Z.id.
  pose proof (find_classname_spec (ClassNames info) [] names classname Hb) as Hf.
  simpl in Hf. change (Z.of_nat 0) with 0 in Hf. rewrite Hf. simpl.
  destruct (index_of String.eqb classname names) as [i|] eqn:E; simpl.
  - exists info. repeat split; done.
  - destruct (registry_append _ _ classname Hb Hcap) as (b1 & b2 & -> & Hst & Hb2 & Hcap2 & _).
    simpl. rewrite Hst. simpl. eexists. split; [done|]. split.
    + split; simpl; try done. rewrite length_app. simpl. lia.
    + intros Hin. apply (index_of_None _ String_eqb_eq) in E. done.
Qed.

Lemma PushFunction_spec info names chains (depth : Z) :
  rep_info info names chains ->
  exists info',
    vtkParseMerge_PushFunction info depth = Some (info', Z.of_nat (length chains)) /\
    rep_info info' names (chains ++ [[depth]]) /\
    (forall k c, 0 <= k < Z.of_nat (length chains) ->
       load (OverrideClasses info) k = Some c -> load (OverrideClasses info') k = Some c).
Proof.
  intros [Hn Hb Hcap Hnf Hc Hccap (blocks & Hbl & Hall) Hchcap].
  unfold vtkParseMerge_PushFunction.
  rewrite Hnf, PushFunction_slots_eq by lia.
  assert (Hlc : length ((fun c : list Z => Z.of_nat (length c)) <$> chains) = length chains)
    by apply length_fmap.
  assert (Hlb : length blocks = length chains) by (by eapply Forall2_length).
  rewrite <- Hlc in Hccap.
  destruct (registry_append _ _ 1 Hc Hccap) as (c1 & c2 & Hr1 & Hst1 & Hc2 & Hcap2 & _).
  rewrite <- Hlb in Hchcap.
  destruct (registry_append _ _ [Some depth] Hbl Hchcap) as (t1 & t2 & Hr2 & Hst2 & Ht2 & Hcap3 & _).
  rewrite Hlc in Hr1, Hst1. rewrite Hlb in Hr2, Hst2.
  rewrite Hr1, Hr2. simpl. rewrite Hst1. simpl. 
  change (store (malloc 1) 0 depth) with (Some [Some depth]). simpl.
  rewrite Hst2. simpl. eexists. split; [done|].
  split; [split; simpl; try done|].
  - rewrite length_app; simpl; lia.
  - by rewrite fmap_app.
  - rewrite length_app, length_fmap in Hcap2. by rewrite length_app.
  - exists (blocks ++ [[Some depth]]). split; [done|].
    apply Forall2_app; [done|]. constructor; [|done].
    split; [by exists []|]. apply pow2_cap_1.
  - rewrite length_app, Hlb in Hcap3. by rewrite length_app.
  - simpl. intros k c Hk Hload.
    apply (holds_prefix_load (OverrideClasses info) t2 blocks (blocks ++ [[Some depth]]) k c);
      try done; [by apply prefix_app_r|lia].
Qed.

Lemma PushOverride_spec info names chains (i : nat) (ch : list Z) (depth : Z) :
  rep_info info names chains ->
  chains !! i = Some ch ->
  exists info',
    vtkParseMerge_PushOverride info (Z.of_nat i) depth
      = Some (info', match index_of Z.eqb depth ch with
                     | Some _ => Z.of_nat i
                     | None => Z.of_nat (length ch)
                     end) /\
    rep_info info' names (<[i := push_unique Z.eqb ch depth]> chains) /\
    (depth ∈ ch -> info' = info).
Proof.
  intros [Hn Hb Hcap Hnf Hc Hccap (blocks & Hbl & Hall) Hchcap] Hi.
  unfold vtkParseMerge_PushOverride, push_unique.
  rewrite (holds_load _ _ i (Z.of_nat (length ch)) Hc)
    by (by rewrite list_lookup_fmap, Hi).
  simpl.
  destruct (Forall2_lookup_r _ _ _ _ _ Hall Hi) as (blk & Hblk & Hcb & Hp).
  rewrite (holds_load _ _ i blk Hbl Hblk). simpl. rewrite Nat2Z.id.
  pose proof (find_override_spec blk [] ch depth Hcb) as Hf.
  simpl in Hf. change (Z.of_nat 0) with 0 in Hf. rewrite Hf. simpl.
  destruct (index_of Z.eqb depth ch) as [j|] eqn:E; simpl.
  - exists info. split; [done|]. split; [|done].
    rewrite list_insert_id by done. by split; eauto.
  - assert (Hi' : (i < length chains)%nat) by (by eapply lookup_lt_Some).
    assert (exists blk', 
       (if Z.land (Z.of_nat (length ch)) (Z.of_nat (length ch) - 1) =? 0
        then copy_block blk (malloc (Z.shiftl (Z.of_nat (length ch)) 1)) 0 (length ch)
        else Some blk) ≫= (fun classes => store classes (Z.of_nat (length ch)) depth)
       = Some blk' /\ chain_block blk' (ch ++ [depth])) as (blk' & Hgrow & Hcb').
    { pose proof (pow2_cap_test _ _ Hp) as Ht.
      destruct (Z.eqb_spec (Z.land (Z.of_nat (length ch)) (Z.of_nat (length ch) - 1)) 0) as [Hz|Hz].
      - apply Ht in Hz. rewrite shiftl_1. unfold malloc.
        pose proof (copy_block_spec blk [] ch (Z.to_nat (2 * Z.of_nat (length ch)))) as Hcp.
        simpl in Hcp. change (Z.of_nat 0) with 0 in Hcp. rewrite Hcp by (done || lia).
        simpl.
        edestruct (holds_store_end ((Some <$> ch) ++
           replicate (Z.to_nat (2 * Z.of_nat (length ch)) - length ch) None) ch depth)
          as (b2 & Hst & Hb2 & Hl2).
        { by eexists. }
        { rewrite length_app, length_fmap, length_replicate.
          pose proof (pow2_cap_pos _ _ Hp). lia. }
        exists b2. split; [done|]. split; [done|].
        rewrite Hl2, (length_app (Some <$> ch)), length_fmap, length_replicate.
        replace (Z.of_nat (length (ch ++ [depth]))) with (Z.of_nat (length ch) + 1)
          by (rewrite length_app; simpl; lia).
        replace (Z.of_nat (length ch + (Z.to_nat (2 * Z.of_nat (length ch)) - length ch)))
          with (2 * Z.of_nat (length ch)) by lia.
        apply pow2_cap_double. by rewrite Hz at 2.
      - assert (Z.of_nat (length ch) <> Z.of_nat (length blk)) by (intros ?; by apply Hz, Ht).
        pose proof (holds_length _ _ Hcb). simpl.
        destruct (holds_store_end blk ch depth Hcb) as (b2 & Hst & Hb2 & Hl2); [lia|].
        exists b2. split; [done|]. split; [done|].
        rewrite Hl2.
        replace (Z.of_nat (length (ch ++ [depth]))) with (Z.of_nat (length ch) + 1)
          by (rewrite length_app; simpl; lia).
        apply pow2_cap_same; [done|lia]. }
    destruct (holds_store_at _ _ i (Z.of_nat (length ch) + 1) Hc)
      as (c2 & Hst1 & Hc2 & Hl1); [by rewrite length_fmap|].
    destruct (holds_store_at _ _ i blk' Hbl) as (t2 & Hst2 & Ht2 & Hl2);
      [by erewrite Forall2_length|].
    destruct (if Z.land _ _ =? 0 then _ else _) as [classes|]; [|done].
    simpl in Hgrow. simpl. rewrite Hst1. simpl. rewrite Hgrow. simpl. rewrite Hst2. simpl.
    eexists. split; [done|]. split.
    + split; simpl; try done.
      * by rewrite length_insert.
      * rewrite list_fmap_insert, length_app. simpl.
        by replace (Z.of_nat (length ch + 1)) with (Z.of_nat (length ch) + 1) by lia.
      * by rewrite length_insert, Hl1.
      * exists (<[i := blk']> blocks). split; [done|]. by apply Forall2_insert.
      * by rewrite length_insert, Hl2.
    + intros Hin. by apply (index_of_None _ Z.eqb_eq) in E.
Qed.

(** ** The merge against the merge on lists *)

Lemma insert_middle {A : Type} (l1 l2 : list A) (x y : A) :
  <[length l1 := y]> (l1 ++ x :: l2) = l1 ++ y :: l2.
Proof. rewrite insert_app_r_alt by done. by rewrite Nat.sub_diag. Qed.

Lemma check_overridden_spec func fname depth :
  forall (suf pre : list FunctionInfo) (csuf cpre : list (list Z)) info fns names matched,
    rep_info info names (cpre ++ csuf) ->
    holds fns (pre ++ suf) ->
    length cpre = length pre ->
    length csuf = length suf ->
    exists info' fns',
      check_overridden func fname depth (Z.of_nat (length pre)) (length suf)
        info fns matched
      = Some (info', fns', matched || existsb (fun f2 => name_is f2 fname) suf) /\
      rep_info info' names (cpre ++ zip_with (chain_after func fname depth) suf csuf) /\
      holds fns' (pre ++ (entry_after func fname <$> suf)) /\
      length fns' = length fns.
Proof.
  induction suf as [|f2 suf IH]; intros pre csuf cpre info fns names matched Hinfo Hfns Hlp Hls.
  - destruct csuf; [|done]. simpl. exists info, fns. by rewrite orb_false_r.
  - destruct csuf as [|ch csuf]; [done|]. simpl in Hls. simpl.
    rewrite (holds_load fns (pre ++ f2 :: suf) (length pre) f2 Hfns)
      by (by rewrite lookup_app_r, Nat.sub_diag by lia).
    simpl.
    assert (Hnext : Z.of_nat (length pre) + 1 = Z.of_nat (length (pre ++ [f2])))
      by (rewrite length_app; simpl; lia).
    assert (Hstep : forall info1 fns1 e c m1,
      rep_info info1 names (cpre ++ c :: csuf) ->
      holds fns1 (pre ++ e :: suf) -> length fns1 = length fns ->
      e = entry_after func fname f2 -> c = chain_after func fname depth f2 ch ->
      exists info' fns',
        check_overridden func fname depth (Z.of_nat (length pre) + 1) (length suf)
          info1 fns1 m1
        = Some (info', fns', m1 || existsb (fun f2 => name_is f2 fname) suf) /\
        rep_info info' names
          (cpre ++ chain_after func fname depth f2 ch
                :: zip_with (chain_after func fname depth) suf csuf) /\
        holds fns' (pre ++ entry_after func fname f2 :: (entry_after func fname <$> suf)) /\
        length fns' = length fns).
    { intros info1 fns1 e c m1 Hinfo1 Hfns1 Hl1 -> ->.
      destruct (IH (pre ++ [entry_after func fname f2]) csuf
                  (cpre ++ [chain_after func fname depth f2 ch]) info1 fns1 names m1)
        as (info' & fns' & Hrun & Hinfo' & Hfns' & Hl').
      - by rewrite <- app_assoc.
      - by rewrite <- app_assoc.
      - rewrite !length_app. simpl. lia.
      - lia.
      - exists info', fns'. rewrite <- !app_assoc in *. simpl in *.
        rewrite length_app in Hrun. simpl in Hrun.
        replace (Z.of_nat (length pre + 1)) with (Z.of_nat (length pre) + 1) in Hrun by lia.
        split; [done|]. split; [done|]. split; [done|]. lia. }
    unfold entry_after, chain_after, sig_match, name_is in *.
    destruct (Name f2) as [n2|] eqn:En2; simpl.
    2:{ eapply Hstep; eauto. }
    destruct (String.eqb n2 fname) eqn:En; simpl.
    2:{ eapply Hstep; eauto. }
    rewrite orb_true_r.
    destruct (all_args_match f2 func) eqn:Ea; simpl.
    2:{ destruct (Hstep info fns f2 ch true) as (info' & fns' & Hrun & ?); eauto. }
    destruct (holds_store_at fns (pre ++ f2 :: suf) (length pre) (merge_function f2 func) Hfns)
      as (fns1 & Hst & Hfns1 & Hl1).
    { rewrite length_app. simpl. lia. }
    rewrite insert_middle in Hfns1. rewrite Hst. simpl.
    destruct (PushOverride_spec info names (cpre ++ ch :: csuf) (length pre) ch depth Hinfo)
      as (info1 & Hpo & Hinfo1 & _).
    { by rewrite <- Hlp, list_lookup_middle. }
    rewrite <- Hlp, insert_middle in Hinfo1. rewrite Hpo. simpl.
    destruct (Hstep info1 fns1 (merge_function f2 func) (push_unique Z.eqb ch depth) true)
      as (info' & fns' & Hrun & ?); eauto.
Qed.

Lemma no_name_match func fname depth (fl : list FunctionInfo) (chains : list (list Z)) :
  existsb (fun f2 => name_is f2 fname) fl = false ->
  length chains = length fl ->
  entry_after func fname <$> fl = fl /\
  zip_with (chain_after func fname depth) fl chains = chains.
Proof.
  revert chains. induction fl as [|f2 fl IH]; intros [|ch chains] Hex Hlen; try done.
  simpl in Hex, Hlen. apply orb_false_elim in Hex as [Hn Hex].
  destruct (IH chains Hex) as [H1 H2]; [lia|].
  rewrite fmap_cons, H1. cbn [zip_with]. rewrite H2.
  unfold entry_after, chain_after, sig_match. by rewrite Hn.
Qed.

Lemma same_frame_trans m1 m2 m3 : same_frame m1 m2 -> same_frame m2 m3 -> same_frame m1 m3.
Proof. intros (? & ? & ?) (? & ? & ?). repeat split; congruence. Qed.

Lemma round_abs_length cname depth func st :
  length st.2 = length st.1 ->
  (length st.1 <= length (round_abs cname depth func st).1)%nat /\
  length (round_abs cname depth func st).2 = length (round_abs cname depth func st).1.
Proof.
  intros Hl. unfold round_abs. destruct (Name func); [|lia].
  destruct (not_inherited _ _); [lia|].
  destruct (existsb _ _); simpl.
  - rewrite length_fmap, length_zip_with. lia.
  - rewrite !length_app. simpl. lia.
Qed.

(** One round of the loop against the round on lists: the round returns
    exactly when the flattened list still fits the array of [merge]. *)
Lemma Merge_round_sim super depth (i : Z) func info merge names fl chains :
  rep info merge names fl chains ->
  load (Functions super) i = Some func ->
  let st' := round_abs (ClassName super) depth func (fl, chains) in
  if decide (length st'.1 <= length (Functions merge))%nat then
    exists info' merge',
      Merge_round super depth i info merge = Some (info', merge') /\
      rep info' merge' names st'.1 st'.2 /\ same_frame merge merge'
  else Merge_round super depth i info merge = None.
Proof.
  intros (Hinfo & [Hm Hfns] & Hlen) Hload. unfold Merge_round, round_abs. rewrite Hload.
  simpl. pose proof (holds_length _ _ Hfns) as Hcap.
  destruct (Name func) as [fname|]; simpl.
  2:{ rewrite decide_True by done. exists info, merge. split; [done|].
      split; [|done]. split; [done|]. by split. }
  destruct (not_inherited fname (ClassName super)); simpl.
  { rewrite decide_True by done. exists info, merge. split; [done|].
    split; [|done]. split; [done|]. by split. }
  destruct (check_overridden_spec func fname depth fl [] chains [] info (Functions merge)
              names false Hinfo Hfns eq_refl Hlen)
    as (info1 & fns1 & Hrun & Hinfo1 & Hfns1 & Hl1).
  simpl in Hrun, Hinfo1, Hfns1. change (Z.of_nat 0) with 0 in Hrun.
  rewrite Hm, Nat2Z.id, Hrun. simpl.
  destruct (existsb (fun f2 => name_is f2 fname) fl) eqn:Hex; simpl.
  - rewrite length_fmap, decide_True by done.
    eexists _, _. split; [done|]. split.
    + split; [done|]. split.
      * split; simpl; [by rewrite length_fmap|done].
      * rewrite length_fmap, length_zip_with. lia.
    + by repeat split.
  - destruct (no_name_match func fname depth fl chains Hex Hlen) as [Hfl Hch].
    rewrite Hfl in Hfns1. rewrite Hch in Hinfo1.
    rewrite length_app. simpl. case_decide as Hfit.
    + destruct (holds_store_end fns1 fl (copy_function func) Hfns1) as (fns2 & Hst & Hfns2 & Hl2);
        [lia|].
      rewrite Hst. simpl.
      destruct (PushFunction_spec info1 names chains depth Hinfo1) as (info2 & Hpf & Hinfo2 & _).
      rewrite Hpf. simpl. eexists _, _. split; [done|]. split.
      * split; [done|]. split.
        -- split; simpl; [|done]. rewrite length_app; simpl; lia.
        -- rewrite !length_app. simpl. lia.
      * repeat split; simpl; congruence.
    + rewrite store_outside by lia. done.
Qed.

Lemma Merge_abs_length cname depth funcs st :
  length st.2 = length st.1 ->
  (length st.1 <= length (Merge_abs cname depth funcs st).1)%nat /\
  length (Merge_abs cname depth funcs st).2 = length (Merge_abs cname depth funcs st).1.
Proof.
  revert st. induction funcs as [|func funcs IH]; intros st Hl; simpl; [lia|].
  destruct (round_abs_length cname depth func st Hl) as [H1 H2].
  destruct (IH _ H2) as [H3 H4]. unfold Merge_abs in *. lia.
Qed.

Lemma Merge_loop_sim super depth :
  forall (suf pre : list FunctionInfo) info merge names fl chains,
    rep info merge names fl chains ->
    holds (Functions super) (pre ++ suf) ->
    let st' := Merge_abs (ClassName super) depth suf (fl, chains) in
    if decide (length st'.1 <= length (Functions merge))%nat then
      exists info' merge',
        Merge_loop super depth (Z.of_nat (length pre)) (length suf) info merge
          = Some (info', merge') /\
        rep info' merge' names st'.1 st'.2 /\ same_frame merge merge'
    else Merge_loop super depth (Z.of_nat (length pre)) (length suf) info merge = None.
Proof.
  induction suf as [|func suf IH]; intros pre info merge names fl chains Hrep Hsup; simpl.
  - destruct Hrep as (? & [? Hfns] & ?). pose proof (holds_length _ _ Hfns).
    rewrite decide_True by done. exists info, merge. split; [done|].
    split; [|done]. split; [done|]. by split.
  - assert (Hload : load (Functions super) (Z.of_nat (length pre)) = Some func).
    { eapply holds_load; [done|]. by rewrite lookup_app_r, Nat.sub_diag by lia. }
    pose proof (Merge_round_sim super depth _ func info merge names fl chains Hrep Hload) as Hr.
    simpl in Hr.
    destruct (round_abs (ClassName super) depth func (fl, chains)) as [fl1 chains1] eqn:Er.
    simpl in Hr.
    assert (Hmono : (length fl1 <= length (Merge_abs (ClassName super) depth suf (fl1, chains1)).1)%nat).
    { apply (Merge_abs_length _ _ suf (fl1, chains1)).
      pose proof (round_abs_length (ClassName super) depth func (fl, chains)) as Hl.
      rewrite Er in Hl. apply Hl. by destruct Hrep as (_ & _ & ?). }
    case_decide as Hfit1.
    + destruct Hr as (info1 & merge1 & -> & Hrep1 & Hfr1). simpl.
      specialize (IH (pre ++ [func]) info1 merge1 names fl1 chains1 Hrep1).
      rewrite <- app_assoc in IH. specialize (IH Hsup). simpl in IH.
      rewrite length_app in IH. simpl in IH.
      replace (Z.of_nat (length pre + 1)) with (Z.of_nat (length pre) + 1) in IH by lia.
      destruct Hfr1 as (? & ? & Hcap). rewrite Hcap in IH.
      case_decide; [|done].
      destruct IH as (info' & merge' & -> & Hrep' & Hfr'). eexists _, _.
      split; [done|]. split; [done|].
      eapply same_frame_trans; [|done]. by repeat split.
    + rewrite Hr. simpl. rewrite decide_False by lia. done.
Qed.

Lemma rep_class_methods_of c fl : rep_class c fl -> methods_of c fl.
Proof. intros [Hn Hb]. split; [done|]. rewrite Hn. apply Nat2Z.id. Qed.

(** [vtkParseMerge_Merge] against the merge on lists. *)
Lemma Merge_sim info merge super names fl chains sfl :
  rep info merge names fl chains ->
  methods_of super sfl ->
  let depth := Z.of_nat (push_index String.eqb names (ClassName super)) in
  let st' := Merge_abs (ClassName super) depth sfl (fl, chains) in
  if decide (length st'.1 <= length (Functions merge))%nat then
    exists info' merge',
      vtkParseMerge_Merge info merge super = Some (info', merge', depth) /\
      rep info' merge' (push_unique String.eqb names (ClassName super)) st'.1 st'.2 /\
      same_frame merge merge'
  else vtkParseMerge_Merge info merge super = None.
Proof.
  intros (Hinfo & Hclass & Hlen) [Hsup Hn]. unfold vtkParseMerge_Merge.
  destruct (PushClass_spec info names chains (ClassName super) Hinfo) as (info1 & -> & Hinfo1 & _).
  simpl. rewrite Hn.
  pose proof (Merge_loop_sim super
    (Z.of_nat (push_index String.eqb names (ClassName super))) sfl [] info1 merge
    (push_unique String.eqb names (ClassName super)) fl chains) as Hl.
  simpl in Hl. change (Z.of_nat 0) with 0 in Hl.
  specialize (Hl (conj Hinfo1 (conj Hclass Hlen)) Hsup).
  case_decide.
  - destruct Hl as (info' & merge' & -> & ? & ?). simpl. eauto.
  - by rewrite Hl.
Qed.

(** A merge that returns has read every method of [super]. *)
Lemma holds_snoc {A : Type} (b : block A) (l : list A) (x : A) :
  holds b l -> load b (Z.of_nat (length l)) = Some x -> holds b (l ++ [x]).
Proof.
  intros [rest ->]. unfold load. zbool. rewrite Nat2Z.id.
  rewrite lookup_app_r by (by rewrite length_fmap).
  rewrite length_fmap, Nat.sub_diag.
  destruct rest as [|[y|] rest]; simpl; try done. intros [= ->].
  exists rest. rewrite fmap_app, <- app_assoc. done.
Qed.

Lemma Merge_loop_reads super depth :
  forall (k : nat) (pre : list FunctionInfo) info merge r,
    holds (Functions super) pre ->
    Merge_loop super depth (Z.of_nat (length pre)) k info merge = Some r ->
    exists suf, holds (Functions super) (pre ++ suf) /\ length suf = k.
Proof.
  induction k as [|k IH]; intros pre info merge r Hpre Hrun.
  - exists []. by rewrite app_nil_r.
  - simpl in Hrun.
    destruct (Merge_round super depth (Z.of_nat (length pre)) info merge)
      as [[info1 merge1]|] eqn:Er; [|done].
    simpl in Hrun. unfold Merge_round in Er.
    destruct (load (Functions super) (Z.of_nat (length pre))) as [func|] eqn:El; [|done].
    pose proof (holds_snoc _ _ _ Hpre El) as Hpre'.
    replace (Z.of_nat (length pre) + 1) with (Z.of_nat (length (pre ++ [func]))) in Hrun
      by (rewrite length_app; simpl; lia).
    destruct (IH _ _ _ _ Hpre' Hrun) as (suf & Hsuf & Hl).
    exists (func :: suf). rewrite <- app_assoc in Hsuf. split; [done|]. simpl. lia.
Qed.

Lemma Merge_reads info merge super r :
  vtkParseMerge_Merge info merge super = Some r -> exists sfl, methods_of super sfl.
Proof.
  unfold vtkParseMerge_Merge. intros Hrun.
  destruct (vtkParseMerge_PushClass info (ClassName super)) as [[info1 depth]|]; [|done].
  simpl in Hrun.
  destruct (Merge_loop super depth 0 (Z.to_nat (Class_NumberOfFunctions super)) info1 merge)
    as [r'|] eqn:El; [|done].
  destruct (Merge_loop_reads super depth _ [] _ _ _ (holds_nil _) El) as (sfl & Hs & Hl).
  exists sfl. by split.
Qed.

(** What a merge that returned has done, on lists. *)
Lemma Merge_inv info merge super names fl chains info' merge' depth :
  rep info merge names fl chains ->
  vtkParseMerge_Merge info merge super = Some (info', merge', depth) ->
  exists sfl,
    methods_of super sfl /\
    depth = Z.of_nat (push_index String.eqb names (ClassName super)) /\
    rep info' merge' (push_unique String.eqb names (ClassName super))
      (Merge_abs (ClassName super) depth sfl (fl, chains)).1
      (Merge_abs (ClassName super) depth sfl (fl, chains)).2 /\
    same_frame merge merge'.
Proof.
  intros Hrep Hrun. destruct (Merge_reads _ _ _ _ Hrun) as (sfl & Hsfl).
  exists sfl. split; [done|].
  pose proof (Merge_sim info merge super names fl chains sfl Hrep Hsfl) as Hs.
  simpl in Hs. case_decide; [|congruence].
  destruct Hs as (i2 & m2 & Hrun2 & ? & ?). rewrite Hrun in Hrun2.
  injection Hrun2 as <- <- ->. done.
Qed.

(** ** vtkParseMerge_CreateMergeInfo *)

Lemma rep_info_empty : rep_info (mkMergeInfo 0 [] 0 [] []) [] [].
Proof.
  split; simpl; try done; try apply holds_nil; try (by left).
  exists []. split; [apply holds_nil|constructor].
Qed.

Lemma CreateMergeInfo_loop_spec (k : nat) info names chains :
  rep_info info names chains ->
  exists info', CreateMergeInfo_loop k info = Some info' /\
                rep_info info' names (chains ++ replicate k [0]).
Proof.
  revert info chains. induction k as [|k IH]; intros info chains Hrep; simpl.
  - exists info. by rewrite app_nil_r.
  - destruct (PushFunction_spec info names chains 0 Hrep) as (info1 & -> & Hrep1 & _). simpl.
    destruct (IH _ _ Hrep1) as (info' & -> & Hrep'). exists info'. split; [done|].
    by rewrite <- app_assoc in Hrep'.
Qed.

Lemma CreateMergeInfo_spec (classInfo : ClassInfo) :
  exists info,
    vtkParseMerge_CreateMergeInfo classInfo = Some info /\
    rep_info info [ClassName classInfo]
      (replicate (Z.to_nat (Class_NumberOfFunctions classInfo)) [0]).
Proof.
  unfold vtkParseMerge_CreateMergeInfo.
  destruct (PushClass_spec _ _ _ (ClassName classInfo) rep_info_empty) as (info1 & -> & Hrep1 & _).
  simpl. apply (CreateMergeInfo_loop_spec _ info1 _ [] Hrep1).
Qed.

Lemma CreateMergeInfo_rep (classInfo : ClassInfo) (fl : list FunctionInfo) :
  rep_class classInfo fl ->
  exists info,
    vtkParseMerge_CreateMergeInfo classInfo = Some info /\
    rep info classInfo [ClassName classInfo] fl (replicate (length fl) [0]).
Proof.
  intros Hc. destruct (CreateMergeInfo_spec classInfo) as (info & Hrun & Hrep).
  exists info. split; [done|]. destruct (rep_class_methods_of _ _ Hc) as [_ Hn].
  rewrite Hn in Hrep. split; [done|]. split; [done|]. apply length_replicate.
Qed.

(** ** Override equivalence *)

Lemma scan_args_bounds f2 func (fuel : nat) (k : Z) :
  k <= scan_args f2 func k fuel <= k + Z.of_nat fuel.
Proof.
  revert k. induction fuel as [|fuel IH]; intros k; simpl; [lia|].
  destruct (negb _); [lia|]. specialize (IH (k + 1)). lia.
Qed.

Lemma scan_args_end f2 func (fuel : nat) (k : Z) :
  scan_args f2 func k fuel = k + Z.of_nat fuel <->
  forall i, (i < fuel)%nat -> ArgType f2 (k + Z.of_nat i) = ArgType func (k + Z.of_nat i).
Proof.
  revert k. induction fuel as [|fuel IH]; intros k; simpl.
  - split; [lia|]. intros _. lia.
  - destruct (Z.eqb_spec (ArgType f2 k) (ArgType func k)) as [He|Hne]; simpl.
    + rewrite Nat2Z.inj_succ. replace (k + Z.succ (Z.of_nat fuel)) with (k + 1 + Z.of_nat fuel) by lia.
      rewrite IH. split.
      * intros H [|i] Hi; [by rewrite Z.add_0_r|].
        replace (k + Z.of_nat (S i)) with (k + 1 + Z.of_nat i) by lia. apply H. lia.
      * intros H i Hi. replace (k + 1 + Z.of_nat i) with (k + Z.of_nat (S i)) by lia.
        apply H. lia.
    + split; [lia|]. intros H. specialize (H O). rewrite Z.add_0_r in H. 
      exfalso. apply Hne, H. lia.
Qed.

Lemma all_args_match_spec f2 func :
  all_args_match f2 func = true <->
  NumberOfArguments f2 = NumberOfArguments func /\ 0 <= NumberOfArguments f2 /\
  forall i, (i < Z.to_nat (NumberOfArguments f2))%nat ->
            ArgType f2 (Z.of_nat i) = ArgType func (Z.of_nat i).
Proof.
  unfold all_args_match. rewrite andb_true_iff, !Z.eqb_eq.
  pose proof (scan_args_bounds f2 func (Z.to_nat (NumberOfArguments f2)) 0) as Hb.
  pose proof (scan_args_end f2 func (Z.to_nat (NumberOfArguments f2)) 0) as He.
  simpl in He. split.
  - intros [Hn Hs]. split; [done|]. split; [lia|]. apply He. lia.
  - intros (Hn & H0 & Hall). split; [done|]. apply He in Hall. lia.
Qed.

Lemma arg_codes_eq f2 func :
  wf_function f2 -> wf_function func ->
  arg_codes f2 = arg_codes func <->
  NumberOfArguments f2 = NumberOfArguments func /\
  forall i, (i < Z.to_nat (NumberOfArguments f2))%nat ->
            ArgType f2 (Z.of_nat i) = ArgType func (Z.of_nat i).
Proof.
  intros [H1 H2] [H3 H4]. unfold arg_codes, ArgType.
  assert (Hl1 : length (take (Z.to_nat (NumberOfArguments f2)) (ArgTypes f2))
                = Z.to_nat (NumberOfArguments f2)) by (rewrite length_take; lia).
  assert (Hl2 : length (take (Z.to_nat (NumberOfArguments func)) (ArgTypes func))
                = Z.to_nat (NumberOfArguments func)) by (rewrite length_take; lia).
  split.
  - intros Heq. assert (Hn : NumberOfArguments f2 = NumberOfArguments func).
    { apply (f_equal length) in Heq. rewrite Hl1, Hl2 in Heq. lia. }
    split; [done|]. intros i Hi. rewrite Nat2Z.id.
    rewrite <- (take_drop (Z.to_nat (NumberOfArguments f2)) (ArgTypes f2)).
    rewrite <- (take_drop (Z.to_nat (NumberOfArguments func)) (ArgTypes func)).
    rewrite !app_nth1 by lia. by rewrite Heq.
  - intros [Hn Hall]. apply (nth_ext _ _ 0 0); [lia|].
    intros i Hi. rewrite Hl1 in Hi. rewrite <- Hn.
    specialize (Hall i Hi). rewrite Nat2Z.id in Hall.
    rewrite <- (take_drop (Z.to_nat (NumberOfArguments f2)) (ArgTypes f2)) in Hall.
    rewrite <- (take_drop (Z.to_nat (NumberOfArguments f2)) (ArgTypes func)) in Hall.
    rewrite !app_nth1 in Hall by (rewrite length_take; lia). done.
Qed.

(** The test of the source decides override equivalence. *)
Lemma sig_match_spec f2 func fname :
  wf_function f2 -> wf_function func -> Name func = Some fname ->
  sig_match f2 func fname = true <-> override_equivalent f2 func.
Proof.
  intros Hw2 Hw Hname. unfold sig_match, name_is, override_equivalent.
  rewrite andb_true_iff, all_args_match_spec. split.
  - intros [Hn (Ha & H0 & Hall)]. destruct (Name f2) as [n2|]; [|done].
    apply String.eqb_eq in Hn as ->. exists fname. split; [done|]. split; [done|].
    by apply arg_codes_eq.
  - intros (name & -> & Hn & Hc). rewrite Hname in Hn. injection Hn as ->.
    split; [by apply String.eqb_eq|]. apply arg_codes_eq in Hc as [? ?]; [|done..].
    destruct Hw2. done.
Qed.

Lemma scan_args_same_args f2 f2' func (fuel : nat) (k : Z) :
  ArgTypes f2' = ArgTypes f2 -> scan_args f2' func k fuel = scan_args f2 func k fuel.
Proof.
  intros He. revert k. induction fuel as [|fuel IH]; intros k; simpl; [done|].
  unfold ArgType at 1 3. rewrite He, IH. done.
Qed.

(** The annotation of an entry leaves its signature alone. *)
Lemma sig_match_merge_function f2 g func fname :
  sig_match (merge_function f2 g) func fname = sig_match f2 func fname.
Proof.
  unfold sig_match, name_is, all_args_match. simpl.
  by rewrite (scan_args_same_args f2 (merge_function f2 g)).
Qed.

Lemma copy_function_id func : copy_function func = func.
Proof. by destruct func. Qed.

(** ** One round of the merge, entry by entry *)


Lemma existsb_name_is (fl : list FunctionInfo) (fname : string) :
  existsb (fun f2 => name_is f2 fname) fl = true <->
  exists f2, f2 ∈ fl /\ Name f2 = Some fname.
Proof.
  rewrite existsb_exists. split.
  - intros (f2 & Hin & Hn). exists f2. split; [by apply list_elem_of_In|].
    unfold name_is in Hn. destruct (Name f2); [|done]. by apply String.eqb_eq in Hn as ->.
  - intros (f2 & Hin & Hn). exists f2. split; [by apply list_elem_of_In|].
    unfold name_is. rewrite Hn. apply String.eqb_refl.
Qed.

(** The loop over [j] changes nothing when no entry has the signature. *)
Lemma check_overridden_no_match func fname depth info fns :
  forall (suf pre : list FunctionInfo) matched,
    holds fns (pre ++ suf) ->
    (forall f2, f2 ∈ suf -> sig_match f2 func fname = false) ->
    check_overridden func fname depth (Z.of_nat (length pre)) (length suf) info fns matched
    = Some (info, fns, matched || existsb (fun f2 => name_is f2 fname) suf).
Proof.
  induction suf as [|f2 suf IH]; intros pre matched Hfns Hno; simpl.
  - by rewrite orb_false_r.
  - rewrite (holds_load fns (pre ++ f2 :: suf) (length pre) f2 Hfns)
      by (by rewrite lookup_app_r, Nat.sub_diag by lia).
    simpl.
    replace (Z.of_nat (length pre) + 1) with (Z.of_nat (length (pre ++ [f2])))
      by (rewrite length_app; simpl; lia).
    assert (Hno' : forall f, f ∈ suf -> sig_match f func fname = false)
      by (intros f Hf; apply Hno; by right).
    assert (Hfns' : holds fns ((pre ++ [f2]) ++ suf)) by (by rewrite <- app_assoc).
    pose proof (Hno f2 (list_elem_of_here _ _)) as H2.
    unfold sig_match, name_is in *. destruct (Name f2) as [n2|]; simpl in *.
    + destruct (String.eqb n2 fname); simpl in *.
      * rewrite H2. simpl. rewrite IH by done. by rewrite orb_true_r.
      * by rewrite IH.
    + by rewrite IH.
Qed.

Lemma ClassInfo_eta (c : ClassInfo) :
  mkClassInfo (ClassName c) (SuperClasses c) (Class_NumberOfFunctions c) (Functions c) = c.
Proof. by destruct c. Qed.


(** ** The state of the examples *)

Lemma class_of_rep name supers methods spare :
  rep_class (class_of name supers methods spare) methods.
Proof. split; [done|]. by eexists. Qed.

Lemma ex_info_created :
  (info ← vtkParseMerge_CreateMergeInfo ex_B;
   vtkParseMerge_PushClass info "A") = Some (ex_info, 1).
Proof. reflexivity. Qed.

Lemma ex_rep : rep ex_info ex_B ["B"; "A"] ex_B_methods [[0]].
Proof.
  destruct (CreateMergeInfo_rep ex_B ex_B_methods (class_of_rep _ _ _ _))
    as (info0 & Hc & Hinfo0 & Hclass & Hlen).
  destruct (PushClass_spec info0 _ _ "A" Hinfo0) as (info1 & Hp & Hinfo1 & _).
  pose proof ex_info_created as He. rewrite Hc in He. simpl in He. rewrite Hp in He.
  injection He as <-. done.
Qed.

(** ** The claims about one method of the ancestor *)

(** Every chain of a MergeInfo has a first contributor: the class that
    introduced the method. *)
Lemma rep_info_chain_head info names chains (j : nat) (ch : list Z) :
  rep_info info names chains -> chains !! j = Some ch -> exists c0, ch !! O = Some c0.
Proof.
  intros [_ _ _ _ _ _ (blocks & _ & Hall) _] Hj.
  destruct (Forall2_lookup_r _ _ _ _ _ Hall Hj) as (blk & _ & _ & Hp).
  apply pow2_cap_pos in Hp. destruct ch as [|c0 ch]; [simpl in Hp; lia|]. by exists c0.
Qed.

(** C1, as stated, fails: the root declares [Foo(double)] and its base
    declares [Foo(int)]; no entry of the flattened list is override-equivalent
    to [Foo(int)], and still the merge appends nothing: the flattened list
    keeps its single entry [Foo(double)], it has no second entry, and there is
    a single chain. *)
Lemma C1_counterexample :
  (forall f2, f2 ∈ [method "Foo" [DOUBLE_CODE] None 0] ->
              ~ override_equivalent f2 (method "Foo" [INT_CODE] None 0)) /\
  exists info info' merge',
    vtkParseMerge_CreateMergeInfo ex_B_double = Some info /\
    vtkParseMerge_Merge info ex_B_double ex_A_int = Some (info', merge', 1) /\
    Class_NumberOfFunctions merge' = 1 /\
    Functions merge' = Functions ex_B_double /\
    load (Functions merge') 1 = None /\
    NumberOfFunctions info' = 1.
Proof.
  split.
  - intros f2 ->%list_elem_of_singleton (name & _ & _ & Hc). discriminate Hc.
  - eexists _, _, _. repeat split; reflexivity.
Qed.





(** ** Sequences of pushes *)

Lemma PushClass_all_spec (xs : list string) :
  forall info names chains,
    rep_info info names chains ->
    exists info' names',
      PushClass_all info xs = Some info' /\ rep_info info' names' chains /\
      names `prefix_of` names' /\ (forall x, x ∈ names' <-> x ∈ names \/ x ∈ xs).
Proof.
  induction xs as [|x xs IH]; intros info names chains Hrep; simpl.
  - exists info, names. split; [done|]. split; [done|]. split; [done|].
    intros y. rewrite elem_of_nil. tauto.
  - destruct (PushClass_spec info names chains x Hrep) as (info1 & -> & Hrep1 & _). simpl.
    destruct (IH _ _ _ Hrep1) as (info' & names' & Hrun & Hrep' & Hpre & Hin).
    exists info', names'. split; [done|]. split; [done|]. split.
    + etrans; [apply (push_unique_prefix String.eqb)|done].
    + intros y. rewrite Hin, elem_of_cons. unfold push_unique.
      destruct (index_of String.eqb x names) eqn:E.
      * assert (x ∈ names) by (apply (index_of_is_Some _ String_eqb_eq); eauto).
        split; [tauto|]. intros [?|[->|?]]; tauto.
      * rewrite elem_of_app, list_elem_of_singleton. tauto.
Qed.

Lemma PushFunction_all_spec (ds : list Z) :
  forall info names chains,
    rep_info info names chains ->
    exists info',
      PushFunction_all info ds = Some info' /\
      rep_info info' names (chains ++ ((fun d => [d]) <$> ds)) /\
      (forall k c, 0 <= k < Z.of_nat (length chains) ->
         load (OverrideClasses info) k = Some c -> load (OverrideClasses info') k = Some c).
Proof.
  induction ds as [|d ds IH]; intros info names chains Hrep; simpl.
  - exists info. by rewrite app_nil_r.
  - destruct (PushFunction_spec info names chains d Hrep) as (info1 & -> & Hrep1 & Hk1). simpl.
    destruct (IH _ _ _ Hrep1) as (info' & Hrun & Hrep' & Hk'). exists info'. split; [done|].
    rewrite <- app_assoc in Hrep'. split; [done|].
    intros k c Hk Hload. apply Hk'; [rewrite length_app; lia|]. by apply Hk1.
Qed.

Lemma PushOverride_all_spec (i : nat) (ds : list Z) :
  forall info names chains ch,
    rep_info info names chains -> chains !! i = Some ch ->
    exists info' ch',
      PushOverride_all info (Z.of_nat i) ds = Some info' /\
      rep_info info' names (<[i := ch']> chains) /\
      ch `prefix_of` ch' /\ (forall d, d ∈ ch' <-> d ∈ ch \/ d ∈ ds).
Proof.
  induction ds as [|d ds IH]; intros info names chains ch Hrep Hi; simpl.
  - exists info, ch. split; [done|]. rewrite list_insert_id by done. split; [done|].
    split; [done|]. intros y. rewrite elem_of_nil. tauto.
  - destruct (PushOverride_spec info names chains i ch d Hrep Hi) as (info1 & -> & Hrep1 & _).
    simpl.
    assert (Hi' : (i < length chains)%nat) by (by eapply lookup_lt_Some).
    destruct (IH _ _ _ (push_unique Z.eqb ch d) Hrep1) as (info' & ch' & Hrun & Hrep' & Hpre & Hin).
    { by rewrite list_lookup_insert_eq. }
    rewrite list_insert_insert_eq in Hrep'.
    exists info', ch'. split; [done|]. split; [done|]. split.
    + etrans; [apply (push_unique_prefix Z.eqb)|done].
    + intros y. rewrite Hin, elem_of_cons. unfold push_unique.
      destruct (index_of Z.eqb d ch) eqn:E.
      * assert (d ∈ ch) by (apply (index_of_is_Some _ Z.eqb_eq); eauto).
        split; [tauto|]. intros [?|[->|?]]; tauto.
      * rewrite elem_of_app, list_elem_of_singleton. tauto.
Qed.

(** Repeating a class name yields the index of its first push and leaves the
    MergeInfo alone. *)
Lemma PushClass_repeat info names chains (classname : string) info1 (d : Z) :
  rep_info info names chains ->
  vtkParseMerge_PushClass info classname = Some (info1, d) ->
  vtkParseMerge_PushClass info1 classname = Some (info1, d).
Proof.
  intros Hrep Hrun.
  destruct (PushClass_spec info names chains classname Hrep) as (info' & Hrun' & Hrep' & _).
  rewrite Hrun in Hrun'. injection Hrun' as <- ->.
  destruct (PushClass_spec info1 _ chains classname Hrep') as (info2 & Hrun2 & _ & Hsame).
  rewrite <- (Hsame (push_unique_elem String.eqb String_eqb_eq names classname)) at 2.
  rewrite Hrun2. do 3 f_equal. unfold push_index at 1.
  by rewrite (push_unique_index String.eqb String_eqb_eq).
Qed.

(** A contributor that the chain [i] has makes [vtkParseMerge_PushOverride]
    return [i], wherever the contributor is in the chain; one that the chain
    does not have goes to the end of the chain and its slot is returned. *)
Lemma PushOverride_returns info names chains (i : nat) (ch : list Z) (depth : Z) :
  rep_info info names chains -> chains !! i = Some ch ->
  (depth ∈ ch -> vtkParseMerge_PushOverride info (Z.of_nat i) depth = Some (info, Z.of_nat i)) /\
  (depth ∉ ch -> exists info',
     vtkParseMerge_PushOverride info (Z.of_nat i) depth = Some (info', Z.of_nat (length ch))).
Proof.
  intros Hrep Hi.
  destruct (PushOverride_spec info names chains i ch depth Hrep Hi) as (info' & Hrun & _ & Hsame).
  split.
  - intros Hin. rewrite <- (Hsame Hin) at 2. rewrite Hrun.
    apply (index_of_is_Some _ Z.eqb_eq) in Hin as [j Hj]. by rewrite Hj.
  - intros Hnin. exists info'. rewrite Hrun.
    apply (index_of_None _ Z.eqb_eq) in Hnin. by rewrite Hnin.
Qed.

(** C3 fails for [vtkParseMerge_PushOverride]: pushed onto the chain of the
    function [0], the contributor [5] goes to the slot [1] and the call
    returns [1]; the same push again finds [5] in the slot [1] and returns
    [0], the index [i] of the function, instead of the slot of the
    occurrence. *)
Lemma C3_PushOverride_repeat_returns_function_index :
  exists info0 info1,
    vtkParseMerge_CreateMergeInfo ex_one_method = Some info0 /\
    vtkParseMerge_PushOverride info0 0 5 = Some (info1, 1) /\
    load (OverrideClasses info1) 0 = Some [Some 0; Some 5] /\
    vtkParseMerge_PushOverride info1 0 5 = Some (info1, 0).
Proof. eexists _, _. repeat split; reflexivity. Qed.

(** C7, as stated, fails for a single override chain: its block is created
    with one slot by [vtkParseMerge_PushFunction] and has two slots, not
    four, after the first [vtkParseMerge_PushOverride]. *)
Lemma C7_counterexample :
  exists info0 info1,
    vtkParseMerge_CreateMergeInfo ex_one_method = Some info0 /\
    load (OverrideClasses info0) 0 = Some [Some 0] /\
    vtkParseMerge_PushOverride info0 0 5 = Some (info1, 1) /\
    load (OverrideClasses info1) 0 = Some [Some 0; Some 5] /\
    length [Some 0; Some 5] <> 4%nat.
Proof. eexists _, _. repeat split; try reflexivity. discriminate. Qed.

(** C7, amended.  From every state that the functions of vtkParseMerge.c
    reach ([rep_info]), every sequence of pushes returns and keeps what was
    stored at its position with its value:
    - class names: the registry before is a prefix of the registry after, each
      slot below the old counter reads as before, and the block has no slot
      constraint before the first name, four slots up to four names and then
      the least power of two ([registry_cap]);
    - the two parallel arrays of the functions: the old chains are followed by
      one chain per push, each old slot of the two arrays reads as before, and
      both blocks follow the same policy;
    - one override chain: the chain before is a prefix of the chain after, each
      old slot of the chain reads as before, and the block of the chain, born
      with one slot, has the least power of two of slots ([pow2_cap]): it
      doubles at the sizes 1, 2, 4, 8, ... *)
Theorem C7_pushes_keep_elements
    (info : MergeInfo) (names : list string) (chains : list (list Z)) :
  rep_info info names chains ->
  (forall xs, exists info' names',
      PushClass_all info xs = Some info' /\
      rep_info info' names' chains /\ names `prefix_of` names' /\
      (forall k x, 0 <= k < NumberOfClasses info ->
         load (ClassNames info) k = Some x -> load (ClassNames info') k = Some x) /\
      registry_cap (Z.of_nat (length names')) (Z.of_nat (length (ClassNames info')))) /\
  (forall ds, exists info',
      PushFunction_all info ds = Some info' /\
      rep_info info' names (chains ++ ((fun d => [d]) <$> ds)) /\
      (forall k n c, 0 <= k < NumberOfFunctions info ->
         load (NumberOfOverrides info) k = Some n ->
         load (OverrideClasses info) k = Some c ->
         load (NumberOfOverrides info') k = Some n /\
         load (OverrideClasses info') k = Some c) /\
      registry_cap (Z.of_nat (length chains + length ds))
        (Z.of_nat (length (NumberOfOverrides info'))) /\
      registry_cap (Z.of_nat (length chains + length ds))
        (Z.of_nat (length (OverrideClasses info')))) /\
  (forall (i : nat) ch blk ds,
      chains !! i = Some ch -> load (OverrideClasses info) (Z.of_nat i) = Some blk ->
      exists info' ch' blk',
        PushOverride_all info (Z.of_nat i) ds = Some info' /\
        rep_info info' names (<[i := ch']> chains) /\ ch `prefix_of` ch' /\
        load (OverrideClasses info') (Z.of_nat i) = Some blk' /\
        holds blk' ch' /\
        (forall k x, 0 <= k < Z.of_nat (length ch) ->
           load blk k = Some x -> load blk' k = Some x) /\
        pow2_cap (Z.of_nat (length ch')) (Z.of_nat (length blk'))).
Proof.
  intros Hrep. split; [|split].
  - intros xs. destruct (PushClass_all_spec xs info names chains Hrep)
      as (info' & names' & Hrun & Hrep' & Hpre & _).
    exists info', names'. split; [done|]. split; [done|]. split; [done|].
    split; [|by destruct Hrep'].
    intros k x Hk Hload. destruct Hrep as [Hn Hb _ _ _ _ _ _]. destruct Hrep' as [_ Hb' _ _ _ _ _ _].
    apply (holds_prefix_load (ClassNames info) (ClassNames info') names names' k x Hb Hb' Hpre);
      [lia|done].
  - intros ds. destruct (PushFunction_all_spec ds info names chains Hrep)
      as (info' & Hrun & Hrep' & Hk').
    exists info'. split; [done|]. split; [done|].
    destruct Hrep as [_ _ _ Hnf Hc _ _ _].
    destruct Hrep' as [_ _ _ _ Hc' Hcap1 _ Hcap2].
    rewrite length_app, length_fmap in Hcap1, Hcap2.
    split; [|done].
    intros k n c Hk Hl1 Hl2. split; [|apply Hk'; [lia|done]].
    eapply holds_prefix_load; [exact Hc|exact Hc'| | |done].
    + rewrite fmap_app. by apply prefix_app_r.
    + rewrite length_fmap. lia.
  - intros i ch blk ds Hi Hblk.
    destruct (PushOverride_all_spec i ds info names chains ch Hrep Hi)
      as (info' & ch' & Hrun & Hrep' & Hpre & _).
    assert (Hi' : (i < length chains)%nat) by (by eapply lookup_lt_Some).
    destruct Hrep as [_ _ _ _ _ _ (blocks & Hbl & Hall) _].
    pose proof Hrep' as Hkeep.
    destruct Hrep' as [_ _ _ _ _ _ (blocks' & Hbl' & Hall') _].
    destruct (Forall2_lookup_r _ _ _ _ _ Hall Hi) as (blk0 & Hblk0 & Hcb0 & _).
    rewrite (holds_load _ _ i blk0 Hbl Hblk0) in Hblk. injection Hblk as ->.
    destruct (Forall2_lookup_r _ _ _ i ch' Hall') as (blk' & Hblk' & Hcb' & Hp').
    { by rewrite list_lookup_insert_eq. }
    exists info', ch', blk'. split; [done|]. split; [done|]. split; [done|].
    split; [by eapply holds_load|]. split; [done|]. split; [|done].
    intros k x Hk Hload.
    exact (holds_prefix_load _ blk' ch ch' k x Hcb0 Hcb' Hpre Hk Hload).
Qed.

Lemma C7_witness :
  rep_info ex_info ["B"; "A"] [[0]] /\
  (exists info' names',
      PushClass_all ex_info ex_names = Some info' /\
      rep_info info' names' [[0]] /\ ["B"; "A"] `prefix_of` names' /\
      (forall k x, 0 <= k < NumberOfClasses ex_info ->
         load (ClassNames ex_info) k = Some x -> load (ClassNames info') k = Some x) /\
      registry_cap (Z.of_nat (length names')) (Z.of_nat (length (ClassNames info')))) /\
  (exists info' ch' blk',
      PushOverride_all ex_info (Z.of_nat 0) [1; 2; 3; 4; 1; 5] = Some info' /\
      rep_info info' ["B"; "A"] (<[O := ch']> [[0]]) /\ [0] `prefix_of` ch' /\
      load (OverrideClasses info') (Z.of_nat 0) = Some blk' /\
      holds blk' ch' /\
      (forall k x, 0 <= k < Z.of_nat (length [0]) ->
         load [Some 0] k = Some x -> load blk' k = Some x) /\
      pow2_cap (Z.of_nat (length ch')) (Z.of_nat (length blk'))).
Proof.
  assert (Hrep : rep_info ex_info ["B"; "A"] [[0]]) by (by destruct ex_rep).
  split; [exact Hrep|].
  pose proof (C7_pushes_keep_elements ex_info ["B"; "A"] [[0]] Hrep) as (Hc & _ & Ho).
  split.
  - apply (Hc ex_names).
  - apply (Ho O [0] [Some 0] [1; 2; 3; 4; 1; 5]); reflexivity.
Defined.

(** The sizes of the block of the class names when 3, 4, 5, 8, 9, 16 and 17
    names were pushed, and the names in the block after the last push. *)
Example growth_boundaries :
  (fun k => length <$> (ClassNames <$> PushClass_all (mkMergeInfo 0 [] 0 [] []) (take k ex_names)))
    <$> [3; 4; 5; 8; 9; 16; 17]%nat
  = [Some 4; Some 4; Some 8; Some 8; Some 16; Some 16; Some 32]%nat /\
  (take 17 <$> (ClassNames <$> PushClass_all (mkMergeInfo 0 [] 0 [] []) ex_names))
  = Some (Some <$> ex_names).
Proof. split; reflexivity. Qed.

(** ** Sequences of merges into one class *)

Lemma rep_lockstep info merge names fl chains :
  rep info merge names fl chains -> lockstep info merge.
Proof.
  intros ([_ _ _ Hnf Hc _ (blocks & Hbl & Hall) _] & [Hm _] & Hlen). split; [lia|].
  intros i Hi. rewrite Hnf in Hi.
  destruct (lookup_lt_is_Some_2 chains (Z.to_nat i)) as [ch Hch]; [lia|].
  destruct (Forall2_lookup_r _ _ _ _ _ Hall Hch) as (blk & Hblk & Hcb & Hp).
  pose proof (pow2_cap_pos _ _ Hp) as Hpos.
  destruct ch as [|c0 ch]; [simpl in Hpos; lia|].
  exists (Z.of_nat (length (c0 :: ch))), blk, c0.
  rewrite <- (Z2Nat.id i) by lia. split.
  { eapply holds_load; [done|]. by rewrite list_lookup_fmap, Hch. }
  split; [done|]. split; [by eapply holds_load|].
  by apply (holds_load blk (c0 :: ch) O c0).
Qed.

Lemma Merge_all_rep (supers : list ClassInfo) :
  forall info merge names fl chains info' merge',
    rep info merge names fl chains ->
    Merge_all info merge supers = Some (info', merge') ->
    exists names' fl' chains',
      rep info' merge' names' fl' chains' /\ same_frame merge merge' /\
      names `prefix_of` names' /\ (length fl <= length fl')%nat.
Proof.
  induction supers as [|super supers IH]; intros info merge names fl chains info' merge' Hrep Hrun.
  - injection Hrun as <- <-. by exists names, fl, chains.
  - simpl in Hrun.
    destruct (vtkParseMerge_Merge info merge super) as [[[info1 merge1] depth]|] eqn:Em; [|done].
    simpl in Hrun.
    destruct (Merge_inv _ _ _ _ _ _ _ _ _ Hrep Em) as (sfl & _ & _ & Hrep1 & Hfr1).
    destruct (IH _ _ _ _ _ _ _ Hrep1 Hrun) as (names' & fl' & chains' & Hrep' & Hfr' & Hpre & Hle).
    exists names', fl', chains'. split; [done|]. split; [by eapply same_frame_trans|].
    split.
    + etrans; [apply (push_unique_prefix String.eqb)|done].
    + destruct Hrep as (_ & _ & Hl).
      pose proof (Merge_abs_length (ClassName super) depth sfl (fl, chains) Hl) as [? _].
      simpl in *. lia.
Qed.

(** C8. [vtkParseMerge_CreateMergeInfo] returns for a class whose first
    [NumberOfFunctions] slots hold its methods, and then, and after every
    sequence of [vtkParseMerge_Merge] calls on the same MergeInfo and class
    that returned, the MergeInfo has as many override chains as the class has
    methods, and every chain has a count of at least one and a contributor in
    its first slot. *)
Theorem C8_chains_in_lockstep (classInfo : ClassInfo) (fl : list FunctionInfo) :
  rep_class classInfo fl ->
  exists info,
    vtkParseMerge_CreateMergeInfo classInfo = Some info /\
    lockstep info classInfo /\
    forall supers info' merge',
      Merge_all info classInfo supers = Some (info', merge') ->
      lockstep info' merge'.
Proof.
  intros Hc. destruct (CreateMergeInfo_rep classInfo fl Hc) as (info & Hrun & Hrep).
  exists info. split; [done|]. split; [by eapply rep_lockstep|].
  intros supers info' merge' Hall.
  destruct (Merge_all_rep supers _ _ _ _ _ _ _ Hrep Hall) as (names' & fl' & chains' & Hrep' & _).
  by eapply rep_lockstep.
Qed.

Lemma C8_witness :
  rep_class ex_B ex_B_methods /\
  exists info,
    vtkParseMerge_CreateMergeInfo ex_B = Some info /\
    lockstep info ex_B /\
    forall supers info' merge',
      Merge_all info ex_B supers = Some (info', merge') ->
      lockstep info' merge'.
Proof.
  split; [apply class_of_rep|].
  apply (C8_chains_in_lockstep ex_B ex_B_methods). apply class_of_rep.
Defined.

(** The merges of the example return: [A] into [B], twice. *)
Example Merge_all_example :
  exists info info' merge',
    vtkParseMerge_CreateMergeInfo ex_B = Some info /\
    Merge_all info ex_B [ex_A; ex_A] = Some (info', merge') /\
    NumberOfFunctions info' = 2 /\ Class_NumberOfFunctions merge' = 2 /\
    NumberOfOverrides info' = [Some 2; Some 1; None; None] /\
    OverrideClasses info' = [Some [Some 0; Some 1]; Some [Some 1]; None; None].
Proof. eexists _, _, _. repeat split; reflexivity. Qed.

Lemma Merge_abs_fl cname depth (sfl : list FunctionInfo) :
  forall fl chains, (Merge_abs cname depth sfl (fl, chains)).1 = Merge_fl cname sfl fl.
Proof.
  induction sfl as [|func sfl IH]; intros fl chains; [done|]. simpl.
  assert (Hr : (round_abs cname depth func (fl, chains)).1 = round_fl cname func fl).
  { unfold round_abs, round_fl. destruct (Name func); [|done].
    destruct (not_inherited _ _); [done|]. simpl. by destruct (existsb _ _). }
  destruct (round_abs cname depth func (fl, chains)) as [fl1 chains1]. simpl in Hr. subst fl1.
  apply IH.
Qed.

Lemma Merge_fl_length cname (sfl : list FunctionInfo) :
  forall fl, (length fl <= length (Merge_fl cname sfl fl) <= length fl + length sfl)%nat.
Proof.
  induction sfl as [|func sfl IH]; intros fl; simpl; [lia|].
  specialize (IH (round_fl cname func fl)).
  assert (length fl <= length (round_fl cname func fl) <= length fl + 1)%nat.
  { unfold round_fl. destruct (Name func); [|lia]. destruct (not_inherited _ _); [lia|].
    destruct (existsb _ _); [rewrite length_fmap; lia|rewrite length_app; simpl; lia]. }
  unfold Merge_fl in *. lia.
Qed.

(** C10. [vtkParseMerge_Merge] never changes the number of slots of the
    array behind [merge->Functions].  It returns exactly when the methods of
    the flattened list and the methods that the merge appends fit the slots
    that the array has; when they do not, a write goes past the array.  So a
    sequence of merges that returns has found, in the array that the caller
    supplied, a slot for every method that it appended. *)
Theorem C10_Functions_array_not_grown
    (info : MergeInfo) (merge super : ClassInfo) (names : list string)
    (fl : list FunctionInfo) (chains : list (list Z)) (sfl : list FunctionInfo) :
  rep info merge names fl chains ->
  methods_of super sfl ->
  (is_Some (vtkParseMerge_Merge info merge super) <->
   (length fl + appended_by (ClassName super) sfl fl <= length (Functions merge))%nat) /\
  (forall info' merge' depth,
     vtkParseMerge_Merge info merge super = Some (info', merge', depth) ->
     length (Functions merge') = length (Functions merge) /\
     Class_NumberOfFunctions merge'
       = Z.of_nat (length fl + appended_by (ClassName super) sfl fl)) /\
  (forall supers info' merge',
     Merge_all info merge supers = Some (info', merge') ->
     length (Functions merge') = length (Functions merge) /\
     (Class_NumberOfFunctions merge <= Class_NumberOfFunctions merge'
        <= Z.of_nat (length (Functions merge)))).
Proof.
  intros Hrep Hsfl.
  pose proof (Merge_sim info merge super names fl chains sfl Hrep Hsfl) as Hs.
  simpl in Hs. rewrite Merge_abs_fl in Hs.
  pose proof (Merge_fl_length (ClassName super) sfl fl) as Hlen.
  assert (Hadd : (length fl + appended_by (ClassName super) sfl fl
                  = length (Merge_fl (ClassName super) sfl fl))%nat)
    by (unfold appended_by; lia).
  rewrite Hadd. split; [|split].
  - case_decide.
    + destruct Hs as (? & ? & -> & _). split; [done|by eauto].
    + rewrite Hs. split; [by intros [? ?]|lia].
  - intros info' merge' depth Hrun. case_decide; [|congruence].
    destruct Hs as (info2 & merge2 & Hrun2 & Hrep2 & (_ & _ & Hcap)).
    rewrite Hrun in Hrun2. injection Hrun2 as <- <- _. split; [done|].
    by destruct Hrep2 as (_ & [Hm _] & _).
  - intros supers info' merge' Hall.
    destruct (Merge_all_rep supers _ _ _ _ _ _ _ Hrep Hall)
      as (names' & fl' & chains' & Hrep' & (_ & _ & Hcap) & _ & Hle).
    split; [done|].
    destruct Hrep as (_ & [Hm _] & _). destruct Hrep' as (_ & [Hm' Hfns'] & _).
    pose proof (holds_length _ _ Hfns'). lia.
Qed.

Lemma C10_witness :
  (is_Some (vtkParseMerge_Merge ex_info ex_B_full ex_A_bar) <->
   (length ex_B_methods + appended_by "A" [method "Bar" [] None 0] ex_B_methods
    <= length (Functions ex_B_full))%nat) /\
  vtkParseMerge_Merge ex_info ex_B_full ex_A_bar = None /\
  appended_by "A" [method "Bar" [] None 0] ex_B_methods = 1%nat.
Proof.
  split; [|split; reflexivity].
  apply (C10_Functions_array_not_grown ex_info ex_B_full ex_A_bar ["B"; "A"]
           ex_B_methods [[0]] [method "Bar" [] None 0]).
  - destruct ex_rep as (Hinfo & _ & Hlen). split; [done|]. split; [apply class_of_rep|done].
  - apply rep_class_methods_of, class_of_rep.
Defined.

(** ** The walk over the superclasses *)


Lemma walk_supers_cons visit (super : string) (supers : list string) st :
  walk_supers visit (super :: supers) (Done st) = walk_supers visit supers (visit super st).
Proof. done. Qed.

(** Once a call has not returned, the loop makes no further call. *)
Lemma walk_supers_stops visit (supers : list string) (acc : outcome walk_state) :
  (forall st, acc <> Done st) -> walk_supers visit supers acc = acc.
Proof.
  intros Hacc. induction supers as [|super supers IH]; [done|].
  simpl. destruct acc; [by destruct (Hacc a)|done..].
Qed.


(** C2, as stated, fails: without a hierarchy file the base [A] of [B],
    declared in the same header, is not merged;
    [vtkWrapXML_MergeSuperClasses] returns no MergeInfo and the class as it
    was.  With a hierarchy file, the same input gets the method [Bar] of [A]. *)
Lemma C2_counterexample :
  find_class ex_data "A" = Some ex_A /\
  vtkWrapXML_MergeSuperClasses 3 ex_world_empty ex_options_no_index ex_data ex_B
    = Done (None, ex_B, []) /\
  exists info' merge',
    vtkWrapXML_MergeSuperClasses 3 ex_world_empty ex_options ex_data ex_B
      = Done (Some info', merge', []) /\
    Class_NumberOfFunctions merge' = 2 /\
    load (Functions merge') 1 = Some (method "Bar" [] None 0).
Proof. split; [reflexivity|]. split; [reflexivity|]. eexists _, _. repeat split; reflexivity. Qed.

(** C2, amended.
    - In a run without a hierarchy file, [vtkWrapXML_MergeSuperClasses] merges
      nothing, whether the bases are declared locally or not: it returns no
      MergeInfo, the class as it was, and nothing on stderr.
    - In the walk, a base name whose class is in the current namespace is
      resolved to that class whatever the index, the include path, the file
      system and the parser are, and its methods are merged by
      [vtkParseMerge_Merge] before the walk goes on to its bases.
    - A base name that is not in the current namespace and that the index
      does not know is passed over: the call returns the state of the walk as
      it was. *)
Theorem C2_local_lookup_and_no_index
    (fuel : nat) (w : World) (oinfo : OptionInfo) (data : NamespaceInfo)
    (classInfo : ClassInfo) :
  (HierarchyFileName oinfo = None ->
   vtkWrapXML_MergeSuperClasses fuel w oinfo data classInfo = Done (None, classInfo, [])) /\
  (forall w' hinfo classname hintfile cinfo,
     find_class data classname = Some cinfo ->
     resolve w' data hinfo classname hintfile = Resolved data (Some cinfo) [] /\
     forall info merge err,
       vtkWrapXML_MergeHelper (S fuel) w' data hinfo classname hintfile (info, merge, err)
       = match vtkParseMerge_Merge info merge cinfo with
         | None => Undefined
         | Some (info', merge', _) =>
             walk_supers
               (fun super st' => vtkWrapXML_MergeHelper fuel w' data hinfo super hintfile st')
               (SuperClasses cinfo) (Done (info', merge', err))
         end) /\
  (forall hinfo classname hintfile st,
     find_class data classname = None ->
     vtkParseHierarchy_FindEntry w hinfo classname = None ->
     vtkWrapXML_MergeHelper (S fuel) w data hinfo classname hintfile st = Done st).
Proof.
  split; [|split].
  - intros Hnone. unfold vtkWrapXML_MergeSuperClasses. by rewrite Hnone.
  - intros w' hinfo classname hintfile cinfo Hfind.
    assert (Hres : resolve w' data hinfo classname hintfile = Resolved data (Some cinfo) []).
    { unfold resolve. rewrite Hfind. rewrite bool_decide_eq_true_2 by eauto.
      simpl. by rewrite andb_false_r. }
    split; [done|]. intros info merge err. simpl. rewrite Hres.
    by rewrite app_nil_r.
  - intros hinfo classname hintfile [[info merge] err] Hfind Hentry. simpl.
    unfold resolve. rewrite Hfind, Hentry.
    rewrite bool_decide_eq_false_2 by (by intros [? ?]). simpl.
    rewrite andb_true_r. destruct (0 <? _); [done|]. by rewrite app_nil_r.
Qed.

Lemma C2_witness :
  HierarchyFileName ex_options_no_index = None /\
  vtkWrapXML_MergeSuperClasses 3 ex_world_empty ex_options_no_index ex_data ex_B
    = Done (None, ex_B, []) /\
  find_class ex_data "A" = Some ex_A /\
  resolve ex_world_parse_fails ex_data None "A" false = Resolved ex_data (Some ex_A) [] /\
  find_class ex_data_B "A" = None /\
  vtkWrapXML_MergeHelper 3 ex_world_empty ex_data_B (Some []) "A" false (ex_info, ex_B, [])
    = Done (ex_info, ex_B, []).
Proof.
  pose proof (C2_local_lookup_and_no_index 2 ex_world_empty ex_options_no_index ex_data ex_B)
    as (H1 & H2 & _).
  pose proof (C2_local_lookup_and_no_index 2 ex_world_empty ex_options_no_index ex_data_B ex_B)
    as (_ & _ & H3).
  split; [reflexivity|].
  split; [exact (proj1 (C2_local_lookup_and_no_index 3 ex_world_empty
                          ex_options_no_index ex_data ex_B) eq_refl)|].
  split; [reflexivity|].
  split; [exact (proj1 (H2 ex_world_parse_fails None "A" false ex_A eq_refl))|].
  split; [reflexivity|].
  exact (H3 (Some []) "A" false (ex_info, ex_B, []) eq_refl eq_refl).
Defined.

(** ** Fatal failures of the resolution *)








(** ** Contributors of the methods of a visited class *)

Lemma sig_match_name f2 func fname :
  sig_match f2 func fname = true -> Name f2 = Some fname.
Proof.
  unfold sig_match, name_is. intros [H _]%andb_true_iff.
  destruct (Name f2); [|done]. by apply String.eqb_eq in H as ->.
Qed.

Lemma sig_match_entry_after g gname f2 func fname :
  sig_match (entry_after g gname f2) func fname = sig_match f2 func fname.
Proof.
  unfold entry_after. destruct (sig_match f2 g gname); [|done].
  apply sig_match_merge_function.
Qed.

Lemma Name_entry_after g gname f2 : Name (entry_after g gname f2) = Name f2.
Proof. unfold entry_after. by destruct (sig_match f2 g gname). Qed.

Lemma chain_after_elem g gname depth f2 ch (d : Z) :
  d ∈ ch -> d ∈ chain_after g gname depth f2 ch.
Proof.
  intros Hd. unfold chain_after. destruct (sig_match f2 g gname); [|done].
  by eapply elem_of_prefix; [|apply push_unique_prefix].
Qed.

Lemma round_abs_covered_func cname depth g fl chains d func fname :
  length chains = length fl ->
  covered_func d func fname fl chains ->
  covered_func d func fname (round_abs cname depth g (fl, chains)).1
    (round_abs cname depth g (fl, chains)).2.
Proof.
  intros Hlen [(f0 & Hf0 & Hn0) Hcov]. unfold round_abs.
  destruct (Name g) as [gname|] eqn:Eg; [|by split; eauto].
  destruct (not_inherited gname cname); [by split; eauto|]. simpl.
  destruct (existsb (fun f2 => name_is f2 gname) fl) eqn:Hex; simpl.
  - split.
    + exists (entry_after g gname f0). split; [by apply list_elem_of_fmap_2|].
      by rewrite Name_entry_after.
    + intros j f2' ch'. rewrite list_lookup_fmap, lookup_zip_with.
      destruct (fl !! j) as [f2|] eqn:Ej; [|done]. simpl. intros [= <-].
      destruct (chains !! j) as [ch|] eqn:Ec; [|done]. simpl. intros [= <-].
      rewrite sig_match_entry_after. intros Hs.
      apply chain_after_elem. by eapply Hcov.
  - split.
    + exists f0. split; [|done]. apply elem_of_app. by left.
    + intros j f2 ch Hj Hc Hs.
      destruct (decide (j < length fl)%nat) as [Hlt|Hge].
      * rewrite lookup_app_l in Hj by done. rewrite lookup_app_l in Hc by lia.
        by eapply Hcov.
      * exfalso. rewrite lookup_app_r in Hj by lia.
        destruct (j - length fl)%nat; [|done]. injection Hj as <-.
        apply sig_match_name in Hs. rewrite copy_function_id, Eg in Hs. injection Hs as ->.
        assert (existsb (fun f2 => name_is f2 fname) fl = true) as Ht
          by (apply existsb_name_is; eauto).
        congruence.
Qed.

Lemma round_abs_covers cname depth func fname fl chains :
  length chains = length fl ->
  Name func = Some fname -> not_inherited fname cname = false ->
  covered_func depth func fname (round_abs cname depth func (fl, chains)).1
    (round_abs cname depth func (fl, chains)).2.
Proof.
  intros Hlen Hn Hni. unfold round_abs. rewrite Hn, Hni. simpl.
  destruct (existsb (fun f2 => name_is f2 fname) fl) eqn:Hex; simpl.
  - split.
    + apply existsb_name_is in Hex as (f0 & Hf0 & Hn0).
      exists (entry_after func fname f0). split; [by apply list_elem_of_fmap_2|].
      by rewrite Name_entry_after.
    + intros j f2' ch'. rewrite list_lookup_fmap, lookup_zip_with.
      destruct (fl !! j) as [f2|] eqn:Ej; [|done]. simpl. intros [= <-].
      destruct (chains !! j) as [ch|] eqn:Ec; [|done]. simpl. intros [= <-].
      rewrite sig_match_entry_after. intros Hs. unfold chain_after. rewrite Hs.
      by apply push_unique_elem, Z.eqb_eq.
  - split.
    + exists (copy_function func). split; [apply elem_of_app; right; apply list_elem_of_here|].
      by rewrite copy_function_id.
    + intros j f2 ch Hj Hc Hs.
      destruct (decide (j < length fl)%nat) as [Hlt|Hge].
      * exfalso. rewrite lookup_app_l in Hj by done.
        apply sig_match_name in Hs.
        assert (existsb (fun f2 => name_is f2 fname) fl = true) as Ht.
        { apply existsb_name_is. exists f2. split; [|done]. by eapply list_elem_of_lookup_2. }
        congruence.
      * rewrite lookup_app_r in Hc by lia. rewrite Hlen in Hc.
        rewrite lookup_app_r in Hj by lia.
        destruct (j - length fl)%nat; [|done]. injection Hc as <-. apply list_elem_of_here.
Qed.

Lemma Merge_abs_covered_func cname depth (sfl : list FunctionInfo) d func fname :
  forall fl chains,
    length chains = length fl ->
    covered_func d func fname fl chains ->
    covered_func d func fname (Merge_abs cname depth sfl (fl, chains)).1
      (Merge_abs cname depth sfl (fl, chains)).2.
Proof.
  induction sfl as [|g sfl IH]; intros fl chains Hlen Hcov; [done|]. simpl.
  pose proof (round_abs_covered_func cname depth g fl chains d func fname Hlen Hcov) as H1.
  pose proof (round_abs_length cname depth g (fl, chains) Hlen) as [_ Hl1].
  destruct (round_abs cname depth g (fl, chains)) as [fl1 chains1]. by apply IH.
Qed.

Lemma Merge_abs_covers cname depth (sfl : list FunctionInfo) :
  forall fl chains func fname,
    length chains = length fl ->
    func ∈ sfl -> Name func = Some fname -> not_inherited fname cname = false ->
    covered_func depth func fname (Merge_abs cname depth sfl (fl, chains)).1
      (Merge_abs cname depth sfl (fl, chains)).2.
Proof.
  induction sfl as [|g sfl IH]; intros fl chains func fname Hlen Hin Hn Hni.
  { by apply elem_of_nil in Hin. }
  simpl. pose proof (round_abs_length cname depth g (fl, chains) Hlen) as [_ Hl1].
  apply elem_of_cons in Hin as [->|Hin].
  - pose proof (round_abs_covers cname depth g fname fl chains Hlen Hn Hni) as H1.
    destruct (round_abs cname depth g (fl, chains)) as [fl1 chains1].
    by apply Merge_abs_covered_func.
  - destruct (round_abs cname depth g (fl, chains)) as [fl1 chains1]. by apply IH.
Qed.

Lemma round_abs_NoDup cname depth g fl chains :
  Forall NoDup chains -> Forall NoDup (round_abs cname depth g (fl, chains)).2.
Proof.
  intros Hnd. unfold round_abs. destruct (Name g) as [gname|]; [|done].
  destruct (not_inherited gname cname); [done|]. simpl.
  destruct (existsb _ fl); simpl.
  - apply Forall_lookup. intros j ch'. rewrite lookup_zip_with.
    destruct (fl !! j) as [f2|]; [|done]. simpl.
    destruct (chains !! j) as [ch|] eqn:Ec; [|done]. simpl. intros [= <-].
    pose proof (Forall_lookup_1 _ _ _ _ Hnd Ec) as Hch.
    unfold chain_after. destruct (sig_match f2 g gname); [|done].
    apply push_unique_NoDup; [apply Z.eqb_eq|done].
  - apply Forall_app. split; [done|]. constructor; [apply NoDup_singleton|done].
Qed.

Lemma Merge_abs_NoDup cname depth (sfl : list FunctionInfo) :
  forall fl chains,
    Forall NoDup chains -> Forall NoDup (Merge_abs cname depth sfl (fl, chains)).2.
Proof.
  induction sfl as [|g sfl IH]; intros fl chains Hnd; [done|]. simpl.
  pose proof (round_abs_NoDup cname depth g fl chains Hnd) as H1.
  destruct (round_abs cname depth g (fl, chains)) as [fl1 chains1]. by apply IH.
Qed.

Lemma grows_refl names fl chains : grows names fl chains names fl chains.
Proof. by split. Qed.

Lemma grows_trans n1 f1 c1 n2 f2 c2 n3 f3 c3 :
  grows n1 f1 c1 n2 f2 c2 -> grows n2 f2 c2 n3 f3 c3 -> grows n1 f1 c1 n3 f3 c3.
Proof. intros [H1 H2] [H3 H4]. split; [by etrans|]. intros d func fname H. by apply H4, H2. Qed.

Lemma covered_grows cname sfl n1 f1 c1 n2 f2 c2 :
  grows n1 f1 c1 n2 f2 c2 -> covered cname sfl n1 f1 c1 -> covered cname sfl n2 f2 c2.
Proof.
  intros [Hpre Hcov] (d & Hd & Hall). exists d. split.
  - by eapply prefix_lookup_Some.
  - intros func fname Hin Hn Hni. by apply Hcov, Hall.
Qed.

Lemma methods_of_inj (X : ClassInfo) (sfl sfl' : list FunctionInfo) :
  methods_of X sfl -> methods_of X sfl' -> sfl = sfl'.
Proof.
  intros [[r Hb] Hl] [[r' Hb'] Hl']. rewrite Hb in Hb'.
  apply app_inj_1 in Hb' as [Heq _]; [|rewrite !length_fmap; lia].
  by apply (inj (fmap Some)) in Heq.
Qed.

(** One merge of the walk. *)
Lemma Merge_walk info merge X names fl chains info' merge' depth :
  rep info merge names fl chains -> NoDup names -> Forall NoDup chains ->
  vtkParseMerge_Merge info merge X = Some (info', merge', depth) ->
  exists names' fl' chains',
    rep info' merge' names' fl' chains' /\ NoDup names' /\ Forall NoDup chains' /\
    grows names fl chains names' fl' chains' /\ same_frame merge merge' /\
    forall sfl, methods_of X sfl -> covered (ClassName X) sfl names' fl' chains'.
Proof.
  intros Hrep Hnd Hcnd Hrun.
  destruct (Merge_inv _ _ _ _ _ _ _ _ _ Hrep Hrun) as (sfl & Hsfl & Hd & Hrep' & Hfr).
  destruct Hrep as (_ & _ & Hlen).
  eexists _, _, _. split; [exact Hrep'|].
  split; [by apply push_unique_NoDup; [apply String_eqb_eq|]|].
  split; [by apply Merge_abs_NoDup|].
  split; [|split; [done|]].
  - split; [apply push_unique_prefix|].
    intros d func fname. by apply Merge_abs_covered_func.
  - intros sfl' Hsfl'. rewrite (methods_of_inj X sfl' sfl Hsfl' Hsfl).
    exists (push_index String.eqb names (ClassName X)). split.
    + pose proof (push_unique_index String.eqb String_eqb_eq names (ClassName X)) as Hi.
      by apply index_of_Some in Hi as [? _]; [|apply String_eqb_eq].
    + intros func fname Hin Hn Hni. rewrite <- Hd. by apply Merge_abs_covers.
Qed.

(** The loop over the superclasses, given what one visit does. *)
Lemma walk_supers_walk (visit : string -> walk_state -> outcome walk_state)
    (V : string -> ClassInfo -> Prop) :
  (forall super st st' names fl chains,
     visit super st = Done st' -> walk_ok st names fl chains ->
     exists names' fl' chains',
       walk_ok st' names' fl' chains' /\ grows names fl chains names' fl' chains' /\
       same_frame st.1.2 st'.1.2 /\
       forall X sfl, V super X -> methods_of X sfl ->
                     covered (ClassName X) sfl names' fl' chains') ->
  forall (supers : list string) st st' names fl chains,
    walk_supers visit supers (Done st) = Done st' -> walk_ok st names fl chains ->
    exists names' fl' chains',
      walk_ok st' names' fl' chains' /\ grows names fl chains names' fl' chains' /\
      same_frame st.1.2 st'.1.2 /\
      forall super X sfl, super ∈ supers -> V super X -> methods_of X sfl ->
                          covered (ClassName X) sfl names' fl' chains'.
Proof.
  intros Hvisit. induction supers as [|s supers IH]; intros st st' names fl chains Hrun Hok.
  - injection Hrun as <-. exists names, fl, chains. split; [done|]. split; [apply grows_refl|].
    split; [done|]. intros super X sfl Hin. by apply elem_of_nil in Hin.
  - rewrite walk_supers_cons in Hrun.
    destruct (visit s st) as [st1| | |] eqn:Ev;
      try (rewrite walk_supers_stops in Hrun by done; discriminate).
    destruct (Hvisit s st st1 names fl chains Ev Hok)
      as (n1 & f1 & c1 & Hok1 & Hg1 & Hfr1 & Hcov1).
    destruct (IH st1 st' n1 f1 c1 Hrun Hok1) as (n2 & f2 & c2 & Hok2 & Hg2 & Hfr2 & Hcov2).
    exists n2, f2, c2. split; [done|]. split; [by eapply grows_trans|].
    split; [by eapply same_frame_trans|].
    intros super X sfl [->|Hin]%elem_of_cons HV Hm.
    + eapply covered_grows; [exact Hg2|]. by apply Hcov1.
    + by eapply Hcov2.
Qed.

(** The recursive walk: every class that it visits is covered when it
    returns. *)
Lemma MergeHelper_walk (w : World) (hinfo : option HierarchyInfo) (hintfile : bool)
    (fuel : nat) :
  forall data classname st st' names fl chains,
    vtkWrapXML_MergeHelper fuel w data hinfo classname hintfile st = Done st' ->
    walk_ok st names fl chains ->
    exists names' fl' chains',
      walk_ok st' names' fl' chains' /\ grows names fl chains names' fl' chains' /\
      same_frame st.1.2 st'.1.2 /\
      forall X sfl, Visits w hinfo hintfile data classname X -> methods_of X sfl ->
                    covered (ClassName X) sfl names' fl' chains'.
Proof.
  induction fuel as [|fuel IH]; intros data classname [[info merge] err] st' names fl chains Hrun Hok;
    [done|].
  simpl in Hrun.
  destruct (resolve w data hinfo classname hintfile) as [data' [cinfo|] e| |status e] eqn:Er;
    try done.
  - destruct (vtkParseMerge_Merge info merge cinfo) as [[[info1 merge1] depth]|] eqn:Em; [|done].
    destruct Hok as (Hrep & Hnd & Hcnd). simpl in Hrep.
    destruct (Merge_walk _ _ _ _ _ _ _ _ _ Hrep Hnd Hcnd Em)
      as (n1 & f1 & c1 & Hrep1 & Hnd1 & Hcnd1 & Hg1 & Hfr1 & Hcov1).
    destruct (walk_supers_walk _ (Visits w hinfo hintfile data')
                (fun super st st' => IH data' super st st')
                (SuperClasses cinfo) _ st' n1 f1 c1 Hrun)
      as (n2 & f2 & c2 & Hok2 & Hg2 & Hfr2 & Hcov2).
    { by split. }
    exists n2, f2, c2. split; [done|]. split; [by eapply grows_trans|].
    split; [by eapply same_frame_trans|].
    intros X sfl HV Hm. inversion HV as [? ? d1 c1' e1 Hr1|? ? d1 c1' e1 super X' Hr1 Hin HV']; subst.
    + rewrite Er in Hr1. injection Hr1 as <- <- <-.
      eapply covered_grows; [exact Hg2|]. by apply Hcov1.
    + rewrite Er in Hr1. injection Hr1 as <- <- <-. by eapply Hcov2.
  - injection Hrun as <-. exists names, fl, chains. split; [done|]. split; [apply grows_refl|].
    split; [done|]. intros X sfl HV. inversion HV; congruence.
  - injection Hrun as <-. exists names, fl, chains. split; [done|]. split; [apply grows_refl|].
    split; [done|]. intros X sfl HV. inversion HV; congruence.
Qed.

(** A contributor that is in a chain without repetition occurs once. *)
Lemma NoDup_count_one (ch : list Z) (d : Z) :
  NoDup ch -> d ∈ ch -> count_occ Z.eq_dec ch d = 1%nat.
Proof.
  intros Hnd Hin. apply NoDup_ListNoDup in Hnd. apply list_elem_of_In in Hin.
  by apply NoDup_count_occ'.
Qed.

(** C4. When [vtkWrapXML_MergeSuperClasses] returns a MergeInfo:
    - no name is twice in the registry and no contributor is twice in an
      override chain;
    - every class [A] that the walk visits from a base of the root (in the
      diamond: [A], visited from [B] and again from [C]) is in the registry at
      exactly one index, and for every method of [A] that a merge does not
      skip, some flattened entry has its name and the chain of every
      flattened entry that is override-equivalent to it has the index of [A]
      exactly once;
    - in every state that the functions of vtkParseMerge.c reach, registering
      a name that the registry has returns the index of the name and leaves
      the MergeInfo as it was. *)
Theorem C4_diamond_registered_once
    (fuel : nat) (w : World) (oinfo : OptionInfo) (data : NamespaceInfo)
    (root : ClassInfo) (fl0 : list FunctionInfo)
    (info' : MergeInfo) (merge' : ClassInfo) (err : list string) :
  rep_class root fl0 ->
  vtkWrapXML_MergeSuperClasses fuel w oinfo data root = Done (Some info', merge', err) ->
  exists hierarchyFileName names fl chains,
    HierarchyFileName oinfo = Some hierarchyFileName /\
    rep info' merge' names fl chains /\
    names !! O = Some (ClassName root) /\
    NoDup names /\ Forall NoDup chains /\
    (forall base A sfl,
       base ∈ SuperClasses root ->
       Visits w (vtkParseHierarchy_ReadFile w hierarchyFileName) (open_hints w oinfo)
         data base A ->
       methods_of A sfl ->
       exists d : nat,
         names !! d = Some (ClassName A) /\
         (forall d' : nat, names !! d' = Some (ClassName A) -> d' = d) /\
         forall func fname,
           func ∈ sfl -> Name func = Some fname ->
           not_inherited fname (ClassName A) = false ->
           (exists f2, f2 ∈ fl /\ Name f2 = Some fname) /\
           forall (j : nat) f2 ch,
             fl !! j = Some f2 -> chains !! j = Some ch ->
             wf_function f2 -> wf_function func -> override_equivalent f2 func ->
             count_occ Z.eq_dec ch (Z.of_nat d) = 1%nat) /\
    (forall info1 names1 chains1 name (d : nat),
       rep_info info1 names1 chains1 -> NoDup names1 -> names1 !! d = Some name ->
       vtkParseMerge_PushClass info1 name = Some (info1, Z.of_nat d)).
Proof.
  intros Hroot Hrun. unfold vtkWrapXML_MergeSuperClasses in Hrun.
  destruct (HierarchyFileName oinfo) as [hf|]; [|done].
  destruct (CreateMergeInfo_rep root fl0 Hroot) as (info0 & Hc & Hrep0).
  rewrite Hc in Hrun.
  destruct (walk_supers _ _ _) as [[[info1 merge1] err1]| | |] eqn:Ew; try done.
  injection Hrun as <- <- <-.
  destruct (walk_supers_walk _ (Visits w (vtkParseHierarchy_ReadFile w hf) (open_hints w oinfo) data)
              (fun super st st' =>
                 MergeHelper_walk w (vtkParseHierarchy_ReadFile w hf) (open_hints w oinfo)
                   fuel data super st st')
              (SuperClasses root) _ _ [ClassName root] fl0 (replicate (length fl0) [0]) Ew)
    as (names & fl & chains & (Hrep & Hnd & Hcnd) & [Hpre _] & _ & Hcov).
  { split; [done|]. split; [apply NoDup_singleton|].
    apply Forall_replicate, NoDup_singleton. }
  simpl in Hrep. exists hf, names, fl, chains.
  split; [done|]. split; [done|].
  split; [by apply (prefix_lookup_Some [ClassName root])|].
  split; [done|]. split; [done|]. split.
  - intros base A sfl Hbase HV Hm.
    destruct (Hcov base A sfl Hbase HV Hm) as (d & Hd & Hall).
    exists d. split; [done|]. split.
    + intros d' Hd'. by eapply NoDup_lookup.
    + intros func fname Hin Hn Hni. destruct (Hall func fname Hin Hn Hni) as [Hname Hch].
      split; [done|]. intros j f2 ch Hj Hcj Hw2 Hw Heq.
      apply NoDup_count_one; [by eapply Forall_lookup_1|].
      eapply Hch; [done..|]. by apply sig_match_spec.
  - intros info2 names2 chains2 name d Hinfo Hnd2 Hd.
    destruct (PushClass_spec info2 names2 chains2 name Hinfo) as (info3 & Hrun & _ & Hsame).
    assert (Hin : name ∈ names2) by (by eapply list_elem_of_lookup_2).
    rewrite <- (Hsame Hin) at 2. rewrite Hrun. do 3 f_equal.
    unfold push_index.
    destruct (index_of String.eqb name names2) as [i|] eqn:Ei.
    + simpl. apply (index_of_Some _ String_eqb_eq) in Ei as [Hi _].
      by eapply NoDup_lookup.
    + by apply (index_of_None _ String_eqb_eq) in Ei.
Qed.

Lemma ex_diamond_run :
  vtkWrapXML_MergeSuperClasses 2 ex_world_empty ex_options ex_diamond ex_diamond_D
  = Done (Some ex_diamond_info, ex_diamond_merged, []).
Proof. vm_compute. reflexivity. Qed.

Lemma ex_diamond_visits_A :
  Visits ex_world_empty (vtkParseHierarchy_ReadFile ex_world_empty "hierarchy.txt")
    (open_hints ex_world_empty ex_options) ex_diamond "B" ex_diamond_A /\
  Visits ex_world_empty (vtkParseHierarchy_ReadFile ex_world_empty "hierarchy.txt")
    (open_hints ex_world_empty ex_options) ex_diamond "C" ex_diamond_A.
Proof.
  split.
  - apply (Visits_below _ _ _ ex_diamond "B" ex_diamond ex_diamond_B [] "A" ex_diamond_A);
      [reflexivity|apply list_elem_of_here|].
    by apply (Visits_here _ _ _ ex_diamond "A" ex_diamond ex_diamond_A []).
  - apply (Visits_below _ _ _ ex_diamond "C" ex_diamond ex_diamond_C [] "A" ex_diamond_A);
      [reflexivity|apply list_elem_of_here|].
    by apply (Visits_here _ _ _ ex_diamond "A" ex_diamond ex_diamond_A []).
Qed.

Lemma C4_witness :
  rep_class ex_diamond_D ex_diamond_D_methods /\
  vtkWrapXML_MergeSuperClasses 2 ex_world_empty ex_options ex_diamond ex_diamond_D
    = Done (Some ex_diamond_info, ex_diamond_merged, []) /\
  exists names fl chains,
    rep ex_diamond_info ex_diamond_merged names fl chains /\
    names !! O = Some "D" /\ NoDup names /\ Forall NoDup chains /\
    exists d : nat,
      names !! d = Some "A" /\
      (forall d' : nat, names !! d' = Some "A" -> d' = d) /\
      forall func fname,
        func ∈ [method "Foo" [INT_CODE] (Some "original") 1; method "A" [] None 0;
                 method "Bar" [] None 0] ->
        Name func = Some fname -> not_inherited fname "A" = false ->
        (exists f2, f2 ∈ fl /\ Name f2 = Some fname) /\
        forall (j : nat) f2 ch,
          fl !! j = Some f2 -> chains !! j = Some ch ->
          wf_function f2 -> wf_function func -> override_equivalent f2 func ->
          count_occ Z.eq_dec ch (Z.of_nat d) = 1%nat.
Proof.
  split; [apply class_of_rep|]. split; [exact ex_diamond_run|].
  destruct (C4_diamond_registered_once 2 ex_world_empty ex_options ex_diamond ex_diamond_D
              ex_diamond_D_methods ex_diamond_info ex_diamond_merged []
              (class_of_rep _ _ _ _) ex_diamond_run)
    as (hf & names & fl & chains & H1 & H2 & H3 & H4 & H5 & H6 & _).
  injection H1 as <-.
  exists names, fl, chains.
  refine (conj H2 (conj H3 (conj H4 (conj H5 _)))).
  apply (H6 "B" ex_diamond_A).
  - apply list_elem_of_here.
  - exact (proj1 ex_diamond_visits_A).
  - apply rep_class_methods_of, class_of_rep.
Defined.

(** ** The walk over a diamond returns *)

(** A merge returns when the array of the class has a free slot for each
    method of the ancestor. *)
Lemma Merge_returns info merge super names fl chains sfl :
  rep info merge names fl chains ->
  methods_of super sfl ->
  (length fl + length sfl <= length (Functions merge))%nat ->
  exists info' merge' depth names' fl' chains',
    vtkParseMerge_Merge info merge super = Some (info', merge', depth) /\
    rep info' merge' names' fl' chains' /\ same_frame merge merge' /\
    (length fl' <= length fl + length sfl)%nat.
Proof.
  intros Hrep Hsfl Hcap.
  pose proof (Merge_sim info merge super names fl chains sfl Hrep Hsfl) as Hs. simpl in Hs.
  pose proof (Merge_fl_length (ClassName super) sfl fl) as Hlen.
  rewrite Merge_abs_fl in Hs. rewrite decide_True in Hs by lia.
  destruct Hs as (info' & merge' & Hrun & Hrep' & Hfr).
  eexists info', merge', _, _, (Merge_fl (ClassName super) sfl fl), _.
  split; [done|]. split; [done|]. split; [done|]. lia.
Qed.

(** A name of the current namespace is resolved there, and the visit merges
    the class before it goes on to the bases. *)
Lemma resolve_local w data hinfo classname hintfile cinfo :
  find_class data classname = Some cinfo ->
  resolve w data hinfo classname hintfile = Resolved data (Some cinfo) [].
Proof.
  intros Hfind. unfold resolve. rewrite Hfind. rewrite bool_decide_eq_true_2 by eauto.
  simpl. by rewrite andb_false_r.
Qed.

Lemma MergeHelper_local fuel w data hinfo classname hintfile cinfo info merge err :
  find_class data classname = Some cinfo ->
  vtkWrapXML_MergeHelper (S fuel) w data hinfo classname hintfile (info, merge, err)
  = match vtkParseMerge_Merge info merge cinfo with
    | None => Undefined
    | Some (info', merge', _) =>
        walk_supers
          (fun super st' => vtkWrapXML_MergeHelper fuel w data hinfo super hintfile st')
          (SuperClasses cinfo) (Done (info', merge', err))
    end.
Proof.
  intros Hfind. simpl. rewrite (resolve_local _ _ _ _ _ _ Hfind). by rewrite app_nil_r.
Qed.

(** The visit of a class of the current namespace that has no base. *)
Lemma MergeHelper_local_leaf fuel w data hinfo hintfile classname X sfl
    info merge err names fl chains :
  find_class data classname = Some X -> SuperClasses X = [] ->
  methods_of X sfl ->
  rep info merge names fl chains ->
  (length fl + length sfl <= length (Functions merge))%nat ->
  exists info' merge' names' fl' chains',
    vtkWrapXML_MergeHelper (S fuel) w data hinfo classname hintfile (info, merge, err)
      = Done (info', merge', err) /\
    rep info' merge' names' fl' chains' /\ same_frame merge merge' /\
    (length fl' <= length fl + length sfl)%nat.
Proof.
  intros Hfind Hsup Hsfl Hrep Hcap.
  rewrite (MergeHelper_local _ _ _ _ _ _ _ _ _ _ Hfind).
  destruct (Merge_returns _ _ _ _ _ _ _ Hrep Hsfl Hcap)
    as (info' & merge' & depth & names' & fl' & chains' & -> & Hrep' & Hfr & Hlen).
  rewrite Hsup. simpl. by eexists info', merge', names', fl', chains'.
Qed.

(** The visit of a class of the current namespace whose one base is a class
    of the namespace that has no base. *)
Lemma MergeHelper_local_one fuel w data hinfo hintfile classname X sfl aname A afl
    info merge err names fl chains :
  find_class data classname = Some X -> SuperClasses X = [aname] ->
  find_class data aname = Some A -> SuperClasses A = [] ->
  methods_of X sfl -> methods_of A afl ->
  rep info merge names fl chains ->
  (length fl + length sfl + length afl <= length (Functions merge))%nat ->
  exists info' merge' names' fl' chains',
    vtkWrapXML_MergeHelper (S (S fuel)) w data hinfo classname hintfile (info, merge, err)
      = Done (info', merge', err) /\
    rep info' merge' names' fl' chains' /\ same_frame merge merge' /\
    (length fl' <= length fl + length sfl + length afl)%nat.
Proof.
  intros Hfind Hsup HfindA HsupA Hsfl Hafl Hrep Hcap.
  rewrite (MergeHelper_local _ _ _ _ _ _ _ _ _ _ Hfind).
  destruct (Merge_returns _ _ _ _ _ _ _ Hrep Hsfl)
    as (info1 & merge1 & depth & n1 & f1 & c1 & -> & Hrep1 & Hfr1 & Hlen1); [lia|].
  rewrite Hsup, walk_supers_cons.
  destruct Hfr1 as (Hn1 & Hs1 & Hc1).
  destruct (MergeHelper_local_leaf fuel w data hinfo hintfile aname A afl
              info1 merge1 err n1 f1 c1 HfindA HsupA Hafl Hrep1)
    as (info2 & merge2 & n2 & f2 & c2 & -> & Hrep2 & Hfr2 & Hlen2); [lia|].
  simpl. eexists info2, merge2, n2, f2, c2. split; [done|]. split; [done|].
  split; [|lia]. eapply same_frame_trans; [|exact Hfr2]. by repeat split.
Qed.

(** With a hierarchy file named in the options, the walk from [D] over a
    diamond of classes of one namespace returns a MergeInfo for every fuel
    from two on, when the array of [D] has a free slot for each method of
    [B], of [C] and, twice, of [A]. *)
Lemma diamond_walk_returns fuel w oinfo hierarchyFileName data D B C A
    (flD flB flC flA : list FunctionInfo) (bname cname aname : string) :
  HierarchyFileName oinfo = Some hierarchyFileName ->
  rep_class D flD -> methods_of B flB -> methods_of C flC -> methods_of A flA ->
  SuperClasses D = [bname; cname] ->
  SuperClasses B = [aname] -> SuperClasses C = [aname] -> SuperClasses A = [] ->
  find_class data bname = Some B -> find_class data cname = Some C ->
  find_class data aname = Some A ->
  (length flD + length flB + length flA + length flC + length flA
   <= length (Functions D))%nat ->
  exists info' merge',
    vtkWrapXML_MergeSuperClasses (S (S fuel)) w oinfo data D = Done (Some info', merge', []).
Proof.
  intros Hhf HD HB HC HA HsD HsB HsC HsA HfB HfC HfA Hcap.
  unfold vtkWrapXML_MergeSuperClasses. rewrite Hhf.
  destruct (CreateMergeInfo_rep D flD HD) as (info0 & -> & Hrep0).
  rewrite HsD, walk_supers_cons.
  destruct (MergeHelper_local_one fuel w data (vtkParseHierarchy_ReadFile w hierarchyFileName)
              (open_hints w oinfo) bname B flB aname A flA info0 D [] _ _ _
              HfB HsB HfA HsA HB HA Hrep0)
    as (info1 & merge1 & n1 & f1 & c1 & -> & Hrep1 & (_ & _ & Hc1) & Hlen1); [lia|].
  rewrite walk_supers_cons.
  destruct (MergeHelper_local_one fuel w data (vtkParseHierarchy_ReadFile w hierarchyFileName)
              (open_hints w oinfo) cname C flC aname A flA info1 merge1 [] _ _ _
              HfC HsC HfA HsA HC HA Hrep1)
    as (info2 & merge2 & n2 & f2 & c2 & -> & Hrep2 & _ & Hlen2); [lia|].
  simpl. by eexists _, _.
Qed.

(** ** A whole merge, entry by entry *)

Lemma Merge_abs_app cname depth (l1 l2 : list FunctionInfo) st :
  Merge_abs cname depth (l1 ++ l2) st = Merge_abs cname depth l2 (Merge_abs cname depth l1 st).
Proof. apply fold_left_app. Qed.

Lemma merged_with_merge_function cname f2 g func :
  merged_with cname (merge_function f2 g) func = merged_with cname f2 func.
Proof.
  unfold merged_with. destruct (Name func) as [fname|]; [|done].
  by rewrite sig_match_merge_function.
Qed.

Lemma equivalents_merge_function cname f2 g (l : list FunctionInfo) :
  equivalents cname (merge_function f2 g) l = equivalents cname f2 l.
Proof. apply List.filter_ext. intros func. apply merged_with_merge_function. Qed.

Lemma existsb_merged_with cname f2 g (l : list FunctionInfo) :
  existsb (merged_with cname (merge_function f2 g)) l = existsb (merged_with cname f2) l.
Proof.
  induction l as [|func l IH]; [done|]. simpl.
  by rewrite merged_with_merge_function, IH.
Qed.

Lemma merged_with_name cname f2 func :
  merged_with cname f2 func = true ->
  exists fname, Name func = Some fname /\ not_inherited fname cname = false /\
                sig_match f2 func fname = true /\ Name f2 = Some fname.
Proof.
  unfold merged_with. destruct (Name func) as [fname|]; [|done].
  intros [Hni Hsig]%andb_true_iff. exists fname. apply negb_true_iff in Hni.
  repeat split; try done. by eapply sig_match_name.
Qed.

(** One round of the loop at one entry of the flattened list. *)
Lemma round_abs_entry cname depth g fl chains (j : nat) f2 ch :
  length chains = length fl ->
  fl !! j = Some f2 -> chains !! j = Some ch ->
  (round_abs cname depth g (fl, chains)).1 !! j
    = Some (if merged_with cname f2 g then merge_function f2 g else f2) /\
  (round_abs cname depth g (fl, chains)).2 !! j
    = Some (if merged_with cname f2 g then push_unique Z.eqb ch depth else ch).
Proof.
  intros Hl Hf Hc. unfold round_abs, merged_with.
  destruct (Name g) as [fname|]; [|done].
  destruct (not_inherited fname cname); [done|]. simpl.
  destruct (existsb _ fl) eqn:Hex; simpl.
  - rewrite list_lookup_fmap, Hf, lookup_zip_with, Hf. simpl. rewrite Hc. simpl.
    unfold entry_after, chain_after. by destruct (sig_match f2 g fname).
  - assert (Hno : sig_match f2 g fname = false).
    { apply not_true_is_false. intros Hsig.
      assert (existsb (fun f => name_is f fname) fl = true); [|congruence].
      apply existsb_name_is. exists f2.
      split; [by eapply list_elem_of_lookup_2|by eapply sig_match_name]. }
    rewrite Hno. rewrite !lookup_app_l; [done| |]; apply lookup_lt_is_Some; eauto.
Qed.

(** A whole merge at one entry of the flattened list: the entry is merged
    with each of its equivalents in turn, and its chain gets [depth] when
    there is one. *)
Lemma Merge_abs_entry cname depth (sfl : list FunctionInfo) :
  forall fl chains (j : nat) f2 ch,
    length chains = length fl ->
    fl !! j = Some f2 -> chains !! j = Some ch ->
    (Merge_abs cname depth sfl (fl, chains)).1 !! j
      = Some (fold_left merge_function (equivalents cname f2 sfl) f2) /\
    (Merge_abs cname depth sfl (fl, chains)).2 !! j
      = Some (if existsb (merged_with cname f2) sfl then push_unique Z.eqb ch depth else ch).
Proof.
  induction sfl as [|g sfl IH]; intros fl chains j f2 ch Hl Hf Hc; [done|].
  change (Merge_abs cname depth (g :: sfl) (fl, chains))
    with (Merge_abs cname depth sfl (round_abs cname depth g (fl, chains))).
  destruct (round_abs_entry cname depth g fl chains j f2 ch Hl Hf Hc) as [Hf1 Hc1].
  pose proof (round_abs_length cname depth g (fl, chains) Hl) as [_ Hl1].
  destruct (round_abs cname depth g (fl, chains)) as [fl1 chains1].
  simpl in Hf1, Hc1, Hl1.
  destruct (IH fl1 chains1 j _ _ Hl1 Hf1 Hc1) as [Hf2 Hc2].
  rewrite Hf2, Hc2.
  change (equivalents cname f2 (g :: sfl))
    with (if merged_with cname f2 g then g :: equivalents cname f2 sfl
          else equivalents cname f2 sfl).
  simpl existsb.
  destruct (merged_with cname f2 g) eqn:Hm; simpl; [|done].
  rewrite equivalents_merge_function. split; [done|]. f_equal.
  rewrite existsb_merged_with.
  destruct (existsb (merged_with cname f2) sfl); [apply push_unique_idem, Z.eqb_eq|done].
Qed.

(** What an entry is after it was merged with the methods of [l]. *)
Lemma fold_merge_function (l : list FunctionInfo) :
  forall f,
    let f' := fold_left merge_function l f in
    Name f' = Name f /\ NumberOfArguments f' = NumberOfArguments f /\
    ArgTypes f' = ArgTypes f /\ ArgClasses f' = ArgClasses f /\
    ReturnClass f' = ReturnClass f /\ Signature f' = Signature f /\
    (IsVirtual f' <> 0 <-> IsVirtual f <> 0 \/ exists g, g ∈ l /\ IsVirtual g <> 0) /\
    Comment f' = match Comment f with Some c => Some c | None => first_comment l end.
Proof.
  induction l as [|g l IH]; intros f; simpl.
  - do 6 (split; [done|]). split.
    + split; [by left|]. intros [H|(g & Hg & _)]; [done|by inversion Hg].
    + unfold first_comment. simpl. by destruct (Comment f).
  - destruct (IH (merge_function f g)) as (H1 & H2 & H3 & H4 & H5 & H6 & H7 & H8).
    simpl in *. rewrite H1, H2, H3, H4, H5, H6, H8. do 6 (split; [done|]). split; [split|].
    + intros Hv. apply H7 in Hv as [Hv|(h & Hh & Hv)].
      * destruct (Z.eqb_spec (IsVirtual g) 0) as [E|E]; [by left|].
        right. exists g. split; [apply list_elem_of_here|done].
      * right. exists h. split; [by apply list_elem_of_further|done].
    + intros Hv. apply H7. destruct Hv as [Hv|(h & Hh & Hv)].
      * left. by destruct (IsVirtual g =? 0).
      * apply elem_of_cons in Hh as [->|Hh].
        -- left. by replace (IsVirtual g =? 0) with false by (symmetry; by apply Z.eqb_neq).
        -- right. by exists h.
    + unfold first_comment. simpl. by destruct (Comment g), (Comment f).
Qed.

Lemma existsb_filter_nil {A : Type} (p : A -> bool) (l : list A) :
  List.filter p l = [] -> existsb p l = false.
Proof.
  induction l as [|a l IH]; [done|]. simpl. destruct (p a); [done|]. exact IH.
Qed.

(** The names of the entries after a merge: an entry of the list that the
    merge started from keeps its place and its name, and an entry that the
    merge appended has the name of a method of the ancestor that the merge
    does not skip and that no entry had when the merge started. *)
Lemma Merge_fl_names cname (sfl : list FunctionInfo) :
  forall fl (k : nat) g,
    Merge_fl cname sfl fl !! k = Some g ->
    (exists f, fl !! k = Some f /\ Name g = Name f) \/
    ((length fl <= k)%nat /\
     exists func fname,
       func ∈ sfl /\ Name func = Some fname /\ not_inherited fname cname = false /\
       Name g = Some fname /\ forall f2, f2 ∈ fl -> Name f2 <> Some fname).
Proof.
  induction sfl as [|g0 sfl IH]; intros fl k g Hk; [left; by exists g|].
  change (Merge_fl cname (g0 :: sfl) fl) with (Merge_fl cname sfl (round_fl cname g0 fl)) in Hk.
  apply IH in Hk. unfold round_fl in Hk.
  destruct (Name g0) as [fname0|] eqn:Hn0.
  2:{ destruct Hk as [Hk|(Hle & func & fname & Hin & Hk)]; [by left|right].
      split; [done|]. exists func, fname. split; [by apply list_elem_of_further|done]. }
  destruct (not_inherited fname0 cname) eqn:Hni0.
  { destruct Hk as [Hk|(Hle & func & fname & Hin & Hk)]; [by left|right].
    split; [done|]. exists func, fname. split; [by apply list_elem_of_further|done]. }
  destruct (existsb (fun f2 => name_is f2 fname0) fl) eqn:Hex.
  - destruct Hk as [(f1 & Hf1 & Hname)|(Hle & func & fname & Hin & Hn & Hni & Hg & Hnew)].
    + left. rewrite list_lookup_fmap in Hf1.
      destruct (fl !! k) as [f|]; [|done]. injection Hf1 as <-.
      exists f. split; [done|]. by rewrite Hname, Name_entry_after.
    + right. rewrite length_fmap in Hle. split; [done|]. exists func, fname.
      split; [by apply list_elem_of_further|]. do 3 (split; [done|]).
      intros f2 Hf2. rewrite <- (Name_entry_after g0 fname0 f2).
      apply Hnew. by apply list_elem_of_fmap_2.
  - assert (Hfresh : forall f2, f2 ∈ fl -> Name f2 <> Some fname0).
    { intros f2 Hf2 Hname.
      assert (existsb (fun f => name_is f fname0) fl = true); [|congruence].
      apply existsb_name_is. by exists f2. }
    destruct Hk as [(f1 & Hf1 & Hname)|(Hle & func & fname & Hin & Hn & Hni & Hg & Hnew)].
    + destruct (decide (k < length fl)%nat) as [Hlt|Hge].
      * left. rewrite lookup_app_l in Hf1 by done. by exists f1.
      * right. split; [lia|]. rewrite lookup_app_r in Hf1 by lia.
        destruct (k - length fl)%nat; [|done]. injection Hf1 as <-.
        exists g0, fname0. split; [apply list_elem_of_here|].
        do 2 (split; [done|]). split; [by rewrite Hname|done].
    + right. rewrite length_app in Hle. split; [lia|]. exists func, fname.
      split; [by apply list_elem_of_further|]. do 3 (split; [done|]).
      intros f2 Hf2. apply Hnew, elem_of_app. by left.
Qed.

(** A method of a new name, the first of its name in the ancestor, is
    appended, and what follows it in the ancestor leaves its chain alone. *)
Lemma Merge_abs_first_of_name cname depth (pre post : list FunctionInfo) func fname fl chains :
  length chains = length fl ->
  Name func = Some fname -> not_inherited fname cname = false ->
  (forall f2, f2 ∈ fl -> Name f2 <> Some fname) ->
  (forall g, g ∈ pre -> Name g <> Some fname) ->
  let k := length (Merge_fl cname pre fl) in
  (length fl <= k)%nat /\
  (Merge_abs cname depth (pre ++ func :: post) (fl, chains)).1 !! k
    = Some (fold_left merge_function (equivalents cname func post) func) /\
  (Merge_abs cname depth (pre ++ func :: post) (fl, chains)).2 !! k = Some [depth].
Proof.
  intros Hl Hname Hni Hfl Hpre k.
  pose proof (Merge_fl_length cname pre fl) as [Hle _]. split; [done|].
  rewrite Merge_abs_app.
  pose proof (Merge_abs_length cname depth pre (fl, chains) Hl) as [_ Hl1].
  pose proof (Merge_abs_fl cname depth pre fl chains) as Hfl1.
  destruct (Merge_abs cname depth pre (fl, chains)) as [fl1 chains1].
  simpl in Hl1, Hfl1. subst fl1. fold k in Hl1.
  assert (Hex : existsb (fun f2 => name_is f2 fname) (Merge_fl cname pre fl) = false).
  { apply not_true_is_false. intros (f1 & Hin & Hn1)%existsb_name_is.
    apply list_elem_of_lookup in Hin as [k1 Hk1].
    apply Merge_fl_names in Hk1 as [(f & Hf & Hnf)|(_ & g & gname & Hg & Hng & _ & Hn & _)].
    - apply (Hfl f); [by eapply list_elem_of_lookup_2|congruence].
    - apply (Hpre g Hg). congruence. }
  change (Merge_abs cname depth (func :: post) (Merge_fl cname pre fl, chains1))
    with (Merge_abs cname depth post
            (round_abs cname depth func (Merge_fl cname pre fl, chains1))).
  assert (Hround : round_abs cname depth func (Merge_fl cname pre fl, chains1)
                   = (Merge_fl cname pre fl ++ [func], chains1 ++ [[depth]])).
  { unfold round_abs. rewrite Hname, Hni. simpl. by rewrite Hex, copy_function_id. }
  rewrite Hround.
  destruct (Merge_abs_entry cname depth post (Merge_fl cname pre fl ++ [func])
              (chains1 ++ [[depth]]) k func [depth]) as [Hf Hc].
  - rewrite !length_app. simpl. lia.
  - unfold k. by rewrite lookup_app_r, Nat.sub_diag by lia.
  - rewrite <- Hl1. by rewrite lookup_app_r, Nat.sub_diag by lia.
  - split; [done|]. rewrite Hc. f_equal.
    destruct (existsb _ post); [|done].
    unfold push_unique. simpl. by rewrite Z.eqb_refl.
Qed.

(** The merge returns when the array has room for the methods that it
    appends, and the index that it returns is the index of the ancestor in
    the registry. *)
Lemma Merge_run info merge super names fl chains sfl :
  rep info merge names fl chains ->
  methods_of super sfl ->
  (length fl + appended_by (ClassName super) sfl fl <= length (Functions merge))%nat ->
  let d := push_index String.eqb names (ClassName super) in
  let names' := push_unique String.eqb names (ClassName super) in
  let st' := Merge_abs (ClassName super) (Z.of_nat d) sfl (fl, chains) in
  exists info' merge',
    vtkParseMerge_Merge info merge super = Some (info', merge', Z.of_nat d) /\
    rep info' merge' names' st'.1 st'.2 /\
    names' !! d = Some (ClassName super) /\
    (ClassName super ∈ names -> names' = names).
Proof.
  intros Hrep Hsfl Hroom d names' st'.
  pose proof (Merge_sim info merge super names fl chains sfl Hrep Hsfl) as Hs.
  simpl in Hs. fold d in Hs. fold st' in Hs.
  pose proof (Merge_fl_length (ClassName super) sfl fl) as Hlen.
  assert (Hfit : (length st'.1 <= length (Functions merge))%nat).
  { unfold st'. rewrite Merge_abs_fl. unfold appended_by in Hroom. lia. }
  rewrite decide_True in Hs by done.
  destruct Hs as (info' & merge' & Hrun & Hrep' & _).
  exists info', merge'. split; [done|]. split; [done|]. split.
  - pose proof (push_unique_index String.eqb String_eqb_eq names (ClassName super)) as Hi.
    by apply (index_of_Some String.eqb String_eqb_eq) in Hi as [Hi _].
  - intros Hin. unfold names', push_unique.
    apply (index_of_is_Some String.eqb String_eqb_eq) in Hin as [i ->]. done.
Qed.

Lemma equivalents_spec cname f2 g (sfl : list FunctionInfo) :
  wf_function f2 -> wf_function g ->
  g ∈ equivalents cname f2 sfl <->
  g ∈ sfl /\ (exists gname, Name g = Some gname /\ not_inherited gname cname = false) /\
  override_equivalent f2 g.
Proof.
  intros Hwf2 Hwfg. unfold equivalents. rewrite !list_elem_of_In, filter_In.
  unfold merged_with. split.
  - intros [Hin Hm]. split; [done|]. destruct (Name g) as [gname|] eqn:Hn; [|done].
    apply andb_true_iff in Hm as [Hni Hsig]. apply negb_true_iff in Hni.
    split; [by exists gname|]. by apply (sig_match_spec f2 g gname).
  - intros (Hin & (gname & Hn & Hni) & Heq). split; [done|]. rewrite Hn, Hni. simpl.
    by apply (sig_match_spec f2 g gname).
Qed.

Lemma ex_info_B_rep : rep ex_info_B ex_B ["B"] ex_B_methods [[0]].
Proof.
  destruct (CreateMergeInfo_rep ex_B ex_B_methods (class_of_rep _ _ _ _))
    as (info0 & Hc & Hrep).
  assert (He : vtkParseMerge_CreateMergeInfo ex_B = Some ex_info_B) by reflexivity.
  rewrite Hc in He. by injection He as <-.
Qed.

(** C5. When a method [func] of the ancestor that the merge does not skip
    is override-equivalent to the entry [f2] at the position [j] of the
    flattened list, [vtkParseMerge_Merge] returns (the array having room for
    what the merge appends) the index [d] of the ancestor in the registry,
    and has merged in place:
    - no entry that the merge appended has the name of [func];
    - the entry is still at [j], with its name and its arguments;
    - its virtual flag is set exactly when it was set or the flag of one of
      the methods of the ancestor that are override-equivalent to the entry
      is set: the two flags, when [func] is the only such method;
    - its comment is the comment that it had, and when it had none, the
      first comment of these methods: the comment of [func], when [func] is
      the only one;
    - its chain got [d] once: it is the old chain when [d] was in it and the
      old chain followed by [d] otherwise, so it has the class that
      introduced the method first, and [d]. *)
Theorem C5_override_merged_in_place
    (info : MergeInfo) (merge super : ClassInfo) (names : list string)
    (fl : list FunctionInfo) (chains : list (list Z)) (sfl : list FunctionInfo)
    (func : FunctionInfo) (fname : string) (j : nat) (f2 : FunctionInfo) (ch : list Z) :
  rep info merge names fl chains ->
  methods_of super sfl ->
  (length fl + appended_by (ClassName super) sfl fl <= length (Functions merge))%nat ->
  func ∈ sfl -> Name func = Some fname ->
  not_inherited fname (ClassName super) = false ->
  wf_function func -> wf_function f2 ->
  fl !! j = Some f2 -> chains !! j = Some ch ->
  override_equivalent f2 func ->
  exists info' merge' (d : nat) fl' chains' f2' ch',
    vtkParseMerge_Merge info merge super = Some (info', merge', Z.of_nat d) /\
    rep info' merge' (push_unique String.eqb names (ClassName super)) fl' chains' /\
    push_unique String.eqb names (ClassName super) !! d = Some (ClassName super) /\
    (forall (k : nat) g, (length fl <= k)%nat -> fl' !! k = Some g -> Name g <> Some fname) /\
    fl' !! j = Some f2' /\ chains' !! j = Some ch' /\
    Name f2' = Name f2 /\ NumberOfArguments f2' = NumberOfArguments f2 /\
    ArgTypes f2' = ArgTypes f2 /\
    func ∈ equivalents (ClassName super) f2 sfl /\
    (IsVirtual f2' <> 0 <->
     IsVirtual f2 <> 0 \/
     exists g, g ∈ equivalents (ClassName super) f2 sfl /\ IsVirtual g <> 0) /\
    Comment f2' = match Comment f2 with
                  | Some c => Some c
                  | None => first_comment (equivalents (ClassName super) f2 sfl)
                  end /\
    (equivalents (ClassName super) f2 sfl = [func] ->
     (IsVirtual f2' <> 0 <-> IsVirtual f2 <> 0 \/ IsVirtual func <> 0) /\
     Comment f2' = match Comment f2 with Some c => Some c | None => Comment func end) /\
    (Z.of_nat d ∈ ch -> ch' = ch) /\ (Z.of_nat d ∉ ch -> ch' = ch ++ [Z.of_nat d]) /\
    (exists c0, ch !! O = Some c0 /\ ch' !! O = Some c0) /\
    Z.of_nat d ∈ ch'.
Proof.
  intros Hrep Hsfl Hroom Hin Hname Hni Hwf Hwf2 Hj Hcj Heq.
  destruct (Merge_run info merge super names fl chains sfl Hrep Hsfl Hroom)
    as (info' & merge' & Hrun & Hrep' & Hd & _).
  set (d := push_index String.eqb names (ClassName super)) in *.
  set (cname := ClassName super) in *.
  pose proof Hrep as (Hinfo & _ & Hlen).
  destruct (Merge_abs_entry cname (Z.of_nat d) sfl fl chains j f2 ch Hlen Hj Hcj) as [Hf Hc].
  assert (Hmem : func ∈ equivalents cname f2 sfl).
  { apply equivalents_spec; [done..|]. split; [done|]. split; [by exists fname|done]. }
  assert (Hex : existsb (merged_with cname f2) sfl = true).
  { apply existsb_exists. exists func. split; [by apply list_elem_of_In|].
    unfold equivalents in Hmem. apply list_elem_of_In, filter_In in Hmem. tauto. }
  rewrite Hex in Hc.
  destruct (fold_merge_function (equivalents cname f2 sfl) f2)
    as (H1 & H2 & H3 & _ & _ & _ & H7 & H8).
  eexists info', merge', d, _, _, _, _.
  split; [exact Hrun|]. split; [exact Hrep'|]. split; [exact Hd|]. split.
  { intros k g Hk Hg. rewrite Merge_abs_fl in Hg.
    apply Merge_fl_names in Hg as [(f & Hfk & _)|(_ & g0 & gname & _ & _ & _ & Hg & Hnew)].
    - apply lookup_lt_Some in Hfk. lia.
    - rewrite Hg. intros [= ->]. apply (Hnew f2); [by eapply list_elem_of_lookup_2|].
      destruct Heq as (name & Hn2 & Hnf & _). congruence. }
  split; [exact Hf|]. split; [exact Hc|].
  split; [exact H1|]. split; [exact H2|]. split; [exact H3|]. split; [exact Hmem|].
  split; [exact H7|]. split; [exact H8|]. split.
  { intros Hone. rewrite Hone in H7, H8 |- *. split.
    - rewrite H7. split; intros [Hv|Hv]; try by left.
      + destruct Hv as (g & ->%list_elem_of_singleton & Hv). by right.
      + right. exists func. split; [apply list_elem_of_here|done].
    - rewrite H8. unfold first_comment. simpl. by destruct (Comment func), (Comment f2). }
  split.
  { intros Hd'. unfold push_unique.
    destruct (index_of Z.eqb (Z.of_nat d) ch) eqn:E; [done|].
    by apply (index_of_None _ Z.eqb_eq) in E. }
  split.
  { intros Hnd. unfold push_unique.
    destruct (index_of Z.eqb (Z.of_nat d) ch) eqn:E; [|done].
    exfalso. apply Hnd, (index_of_is_Some _ Z.eqb_eq). by eauto. }
  split.
  { destruct (rep_info_chain_head _ _ _ _ _ Hinfo Hcj) as (c0 & Hc0). exists c0.
    split; [done|]. eapply prefix_lookup_Some; [done|apply push_unique_prefix]. }
  by apply push_unique_elem, Z.eqb_eq.
Qed.

Lemma C5_witness :
  rep ex_info_B ex_B ["B"] ex_B_methods [[0]] /\
  methods_of ex_A ex_A_methods /\
  override_equivalent (method "Foo" [INT_CODE] None 0)
    (method "Foo" [INT_CODE] (Some "original") 1) /\
  equivalents "A" (method "Foo" [INT_CODE] None 0) ex_A_methods
    = [method "Foo" [INT_CODE] (Some "original") 1] /\
  exists info' merge' (d : nat) fl' chains' f2' ch',
    vtkParseMerge_Merge ex_info_B ex_B ex_A = Some (info', merge', Z.of_nat d) /\
    rep info' merge' ["B"; "A"] fl' chains' /\
    ["B"; "A"] !! d = Some "A" /\
    (forall (k : nat) g, (1 <= k)%nat -> fl' !! k = Some g -> Name g <> Some "Foo") /\
    fl' !! O = Some f2' /\ chains' !! O = Some ch' /\
    Name f2' = Some "Foo" /\ NumberOfArguments f2' = 1 /\ ArgTypes f2' = [INT_CODE] /\
    (IsVirtual f2' <> 0 <-> 0 <> 0 \/ 1 <> 0) /\
    Comment f2' = Some "original" /\
    (Z.of_nat d ∉ [0] -> ch' = [0; Z.of_nat d]) /\
    Z.of_nat d ∈ ch'.
Proof.
  assert (Heq : override_equivalent (method "Foo" [INT_CODE] None 0)
                  (method "Foo" [INT_CODE] (Some "original") 1)).
  { exists "Foo". repeat split; reflexivity. }
  assert (Hsfl : methods_of ex_A ex_A_methods) by apply rep_class_methods_of, class_of_rep.
  split; [exact ex_info_B_rep|]. split; [exact Hsfl|]. split; [exact Heq|].
  split; [reflexivity|].
  destruct (C5_override_merged_in_place ex_info_B ex_B ex_A ["B"] ex_B_methods [[0]]
              ex_A_methods (method "Foo" [INT_CODE] (Some "original") 1) "Foo" O
              (method "Foo" [INT_CODE] None 0) [0] ex_info_B_rep Hsfl)
    as (info' & merge' & d & fl' & chains' & f2' & ch' & Hrun & Hrep & Hd & Hnone & Hf & Hc
        & Hn & Ha & Ht & _ & _ & _ & Hone & _ & Hch & _ & Hin).
  - vm_compute. lia.
  - apply list_elem_of_here.
  - reflexivity.
  - reflexivity.
  - unfold wf_function; simpl; lia.
  - unfold wf_function; simpl; lia.
  - reflexivity.
  - reflexivity.
  - exact Heq.
  - destruct (Hone eq_refl) as [Hv Hcm].
    exists info', merge', d, fl', chains', f2', ch'.
    repeat (split; [assumption|]). exact Hin.
Defined.

Lemma ex_info_B_rep_double :
  rep ex_info_B ex_B_double ["B"] [method "Foo" [DOUBLE_CODE] None 0] [[0]].
Proof.
  destruct ex_info_B_rep as (Hinfo & _ & _). split; [done|]. split; [apply class_of_rep|done].
Qed.

(** C1, amended.  [vtkParseMerge_Merge] returns (the array having room for
    what the merge appends) the index [d] of the ancestor in the registry,
    and for the methods of the ancestor that have a name and are neither its
    constructor nor its destructor:
    - a method whose name no entry of the flattened list has when the merge
      starts, and which is the first method of its name in the ancestor, is
      appended: an entry after the entries that the list had has its name
      and its arguments, and is the method itself when no later method of
      the ancestor is override-equivalent to it; the chain of this entry
      holds [d] alone;
    - every entry that the merge appends has the name of such a method: a
      method whose name some entry of the flattened list has when the merge
      starts is not appended, override-equivalent or not;
    - an entry to which no method of the ancestor is override-equivalent
      stays as it is, with its chain. *)
Theorem C1_new_name_appended
    (info : MergeInfo) (merge super : ClassInfo) (names : list string)
    (fl : list FunctionInfo) (chains : list (list Z)) (sfl : list FunctionInfo) :
  rep info merge names fl chains ->
  methods_of super sfl ->
  (length fl + appended_by (ClassName super) sfl fl <= length (Functions merge))%nat ->
  exists info' merge' (d : nat) fl' chains',
    vtkParseMerge_Merge info merge super = Some (info', merge', Z.of_nat d) /\
    rep info' merge' (push_unique String.eqb names (ClassName super)) fl' chains' /\
    push_unique String.eqb names (ClassName super) !! d = Some (ClassName super) /\
    (forall (i : nat) func fname,
       sfl !! i = Some func -> Name func = Some fname ->
       not_inherited fname (ClassName super) = false ->
       (forall f2, f2 ∈ fl -> Name f2 <> Some fname) ->
       (forall (i' : nat) g, (i' < i)%nat -> sfl !! i' = Some g -> Name g <> Some fname) ->
       exists (k : nat) f',
         (length fl <= k)%nat /\ fl' !! k = Some f' /\ chains' !! k = Some [Z.of_nat d] /\
         Name f' = Some fname /\ NumberOfArguments f' = NumberOfArguments func /\
         ArgTypes f' = ArgTypes func /\
         (equivalents (ClassName super) func (drop (S i) sfl) = [] -> f' = func)) /\
    (forall (k : nat) g,
       (length fl <= k)%nat -> fl' !! k = Some g ->
       exists func fname,
         func ∈ sfl /\ Name func = Some fname /\
         not_inherited fname (ClassName super) = false /\ Name g = Some fname /\
         forall f2, f2 ∈ fl -> Name f2 <> Some fname) /\
    (forall (j : nat) f2 ch,
       fl !! j = Some f2 -> chains !! j = Some ch ->
       equivalents (ClassName super) f2 sfl = [] ->
       fl' !! j = Some f2 /\ chains' !! j = Some ch).
Proof.
  intros Hrep Hsfl Hroom.
  destruct (Merge_run info merge super names fl chains sfl Hrep Hsfl Hroom)
    as (info' & merge' & Hrun & Hrep' & Hd & _).
  set (d := push_index String.eqb names (ClassName super)) in *.
  set (cname := ClassName super) in *.
  pose proof Hrep as (_ & _ & Hlen).
  eexists info', merge', d, _, _.
  split; [exact Hrun|]. split; [exact Hrep'|]. split; [exact Hd|]. split; [|split].
  - intros i func fname Hi Hname Hni Hnew Hfirst.
    pose proof (Merge_abs_first_of_name cname (Z.of_nat d) (take i sfl) (drop (S i) sfl)
                  func fname fl chains Hlen Hname Hni Hnew) as Hfirst'.
    rewrite (take_drop_middle sfl i func Hi) in Hfirst'.
    destruct Hfirst' as (Hk & Hf & Hc).
    { intros g [i' Hg]%list_elem_of_lookup_1. apply lookup_take_Some in Hg as [Hg Hlt].
      by apply (Hfirst i' g). }
    destruct (fold_merge_function (equivalents cname func (drop (S i) sfl)) func)
      as (H1 & H2 & H3 & _).
    eexists _, _. split; [exact Hk|]. split; [exact Hf|]. split; [exact Hc|].
    split; [by rewrite H1|]. split; [exact H2|]. split; [exact H3|].
    by intros ->.
  - intros k g Hk Hg. rewrite Merge_abs_fl in Hg.
    apply Merge_fl_names in Hg as [(f & Hfk & _)|(_ & Hg)]; [|exact Hg].
    apply lookup_lt_Some in Hfk. lia.
  - intros j f2 ch Hj Hcj Hnone.
    destruct (Merge_abs_entry cname (Z.of_nat d) sfl fl chains j f2 ch Hlen Hj Hcj) as [Hf Hc].
    rewrite Hnone in Hf. unfold equivalents in Hnone.
    by rewrite (existsb_filter_nil _ _ Hnone) in Hc.
Qed.

Lemma C1_witness :
  rep ex_info_B ex_B_double ["B"] [method "Foo" [DOUBLE_CODE] None 0] [[0]] /\
  methods_of ex_A_int_bar [method "Foo" [INT_CODE] None 0; method "Bar" [] None 0] /\
  exists info' merge' (d : nat) fl' chains',
    vtkParseMerge_Merge ex_info_B ex_B_double ex_A_int_bar
      = Some (info', merge', Z.of_nat d) /\
    rep info' merge' ["B"; "A"] fl' chains' /\
    ["B"; "A"] !! d = Some "A" /\
    (exists k : nat,
       (1 <= k)%nat /\ fl' !! k = Some (method "Bar" [] None 0) /\
       chains' !! k = Some [Z.of_nat d]) /\
    (forall (k : nat) g, (1 <= k)%nat -> fl' !! k = Some g -> Name g <> Some "Foo") /\
    fl' !! O = Some (method "Foo" [DOUBLE_CODE] None 0) /\ chains' !! O = Some [0].
Proof.
  assert (Hsfl : methods_of ex_A_int_bar
                   [method "Foo" [INT_CODE] None 0; method "Bar" [] None 0])
    by apply rep_class_methods_of, class_of_rep.
  split; [exact ex_info_B_rep_double|]. split; [exact Hsfl|].
  destruct (C1_new_name_appended ex_info_B ex_B_double ex_A_int_bar ["B"]
              [method "Foo" [DOUBLE_CODE] None 0] [[0]]
              [method "Foo" [INT_CODE] None 0; method "Bar" [] None 0]
              ex_info_B_rep_double Hsfl)
    as (info' & merge' & d & fl' & chains' & Hrun & Hrep & Hd & Hnew & Hhid & Hsame).
  - vm_compute. lia.
  - exists info', merge', d, fl', chains'.
    split; [exact Hrun|]. split; [exact Hrep|]. split; [exact Hd|]. split; [|split].
    + destruct (Hnew 1%nat (method "Bar" [] None 0) "Bar" eq_refl eq_refl eq_refl)
        as (k & f' & Hk & Hf & Hc & _ & _ & _ & Hf').
      * intros f2 ->%list_elem_of_singleton. discriminate.
      * intros [|i'] g Hlt Hg; [injection Hg as <-; discriminate|lia].
      * exists k. rewrite (Hf' eq_refl) in Hf. done.
    + intros k g Hk Hg. destruct (Hhid k g Hk Hg) as (func & fname & _ & _ & _ & Hn & Hfl).
      rewrite Hn. intros [= ->]. by apply (Hfl (method "Foo" [DOUBLE_CODE] None 0) (list_elem_of_here _ _)).
    + exact (Hsame O (method "Foo" [DOUBLE_CODE] None 0) [0] eq_refl eq_refl eq_refl).
Defined.

(** ** check_options *)

(** A run in which [--types] is not among the arguments has no hierarchy
    file name. *)
Lemma check_options_loop_no_types (n : nat) :
  forall (args : list string) i o calls,
    (length args <= n)%nat ->
    HierarchyFileName o = None -> "--types" ∉ args ->
    HierarchyFileName (check_options_loop args i o calls).1.2 = None.
Proof.
  induction n as [|n IH]; intros [|arg rest] i o calls Hlen Ho Hno; try done.
  { simpl in Hlen. lia. }
  simpl in Hlen. simpl. apply not_elem_of_cons in Hno as [Hne Hno].
  destruct (negb (starts_with_dash arg)); [done|].
  destruct (String.eqb arg "--concrete"); [by apply IH; [lia|..]|].
  destruct (String.eqb arg "--abstract"); [by apply IH; [lia|..]|].
  destruct (String.eqb arg "--vtkobject"); [by apply IH; [lia|..]|].
  destruct (String.eqb arg "--special"); [by apply IH; [lia|..]|].
  destruct (takes_value arg); [|by apply IH; [lia|..]].
  destruct rest as [|value rest']; [done|].
  destruct (starts_with_dash value); [done|].
  apply not_elem_of_cons in Hno as [_ Hno].
  destruct (apply_option arg value o calls) as [o' calls'] eqn:Ea.
  apply IH; [simpl in Hlen; lia| |done].
  unfold apply_option in Ea.
  destruct (String.eqb arg "--hints"); [by injection Ea as <- <-|].
  destruct (String.eqb_spec arg "--types") as [->|_]; [done|].
  destruct (String.eqb arg "-o"); [by injection Ea as <- <-|].
  destruct (String.eqb arg "-I"); [by injection Ea as <- <-|].
  destruct (String.eqb arg "-D"); by injection Ea as <- <-.
Qed.

Lemma check_options_no_types (argv : list string) :
  "--types" ∉ argv -> HierarchyFileName (check_options argv).1.2 = None.
Proof.
  intros Hno. apply (check_options_loop_no_types (length (tail argv))); [done..|].
  destruct argv as [|a rest]; [done|]. simpl. by apply not_elem_of_cons in Hno as [_ ?].
Qed.

Example check_options_example :
  check_options ["vtkWrapXML"; "--types"; "hierarchy.txt"; "-I"; "/usr/include"; "-D";
                 "VTK=1"; "--concrete"; "vtkObject.h"]
  = (8, mkOptionInfo None None 0 1 0 0 (Some "hierarchy.txt") None,
     [IncludeDirectory "/usr/include"; DefineMacro "VTK=1" "1"]).
Proof. reflexivity. Qed.

(** ** check_options on well-formed options *)

Lemma takes_value_dash (a : string) : takes_value a = true -> starts_with_dash a = true.
Proof.
  unfold takes_value. intros H.
  repeat (apply orb_true_iff in H as [H|H]);
    apply String.eqb_eq in H; subst a; reflexivity.
Qed.

Lemma takes_value_not_flag (a : string) :
  takes_value a = true ->
  String.eqb a "--concrete" = false /\ String.eqb a "--abstract" = false /\
  String.eqb a "--vtkobject" = false /\ String.eqb a "--special" = false.
Proof.
  unfold takes_value. intros H.
  repeat (apply orb_true_iff in H as [H|H]);
    apply String.eqb_eq in H; subst a; repeat split; reflexivity.
Qed.

(** One round of the loop on a word that takes a value. *)
Lemma check_options_loop_value a v rest i o calls :
  takes_value a = true -> starts_with_dash v = false ->
  check_options_loop (a :: v :: rest) i o calls =
  check_options_loop rest (i + 2) (apply_option a v o calls).1 (apply_option a v o calls).2.
Proof.
  intros Ha Hv. simpl. rewrite (takes_value_dash a Ha). simpl.
  destruct (takes_value_not_flag a Ha) as (-> & -> & -> & ->).
  rewrite Ha, Hv. by destruct (apply_option a v o calls).
Qed.

(** The loop on well-formed options followed by more arguments is the loop
    on the options, then the loop on the rest. *)
Lemma check_options_loop_words ws :
  option_words ws ->
  forall rest i o calls,
    (check_options_loop ws i o calls).1.1 = i + Z.of_nat (length ws) /\
    check_options_loop (ws ++ rest) i o calls =
    check_options_loop rest (i + Z.of_nat (length ws))
      (check_options_loop ws i o calls).1.2 (check_options_loop ws i o calls).2.
Proof.
  induction 1 as [|a ws Ha Hv Hws IH|a v ws Ha Hv Hws IH]; intros rest i o calls.
  - simpl. split; [lia|]. f_equal. lia.
  - assert (Hstep : forall l,
      check_options_loop (a :: l) i o calls =
      check_options_loop l (i + 1)
        (if String.eqb a "--concrete" then
           mkOptionInfo (InputFileName o) (OutputFileName o) (IsAbstract o) 1
             (IsVTKObject o) (IsSpecialObject o) (HierarchyFileName o) (HintFileName o)
         else if String.eqb a "--abstract" then
           mkOptionInfo (InputFileName o) (OutputFileName o) 1 (IsConcrete o)
             (IsVTKObject o) (IsSpecialObject o) (HierarchyFileName o) (HintFileName o)
         else if String.eqb a "--vtkobject" then
           mkOptionInfo (InputFileName o) (OutputFileName o) (IsAbstract o) (IsConcrete o)
             1 (IsSpecialObject o) (HierarchyFileName o) (HintFileName o)
         else if String.eqb a "--special" then
           mkOptionInfo (InputFileName o) (OutputFileName o) (IsAbstract o) (IsConcrete o)
             (IsVTKObject o) 1 (HierarchyFileName o) (HintFileName o)
         else o) calls).
    { intros l. simpl. rewrite Ha, Hv. simpl.
      by repeat destruct (String.eqb a _). }
    rewrite <- app_comm_cons, !Hstep.
    match goal with |- context [check_options_loop ws (i + 1) ?o' calls] =>
      destruct (IH rest (i + 1) o' calls) as [IH1 IH2] end.
    rewrite IH1, IH2. simpl length. split; [lia|]. f_equal. lia.
  - rewrite <- !app_comm_cons, !check_options_loop_value by done.
    destruct (IH rest (i + 2) (apply_option a v o calls).1 (apply_option a v o calls).2)
      as [IH1 IH2].
    rewrite IH1, IH2. simpl length. split; [lia|]. f_equal. lia.
Qed.

(** The loop stops at an argument that does not start with ['-']. *)
Lemma check_options_loop_stop a rest i o calls :
  starts_with_dash a = false -> check_options_loop (a :: rest) i o calls = (i, o, calls).
Proof. intros Ha. simpl. by rewrite Ha. Qed.

(** ** What check_options returns *)

Lemma check_options_loop_range (n : nat) :
  forall (args : list string) i o calls,
    (length args <= n)%nat ->
    (check_options_loop args i o calls).1.1 = -1 \/
    (i <= (check_options_loop args i o calls).1.1 <= i + Z.of_nat (length args) /\
     forall a, args !! Z.to_nat ((check_options_loop args i o calls).1.1 - i) = Some a ->
       starts_with_dash a = false).
Proof.
  induction n as [|n IH]; intros [|arg rest] i o calls Hlen; simpl in Hlen; try lia.
  - right. simpl. split; [lia|]. by intros a.
  - right. simpl. split; [lia|]. by intros a.
  - assert (Hnext : forall o' calls',
      (check_options_loop rest (i + 1) o' calls').1.1 = -1 \/
      (i <= (check_options_loop rest (i + 1) o' calls').1.1
         <= i + Z.of_nat (length (arg :: rest)) /\
       forall a, (arg :: rest) !! Z.to_nat ((check_options_loop rest (i + 1) o' calls').1.1 - i)
                 = Some a -> starts_with_dash a = false)).
    { intros o' calls'. destruct (IH rest (i + 1) o' calls' ltac:(lia)) as [H|[H1 H2]];
        [by left|right].
      simpl length. split; [lia|]. intros a.
      replace (Z.to_nat ((check_options_loop rest (i + 1) o' calls').1.1 - i))
        with (S (Z.to_nat ((check_options_loop rest (i + 1) o' calls').1.1 - (i + 1))))
        by lia.
      apply H2. }
    simpl.
    destruct (starts_with_dash arg) eqn:Hd; simpl.
    2:{ right. simpl. split; [lia|]. rewrite Z.sub_diag. simpl. by intros a [= <-]. }
    destruct (String.eqb arg "--concrete"); [apply Hnext|].
    destruct (String.eqb arg "--abstract"); [apply Hnext|].
    destruct (String.eqb arg "--vtkobject"); [apply Hnext|].
    destruct (String.eqb arg "--special"); [apply Hnext|].
    destruct (takes_value arg); [|apply Hnext].
    destruct rest as [|value rest']; [by left|].
    destruct (starts_with_dash value); [by left|].
    destruct (apply_option arg value o calls) as [o' calls'].
    destruct (IH rest' (i + 2) o' calls' ltac:(simpl in Hlen; lia)) as [H|[H1 H2]];
      [by left|right].
    simpl length. split; [lia|]. intros a.
    replace (Z.to_nat ((check_options_loop rest' (i + 2) o' calls').1.1 - i))
      with (S (S (Z.to_nat ((check_options_loop rest' (i + 2) o' calls').1.1 - (i + 2)))))
      by lia.
    apply H2.
Qed.

(** X1. [check_options] returns -1, or the index of the argument at which it
    stopped: an index from 1 to [argc] (1 when [argc] is 0), and the argument
    at this index, if there is one, does not start with ['-']. *)
Theorem check_options_returns_index (argv : list string) :
  let r := (check_options argv).1.1 in
  r = -1 \/
  (1 <= r <= Z.max 1 (Z.of_nat (length argv)) /\
   forall a, argv !! Z.to_nat r = Some a -> starts_with_dash a = false).
Proof.
  unfold check_options.
  destruct (check_options_loop_range (length (tail argv)) (tail argv) 1 initial_options []
              ltac:(done)) as [H|[H1 H2]]; [by left|right].
  destruct argv as [|prog rest].
  - simpl in *. split; [lia|]. by intros a.
  - simpl tail in *. simpl length. split; [lia|]. intros a.
    replace (Z.to_nat (check_options_loop rest 1 initial_options []).1.1)
      with (S (Z.to_nat ((check_options_loop rest 1 initial_options []).1.1 - 1))) by lia.
    apply H2.
Qed.

(** X2. On a command line of the form of the usage text, well-formed options
    and then the input file, [check_options] returns the index of the input
    file, and what follows the input file plays no part in the options that it
    records. *)
Theorem check_options_usage_form (prog : string) (ws : list string) (input : string)
    (rest : list string) :
  option_words ws -> starts_with_dash input = false ->
  check_options (prog :: ws ++ input :: rest) =
  (1 + Z.of_nat (length ws), (check_options (prog :: ws)).1.2, (check_options (prog :: ws)).2).
Proof.
  intros Hws Hin. unfold check_options. simpl tail.
  destruct (check_options_loop_words ws Hws (input :: rest) 1 initial_options [])
    as [_ ->].
  by rewrite check_options_loop_stop.
Qed.

Lemma check_options_usage_form_witness :
  option_words ["--concrete"; "-o"; "vtkObject.xml"; "--bogus"] /\
  starts_with_dash "vtkObject.h" = false /\
  check_options
    ("vtkWrapXML" :: ["--concrete"; "-o"; "vtkObject.xml"; "--bogus"] ++
     "vtkObject.h" :: ["ignored"]) =
  (5, mkOptionInfo None (Some "vtkObject.xml") 0 1 0 0 None None, []).
Proof.
  assert (Hws : option_words ["--concrete"; "-o"; "vtkObject.xml"; "--bogus"]).
  { apply option_words_flag; [done..|]. apply option_words_value; [done..|].
    apply option_words_flag; [done..|]. apply option_words_nil. }
  split; [exact Hws|]. split; [reflexivity|].
  exact (check_options_usage_form "vtkWrapXML" _ "vtkObject.h" ["ignored"] Hws eq_refl).
Defined.

(** ** The file names that check_options records *)

(** An option that is not among the arguments leaves its field alone. *)
Lemma check_options_loop_keeps (n : nat) :
  forall (args : list string) i o calls,
    (length args <= n)%nat ->
    ("--types" ∉ args ->
     HierarchyFileName (check_options_loop args i o calls).1.2 = HierarchyFileName o) /\
    ("--hints" ∉ args ->
     HintFileName (check_options_loop args i o calls).1.2 = HintFileName o) /\
    ("-o" ∉ args ->
     OutputFileName (check_options_loop args i o calls).1.2 = OutputFileName o).
Proof.
  induction n as [|n IH]; intros [|arg rest] i o calls Hlen; simpl in Hlen; try lia;
    try done.
  assert (Hflag : forall o',
    HierarchyFileName o' = HierarchyFileName o -> HintFileName o' = HintFileName o ->
    OutputFileName o' = OutputFileName o ->
    ("--types" ∉ arg :: rest ->
     HierarchyFileName (check_options_loop rest (i + 1) o' calls).1.2 = HierarchyFileName o) /\
    ("--hints" ∉ arg :: rest ->
     HintFileName (check_options_loop rest (i + 1) o' calls).1.2 = HintFileName o) /\
    ("-o" ∉ arg :: rest ->
     OutputFileName (check_options_loop rest (i + 1) o' calls).1.2 = OutputFileName o)).
  { intros o' H1 H2 H3. destruct (IH rest (i + 1) o' calls ltac:(lia)) as (I1 & I2 & I3).
    rewrite <- H1, <- H2, <- H3.
    repeat split; intros Hno; apply not_elem_of_cons in Hno as [_ Hno]; auto. }
  simpl.
  destruct (starts_with_dash arg); simpl; [|done].
  destruct (String.eqb arg "--concrete"); [by apply Hflag|].
  destruct (String.eqb arg "--abstract"); [by apply Hflag|].
  destruct (String.eqb arg "--vtkobject"); [by apply Hflag|].
  destruct (String.eqb arg "--special"); [by apply Hflag|].
  destruct (takes_value arg); [|by apply Hflag].
  destruct rest as [|value rest']; [done|].
  destruct (starts_with_dash value); [done|].
  destruct (apply_option arg value o calls) as [o' calls'] eqn:Ea.
  destruct (IH rest' (i + 2) o' calls' ltac:(simpl in Hlen; lia)) as (I1 & I2 & I3).
  unfold apply_option in Ea.
  repeat split; intros Hno;
    apply not_elem_of_cons in Hno as [Hne Hno];
    apply not_elem_of_cons in Hno as [_ Hno].
  - rewrite I1 by done.
    destruct (String.eqb arg "--hints"); [by injection Ea as <- <-|].
    destruct (String.eqb_spec arg "--types") as [->|_]; [done|].
    destruct (String.eqb arg "-o"); [by injection Ea as <- <-|].
    destruct (String.eqb arg "-I"); [by injection Ea as <- <-|].
    destruct (String.eqb arg "-D"); by injection Ea as <- <-.
  - rewrite I2 by done.
    destruct (String.eqb_spec arg "--hints") as [->|_]; [done|].
    destruct (String.eqb arg "--types"); [by injection Ea as <- <-|].
    destruct (String.eqb arg "-o"); [by injection Ea as <- <-|].
    destruct (String.eqb arg "-I"); [by injection Ea as <- <-|].
    destruct (String.eqb arg "-D"); by injection Ea as <- <-.
  - rewrite I3 by done.
    destruct (String.eqb arg "--hints"); [by injection Ea as <- <-|].
    destruct (String.eqb arg "--types"); [by injection Ea as <- <-|].
    destruct (String.eqb_spec arg "-o") as [->|_]; [done|].
    destruct (String.eqb arg "-I"); [by injection Ea as <- <-|].
    destruct (String.eqb arg "-D"); by injection Ea as <- <-.
Qed.

(** X3. Each of the options [--types], [--hints] and [-o] records the value of
    its last occurrence: after well-formed options, the option with its value
    sets the field, whatever was recorded before, and the field keeps this
    value when the option is not among the arguments that follow. *)
Theorem check_options_last_value (prog : string) (ws : list string) (v : string)
    (rest : list string) :
  option_words ws -> starts_with_dash v = false ->
  ("--types" ∉ rest ->
   HierarchyFileName (check_options (prog :: ws ++ "--types" :: v :: rest)).1.2 = Some v) /\
  ("--hints" ∉ rest ->
   HintFileName (check_options (prog :: ws ++ "--hints" :: v :: rest)).1.2 = Some v) /\
  ("-o" ∉ rest ->
   OutputFileName (check_options (prog :: ws ++ "-o" :: v :: rest)).1.2 = Some v).
Proof.
  intros Hws Hv. unfold check_options. simpl tail.
  repeat split; intros Hno;
    match goal with |- context [ws ++ ?l] =>
      destruct (check_options_loop_words ws Hws l 1 initial_options []) as [_ ->]
    end;
    rewrite check_options_loop_value by done;
    match goal with |- context [check_options_loop rest ?i ?o ?c] =>
      destruct (check_options_loop_keeps (length rest) rest i o c ltac:(done))
        as (K1 & K2 & K3)
    end.
  - by rewrite K1.
  - by rewrite K2.
  - by rewrite K3.
Qed.

Lemma check_options_last_value_witness :
  option_words ["--types"; "old.txt"; "--abstract"] /\
  starts_with_dash "hierarchy.txt" = false /\
  HierarchyFileName
    (check_options
       ("vtkWrapXML" :: ["--types"; "old.txt"; "--abstract"] ++
        "--types" :: "hierarchy.txt" :: ["-o"; "out.xml"; "vtkObject.h"])).1.2
  = Some "hierarchy.txt".
Proof.
  assert (Hws : option_words ["--types"; "old.txt"; "--abstract"]).
  { apply option_words_value; [done..|]. apply option_words_flag; [done..|].
    apply option_words_nil. }
  split; [exact Hws|]. split; [reflexivity|].
  refine (proj1 (check_options_last_value "vtkWrapXML" _ "hierarchy.txt"
                   ["-o"; "out.xml"; "vtkObject.h"] Hws eq_refl) _).
  intros H. by repeat (apply elem_of_cons in H as [H|H]; [discriminate|]);
    apply elem_of_nil in H.
Defined.

(** ** The macro definitions *)

Lemma after_equals_app (name rest : string) :
  ~ In "="%char (list_ascii_of_string name) ->
  after_equals (name ++ rest)%string = after_equals rest.
Proof.
  induction name as [|c name IH]; [done|]. simpl. intros Hno.
  destruct (Ascii.eqb_spec c "="%char) as [->|_]; [tauto|]. apply IH. tauto.
Qed.

(** X4. The branch of [-D] hands the whole argument to the parser as the name
    of the macro, and as its definition what follows the first ['='] of the
    argument: the text after [name=], and the empty string when the argument
    has no ['=']. *)
Theorem define_macro_splits_at_equals (name definition : string) (o : OptionInfo)
    (calls : list parser_setting) :
  ~ In "="%char (list_ascii_of_string name) ->
  apply_option "-D" (name ++ "=" ++ definition)%string o calls =
    (o, calls ++ [DefineMacro (name ++ "=" ++ definition)%string definition]) /\
  apply_option "-D" name o calls = (o, calls ++ [DefineMacro name ""]).
Proof.
  intros Hno. unfold apply_option. simpl.
  rewrite after_equals_app by done. simpl.
  replace (after_equals name) with (after_equals (name ++ "")%string).
  2:{ f_equal. clear. induction name; simpl; congruence. }
  by rewrite after_equals_app.
Qed.

Lemma define_macro_splits_at_equals_witness :
  ~ In "="%char (list_ascii_of_string "VTK_LEGACY") /\
  apply_option "-D" "VTK_LEGACY=a=b" initial_options [] =
    (initial_options, [DefineMacro "VTK_LEGACY=a=b" "a=b"]) /\
  apply_option "-D" "VTK_LEGACY" initial_options [] =
    (initial_options, [DefineMacro "VTK_LEGACY" ""]).
Proof.
  assert (Hno : ~ In "="%char (list_ascii_of_string "VTK_LEGACY")).
  { simpl. intros H. repeat (destruct H as [H|H]; [discriminate|]). exact H. }
  split; [exact Hno|].
  exact (define_macro_splits_at_equals "VTK_LEGACY" "a=b" initial_options [] Hno).
Defined.

(** ** vtkParse_Main *)

Lemma argv_at_0 (prog : string) (rest : list string) :
  argv_at (prog :: rest) 0 = Some (Some prog).
Proof. unfold argv_at. simpl length. zbool. reflexivity. Qed.

Lemma argv_at_end (argv : list string) : argv_at argv (Z.of_nat (length argv)) = Some None.
Proof. unfold argv_at. zbool. reflexivity. Qed.

Lemma argv_at_lookup (argv : list string) (i : nat) (a : string) :
  argv !! i = Some a -> argv_at argv (Z.of_nat i) = Some (Some a).
Proof.
  intros H. unfold argv_at. pose proof (lookup_lt_Some _ _ _ H).
  zbool. by rewrite Nat2Z.id, H.
Qed.

(** A word that takes a value and has none makes the loop return -1. *)
Lemma check_options_loop_missing (a : string) (rest : list string) i o calls :
  takes_value a = true ->
  (forall v, head rest = Some v -> starts_with_dash v = true) ->
  (check_options_loop (a :: rest) i o calls).1.1 = -1.
Proof.
  intros Ha Hrest. simpl. rewrite (takes_value_dash a Ha). simpl.
  destruct (takes_value_not_flag a Ha) as (-> & -> & -> & ->). rewrite Ha.
  destruct rest as [|v rest']; [done|]. by rewrite (Hrest v eq_refl).
Qed.

(** X5. An option that takes a value and is the last argument, or is followed
    by an argument that starts with ['-'], makes [vtkParse_Main] print the
    usage text and exit with status 1, wherever it stands among the options
    and whatever follows it. *)
Theorem Main_option_without_value (mw : MainWorld) (prog : string) (ws : list string)
    (a : string) (rest : list string) :
  option_words ws -> takes_value a = true ->
  (forall v, head rest = Some v -> starts_with_dash v = true) ->
  vtkParse_Main mw (prog :: ws ++ a :: rest) = Exit 1 [usage prog].
Proof.
  intros Hws Ha Hrest. unfold vtkParse_Main.
  destruct (check_options (prog :: ws ++ a :: rest)) as [[argi o] settings] eqn:E.
  assert (Hargi : argi = -1).
  { change argi with (argi, o, settings).1.1. rewrite <- E. unfold check_options. simpl tail.
    destruct (check_options_loop_words ws Hws (a :: rest) 1 initial_options []) as [_ ->].
    by apply check_options_loop_missing. }
  subst argi. rewrite argv_at_0. reflexivity.
Qed.

Lemma Main_option_without_value_witness :
  option_words ["--concrete"] /\ takes_value "-o" = true /\
  vtkParse_Main ex_main_world
    ("vtkWrapXML" :: ["--concrete"] ++ "-o" :: ["--abstract"; "vtkObject.h"])
  = Exit 1 [usage "vtkWrapXML"].
Proof.
  assert (Hws : option_words ["--concrete"]).
  { apply option_words_flag; [done..|]. apply option_words_nil. }
  split; [exact Hws|]. split; [reflexivity|].
  apply (Main_option_without_value ex_main_world "vtkWrapXML" _ "-o" ["--abstract"; "vtkObject.h"] Hws
           eq_refl).
  intros v [= <-]. reflexivity.
Defined.

(** X6. A command line of three to five arguments that are all well-formed
    options names no input file: [vtkParse_Main] prints no usage text, takes
    the null pointer [argv[argc]] for the name of the input file and hands it
    to [fopen]. *)
Theorem Main_options_without_input (mw : MainWorld) (prog : string) (ws : list string) :
  option_words ws -> (2 <= length ws <= 4)%nat ->
  vtkParse_Main mw (prog :: ws) = Undefined.
Proof.
  intros Hws Hlen. unfold vtkParse_Main.
  destruct (check_options (prog :: ws)) as [[argi o] settings] eqn:E.
  assert (Hargi : argi = 1 + Z.of_nat (length ws)).
  { change argi with (argi, o, settings).1.1. rewrite <- E. unfold check_options. simpl tail.
    by destruct (check_options_loop_words ws Hws [] 1 initial_options []) as [-> _]. }
  subst argi.
  assert (Hc : 1 + Z.of_nat (length ws) = Z.of_nat (length (prog :: ws)))
    by (simpl length; lia).
  rewrite Hc, argv_at_end.
  assert (3 <= Z.of_nat (length (prog :: ws)) <= 5) by (simpl length; lia).
  zbool. by rewrite andb_false_r.
Qed.

Lemma Main_options_without_input_witness :
  option_words ["--concrete"; "--vtkobject"] /\
  vtkParse_Main ex_main_world
    ["vtkWrapXML"; "--concrete"; "--vtkobject"] = Undefined.
Proof.
  assert (Hws : option_words ["--concrete"; "--vtkobject"]).
  { apply option_words_flag; [done..|]. apply option_words_flag; [done..|].
    apply option_words_nil. }
  split; [exact Hws|].
  apply (Main_options_without_input ex_main_world "vtkWrapXML" _ Hws). simpl. lia.
Defined.

(** The front of [vtkParse_Main] on a command line of the form of the usage
    text: options were given and the input file is the last argument. *)
Lemma Main_usage_form (mw : MainWorld) (prog : string) (ws : list string) (input : string) :
  option_words ws -> ws <> [] -> starts_with_dash input = false ->
  let o := (check_options (prog :: ws)).1.2 in
  let settings := (check_options (prog :: ws)).2 in
  let o' := mkOptionInfo (Some input) (OutputFileName o) (IsAbstract o) (IsConcrete o)
              (IsVTKObject o) (IsSpecialObject o) (HierarchyFileName o) (HintFileName o) in
  vtkParse_Main mw (prog :: ws ++ [input]) =
  if negb (main_fopen mw input) then
    Exit 1 [("Error opening input file " ++ input ++ newline)%string]
  else
    match hint_file o with
    | Some name =>
        if negb (main_fopen mw name) then
          Exit 1 [("Error opening hint file " ++ name ++ newline)%string]
        else
          match OutputFileName o with
          | None => Exit 1 [("No output file was specified" ++ newline)%string]
          | Some _ => parse_input mw o' settings input (Some name)
          end
    | None =>
        match OutputFileName o with
        | None => Exit 1 [("No output file was specified" ++ newline)%string]
        | Some _ => parse_input mw o' settings input None
        end
    end.
Proof.
  intros Hws Hne Hin o settings o'. unfold vtkParse_Main.
  assert (Hco : check_options (prog :: ws ++ [input]) =
                (1 + Z.of_nat (length ws), o, settings)).
  { unfold o, settings, check_options. simpl tail.
    destruct (check_options_loop_words ws Hws [input] 1 initial_options []) as [_ ->].
    by rewrite check_options_loop_stop. }
  rewrite Hco.
  assert (Hlen : (1 <= length ws)%nat) by (destruct ws; [done|simpl; lia]).
  assert (Hc : Z.of_nat (length (prog :: ws ++ [input])) = 1 + Z.of_nat (length ws) + 1).
  { simpl length. rewrite length_app. simpl. lia. }
  rewrite Hc.
  replace (1 + Z.of_nat (length ws) + 1 - (1 + Z.of_nat (length ws)) =? 1) with true
    by (symmetry; apply Z.eqb_eq; lia).
  replace (1 <? 1 + Z.of_nat (length ws)) with true by (symmetry; apply Z.ltb_lt; lia).
  simpl negb. simpl andb. cbv iota.
  replace (1 + Z.of_nat (length ws)) with (Z.of_nat (S (length ws))) by lia.
  rewrite (argv_at_lookup _ _ input).
  2:{ simpl. rewrite lookup_app_r by lia. by rewrite Nat.sub_diag. }
  fold o'. destruct (negb (main_fopen mw input)); [done|].
  unfold hint_file. simpl. by destruct (HintFileName o) as [name|]; [destruct (name =? "")%string|].
Qed.

(** X7. On a command line of the form of the usage text, the errors come in
    this order, each with exit status 1 and one line on stderr: the input file
    that does not open; the hint file, if one is named, that does not open;
    the output file that no [-o] names. *)
Theorem Main_usage_form_errors (mw : MainWorld) (prog : string) (ws : list string)
    (input : string) :
  option_words ws -> ws <> [] -> starts_with_dash input = false ->
  (main_fopen mw input = false ->
   vtkParse_Main mw (prog :: ws ++ [input]) =
   Exit 1 [("Error opening input file " ++ input ++ newline)%string]) /\
  (forall name, main_fopen mw input = true ->
     hint_file (check_options (prog :: ws)).1.2 = Some name -> main_fopen mw name = false ->
     vtkParse_Main mw (prog :: ws ++ [input]) =
     Exit 1 [("Error opening hint file " ++ name ++ newline)%string]) /\
  (main_fopen mw input = true ->
   (forall name, hint_file (check_options (prog :: ws)).1.2 = Some name ->
      main_fopen mw name = true) ->
   "-o" ∉ ws ->
   vtkParse_Main mw (prog :: ws ++ [input]) =
   Exit 1 [("No output file was specified" ++ newline)%string]).
Proof.
  intros Hws Hne Hin. rewrite (Main_usage_form mw prog ws input Hws Hne Hin).
  repeat split.
  - by intros ->.
  - intros name -> -> ->. reflexivity.
  - intros -> Hhint Hno. simpl negb. cbv iota.
    assert (Hout : OutputFileName (check_options (prog :: ws)).1.2 = None).
    { unfold check_options. simpl tail.
      destruct (check_options_loop_keeps (length ws) ws 1 initial_options [] ltac:(done))
        as (_ & _ & K).
      by rewrite K. }
    rewrite Hout.
    destruct (hint_file _) as [name|]; [|done]. by rewrite (Hhint name eq_refl).
Qed.

Lemma Main_usage_form_errors_witness :
  option_words ["--hints"; "hints"; "--concrete"] /\
  vtkParse_Main ex_main_world
    ("vtkWrapXML" :: ["--hints"; "hints"; "--concrete"] ++ ["vtkObject.h"])
  = Exit 1 [("No output file was specified" ++ newline)%string].
Proof.
  assert (Hws : option_words ["--hints"; "hints"; "--concrete"]).
  { apply option_words_value; [done..|]. apply option_words_flag; [done..|].
    apply option_words_nil. }
  split; [exact Hws|].
  refine (proj2 (proj2 (Main_usage_form_errors ex_main_world "vtkWrapXML" _ "vtkObject.h" Hws
                          ltac:(discriminate) eq_refl)) eq_refl _ _).
  - intros name _. reflexivity.
  - intros H. by repeat (apply elem_of_cons in H as [H|H]; [discriminate|]);
      apply elem_of_nil in H.
Defined.

(** A flag that was set stays set. *)
Lemma check_options_loop_concrete (n : nat) :
  forall (args : list string) i o calls,
    (length args <= n)%nat -> IsConcrete o = 1 ->
    IsConcrete (check_options_loop args i o calls).1.2 = 1.
Proof.
  induction n as [|n IH]; intros [|arg rest] i o calls Hlen Ho; simpl in Hlen; try lia;
    try done.
  simpl.
  destruct (starts_with_dash arg); simpl; [|done].
  destruct (String.eqb arg "--concrete"); [by apply IH; [lia|]|].
  destruct (String.eqb arg "--abstract"); [by apply IH; [lia|]|].
  destruct (String.eqb arg "--vtkobject"); [by apply IH; [lia|]|].
  destruct (String.eqb arg "--special"); [by apply IH; [lia|]|].
  destruct (takes_value arg); [|by apply IH; [lia|]].
  destruct rest as [|value rest']; [done|].
  destruct (starts_with_dash value); [done|].
  destruct (apply_option arg value o calls) as [o' calls'] eqn:Ea.
  apply IH; [simpl in Hlen; lia|].
  unfold apply_option in Ea.
  destruct (String.eqb arg "--hints"); [by injection Ea as <- <-|].
  destruct (String.eqb arg "--types"); [by injection Ea as <- <-|].
  destruct (String.eqb arg "-o"); [by injection Ea as <- <-|].
  destruct (String.eqb arg "-I"); [by injection Ea as <- <-|].
  destruct (String.eqb arg "-D"); by injection Ea as <- <-.
Qed.

Lemma option_words_concrete (ws : list string) :
  option_words ws -> "--concrete" ∈ ws ->
  forall i o calls, IsConcrete (check_options_loop ws i o calls).1.2 = 1.
Proof.
  induction 1 as [|a ws Ha Hv Hws IH|a v ws Ha Hv Hws IH]; intros Hin i o calls.
  - by apply elem_of_nil in Hin.
  - apply elem_of_cons in Hin as [<-|Hin].
    + simpl. by apply (check_options_loop_concrete (length ws)).
    + simpl. rewrite Ha, Hv. simpl.
      by repeat destruct (String.eqb a _); apply IH.
  - apply elem_of_cons in Hin as [<-|Hin]; [done|].
    apply elem_of_cons in Hin as [<-|Hin]; [done|].
    rewrite check_options_loop_value by done. by apply IH.
Qed.

(** X8. [--concrete] has the last word: on a command line of the form of the
    usage text that has [--concrete] among its options, a call of
    [vtkParse_Main] that returns has told the parser that the class named
    after the input file is concrete, and clears the abstract flag of the main
    class, whatever the other options are, [--abstract] included. *)
Theorem Main_concrete_wins (mw : MainWorld) (prog : string) (ws : list string)
    (input : string) (r : Main_result) :
  option_words ws -> "--concrete" ∈ ws -> starts_with_dash input = false ->
  vtkParse_Main mw (prog :: ws ++ [input]) = Done r ->
  main_IsAbstract r = Some 0 /\
  SetClassProperty (classname_of_file input) "concrete" ∈ main_calls r.
Proof.
  intros Hws Hc Hin.
  assert (Hne : ws <> []) by (intros ->; by apply elem_of_nil in Hc).
  rewrite (Main_usage_form mw prog ws input Hws Hne Hin).
  assert (Hcon : IsConcrete (check_options (prog :: ws)).1.2 = 1)
    by (by apply option_words_concrete).
  set (o := (check_options (prog :: ws)).1.2) in *.
  assert (Hparse : forall hfile,
    parse_input mw
      (mkOptionInfo (Some input) (OutputFileName o) (IsAbstract o) (IsConcrete o)
         (IsVTKObject o) (IsSpecialObject o) (HierarchyFileName o) (HintFileName o))
      (check_options (prog :: ws)).2 input hfile = Done r ->
    main_IsAbstract r = Some 0 /\
    SetClassProperty (classname_of_file input) "concrete" ∈ main_calls r).
  { intros hfile. unfold parse_input, MainClass_IsAbstract. simpl. rewrite Hcon. simpl.
    destruct (main_ParseFile mw _ input) as [[data|] err]; [|done].
    destruct (match hfile with Some name => _ | None => _ end) as [data' err'].
    intros [= <-]. simpl. split; [done|].
    destruct (HierarchyFileName o); rewrite !elem_of_app, !list_elem_of_singleton; tauto. }
  destruct (negb (main_fopen mw input)); [done|].
  destruct (hint_file o) as [name|].
  - destruct (negb (main_fopen mw name)); [done|].
    destruct (OutputFileName o); [apply Hparse|done].
  - destruct (OutputFileName o); [apply Hparse|done].
Qed.

Lemma Main_concrete_wins_witness :
  option_words ["--abstract"; "-o"; "vtkObject.xml"; "--concrete"; "--abstract"] /\
  exists r,
    vtkParse_Main ex_main_world
      ("vtkWrapXML" :: ["--abstract"; "-o"; "vtkObject.xml"; "--concrete"; "--abstract"] ++
       ["Common/vtkObject.h"]) = Done r /\
    IsAbstract (main_options r) = 1 /\
    main_IsAbstract r = Some 0 /\
    SetClassProperty "vtkObject" "concrete" ∈ main_calls r.
Proof.
  assert (Hws : option_words ["--abstract"; "-o"; "vtkObject.xml"; "--concrete"; "--abstract"]).
  { apply option_words_flag; [done..|]. apply option_words_value; [done..|].
    apply option_words_flag; [done..|]. apply option_words_flag; [done..|].
    apply option_words_nil. }
  split; [exact Hws|]. eexists. split; [reflexivity|]. split; [reflexivity|].
  apply (Main_concrete_wins ex_main_world "vtkWrapXML" _ "Common/vtkObject.h" _ Hws);
    [|reflexivity..].
  do 3 apply list_elem_of_further. apply list_elem_of_here.
Defined.

(** ** The arguments by position *)

Lemma check_options_positional (prog input : string) (rest : list string) :
  starts_with_dash input = false ->
  check_options (prog :: input :: rest) = (1, initial_options, []).
Proof. intros Hin. unfold check_options. simpl tail. by apply check_options_loop_stop. Qed.

(** X9. Without options the arguments are taken by position: the input file,
    then the hint file if there are five arguments, then the number that says
    whether the class is concrete if there are at least four, then the output
    file.  In the forms with the number the class is abstract exactly when the
    number is 0, and the abstract flag of the main class is always written. *)
Theorem Main_arguments_by_position (mw : MainWorld) (prog input : string) :
  starts_with_dash input = false ->
  (forall output r,
     vtkParse_Main mw [prog; input; output] = Done r ->
     main_options r = mkOptionInfo (Some input) (Some output) 0 0 0 0 None None /\
     main_IsAbstract r = None) /\
  (forall concrete output r,
     vtkParse_Main mw [prog; input; concrete; output] = Done r ->
     main_options r =
       mkOptionInfo (Some input) (Some output) (if atoi mw concrete =? 0 then 1 else 0)
         (atoi mw concrete) 0 0 None None /\
     main_IsAbstract r = Some (if atoi mw concrete =? 0 then 1 else 0)) /\
  (forall hints concrete output r,
     vtkParse_Main mw [prog; input; hints; concrete; output] = Done r ->
     main_options r =
       mkOptionInfo (Some input) (Some output) (if atoi mw concrete =? 0 then 1 else 0)
         (atoi mw concrete) 0 0 None (Some hints) /\
     main_IsAbstract r = Some (if atoi mw concrete =? 0 then 1 else 0)).
Proof.
  intros Hin.
  assert (Hparse : forall o hfile r,
    parse_input mw o [] input hfile = Done r ->
    main_options r = o /\ main_IsAbstract r = MainClass_IsAbstract o).
  { intros o hfile r. unfold parse_input.
    destruct (main_ParseFile mw _ input) as [[data|] err]; [|done].
    destruct (match hfile with Some name => _ | None => _ end) as [data' err'].
    by intros [= <-]. }
  repeat split; intros;
    unfold vtkParse_Main in H; rewrite check_options_positional in H by done;
    cbv -[String.append usage newline parse_input String.eqb main_fopen atoi] in H;
    (destruct (main_fopen mw input); [|done]);
    try (destruct (String.eqb hints ""); [|destruct (main_fopen mw hints); [|done]]);
    apply Hparse in H as [H1 H2]; rewrite ?H1, ?H2; try done;
    unfold MainClass_IsAbstract; simpl; by destruct (atoi mw concrete).
Qed.

Lemma Main_arguments_by_position_witness :
  starts_with_dash "vtkObject.h" = false /\
  exists r,
    vtkParse_Main ex_main_world ["vtkWrapXML"; "vtkObject.h"; "hints"; "0"; "vtkObject.xml"]
      = Done r /\
    main_options r =
      mkOptionInfo (Some "vtkObject.h") (Some "vtkObject.xml") 1 0 0 0 None (Some "hints") /\
    main_IsAbstract r = Some 1.
Proof.
  split; [reflexivity|]. eexists. split; [reflexivity|].
  exact (proj2 (proj2 (Main_arguments_by_position ex_main_world "vtkWrapXML" "vtkObject.h"
                         eq_refl)) "hints" "0" "vtkObject.xml" _ eq_refl).
Defined.

(** ** From the command line to the merge *)

Lemma positional_arguments_hierarchy mw argv argi o o' :
  positional_arguments mw argv argi o = Some o' ->
  HierarchyFileName o' = HierarchyFileName o.
Proof.
  unfold positional_arguments. intros H.
  destruct (Z.of_nat (length argv) =? 5), (4 <=? Z.of_nat (length argv));
    simplify_option_eq; reflexivity.
Qed.

Lemma parse_input_Done mw o settings input hfile r :
  parse_input mw o settings input hfile = Done r ->
  main_options r = o /\
  (HierarchyFileName o = None -> SetIgnoreBTX 1 ∉ main_calls r).
Proof.
  unfold parse_input.
  destruct (main_ParseFile mw _ input) as [[data|] err]; [|done].
  destruct (match hfile with Some name => _ | None => _ end) as [data' err'].
  intros [= <-]. simpl. split; [done|]. intros ->.
  rewrite elem_of_app, list_elem_of_singleton.
  intros [H|H]; [|discriminate].
  destruct (negb (IsConcrete o =? 0)).
  - rewrite elem_of_app, list_elem_of_singleton in H. destruct H as [H|H]; [|discriminate].
    apply list_elem_of_fmap in H as (s & Hs & _). discriminate.
  - apply list_elem_of_fmap in H as (s & Hs & _). discriminate.
Qed.

(** X10. A run whose command line does not have the word [--types] never
    merges: when [vtkParse_Main] returns, the options that
    [vtkParse_GetCommandLineOptions] hands out name no hierarchy file, the
    parser was not told to ignore the BTX markers, and
    [vtkWrapXML_MergeSuperClasses] returns no MergeInfo and leaves the class
    as it is, whatever its superclasses are. *)
Theorem Main_without_types_never_merges (mw : MainWorld) (argv : list string)
    (r : Main_result) (fuel : nat) (w : World) (data : NamespaceInfo)
    (classInfo : ClassInfo) :
  "--types" ∉ argv -> vtkParse_Main mw argv = Done r ->
  HierarchyFileName (main_options r) = None /\
  (SetIgnoreBTX 1 ∉ main_calls r) /\
  vtkWrapXML_MergeSuperClasses fuel w (main_options r) data classInfo =
    Done (None, classInfo, []).
Proof.
  intros Hno Hmain.
  pose proof (check_options_no_types argv Hno) as Hnone.
  assert (H : HierarchyFileName (main_options r) = None /\ SetIgnoreBTX 1 ∉ main_calls r).
  { revert Hmain. unfold vtkParse_Main.
    destruct (check_options argv) as [[argi o] settings]. simpl in Hnone.
    destruct (negb _ && _); [by destruct (argv_at argv 0) as [[prog|]|]|].
    destruct (argv_at argv argi) as [[input|]|]; [|done..].
    destruct (negb (main_fopen mw input)); [done|].
    match goal with |- context [if ?b then Some ?o1 else positional_arguments mw argv ?i ?o1] =>
      destruct (if b then Some o1 else positional_arguments mw argv i o1) as [o'|] eqn:Eo;
        [|done];
      assert (Ho' : HierarchyFileName o' = None)
        by (destruct b;
            [by injection Eo as <-|by rewrite (positional_arguments_hierarchy _ _ _ _ _ Eo)])
    end.
    destruct (hint_file o') as [name|].
    - destruct (negb (main_fopen mw name)); [done|].
      destruct (OutputFileName o'); [|done].
      intros [-> Hc]%parse_input_Done. auto.
    - destruct (OutputFileName o'); [|done].
      intros [-> Hc]%parse_input_Done. auto. }
  destruct H as [H1 H2]. repeat split; [done..|].
  unfold vtkWrapXML_MergeSuperClasses. by rewrite H1.
Qed.

Lemma Main_without_types_never_merges_witness :
  ("--types" ∉ ["vtkWrapXML"; "-o"; "B.xml"; "B.h"]) /\
  exists r,
    vtkParse_Main ex_main_world ["vtkWrapXML"; "-o"; "B.xml"; "B.h"] = Done r /\
    vtkWrapXML_MergeSuperClasses 3 ex_world_empty (main_options r) ex_data ex_B =
      Done (None, ex_B, []).
Proof.
  assert (Hno : "--types" ∉ ["vtkWrapXML"; "-o"; "B.xml"; "B.h"]).
  { intros H. by repeat (apply elem_of_cons in H as [H|H]; [discriminate|]);
      apply elem_of_nil in H. }
  split; [exact Hno|]. eexists. split; [reflexivity|].
  exact (proj2 (proj2 (Main_without_types_never_merges ex_main_world _ _ 3 ex_world_empty
                         ex_data ex_B Hno eq_refl))).
Defined.

(** ** The class name taken from the name of the input file *)

Lemma get_app_l (s1 s2 : string) (n : nat) :
  (n < String.length s1)%nat -> String.get n (s1 ++ s2)%string = String.get n s1.
Proof. intros H. symmetry. by apply append_correct1. Qed.

Lemma get_app_r (s1 s2 : string) (n : nat) :
  String.get (String.length s1 + n) (s1 ++ s2)%string = String.get n s2.
Proof. rewrite Nat.add_comm. symmetry. apply append_correct2. Qed.

Lemma length_append (s1 s2 : string) :
  String.length (s1 ++ s2)%string = (String.length s1 + String.length s2)%nat.
Proof. induction s1; simpl; congruence. Qed.

Lemma substring_app_r (s1 s2 : string) :
  String.substring (String.length s1) (String.length s2) (s1 ++ s2)%string = s2.
Proof.
  induction s1 as [|c s1 IH]; simpl; [|exact IH].
  induction s2 as [|c s2 IH]; simpl; [done|]. by rewrite IH.
Qed.

Lemma substring_all (s : string) : String.substring 0 (String.length s) s = s.
Proof. induction s as [|c s IH]; simpl; [done|]. by rewrite IH. Qed.

Lemma no_separator_get (s : string) (n : nat) (c : ascii) :
  no_separator s = true -> String.get n s = Some c -> is_separator c = false.
Proof.
  unfold no_separator. revert n. induction s as [|d s IH]; intros n; [done|].
  simpl. intros [Hd Hs]%andb_true_iff. destruct n as [|n].
  - intros [= <-]. by apply negb_true_iff.
  - by apply IH.
Qed.

(** The loop of the base name goes back over a name without separators. *)
Lemma basename_start_back (dir name : string) (k : nat) :
  no_separator name = true -> (k <= String.length name)%nat ->
  basename_start (dir ++ name) (String.length dir + k) =
  basename_start (dir ++ name) (String.length dir).
Proof.
  intros Hname. induction k as [|k IH]; intros Hk.
  - by rewrite Nat.add_0_r.
  - rewrite Nat.add_succ_r. simpl. rewrite get_app_r.
    destruct (String.get k name) as [c|] eqn:Ec.
    + rewrite (no_separator_get name k c Hname Ec). apply IH. lia.
    + apply IH. lia.
Qed.

Lemma basename_no_separator (name : string) : no_separator name = true -> basename name = name.
Proof.
  intros Hname. unfold basename.
  pose proof (basename_start_back "" name (String.length name) Hname ltac:(done)) as H.
  simpl in H. rewrite H. simpl. rewrite Nat.sub_0_r. apply substring_all.
Qed.

Lemma basename_after_separator (dir : string) (sep : ascii) (name : string) :
  is_separator sep = true -> no_separator name = true ->
  basename (dir ++ String sep name) = name.
Proof.
  intros Hsep Hname. unfold basename.
  replace (dir ++ String sep name)%string with ((dir ++ String sep "") ++ name)%string
    by (clear; induction dir; simpl; congruence).
  rewrite length_append.
  rewrite (basename_start_back _ name (String.length name) Hname ltac:(done)).
  assert (Hstart : basename_start ((dir ++ String sep "") ++ name)
                     (String.length (dir ++ String sep "")) =
                   String.length (dir ++ String sep "")).
  { rewrite length_append. simpl. rewrite Nat.add_1_r. simpl.
    rewrite get_app_l by (rewrite length_append; simpl; lia).
    replace (String.length dir) with (String.length dir + 0)%nat at 1 by lia.
    rewrite get_app_r. simpl. by rewrite Hsep. }
  rewrite Hstart.
  replace (String.length (dir ++ String sep "") + String.length name -
           String.length (dir ++ String sep ""))%nat with (String.length name) by lia.
  apply substring_app_r.
Qed.

Lemma until_dot_app (name rest : string) :
  no_dot name = true -> until_dot (name ++ String "." rest) = name.
Proof.
  unfold no_dot. induction name as [|c name IH]; simpl; [done|].
  intros [Hc Hn]%andb_true_iff. apply negb_true_iff in Hc. rewrite Hc. by rewrite IH.
Qed.

Lemma until_dot_no_dot (name : string) : no_dot name = true -> until_dot name = name.
Proof.
  unfold no_dot. induction name as [|c name IH]; simpl; [done|].
  intros [Hc Hn]%andb_true_iff. apply negb_true_iff in Hc. rewrite Hc. by rewrite IH.
Qed.

Lemma no_separator_app (s1 s2 : string) :
  no_separator (s1 ++ s2) = no_separator s1 && no_separator s2.
Proof.
  unfold no_separator. induction s1 as [|c s1 IH]; simpl; [done|].
  by rewrite IH, andb_assoc.
Qed.

(** X11. The class that [--concrete] declares concrete is named after the
    input file: the directories, up to the last ['/'], ['\'] or [':'], and
    what follows the first ['.'] of the file name are cut off; a file name
    without a ['.'] is taken whole. *)
Theorem classname_of_file_cuts (dir : string) (sep : ascii) (classname extension : string) :
  is_separator sep = true ->
  no_separator classname = true -> no_dot classname = true ->
  no_separator extension = true ->
  classname_of_file (dir ++ String sep (classname ++ String "." extension)) = classname /\
  classname_of_file (classname ++ String "." extension) = classname /\
  classname_of_file (dir ++ String sep classname) = classname.
Proof.
  intros Hsep Hcs Hcd Hes. unfold classname_of_file.
  assert (Hfile : no_separator (classname ++ String "." extension) = true).
  { rewrite no_separator_app, Hcs. simpl. unfold no_separator in Hes |- *. simpl.
    by rewrite Hes. }
  rewrite basename_after_separator, basename_no_separator, basename_after_separator by done.
  by rewrite until_dot_app, until_dot_no_dot.
Qed.

Lemma classname_of_file_cuts_witness :
  classname_of_file ("C:\VTK/Common" ++ String "/" ("vtkObject" ++ String "." "tmp.h"))
    = "vtkObject" /\
  classname_of_file ("vtkObject" ++ String "." "tmp.h") = "vtkObject" /\
  classname_of_file ("C:\VTK/Common" ++ String "/" "vtkObject") = "vtkObject".
Proof.
  exact (classname_of_file_cuts "C:\VTK/Common" "/" "vtkObject" "tmp.h"
           eq_refl eq_refl eq_refl eq_refl).
Defined.

(** ** Strings in blocks *)

Lemma list_ascii_app (s1 s2 : string) :
  list_ascii_of_string (s1 ++ s2) = list_ascii_of_string s1 ++ list_ascii_of_string s2.
Proof. induction s1 as [|c s1 IH]; simpl; [done|]. by rewrite IH. Qed.

Lemma length_list_ascii (s : string) : length (list_ascii_of_string s) = String.length s.
Proof. induction s as [|c s IH]; simpl; [done|]. by rewrite IH. Qed.

Lemma holds_store_inv {A : Type} (b b' : block A) (l : list A) (v : A) :
  holds b l -> store b (Z.of_nat (length l)) v = Some b' ->
  holds b' (l ++ [v]) /\ length b' = length b /\ (length l < length b)%nat.
Proof.
  intros Hb Hst.
  assert (Hlen : (length l < length b)%nat).
  { unfold store in Hst. destruct (_ && _) eqn:E; [|done].
    apply andb_true_iff in E as [_ E]. apply Z.ltb_lt in E. lia. }
  destruct (holds_store_end b l v Hb Hlen) as (b'' & Hst' & H1 & H2).
  rewrite Hst in Hst'. injection Hst' as <-. done.
Qed.

(** [strcpy] puts the text and its NUL behind what the block holds, if they
    fit. *)
Lemma strcpy_inv (text : string) :
  forall (b b' : block ascii) (l : list ascii),
    holds b l -> strcpy b (Z.of_nat (length l)) text = Some b' ->
    holds b' (l ++ list_ascii_of_string text ++ [zero]) /\ length b' = length b.
Proof.
  induction text as [|c text IH]; intros b b' l Hb Hc; simpl in Hc.
  - by destruct (holds_store_inv _ _ _ _ Hb Hc) as (H1 & H2 & _).
  - destruct (store b (Z.of_nat (length l)) c) as [b1|] eqn:E; [|done]. simpl in Hc.
    destruct (holds_store_inv _ _ _ _ Hb E) as (H1 & H2 & _).
    replace (Z.of_nat (length l) + 1) with (Z.of_nat (length (l ++ [c]))) in Hc
      by (rewrite length_app; simpl; lia).
    destruct (IH _ _ _ H1 Hc) as [H3 H4]. split; [|congruence].
    simpl. by rewrite <- app_assoc in H3.
Qed.

Lemma strcpy_fits (text : string) :
  forall (b : block ascii) (l : list ascii),
    holds b l -> (length l + String.length text < length b)%nat ->
    is_Some (strcpy b (Z.of_nat (length l)) text).
Proof.
  induction text as [|c text IH]; intros b l Hb Hlen; simpl in *.
  - destruct (holds_store_end b l zero Hb ltac:(lia)) as (b' & -> & _). done.
  - destruct (holds_store_end b l c Hb ltac:(lia)) as (b' & -> & H1 & H2). simpl.
    replace (Z.of_nat (length l) + 1) with (Z.of_nat (length (l ++ [c])))
      by (rewrite length_app; simpl; lia).
    apply IH; [done|]. rewrite length_app, H2. simpl. lia.
Qed.

Lemma strcpy_outside (text : string) :
  forall (b : block ascii) (l : list ascii),
    holds b l -> (length b <= length l + String.length text)%nat ->
    strcpy b (Z.of_nat (length l)) text = None.
Proof.
  induction text as [|c text IH]; intros b l Hb Hlen; simpl in *.
  - apply store_outside. lia.
  - destruct (store b (Z.of_nat (length l)) c) as [b1|] eqn:E; [|done]. simpl.
    destruct (holds_store_inv _ _ _ _ Hb E) as (H1 & H2 & _).
    replace (Z.of_nat (length l) + 1) with (Z.of_nat (length (l ++ [c])))
      by (rewrite length_app; simpl; lia).
    apply IH; [done|]. rewrite length_app, H2. simpl. lia.
Qed.

Arguments strcpy : simpl never.

(** A block that holds a text and then a NUL is the C string of the text. *)
Lemma c_string_holds (text : string) (b : block ascii) :
  c_text text = true -> holds b (list_ascii_of_string text ++ [zero]) ->
  c_string b = Some text.
Proof.
  intros Ht [rest ->]. revert Ht. unfold c_text.
  induction text as [|c text IH]; [done|].
  cbn [list_ascii_of_string forallb]. intros [Hc Ht]%andb_true_iff.
  apply negb_true_iff in Hc. rewrite <- app_comm_cons, fmap_cons, <- app_comm_cons.
  cbn [c_string]. rewrite Hc, (IH Ht). reflexivity.
Qed.

(** If [holds b (l ++ [v])] then [holds b l]. *)
Lemma holds_app_l {A : Type} (b : block A) (l1 l2 : list A) : holds b (l1 ++ l2) -> holds b l1.
Proof. intros [rest ->]. rewrite fmap_app, <- app_assoc. by eexists. Qed.

(** ** vtkWrapXML_Quote *)

Lemma escape_app (ct : ctype) (s1 s2 : string) :
  escape ct (s1 ++ s2) = (escape ct s1 ++ escape ct s2)%string.
Proof.
  induction s1 as [|c s1 IH]; simpl; [done|]. rewrite IH.
  generalize (escape_char ct c). clear. intros e.
  induction e; simpl; congruence.
Qed.

Lemma length_escape_char (ct : ctype) (c : ascii) : (String.length (escape_char ct c) <= 6)%nat.
Proof.
  unfold escape_char. repeat case_match; simpl; lia.
Qed.

(** One character: the buffer holds its escape code behind what it held. *)
Lemma Quote_char_inv (ct : ctype) (c : ascii) (b b' : block ascii) (l : list ascii) (j' : Z) :
  holds b l -> Quote_char ct c b (Z.of_nat (length l)) = Some (b', j') ->
  holds b' (l ++ list_ascii_of_string (escape_char ct c)) /\
  j' = Z.of_nat (length (l ++ list_ascii_of_string (escape_char ct c))) /\
  length b' = length b.
Proof.
  intros Hb. unfold Quote_char, escape_char.
  assert (Hcopy : forall text : string,
    (result' ← strcpy b (Z.of_nat (length l)) text;
     Some (result', Z.of_nat (length l) + Z.of_nat (String.length text))) = Some (b', j') ->
    holds b' (l ++ list_ascii_of_string text) /\
    j' = Z.of_nat (length (l ++ list_ascii_of_string text)) /\ length b' = length b).
  { intros text H. destruct (strcpy b _ text) as [b1|] eqn:E; [|done].
    injection H as <- <-. destruct (strcpy_inv _ _ _ _ Hb E) as [H1 H2].
    rewrite app_assoc in H1. apply holds_app_l in H1.
    rewrite length_app, length_list_ascii. split; [done|]. split; [lia|done]. }
  assert (Hone :
    (result' ← store b (Z.of_nat (length l)) c; Some (result', Z.of_nat (length l) + 1))
      = Some (b', j') ->
    holds b' (l ++ [c]) /\ j' = Z.of_nat (length (l ++ [c])) /\ length b' = length b).
  { intros H. destruct (store b _ c) as [b1|] eqn:E; [|done]. injection H as <- <-.
    destruct (holds_store_inv _ _ _ _ Hb E) as (H1 & H2 & _).
    rewrite length_app. simpl. split; [done|]. split; [lia|done]. }
  destruct (Ascii.eqb c "<"); [apply (Hcopy "&lt;")|].
  destruct (Ascii.eqb c ">"); [apply (Hcopy "&gt;")|].
  destruct (Ascii.eqb c "&"); [apply (Hcopy "&amp;")|].
  destruct (Ascii.eqb c "034"); [apply (Hcopy "&quot;")|].
  destruct (Ascii.eqb c "'"); [apply (Hcopy "&apos;")|].
  destruct (isprint ct c); [apply Hone|].
  destruct (isspace ct c); [apply Hone|].
  simpl. intros [= <- <-]. by rewrite app_nil_r.
Qed.

(** One character fits when seven bytes are left. *)
Lemma Quote_char_fits (ct : ctype) (c : ascii) (b : block ascii) (l : list ascii) :
  holds b l -> (length l + 6 < length b)%nat ->
  is_Some (Quote_char ct c b (Z.of_nat (length l))).
Proof.
  intros Hb Hlen. unfold Quote_char.
  assert (Hcopy : forall (text : string) (k : Z), (String.length text <= 6)%nat ->
    is_Some (result' ← strcpy b (Z.of_nat (length l)) text;
             Some (result', Z.of_nat (length l) + k))).
  { intros text k Ht. destruct (strcpy_fits text b l Hb ltac:(lia)) as [b1 ->]. done. }
  assert (Hone :
    is_Some (result' ← store b (Z.of_nat (length l)) c;
             Some (result', Z.of_nat (length l) + 1))).
  { destruct (holds_store_end b l c Hb ltac:(lia)) as (b1 & -> & _). done. }
  destruct (Ascii.eqb c "<"); [apply Hcopy; simpl; lia|].
  destruct (Ascii.eqb c ">"); [apply Hcopy; simpl; lia|].
  destruct (Ascii.eqb c "&"); [apply Hcopy; simpl; lia|].
  destruct (Ascii.eqb c "034"); [apply Hcopy; simpl; lia|].
  destruct (Ascii.eqb c "'"); [apply Hcopy; simpl; lia|].
  destruct (isprint ct c); [apply Hone|].
  destruct (isspace ct c); [apply Hone|].
  done.
Qed.

Lemma append_nil_r (s : string) : (s ++ "")%string = s.
Proof. induction s; simpl; congruence. Qed.

Lemma append_assoc (s1 s2 s3 : string) : ((s1 ++ s2) ++ s3)%string = (s1 ++ s2 ++ s3)%string.
Proof. induction s1; simpl; congruence. Qed.

Lemma list_ascii_inj (s1 s2 : string) :
  list_ascii_of_string s1 = list_ascii_of_string s2 -> s1 = s2.
Proof.
  intros H. rewrite <- (string_of_list_ascii_of_string s1),
    <- (string_of_list_ascii_of_string s2). by rewrite H.
Qed.

(** What the loop leaves in the buffer: the escape codes of the characters
    that it went through, and the ellipsis if it stopped before the end. *)
Lemma Quote_loop_inv (ct : ctype) (maxlen : Z) (comment : string) :
  forall (b b' : block ascii) (l : list ascii) (j' : Z),
    holds b l -> Quote_loop ct comment maxlen b (Z.of_nat (length l)) = Some (b', j') ->
    exists (pre post tail : string),
      comment = (pre ++ post)%string /\
      (tail = EmptyString /\ post = EmptyString \/ tail = " ...") /\
      holds b' (l ++ list_ascii_of_string (escape ct pre ++ tail)) /\
      j' = Z.of_nat (length (l ++ list_ascii_of_string (escape ct pre ++ tail))) /\
      length b' = length b.
Proof.
  induction comment as [|c rest IH]; intros b b' l j' Hb Hq; simpl in Hq.
  - injection Hq as <- <-. exists EmptyString, EmptyString, EmptyString.
    simpl. rewrite app_nil_r. auto.
  - destruct (Quote_char ct c b (Z.of_nat (length l))) as [[b1 j1]|] eqn:Ec; [|done].
    simpl in Hq. destruct (Quote_char_inv _ _ _ _ _ _ Hb Ec) as (H1 & -> & H2).
    destruct ((maxlen - 5) mod 2 ^ 64 <=? _).
    + destruct (strcpy b1 _ " ...") as [b2|] eqn:Es; [|done]. simpl in Hq.
      injection Hq as <- <-. destruct (strcpy_inv _ _ _ _ H1 Es) as [H3 H4].
      rewrite app_assoc in H3. apply holds_app_l in H3.
      exists (String c EmptyString), rest, " ...". split; [done|]. split; [by right|].
      simpl escape. rewrite append_nil_r, list_ascii_app, app_assoc.
      split; [done|]. split; [|congruence].
      rewrite !length_app. simpl. lia.
    + destruct (IH _ _ _ _ H1 Hq) as (pre & post & tail & -> & Ht & H3 & -> & H4).
      exists (String c pre), post, tail. split; [done|]. split; [done|].
      simpl escape. rewrite append_assoc, (list_ascii_app (escape_char ct c)), app_assoc.
      split; [done|]. split; [done|congruence].
Qed.

(** A comment whose escape codes stay below [maxlen - 5] goes through the
    loop whole. *)
Lemma Quote_loop_short (ct : ctype) (maxlen : Z) (comment : string) :
  forall (b : block ascii) (l : list ascii),
    holds b l -> 5 <= maxlen < 2 ^ 64 ->
    Z.of_nat (length l + String.length (escape ct comment)) < maxlen - 5 ->
    maxlen + 1 <= Z.of_nat (length b) ->
    exists b',
      Quote_loop ct comment maxlen b (Z.of_nat (length l)) =
        Some (b', Z.of_nat (length l + String.length (escape ct comment))) /\
      holds b' (l ++ list_ascii_of_string (escape ct comment)) /\
      length b' = length b.
Proof.
  induction comment as [|c rest IH]; intros b l Hb Hmax Hlen Hcap; simpl.
  - exists b. rewrite Nat.add_0_r, app_nil_r. auto.
  - simpl in Hlen. rewrite length_append in Hlen.
    destruct (Quote_char_fits ct c b l Hb ltac:(lia)) as [[b1 j1] Ec].
    rewrite Ec. simpl. destruct (Quote_char_inv _ _ _ _ _ _ Hb Ec) as (H1 & -> & H2).
    rewrite Z.mod_small by lia.
    assert (Hl : length (l ++ list_ascii_of_string (escape_char ct c)) =
                 (length l + String.length (escape_char ct c))%nat)
      by (by rewrite length_app, length_list_ascii).
    replace (maxlen - 5 <=? _) with false by (symmetry; apply Z.leb_gt; lia).
    destruct (IH b1 _ H1 Hmax ltac:(lia) ltac:(lia)) as (b' & Hq & H3 & H4).
    exists b'. rewrite Hq. split; [f_equal; f_equal; rewrite length_append; lia|].
    rewrite list_ascii_app, app_assoc. split; [done|congruence].
Qed.

(** A character whose escape code ends in the last three bytes of the buffer
    makes the loop write the ellipsis past the end. *)
Lemma Quote_loop_outside (ct : ctype) (maxlen : Z) (pre : string) (c : ascii) (rest : string) :
  forall (b : block ascii) (l : list ascii),
    holds b l -> 5 <= maxlen < 2 ^ 64 ->
    Z.of_nat (length b) = maxlen + 1 ->
    Z.of_nat (length l + String.length (escape ct pre)) < maxlen - 5 ->
    maxlen - 3 <=
      Z.of_nat (length l + String.length (escape ct pre) + String.length (escape_char ct c)) ->
    Quote_loop ct (pre ++ String c rest) maxlen b (Z.of_nat (length l)) = None.
Proof.
  induction pre as [|d pre IH]; intros b l Hb Hmax Hcap Hlen Hlast; simpl.
  - simpl in Hlen, Hlast. rewrite Nat.add_0_r in Hlen, Hlast.
    destruct (Quote_char ct c b (Z.of_nat (length l))) as [[b1 j1]|] eqn:Ec; [|done].
    simpl. destruct (Quote_char_inv _ _ _ _ _ _ Hb Ec) as (H1 & -> & H2).
    rewrite Z.mod_small by lia.
    assert (Hl : length (l ++ list_ascii_of_string (escape_char ct c)) =
                 (length l + String.length (escape_char ct c))%nat)
      by (by rewrite length_app, length_list_ascii).
    replace (maxlen - 5 <=? _) with true by (symmetry; apply Z.leb_le; lia).
    rewrite strcpy_outside; [done..|]. simpl. lia.
  - simpl in Hlen, Hlast. rewrite length_append in Hlen, Hlast.
    destruct (Quote_char_fits ct d b l Hb ltac:(lia)) as [[b1 j1] Ec].
    rewrite Ec. simpl. destruct (Quote_char_inv _ _ _ _ _ _ Hb Ec) as (H1 & -> & H2).
    rewrite Z.mod_small by lia.
    assert (Hl : length (l ++ list_ascii_of_string (escape_char ct d)) =
                 (length l + String.length (escape_char ct d))%nat)
      by (by rewrite length_app, length_list_ascii).
    replace (maxlen - 5 <=? _) with false by (symmetry; apply Z.leb_gt; lia).
    apply IH; [done|done|lia|lia|lia].
Qed.

Lemma forallb_list_ascii_app (P : ascii -> bool) (s1 s2 : string) :
  forallb P (list_ascii_of_string (s1 ++ s2)) =
  forallb P (list_ascii_of_string s1) && forallb P (list_ascii_of_string s2).
Proof. by rewrite list_ascii_app, forallb_app. Qed.

Lemma no_markup_escape (ct : ctype) (s : string) : no_markup (escape ct s) = true.
Proof.
  unfold no_markup. induction s as [|c s IH]; [done|]. simpl escape.
  rewrite forallb_list_ascii_app, IH, andb_true_r. unfold escape_char.
  destruct (Ascii.eqb c "<") eqn:E1; [done|].
  destruct (Ascii.eqb c ">") eqn:E2; [done|].
  destruct (Ascii.eqb c "&") eqn:E3; [done|].
  destruct (Ascii.eqb c "034") eqn:E4; [done|].
  destruct (Ascii.eqb c "'") eqn:E5; [done|].
  destruct (isprint ct c || isspace ct c); [|done].
  simpl. unfold is_markup. by rewrite E1, E2, E4, E5.
Qed.

Lemma c_text_escape (ct : ctype) (s : string) : c_text s = true -> c_text (escape ct s) = true.
Proof.
  unfold c_text. induction s as [|c s IH]; [done|]. simpl.
  intros [Hc Hs]%andb_true_iff. rewrite forallb_list_ascii_app, (IH Hs), andb_true_r.
  unfold escape_char. repeat case_match; try done. simpl. by rewrite Hc.
Qed.

Lemma malloc_length {A : Type} (m : Z) : 0 <= m -> Z.of_nat (length (@malloc A m)) = m.
Proof. intros Hm. unfold malloc. rewrite length_replicate. lia. Qed.

(** The buffer in which a call with [maxlen] writes has at least [maxlen + 1]
    bytes. *)
Lemma Quote_buffer (st : Quote_static) (maxlen : Z) :
  Quote_static_ok st -> 0 < maxlen < 2 ^ 64 - 1 ->
  let st1 := if oldmaxlen st <? maxlen
             then mk_Quote_static (Some (malloc ((maxlen + 1) mod 2 ^ 64))) maxlen
             else st in
  exists buffer, result st1 = Some buffer /\
    Z.of_nat (length buffer) = Z.max (oldmaxlen st) maxlen + 1 /\
    oldmaxlen st1 = Z.max (oldmaxlen st) maxlen.
Proof.
  intros Hst Hmax. simpl. destruct (Z.ltb_spec (oldmaxlen st) maxlen) as [Hlt|Hge].
  - simpl. eexists. split; [done|]. rewrite Z.mod_small by lia.
    rewrite malloc_length by lia. lia.
  - unfold Quote_static_ok in Hst. destruct (result st) as [buffer|]; [|lia].
    exists buffer. split; [done|]. lia.
Qed.

(** A comment that has no NUL and whose escape codes take less than
    [maxlen - 5] characters is quoted whole. *)
Lemma Quote_short (ct : ctype) (st : Quote_static) (comment : string) (maxlen : Z) :
  Quote_static_ok st -> 5 <= maxlen < 2 ^ 64 - 1 -> c_text comment = true ->
  Z.of_nat (String.length (escape ct comment)) < maxlen - 5 ->
  exists st',
    vtkWrapXML_Quote ct st (Some comment) maxlen = Some (escape ct comment, st') /\
    Quote_static_ok st' /\ oldmaxlen st' = Z.max (oldmaxlen st) maxlen.
Proof.
  intros Hst Hmax Htext Hlen. unfold vtkWrapXML_Quote.
  destruct (Quote_buffer st maxlen Hst ltac:(lia)) as (buffer & Hb & Hcap & Hold).
  cbv zeta in Hb, Hold.
  set (st1 := if oldmaxlen st <? maxlen then _ else st) in *. clearbody st1.
  rewrite Hb. simpl.
  destruct (Quote_loop_short ct maxlen comment buffer [] (holds_nil _) ltac:(lia)
              ltac:(simpl; lia) ltac:(lia)) as (b' & Hq & Hb' & Hlen').
  change (Z.of_nat (length [])) with 0 in Hq. rewrite Hq. simpl. simpl in Hb'.
  rewrite <- length_list_ascii.
  destruct (holds_store_end b' _ zero Hb') as (b'' & Hs & Hb'' & Hlen'').
  { rewrite length_list_ascii. lia. }
  rewrite Hs. simpl.
  rewrite (c_string_holds (escape ct comment) b'' (c_text_escape ct _ Htext) Hb'').
  simpl. eexists. split; [done|]. split; [|done].
  unfold Quote_static_ok. simpl. rewrite Hold. split; [lia|]. rewrite Hlen'', Hlen'. lia.
Qed.

(** X12. [vtkWrapXML_Quote] returns the empty string for the null pointer.
    A comment that has no NUL and whose escape codes take less than
    [maxlen - 5] characters is quoted whole: the value is the comment with
    ['<'], ['>'], ['&'], the double quote and the apostrophe converted into
    their escape codes, the other characters that are printed or are spaces
    copied, and the remaining characters left out.  In both cases the static
    buffer is as large as the largest [maxlen] seen so far. *)
Theorem Quote_short_comment (ct : ctype) (st : Quote_static) (comment : string) (maxlen : Z) :
  Quote_static_ok st -> 5 <= maxlen < 2 ^ 64 - 1 -> c_text comment = true ->
  Z.of_nat (String.length (escape ct comment)) < maxlen - 5 ->
  (exists st0,
     vtkWrapXML_Quote ct st None maxlen = Some (EmptyString, st0) /\
     Quote_static_ok st0 /\ oldmaxlen st0 = Z.max (oldmaxlen st) maxlen) /\
  (exists st',
     vtkWrapXML_Quote ct st (Some comment) maxlen = Some (escape ct comment, st') /\
     Quote_static_ok st' /\ oldmaxlen st' = Z.max (oldmaxlen st) maxlen).
Proof.
  intros Hst Hmax Htext Hlen. split; [|by apply Quote_short].
  destruct (Quote_buffer st maxlen Hst ltac:(lia)) as (buffer & Hb & Hcap & Hold).
  cbv zeta in Hb, Hold. unfold vtkWrapXML_Quote.
  set (st1 := if oldmaxlen st <? maxlen then _ else st) in *. clearbody st1.
  exists st1. split; [done|]. split; [|done].
  unfold Quote_static_ok. rewrite Hb, Hold. lia.
Qed.

Lemma Quote_short_comment_witness :
  Quote_static_ok Quote_static_initial /\ c_text "if (a < b && c)" = true /\
  (exists st0,
     vtkWrapXML_Quote ex_ctype Quote_static_initial None 500 = Some (EmptyString, st0) /\
     Quote_static_ok st0 /\ oldmaxlen st0 = Z.max (oldmaxlen Quote_static_initial) 500) /\
  (exists st',
     vtkWrapXML_Quote ex_ctype Quote_static_initial (Some "if (a < b && c)") 500 =
       Some ("if (a &lt; b &amp;&amp; c)", st') /\
     Quote_static_ok st' /\ oldmaxlen st' = Z.max (oldmaxlen Quote_static_initial) 500).
Proof.
  split; [reflexivity|]. split; [reflexivity|].
  apply (Quote_short_comment ex_ctype Quote_static_initial "if (a < b && c)" 500);
    [reflexivity|lia|reflexivity|vm_compute; reflexivity].
Defined.

(** X13. Whatever [vtkWrapXML_Quote] returns for a comment is free of
    markup: it has no ['<'], no ['>'], no double quote and no apostrophe.  It
    is the escaped text of the whole comment, or the escaped text of a part of
    the comment from its start, followed by an ellipsis. *)
Theorem Quote_result_is_escaped (ct : ctype) (st st' : Quote_static) (comment : string)
    (maxlen : Z) (text : string) :
  c_text comment = true ->
  vtkWrapXML_Quote ct st (Some comment) maxlen = Some (text, st') ->
  no_markup text = true /\
  exists pre post : string,
    comment = (pre ++ post)%string /\
    (text = escape ct comment \/ text = (escape ct pre ++ " ...")%string).
Proof.
  intros Htext. unfold vtkWrapXML_Quote.
  set (st1 := if oldmaxlen st <? maxlen then _ else st).
  destruct (result st1) as [buffer|]; [|done]. simpl.
  destruct (Quote_loop ct comment maxlen buffer 0) as [[b' j']|] eqn:Eq; [|done]. simpl.
  destruct (Quote_loop_inv ct maxlen comment buffer b' [] j' (holds_nil _) Eq)
    as (pre & post & tail & -> & Htail & Hb' & -> & Hlen).
  simpl in Hb' |- *.
  destruct (store b' _ zero) as [b''|] eqn:Es; [|done]. simpl.
  destruct (holds_store_inv _ _ _ _ Hb' Es) as (Hb'' & _ & _).
  assert (Hc : c_text (escape ct pre ++ tail) = true).
  { unfold c_text. rewrite forallb_list_ascii_app. apply andb_true_iff. split.
    - apply c_text_escape. unfold c_text in Htext.
      rewrite forallb_list_ascii_app in Htext. by apply andb_true_iff in Htext as [? _].
    - by destruct Htail as [[-> _]| ->]. }
  rewrite (c_string_holds _ b'' Hc Hb''). simpl. intros [= <- <-]. split.
  - unfold no_markup. rewrite forallb_list_ascii_app. apply andb_true_iff. split.
    + apply no_markup_escape.
    + by destruct Htail as [[-> _]| ->].
  - exists pre, post. split; [done|].
    destruct Htail as [[-> ->]| ->]; [left|by right]. by rewrite !append_nil_r.
Qed.

Lemma Quote_result_is_escaped_witness :
  c_text "operator<<" = true /\
  vtkWrapXML_Quote ex_ctype Quote_static_initial (Some "operator<<") 32 =
    Some ("operator&lt;&lt;", mk_Quote_static
            (Some ((Some <$> list_ascii_of_string "operator&lt;&lt;") ++ Some zero ::
                   replicate 16 None)) 32) /\
  no_markup "operator&lt;&lt;" = true.
Proof.
  split; [reflexivity|]. split; [reflexivity|].
  exact (proj1 (Quote_result_is_escaped ex_ctype Quote_static_initial _ "operator<<" 32 _
                  eq_refl eq_refl)).
Defined.

(** X14. [vtkWrapXML_Quote] writes past the end of its buffer of [maxlen + 1]
    bytes when the escape codes written before a character stay below
    [maxlen - 5] and its own escape code ends in the last three bytes of the
    buffer or at its end: the ellipsis and its NUL then take five bytes more. *)
Theorem Quote_writes_past_buffer (ct : ctype) (st : Quote_static) (pre : string) (c : ascii)
    (rest : string) (maxlen : Z) :
  Quote_static_ok st -> oldmaxlen st <= maxlen -> 5 <= maxlen < 2 ^ 64 - 1 ->
  Z.of_nat (String.length (escape ct pre)) < maxlen - 5 ->
  maxlen - 3 <= Z.of_nat (String.length (escape ct pre) + String.length (escape_char ct c)) ->
  vtkWrapXML_Quote ct st (Some (pre ++ String c rest)%string) maxlen = None.
Proof.
  intros Hst Hold Hmax Hpre Hlast. unfold vtkWrapXML_Quote.
  destruct (Quote_buffer st maxlen Hst ltac:(lia)) as (buffer & Hb & Hcap & _).
  cbv zeta in Hb.
  set (st1 := if oldmaxlen st <? maxlen then _ else st) in *. clearbody st1.
  rewrite Hb. simpl.
  pose proof (Quote_loop_outside ct maxlen pre c rest buffer [] (holds_nil _) ltac:(lia)
                ltac:(lia) ltac:(simpl; lia) ltac:(simpl; lia)) as Hq.
  change (Z.of_nat (length [])) with 0 in Hq. by rewrite Hq.
Qed.

Lemma Quote_writes_past_buffer_witness :
  Quote_static_ok Quote_static_initial /\
  Z.of_nat (String.length (escape ex_ctype ex_angles)) = 492 /\
  vtkWrapXML_Quote ex_ctype Quote_static_initial (Some (ex_angles ++ String "&" "")%string) 500 = None.
Proof.
  split; [reflexivity|]. split; [vm_compute; reflexivity|].
  apply (Quote_writes_past_buffer ex_ctype Quote_static_initial ex_angles "&" "" 500);
    [reflexivity|simpl; lia|lia|vm_compute; reflexivity|vm_compute; discriminate].
Defined.

(** ** indent *)

Lemma indent_nonneg (level : Z) :
  0 <= level ->
  indent level = Some (string_of_list_ascii (replicate (2 * Z.to_nat (level mod 6)) " "%char)).
Proof.
  intros Hl. unfold indent. rewrite Z.rem_mod_nonneg by lia.
  pose proof (Z.mod_pos_bound level 6 ltac:(lia)) as Hk.
  replace (level mod 6 <? 0) with false by (symmetry; apply Z.ltb_ge; lia).
  assert (Hcases : level mod 6 = 0 \/ level mod 6 = 1 \/ level mod 6 = 2 \/
                   level mod 6 = 3 \/ level mod 6 = 4 \/ level mod 6 = 5) by lia.
  destruct Hcases as [-> | [-> | [-> | [-> | [-> | ->]]]]]; reflexivity.
Qed.

Lemma indent_defined (level : Z) : 0 <= level -> is_Some (indent level).
Proof. intros H. by rewrite (indent_nonneg level H). Qed.

(** X15. The indentation wraps around after six levels: a level that is not
    negative is indented by two spaces for each unit of its remainder by 6, so
    that the levels 6, 12, ... are not indented at all.  A negative level that
    is not a multiple of 6 reads before the table of the indentation
    strings. *)
Theorem indent_wraps_around (level : Z) :
  (0 <= level ->
   indent level = Some (string_of_list_ascii (replicate (2 * Z.to_nat (level mod 6)) " "%char)))
  /\ (level < 0 -> level mod 6 <> 0 -> indent level = None).
Proof.
  split; [apply indent_nonneg|].
  intros Hl Hm. unfold indent.
  assert (Hr : Z.rem level 6 < 0).
  { pose proof (Z.rem_bound_pos_neg level 6 ltac:(lia) ltac:(lia)).
    assert (Z.rem level 6 <> 0); [|lia].
    intros H0. apply Hm. apply Z.rem_divide in H0; [|lia].
    by apply Z.mod_divide. }
  by replace (Z.rem level 6 <? 0) with true by (symmetry; apply Z.ltb_lt; lia).
Qed.

Lemma indent_wraps_around_witness :
  indent 7 = Some "  " /\ indent 12 = Some "" /\ indent (-1) = None.
Proof.
  split; [exact (proj1 (indent_wraps_around 7) ltac:(lia))|].
  split; [exact (proj1 (indent_wraps_around 12) ltac:(lia))|].
  exact (proj2 (indent_wraps_around (-1)) ltac:(lia) ltac:(done)).
Defined.

(** ** Reading a C string *)

Lemma char_at_app (pre s : string) (i : Z) :
  0 <= i -> char_at (pre ++ s) (Z.of_nat (String.length pre) + i) = char_at s i.
Proof.
  intros Hi. unfold char_at.
  replace (Z.of_nat (String.length pre) + i <? 0) with false by (symmetry; apply Z.ltb_ge; lia).
  replace (i <? 0) with false by (symmetry; apply Z.ltb_ge; lia).
  replace (Z.to_nat (Z.of_nat (String.length pre) + i))
    with (String.length pre + Z.to_nat i)%nat by lia.
  rewrite get_app_r, length_append.
  destruct (String.get (Z.to_nat i) s); [done|].
  destruct (Z.eqb_spec i (Z.of_nat (String.length s))) as [->|Hne].
  - by replace (_ =? _) with true by (symmetry; apply Z.eqb_eq; lia).
  - by replace (_ =? _) with false by (symmetry; apply Z.eqb_neq; lia).
Qed.

Lemma char_at_head (c : ascii) (s : string) : char_at (String c s) 0 = Some c.
Proof. reflexivity. Qed.

Lemma char_at_nil : char_at EmptyString 0 = Some zero.
Proof. reflexivity. Qed.

Lemma char_at_past (s : string) (i : Z) : Z.of_nat (String.length s) < i -> char_at s i = None.
Proof.
  intros Hi. unfold char_at.
  replace (i <? 0) with false by (symmetry; apply Z.ltb_ge; lia).
  destruct (String.get (Z.to_nat i) s) as [c|] eqn:E.
  - assert (Hlt : (Z.to_nat i < String.length s)%nat); [|lia].
    clear Hi. revert E. generalize (Z.to_nat i). clear. intros n.
    revert n. induction s as [|d s IH]; intros [|n]; simpl; try done; try lia.
    intros H. apply IH in H. lia.
  - by replace (_ =? _) with false by (symmetry; apply Z.eqb_neq; lia).
Qed.

Lemma char_at_suffix (pre s : string) :
  char_at (pre ++ s) (Z.of_nat (String.length pre)) = char_at s 0.
Proof. rewrite <- (char_at_app pre s 0) by lia. f_equal. lia. Qed.

(** ** The copy of a line *)

Lemma copy_line_app (pre s : string) (fuel : nat) :
  forall (i : Z) (temp : string), 0 <= i ->
    copy_line (pre ++ s) (Z.of_nat (String.length pre) + i) temp fuel =
    (fun r : string * Z => (r.1, Z.of_nat (String.length pre) + r.2)) <$> copy_line s i temp fuel.
Proof.
  induction fuel as [|fuel IH]; intros i temp Hi; simpl; [done|].
  rewrite char_at_app by done. destruct (char_at s i) as [c|]; [|done]. simpl.
  destruct (Ascii.eqb c zero || Ascii.eqb c "010"); [done|].
  rewrite <- Z.add_assoc. apply IH. lia.
Qed.

(** The copy goes over a line up to the newline or the NUL after it, or up to
    the end of the fuel. *)
Lemma copy_line_line (line : string) :
  forall (rest temp : string) (fuel : nat),
    line_text line = true -> (String.length line <= fuel)%nat ->
    (String.length line = fuel \/ rest = EmptyString \/ exists r, rest = String "010" r) ->
    copy_line (line ++ rest) 0 temp fuel = Some ((temp ++ line)%string,
                                                 Z.of_nat (String.length line)).
Proof.
  unfold line_text.
  induction line as [|c line IH]; intros rest temp fuel Hline Hlen Hstop.
  - simpl. rewrite append_nil_r. destruct fuel as [|fuel]; [done|].
    destruct Hstop as [H|[-> | [r ->]]]; [simpl in H; lia|done..].
  - simpl in Hline, Hlen. apply andb_true_iff in Hline as [Hc Hline].
    apply andb_true_iff in Hc as [Hc1 Hc2]. apply negb_true_iff in Hc1, Hc2.
    destruct fuel as [|fuel]; [lia|]. simpl. rewrite Hc1, Hc2. simpl.
    change (0 + 1) with (Z.of_nat (String.length (String c "")) + 0).
    change (String c (line ++ rest)) with (String c "" ++ (line ++ rest))%string.
    rewrite copy_line_app by lia.
    rewrite (IH rest _ fuel Hline ltac:(lia)).
    + simpl. rewrite append_assoc. simpl. do 2 f_equal. lia.
    + destruct Hstop as [H|H]; [left; simpl in H; lia|by right].
Qed.

(** ** One round of vtkWrapXML_MultiLineText *)

Arguments vtkWrapXML_Quote : simpl never.

Lemma get_Some_lt (s : string) (n : nat) (c : ascii) :
  String.get n s = Some c -> (n < String.length s)%nat.
Proof.
  revert n. induction s as [|d s IH]; intros [|n]; simpl; try done; try lia.
  intros H. apply IH in H. lia.
Qed.

Lemma char_at_not_NUL (s : string) (i : Z) (c : ascii) :
  char_at s i = Some c -> Ascii.eqb c zero = false -> 0 <= i < Z.of_nat (String.length s).
Proof.
  unfold char_at. destruct (Z.ltb_spec i 0) as [|Hi]; [done|].
  destruct (String.get (Z.to_nat i) s) as [d|] eqn:E.
  - intros [= ->] _. apply get_Some_lt in E. lia.
  - destruct (i =? _); [|done]. by intros [= <-].
Qed.

(** The copy moves the index forward and stays within the string. *)
Lemma copy_line_index (s : string) (fuel : nat) :
  forall (i : Z) (temp temp' : string) (i' : Z),
    copy_line s i temp fuel = Some (temp', i') -> 0 <= i <= Z.of_nat (String.length s) ->
    i <= i' <= Z.of_nat (String.length s).
Proof.
  induction fuel as [|fuel IH]; intros i temp temp' i' H Hi; simpl in H.
  - injection H as <- <-. lia.
  - destruct (char_at s i) as [c|] eqn:Ec; [|done]. simpl in H.
    destruct (Ascii.eqb c zero || Ascii.eqb c "010") eqn:E.
    + injection H as <- <-. lia.
    + apply orb_false_iff in E as [E _].
      pose proof (char_at_not_NUL s i c Ec E).
      apply IH in H; lia.
Qed.

Lemma MultiLineText_round_app (ct : ctype) (st : Quote_static) (w : wrapxml_state_t)
    (pre s : string) (i : Z) :
  0 <= i ->
  MultiLineText_round ct st w (pre ++ s) (Z.of_nat (String.length pre) + i) =
  (fun r : wrapxml_state_t * Quote_static * Z => (r.1, Z.of_nat (String.length pre) + r.2))
    <$> MultiLineText_round ct st w s i.
Proof.
  intros Hi. unfold MultiLineText_round. rewrite copy_line_app by done.
  destruct (copy_line s i "" 200) as [[temp i']|]; [|done]. simpl.
  destruct (0 <? _)%nat; [|done].
  destruct (indent (indentation w)) as [spaces|]; [|done]. simpl.
  by match goal with |- context [vtkWrapXML_Quote ct st ?x 500] =>
       destruct (vtkWrapXML_Quote ct st x 500) as [[quoted st']|] end.
Qed.

Lemma MultiLineText_round_index (ct : ctype) (st : Quote_static) (w : wrapxml_state_t)
    (s : string) (i : Z) (r : wrapxml_state_t * Quote_static * Z) :
  MultiLineText_round ct st w s i = Some r -> 0 <= i <= Z.of_nat (String.length s) ->
  i <= r.2 <= Z.of_nat (String.length s).
Proof.
  unfold MultiLineText_round.
  destruct (copy_line s i "" 200) as [[temp i']|] eqn:Ec; [|done]. simpl.
  intros H Hi. pose proof (copy_line_index _ _ _ _ _ _ Ec Hi).
  destruct (0 <? _)%nat; [|by injection H as <-].
  destruct (indent (indentation w)) as [spaces|]; [|done]. simpl in H.
  match type of H with context [vtkWrapXML_Quote ct st ?x 500] =>
    destruct (vtkWrapXML_Quote ct st x 500) as [[quoted st']|]; [|done] end.
  by injection H as <-.
Qed.

(** The loop reads the string from the index on: what is before it plays no
    part. *)
Lemma MultiLineText_loop_app (ct : ctype) (pre s : string) (fuel : nat) :
  forall (st : Quote_static) (w : wrapxml_state_t) (i : Z),
    0 <= i ->
    MultiLineText_loop ct st w (pre ++ s) (Z.of_nat (String.length pre) + i) fuel =
    MultiLineText_loop ct st w s i fuel.
Proof.
  induction fuel as [|fuel IH]; intros st w i Hi; simpl; [done|].
  rewrite char_at_app by done. destruct (char_at s i) as [c|] eqn:Ec; [|done].
  destruct (Ascii.eqb c zero) eqn:E; [done|].
  pose proof (char_at_not_NUL s i c Ec E) as Hlt.
  rewrite MultiLineText_round_app by done.
  destruct (MultiLineText_round ct st w s i) as [[[w' st'] i']|] eqn:Er; [|done]. simpl.
  pose proof (MultiLineText_round_index _ _ _ _ _ _ Er ltac:(lia)) as Hi'. simpl in Hi'.
  rewrite <- Z.add_assoc. apply IH. lia.
Qed.

(** The loop has ended after [strlen (cp) + 1 - i] tests. *)
Lemma MultiLineText_loop_fuel (ct : ctype) (s : string) (fuel1 : nat) :
  forall (fuel2 : nat) (st : Quote_static) (w : wrapxml_state_t) (i : Z),
    0 <= i ->
    (S (Z.to_nat (Z.of_nat (String.length s) - i)) <= fuel1)%nat ->
    (S (Z.to_nat (Z.of_nat (String.length s) - i)) <= fuel2)%nat ->
    MultiLineText_loop ct st w s i fuel1 = MultiLineText_loop ct st w s i fuel2.
Proof.
  induction fuel1 as [|fuel1 IH]; intros [|fuel2] st w i Hi H1 H2; try lia. simpl.
  destruct (char_at s i) as [c|] eqn:Ec; [|done].
  destruct (Ascii.eqb c zero) eqn:E; [done|].
  pose proof (char_at_not_NUL s i c Ec E) as Hlt.
  destruct (MultiLineText_round ct st w s i) as [[[w' st'] i']|] eqn:Er; [|done].
  pose proof (MultiLineText_round_index _ _ _ _ _ _ Er ltac:(lia)) as Hi'. simpl in Hi'.
  apply IH; lia.
Qed.

Lemma line_text_c_text (line : string) : line_text line = true -> c_text line = true.
Proof.
  unfold line_text, c_text. induction line as [|c line IH]; simpl; [done|].
  intros [[Hc _]%andb_true_iff Hl]%andb_true_iff. by rewrite Hc, IH.
Qed.

Lemma c_text_substring (s : string) : forall n m, c_text s = true -> c_text (substring n m s) = true.
Proof.
  unfold c_text. induction s as [|c s IH]; intros [|n] [|m]; simpl; try done.
  - intros [Hc Hs]%andb_true_iff. rewrite Hc. simpl. by apply (IH 0%nat m).
  - intros [Hc Hs]%andb_true_iff. by apply (IH n 0%nat).
  - intros [Hc Hs]%andb_true_iff. by apply (IH n (S m)).
Qed.

(** The first character of a line followed by a newline, or of a line that
    is not empty, is not the NUL. *)
Lemma char_at_line (line rest : string) :
  line_text line = true ->
  (line <> EmptyString \/ exists r, rest = String "010" r) ->
  exists c, char_at (line ++ rest) 0 = Some c /\ Ascii.eqb c zero = false.
Proof.
  unfold line_text. intros Hline Hne. destruct line as [|c line].
  - destruct Hne as [?|[r ->]]; [done|]. by exists "010"%char.
  - exists c. split; [done|]. simpl in Hline.
    apply andb_true_iff in Hline as [[Hc _]%andb_true_iff _]. by apply negb_true_iff.
Qed.

(** The round on a line that is written whole. *)
Lemma MultiLineText_round_line (ct : ctype) (st : Quote_static) (w : wrapxml_state_t)
    (line rest spaces : string) :
  Quote_static_ok st -> indent (indentation w) = Some spaces -> short_line ct line ->
  (rest = EmptyString \/ exists r, rest = String "010" r) ->
  exists st',
    MultiLineText_round ct st w (line ++ rest) 0 =
      Some (fprintf w (print_line ct spaces line), st', Z.of_nat (String.length line)) /\
    Quote_static_ok st'.
Proof.
  intros Hst Hind (Hline & Hlen & Hesc) Hrest. unfold MultiLineText_round.
  rewrite (copy_line_line line rest "" 200 Hline Hlen) by (by right). simpl.
  unfold print_line. destruct (0 <? strip_blanks line (String.length line))%nat.
  - rewrite Hind. simpl.
    destruct (Quote_short ct st (strip_line line) 500 Hst ltac:(lia))
      as (st' & Hq & Hst' & _).
    { apply c_text_substring. by apply line_text_c_text. }
    { lia. }
    unfold strip_line in Hq. rewrite Hq. simpl. by exists st'.
  - by exists st.
Qed.

Lemma fprintf_fprintf (w : wrapxml_state_t) (a b : string) :
  fprintf (fprintf w a) b = fprintf w (a ++ b).
Proof. unfold fprintf. simpl. by rewrite append_assoc. Qed.

Lemma fprintf_nil (w : wrapxml_state_t) : fprintf w "" = w.
Proof. destruct w. unfold fprintf. simpl. by rewrite append_nil_r. Qed.

Lemma length_join_cons (line : string) (lines : list string) :
  String.length (join_lines (line :: lines)) =
  S (String.length line + String.length (join_lines lines)).
Proof. simpl. rewrite length_append. simpl. lia. Qed.

(** The loop on lines that are written whole. *)
Lemma MultiLineText_loop_lines (ct : ctype) (spaces : string) (lines : list string) :
  Forall (short_line ct) lines ->
  forall (st : Quote_static) (w : wrapxml_state_t) (fuel : nat),
    Quote_static_ok st -> indent (indentation w) = Some spaces ->
    (S (String.length (join_lines lines)) <= fuel)%nat ->
    exists st',
      MultiLineText_loop ct st w (join_lines lines) 0 fuel =
        Done (fprintf w (print_lines ct spaces lines), st') /\
      Quote_static_ok st'.
Proof.
  induction 1 as [|line lines Hline Hlines IH]; intros st w fuel Hst Hind Hfuel.
  - destruct fuel as [|fuel]; [simpl in Hfuel; lia|]. simpl. rewrite fprintf_nil. by exists st.
  - rewrite length_join_cons in Hfuel. destruct fuel as [|fuel]; [lia|].
    change (join_lines (line :: lines))
      with (line ++ String "010" (join_lines lines))%string.
    cbn [MultiLineText_loop].
    destruct (char_at_line line (String "010" (join_lines lines)) (proj1 Hline))
      as (c & -> & ->); [right; by eexists|].
    destruct (MultiLineText_round_line ct st w line (String "010" (join_lines lines)) spaces
                Hst Hind Hline) as (st1 & -> & Hst1); [right; by eexists|].
    replace (line ++ String "010" (join_lines lines))%string
      with ((line ++ String "010" "") ++ join_lines lines)%string
      by (by rewrite append_assoc).
    replace (Z.of_nat (String.length line) + 1)
      with (Z.of_nat (String.length (line ++ String "010" "")) + 0)
      by (rewrite length_append; simpl; lia).
    rewrite MultiLineText_loop_app by lia.
    destruct (IH st1 (fprintf w (print_line ct spaces line)) fuel Hst1 Hind ltac:(lia))
      as (st' & -> & Hst').
    exists st'. by rewrite fprintf_fprintf.
Qed.

(** X16. [vtkWrapXML_MultiLineText] writes a text whose lines all end with a
    newline, have at most 200 characters and a quoted form of less than 495
    characters line by line: each line without the blanks, tabs and carriage
    returns at its end, quoted and indented, and a line of blanks as an empty
    line. *)
Theorem MultiLineText_writes_lines (ct : ctype) (st : Quote_static) (w : wrapxml_state_t)
    (lines : list string) :
  Quote_static_ok st -> 0 <= indentation w -> Forall (short_line ct) lines ->
  exists (spaces : string) (st' : Quote_static),
    indent (indentation w) = Some spaces /\
    vtkWrapXML_MultiLineText ct st w (Some (join_lines lines)) =
      Done (fprintf w (print_lines ct spaces lines), st') /\
    Quote_static_ok st'.
Proof.
  intros Hst Hw Hlines. destruct (indent_defined (indentation w) Hw) as [spaces Hind].
  destruct (MultiLineText_loop_lines ct spaces lines Hlines st w
              (S (String.length (join_lines lines))) Hst Hind ltac:(lia)) as (st' & H & Hst').
  by exists spaces, st'.
Qed.

Lemma MultiLineText_writes_lines_witness :
  Quote_static_ok Quote_static_initial /\ Forall (short_line ex_ctype) ex_lines /\
  print_lines ex_ctype "  " ex_lines =
    ("  A class for" ++ newline ++ newline ++ "    a &lt; b" ++ newline)%string /\
  exists (spaces : string) (st' : Quote_static),
    indent (indentation ex_state) = Some spaces /\
    vtkWrapXML_MultiLineText ex_ctype Quote_static_initial ex_state (Some (join_lines ex_lines))
      = Done (fprintf ex_state (print_lines ex_ctype spaces ex_lines), st') /\
    Quote_static_ok st'.
Proof.
  assert (Hlines : Forall (short_line ex_ctype) ex_lines).
  { unfold ex_lines. repeat (constructor; [split; [reflexivity|split;
      [simpl; lia|vm_compute; lia]]|]). constructor. }
  split; [reflexivity|]. split; [exact Hlines|]. split; [reflexivity|].
  apply (MultiLineText_writes_lines ex_ctype Quote_static_initial ex_state ex_lines);
    [reflexivity|simpl; lia|exact Hlines].
Defined.

(** ** Texts that do not end with a newline, and long lines *)

Lemma MultiLineText_round_stops (ct : ctype) (st : Quote_static) (w : wrapxml_state_t)
    (line rest : string) (r : wrapxml_state_t * Quote_static * Z) :
  line_text line = true -> (String.length line <= 200)%nat ->
  (String.length line = 200%nat \/ rest = EmptyString \/ exists t, rest = String "010" t) ->
  MultiLineText_round ct st w (line ++ rest) 0 = Some r ->
  r.2 = Z.of_nat (String.length line).
Proof.
  intros Hline Hlen Hrest. unfold MultiLineText_round.
  rewrite (copy_line_line line rest "" 200 Hline Hlen Hrest). simpl.
  destruct (0 <? _)%nat; [|by intros [= <-]].
  destruct (indent (indentation w)) as [spaces|]; [|done]. simpl.
  match goal with |- context [vtkWrapXML_Quote ct st ?x 500] =>
    destruct (vtkWrapXML_Quote ct st x 500) as [[quoted st']|]; [|done] end.
  by intros [= <-].
Qed.

(** The loop on lines of at most 200 characters and a last line without a
    newline goes on after the NUL. *)
Lemma MultiLineText_loop_unterminated (ct : ctype) (last : string) (lines : list string) :
  Forall (fun line => line_text line = true /\ (String.length line <= 200)%nat) lines ->
  line_text last = true -> last <> EmptyString -> (String.length last <= 200)%nat ->
  forall (st : Quote_static) (w : wrapxml_state_t) (fuel : nat),
    (S (String.length (join_lines lines ++ last)) <= fuel)%nat ->
    MultiLineText_loop ct st w (join_lines lines ++ last) 0 fuel = Undefined.
Proof.
  intros Hlines Hlast Hne Hlen.
  induction Hlines as [|line lines [Hline Hl] Hlines IH]; intros st w fuel Hfuel.
  - simpl join_lines in *. simpl append in *.
    destruct fuel as [|fuel]; [lia|]. cbn [MultiLineText_loop].
    destruct (char_at_line last "" Hlast) as (c & Hc & Hz); [by left|].
    rewrite append_nil_r in Hc. rewrite Hc, Hz.
    destruct (MultiLineText_round ct st w last 0) as [[[w' st'] i']|] eqn:Er; [|done].
    rewrite <- (append_nil_r last) in Er at 1.
    apply MultiLineText_round_stops in Er; [|done|done|by right; left]. simpl in Er. subst i'.
    destruct fuel as [|fuel]; [destruct last; [done|simpl in Hfuel; lia]|].
    cbn [MultiLineText_loop]. by rewrite char_at_past by lia.
  - change (join_lines (line :: lines) ++ last)%string
      with ((line ++ String "010" (join_lines lines)) ++ last)%string in *.
    rewrite append_assoc in *. simpl append in *.
    rewrite length_append in Hfuel. simpl in Hfuel.
    destruct fuel as [|fuel]; [lia|]. cbn [MultiLineText_loop].
    destruct (char_at_line line (String "010" (join_lines lines ++ last)) Hline)
      as (c & -> & ->); [right; by eexists|].
    destruct (MultiLineText_round ct st w _ 0) as [[[w' st'] i']|] eqn:Er; [|done].
    apply MultiLineText_round_stops in Er; [|done|done|right; right; by eexists].
    simpl in Er. subst i'.
    replace (line ++ String "010" (join_lines lines ++ last))%string
      with ((line ++ String "010" "") ++ (join_lines lines ++ last))%string
      by (by rewrite append_assoc).
    replace (Z.of_nat (String.length line) + 1)
      with (Z.of_nat (String.length (line ++ String "010" "")) + 0)
      by (rewrite length_append; simpl; lia).
    rewrite MultiLineText_loop_app by lia. apply IH. lia.
Qed.

(** X17. A text whose last line is not empty and does not end with a newline
    makes [vtkWrapXML_MultiLineText] read the byte that follows the NUL of the
    text: after the last line the index is moved past the NUL before the test
    of the loop.  (The lines have at most 200 characters.) *)
Theorem MultiLineText_reads_past_NUL (ct : ctype) (st : Quote_static) (w : wrapxml_state_t)
    (lines : list string) (last : string) :
  Forall (fun line => line_text line = true /\ (String.length line <= 200)%nat) lines ->
  line_text last = true -> last <> EmptyString -> (String.length last <= 200)%nat ->
  vtkWrapXML_MultiLineText ct st w (Some (join_lines lines ++ last)%string) = Undefined.
Proof.
  intros Hlines Hlast Hne Hlen. unfold vtkWrapXML_MultiLineText.
  by apply MultiLineText_loop_unterminated.
Qed.

Lemma MultiLineText_reads_past_NUL_witness :
  Forall (fun line => line_text line = true /\ (String.length line <= 200)%nat) ex_lines /\
  vtkWrapXML_MultiLineText ex_ctype Quote_static_initial ex_state
    (Some (join_lines ex_lines ++ "See also vtkObject")%string) = Undefined.
Proof.
  assert (Hlines : Forall (fun line => line_text line = true /\
                                       (String.length line <= 200)%nat) ex_lines).
  { unfold ex_lines. repeat (constructor; [split; [reflexivity|simpl; lia]|]).
    constructor. }
  split; [exact Hlines|].
  apply (MultiLineText_reads_past_NUL ex_ctype Quote_static_initial ex_state ex_lines
           "See also vtkObject" Hlines); [reflexivity|discriminate|simpl; lia].
Defined.

(** X18. After 200 characters of a line [vtkWrapXML_MultiLineText] starts a
    new line and passes over the character that comes next, whatever it is:
    the text is written as if this character were a newline. *)
Theorem MultiLineText_cuts_long_lines (ct : ctype) (st : Quote_static) (w : wrapxml_state_t)
    (chunk : string) (c : ascii) (rest : string) :
  line_text chunk = true -> String.length chunk = 200%nat ->
  vtkWrapXML_MultiLineText ct st w (Some (chunk ++ String c rest)%string) =
  vtkWrapXML_MultiLineText ct st w (Some (chunk ++ String "010" rest)%string).
Proof.
  intros Hchunk Hlen. unfold vtkWrapXML_MultiLineText.
  rewrite !length_append. simpl String.length.
  cbn [MultiLineText_loop].
  destruct (char_at_line chunk (String c rest) Hchunk) as (d & Hd & Hz).
  { left. intros ->. simpl in Hlen. lia. }
  destruct (char_at_line chunk (String "010" rest) Hchunk) as (d' & Hd' & Hz').
  { left. intros ->. simpl in Hlen. lia. }
  rewrite Hd, Hd', Hz, Hz'.
  assert (Hround : forall tail : string,
    MultiLineText_round ct st w (chunk ++ tail) 0 =
    MultiLineText_round ct st w (chunk ++ "") 0).
  { intros tail. unfold MultiLineText_round.
    by rewrite !(copy_line_line chunk _ "" 200 Hchunk) by (lia || by left). }
  rewrite (Hround (String c rest)), (Hround (String "010" rest)).
  destruct (MultiLineText_round ct st w (chunk ++ "") 0) as [[[w' st'] i']|] eqn:Er; [|done].
  apply MultiLineText_round_stops in Er; [|done|lia|by left]. simpl in Er. subst i'.
  replace (chunk ++ String c rest)%string with ((chunk ++ String c "") ++ rest)%string
    by (by rewrite append_assoc).
  replace (chunk ++ String "010" rest)%string with ((chunk ++ String "010" "") ++ rest)%string
    by (by rewrite append_assoc).
  replace (Z.of_nat (String.length chunk) + 1)
    with (Z.of_nat (String.length (chunk ++ String c "")) + 0)
    by (rewrite length_append; simpl; lia).
  rewrite MultiLineText_loop_app by lia.
  replace (Z.of_nat (String.length (chunk ++ String c "")) + 0)
    with (Z.of_nat (String.length (chunk ++ String "010" "")) + 0)
    by (rewrite !length_append; simpl; lia).
  by rewrite MultiLineText_loop_app by lia.
Qed.

Lemma ex_long_text_written :
  exists st',
    vtkWrapXML_MultiLineText ex_ctype Quote_static_initial ex_state
      (Some (join_lines [ex_long_line; "cd"])) =
    Done (fprintf ex_state ("  " ++ ex_long_line ++ newline ++ "  cd" ++ newline), st').
Proof.
  assert (Hlines : Forall (short_line ex_ctype) [ex_long_line; "cd"]).
  { repeat (constructor; [split; [reflexivity|split; [vm_compute; lia|vm_compute; lia]]|]).
    constructor. }
  destruct (MultiLineText_loop_lines ex_ctype "  " [ex_long_line; "cd"] Hlines
              Quote_static_initial ex_state
              (S (String.length (join_lines [ex_long_line; "cd"])))
              eq_refl eq_refl ltac:(lia)) as (st' & Hrun & _).
  exists st'. unfold vtkWrapXML_MultiLineText. rewrite Hrun. do 2 f_equal.
Qed.

Lemma MultiLineText_cuts_long_lines_witness :
  line_text ex_long_line = true /\ String.length ex_long_line = 200%nat /\
  exists st',
    vtkWrapXML_MultiLineText ex_ctype Quote_static_initial ex_state
      (Some (ex_long_line ++ String "b" ("cd" ++ newline))%string) =
    Done (fprintf ex_state ("  " ++ ex_long_line ++ newline ++ "  cd" ++ newline), st').
Proof.
  split; [reflexivity|]. split; [reflexivity|].
  rewrite (MultiLineText_cuts_long_lines ex_ctype Quote_static_initial ex_state ex_long_line
             "b" ("cd" ++ newline) eq_refl eq_refl).
  exact ex_long_text_written.
Defined.

(** ** Elements and attributes *)

Arguments indent : simpl never.
Arguments vtkWrapXML_MultiLineText : simpl never.
Arguments vtkWrapXML_ElementEnd : simpl never.
Arguments vtkWrapXML_ElementStart : simpl never.

Lemma ElementBody_file (w : wrapxml_state_t) :
  vtkWrapXML_ElementBody w = mk_wrapxml_state (file w ++ closing w) (indentation w) 0.
Proof.
  unfold vtkWrapXML_ElementBody, closing. destruct w as [f i u]. simpl.
  destruct (u =? 0); simpl; [by rewrite append_nil_r|done].
Qed.

Lemma ElementStart_spec (w : wrapxml_state_t) (name spaces : string) :
  indent (indentation w) = Some spaces ->
  vtkWrapXML_ElementStart w name =
    Some (mk_wrapxml_state (file w ++ closing w ++ spaces ++ "<" ++ name)
            (indentation w + 1) 1).
Proof.
  intros H. unfold vtkWrapXML_ElementStart. rewrite ElementBody_file. simpl. rewrite H.
  simpl. by rewrite append_assoc.
Qed.

Lemma ElementEnd_empty (w : wrapxml_state_t) (name : string) :
  unclosed w <> 0 ->
  vtkWrapXML_ElementEnd w name =
    Some (mk_wrapxml_state (file w ++ " />" ++ newline) (indentation w - 1) 0).
Proof.
  intros H. unfold vtkWrapXML_ElementEnd. simpl.
  by replace (unclosed w =? 0) with false by (symmetry; by apply Z.eqb_neq).
Qed.

Lemma ElementEnd_body (w : wrapxml_state_t) (name spaces : string) :
  unclosed w = 0 -> indent (indentation w - 1) = Some spaces ->
  vtkWrapXML_ElementEnd w name =
    Some (mk_wrapxml_state (file w ++ spaces ++ "</" ++ name ++ ">" ++ newline)
            (indentation w - 1) 0).
Proof.
  intros H Hi. unfold vtkWrapXML_ElementEnd. simpl. rewrite H. simpl. by rewrite Hi.
Qed.

Lemma Attribute_spec (ct : ctype) (st : Quote_static) (w : wrapxml_state_t)
    (name value : string) :
  Quote_static_ok st -> short_value ct value ->
  exists st',
    vtkWrapXML_Attribute ct st w name (Some value) =
      Some (fprintf w (attribute_text ct name value), st') /\
    Quote_static_ok st'.
Proof.
  intros Hst [Hc Hlen]. unfold vtkWrapXML_Attribute.
  destruct (Quote_short ct st value 500 Hst ltac:(lia) Hc ltac:(lia))
    as (st' & -> & Hst' & _).
  simpl. by exists st'.
Qed.

(** X19. [vtkWrapXML_Comment] writes nothing for the null pointer.  For a
    text whose lines are written whole it closes the tag that is open, and
    writes an element [Comment] that is never empty: the start tag on a line of
    its own, the lines of the text one level deeper, and the end tag; the
    indentation level is the same after the element as before it. *)
Theorem Comment_writes_element (ct : ctype) (st : Quote_static) (w : wrapxml_state_t)
    (lines : list string) :
  Quote_static_ok st -> 0 <= indentation w -> Forall (short_line ct) lines ->
  vtkWrapXML_Comment ct st w None = Done (w, st) /\
  exists (spaces inner : string) (st' : Quote_static),
    indent (indentation w) = Some spaces /\
    indent (indentation w + 1) = Some inner /\
    vtkWrapXML_Comment ct st w (Some (join_lines lines)) =
      Done (mk_wrapxml_state
              (file w ++ closing w ++ spaces ++ "<Comment>" ++ newline
                 ++ print_lines ct inner lines ++ spaces ++ "</Comment>" ++ newline)
              (indentation w) 0, st') /\
    Quote_static_ok st'.
Proof.
  intros Hst Hw Hlines. split; [done|].
  destruct (indent_defined (indentation w) Hw) as [spaces Hs].
  unfold vtkWrapXML_Comment. rewrite (ElementStart_spec w "Comment" spaces Hs).
  rewrite ElementBody_file. unfold closing at 2. simpl.
  set (w1 := mk_wrapxml_state _ (indentation w + 1) 0).
  destruct (indent_defined (indentation w1) ltac:(simpl; lia)) as [inner Hi].
  unfold vtkWrapXML_MultiLineText.
  destruct (MultiLineText_loop_lines ct inner lines Hlines st w1
              (S (String.length (join_lines lines))) Hst Hi ltac:(lia)) as (st' & -> & Hst').
  simpl in Hi. exists spaces, inner, st'. split; [done|]. split; [done|].
  rewrite (ElementEnd_body _ "Comment" spaces); simpl; [| done |].
  2:{ by replace (indentation w + 1 - 1) with (indentation w) by lia. }
  split; [|done]. do 2 f_equal.
  replace (indentation w + 1 - 1) with (indentation w) by lia.
  f_equal. unfold newline. by rewrite !append_assoc.
Qed.

Lemma Comment_writes_element_witness :
  Quote_static_ok Quote_static_initial /\ Forall (short_line ex_ctype) ex_lines /\
  exists st',
    vtkWrapXML_Comment ex_ctype Quote_static_initial (mk_wrapxml_state "<Method" 1 1)
      (Some (join_lines ex_lines)) =
    Done (mk_wrapxml_state
            ("<Method>" ++ newline ++ "  <Comment>" ++ newline ++
             "    A class for" ++ newline ++ newline ++ "      a &lt; b" ++ newline ++
             "  </Comment>" ++ newline) 1 0, st').
Proof.
  assert (Hlines : Forall (short_line ex_ctype) ex_lines).
  { unfold ex_lines. repeat (constructor; [split; [reflexivity|split;
      [simpl; lia|vm_compute; lia]]|]). constructor. }
  split; [reflexivity|]. split; [exact Hlines|].
  destruct (proj2 (Comment_writes_element ex_ctype Quote_static_initial
                     (mk_wrapxml_state "<Method" 1 1) ex_lines eq_refl ltac:(simpl; lia) Hlines))
    as (spaces & inner & st' & Hs & Hi & Hrun & _).
  exists st'. rewrite Hrun. injection Hs as <-. injection Hi as <-. reflexivity.
Defined.

(** ** The resolution order *)

Lemma length_escape (ct : ctype) (s : string) :
  (String.length (escape ct s) <= 6 * String.length s)%nat.
Proof.
  induction s as [|c s IH]; simpl; [lia|]. rewrite length_append.
  pose proof (length_escape_char ct c). lia.
Qed.

Lemma short_value_public (ct : ctype) : short_value ct "public".
Proof. split; [reflexivity|]. pose proof (length_escape ct "public"). simpl in *. lia. Qed.

(** The loop writes one element for each name that is left. *)
Lemma ClassInheritance_loop_spec (ct : ctype) (merge : MergeInfo) (inner : string)
    (names : list string) :
  Forall (short_value ct) names ->
  forall (pre : list string) (st : Quote_static) (w : wrapxml_state_t),
    holds (ClassNames merge) (pre ++ names) -> Quote_static_ok st ->
    unclosed w = 0 -> indent (indentation w) = Some inner ->
    exists st',
      ClassInheritance_loop ct st w merge (Z.of_nat (length pre)) (length names) =
        Some (fprintf w (context_elements ct inner names), st') /\
      Quote_static_ok st'.
Proof.
  induction 1 as [|name names Hname Hnames IH]; intros pre st w Hb Hst Hu Hi.
  - simpl. rewrite fprintf_nil. by exists st.
  - cbn [ClassInheritance_loop length].
    rewrite (ElementStart_spec w "Context" inner Hi). simpl.
    rewrite (holds_load _ _ (length pre) name Hb)
      by (by rewrite lookup_app_r, Nat.sub_diag by lia).
    simpl. unfold vtkWrapXML_Name.
    destruct (Attribute_spec ct st
                (mk_wrapxml_state (file w ++ closing w ++ inner ++ "<Context")
                   (indentation w + 1) 1) "name" name Hst Hname) as (st1 & -> & Hst1).
    simpl.
    destruct (Attribute_spec ct st1
                (fprintf (mk_wrapxml_state (file w ++ closing w ++ inner ++ "<Context")
                            (indentation w + 1) 1) (attribute_text ct "name" name))
                "access" "public" Hst1 (short_value_public ct)) as (st2 & -> & Hst2).
    simpl.
    replace (Z.of_nat (length pre) + 1) with (Z.of_nat (length (pre ++ [name])))
      by (rewrite length_app; simpl; lia).
    match goal with |- context [ClassInheritance_loop ct st2 ?w1 merge _ _] =>
      destruct (IH (pre ++ [name]) st2 w1) as (st' & -> & Hst') end; simpl; try done.
    + by rewrite <- app_assoc.
    + by replace (indentation w + 1 - 1) with (indentation w) by lia.
    + exists st'. split; [|done]. do 2 f_equal. unfold fprintf. simpl.
      replace (indentation w + 1 - 1) with (indentation w) by lia. rewrite Hu.
      f_equal. unfold closing, context_element, attribute_text, dquote, newline.
      rewrite Hu. by repeat (progress (rewrite ?append_assoc; simpl)).
Qed.

(** X20. [vtkWrapXML_ClassInheritance] writes the registry of the MergeInfo
    as the element [ResolutionOrder]: one empty element [Context] for each
    registered class, in the order of the registry, with the quoted name of
    the class and the access [public], one level deeper than the element. *)
Theorem ClassInheritance_writes_registry (ct : ctype) (st : Quote_static)
    (w : wrapxml_state_t) (merge : MergeInfo) (names : list string)
    (chains : list (list Z)) :
  rep_info merge names chains -> Z.of_nat (length names) < 2 ^ 64 ->
  Quote_static_ok st -> 0 <= indentation w -> Forall (short_value ct) names ->
  exists (spaces inner : string) (st' : Quote_static),
    indent (indentation w) = Some spaces /\
    indent (indentation w + 1) = Some inner /\
    vtkWrapXML_ClassInheritance ct st w merge =
      Some (mk_wrapxml_state
              (file w ++ closing w ++ spaces ++ "<ResolutionOrder>" ++ newline
                 ++ context_elements ct inner names
                 ++ spaces ++ "</ResolutionOrder>" ++ newline)
              (indentation w) 0, st') /\
    Quote_static_ok st'.
Proof.
  intros Hrep Hn Hst Hw Hnames.
  destruct (indent_defined (indentation w) Hw) as [spaces Hs].
  destruct (indent_defined (indentation w + 1) ltac:(lia)) as [inner Hi].
  exists spaces, inner. unfold vtkWrapXML_ClassInheritance.
  rewrite (ElementStart_spec w "ResolutionOrder" spaces Hs). simpl.
  rewrite ElementBody_file. unfold closing at 2. simpl.
  rewrite (rep_nclasses _ _ _ Hrep), Z.mod_small, Nat2Z.id by lia.
  match goal with |- context [ClassInheritance_loop ct st ?w1 merge 0 _] =>
    destruct (ClassInheritance_loop_spec ct merge inner names Hnames [] st w1
                (rep_names _ _ _ Hrep) Hst eq_refl Hi) as (st' & Hloop & Hst') end.
  change (Z.of_nat (length [])) with 0 in Hloop. rewrite Hloop. simpl.
  rewrite (ElementEnd_body _ "ResolutionOrder" spaces); simpl; [|done|].
  2:{ by replace (indentation w + 1 - 1) with (indentation w) by lia. }
  exists st'. split; [done|]. split; [done|]. split; [|done].
  do 2 f_equal. replace (indentation w + 1 - 1) with (indentation w) by lia.
  f_equal. unfold newline. by repeat (progress (rewrite ?append_assoc; simpl)).
Qed.

Lemma ClassInheritance_writes_registry_witness :
  rep_info ex_diamond_info ["D"; "B"; "A"; "C"] [[0]; [1; 2]; [2]; [3]] /\
  Forall (short_value ex_ctype) ["D"; "B"; "A"; "C"] /\
  exists st',
    vtkWrapXML_ClassInheritance ex_ctype Quote_static_initial ex_state ex_diamond_info =
    Some (mk_wrapxml_state
            ("  <ResolutionOrder>" ++ newline ++
             "    <Context name=" ++ dquote ++ "D" ++ dquote ++ " access=" ++ dquote
               ++ "public" ++ dquote ++ " />" ++ newline ++
             "    <Context name=" ++ dquote ++ "B" ++ dquote ++ " access=" ++ dquote
               ++ "public" ++ dquote ++ " />" ++ newline ++
             "    <Context name=" ++ dquote ++ "A" ++ dquote ++ " access=" ++ dquote
               ++ "public" ++ dquote ++ " />" ++ newline ++
             "    <Context name=" ++ dquote ++ "C" ++ dquote ++ " access=" ++ dquote
               ++ "public" ++ dquote ++ " />" ++ newline ++
             "  </ResolutionOrder>" ++ newline) 1 0, st').
Proof.
  assert (Hrep : rep_info ex_diamond_info ["D"; "B"; "A"; "C"] [[0]; [1; 2]; [2]; [3]]).
  { split; simpl; try done.
    - by exists [].
    - right; left. lia.
    - by exists [].
    - right; left. lia.
    - exists [[Some 0]; [Some 1; Some 2]; [Some 2]; [Some 3]]. split; [by exists []|].
      repeat constructor; try (by exists []); simpl;
        try (exists 0; simpl; lia); exists 1; simpl; lia.
    - right; left. lia. }
  assert (Hnames : Forall (short_value ex_ctype) ["D"; "B"; "A"; "C"]).
  { repeat (constructor; [split; [reflexivity|vm_compute; lia]|]). constructor. }
  split; [exact Hrep|]. split; [exact Hnames|].
  destruct (ClassInheritance_writes_registry ex_ctype Quote_static_initial ex_state
              ex_diamond_info _ _ Hrep ltac:(simpl; lia) eq_refl ltac:(simpl; lia) Hnames)
    as (spaces & inner & st' & Hs & Hi & Hrun & _).
  exists st'. rewrite Hrun. injection Hs as <-. injection Hi as <-. reflexivity.
Defined.

(** ** The element of the file *)

(** X21. [vtkWrapXML_FileHeader] writes the start tag of the element [File]
    with the base name of the file as its name, closes the tag, and takes the
    indentation back: what is written between the header and the footer is at
    the indentation level of the element [File] itself, and
    [vtkWrapXML_FileFooter] then writes the end tag at this same level. *)
Theorem FileHeader_and_FileFooter (ct : ctype) (st : Quote_static) (w : wrapxml_state_t)
    (path : string) (body : wrapxml_state_t) :
  Quote_static_ok st -> 0 <= indentation w -> short_value ct (basename path) ->
  indentation body = indentation w -> unclosed body = 0 ->
  exists (spaces : string) (st' : Quote_static),
    indent (indentation w) = Some spaces /\
    vtkWrapXML_FileHeader ct st w (Some path) =
      Some (mk_wrapxml_state
              (file w ++ closing w ++ spaces ++ "<File"
                 ++ attribute_text ct "name" (basename path) ++ ">" ++ newline)
              (indentation w) 0, st') /\
    vtkWrapXML_FileFooter body =
      Some (mk_wrapxml_state (file body ++ spaces ++ "</File>" ++ newline)
              (indentation w) 0).
Proof.
  intros Hst Hw Hname Hbi Hbu.
  destruct (indent_defined (indentation w) Hw) as [spaces Hs].
  unfold vtkWrapXML_FileHeader, vtkWrapXML_FileFooter.
  rewrite (ElementStart_spec w "File" spaces Hs). simpl. unfold vtkWrapXML_Name.
  destruct (Attribute_spec ct st
              (mk_wrapxml_state (file w ++ closing w ++ spaces ++ "<File")
                 (indentation w + 1) 1) "name" (basename path) Hst Hname) as (st' & -> & Hst').
  simpl. exists spaces, st'. split; [done|]. split.
  - do 2 f_equal. replace (indentation w + 1 - 1) with (indentation w) by lia.
    f_equal. unfold attribute_text, dquote, newline.
    by repeat (progress (rewrite ?append_assoc; simpl)).
  - rewrite (ElementEnd_body _ "File" spaces); simpl; [| done |].
    2:{ by replace (indentation body + 1 - 1) with (indentation w) by lia. }
    do 2 f_equal. lia.
Qed.

Lemma FileHeader_and_FileFooter_witness :
  Quote_static_ok Quote_static_initial /\
  short_value ex_ctype (basename "/usr/include/vtk/vtkObject.h") /\
  exists st',
    vtkWrapXML_FileHeader ex_ctype Quote_static_initial (mk_wrapxml_state "" 0 0)
      (Some "/usr/include/vtk/vtkObject.h") =
    Some (mk_wrapxml_state
            ("<File name=" ++ dquote ++ "vtkObject.h" ++ dquote ++ ">" ++ newline) 0 0, st') /\
    vtkWrapXML_FileFooter (mk_wrapxml_state "body" 0 0) =
    Some (mk_wrapxml_state ("body</File>" ++ newline) 0 0).
Proof.
  assert (Hname : short_value ex_ctype (basename "/usr/include/vtk/vtkObject.h"))
    by (split; [reflexivity|vm_compute; lia]).
  split; [reflexivity|]. split; [exact Hname|].
  destruct (FileHeader_and_FileFooter ex_ctype Quote_static_initial (mk_wrapxml_state "" 0 0)
              "/usr/include/vtk/vtkObject.h" (mk_wrapxml_state "body" 0 0)
              eq_refl ltac:(simpl; lia) Hname eq_refl eq_refl)
    as (spaces & st' & Hs & Hh & Hf).
  exists st'. rewrite Hh, Hf. injection Hs as <-. split; reflexivity.
Defined.

(** ** What a merge keeps *)

Lemma entry_kept_refl (f : FunctionInfo) : entry_kept f f.
Proof. by repeat split. Qed.

Lemma entry_kept_trans (f1 f2 f3 : FunctionInfo) :
  entry_kept f1 f2 -> entry_kept f2 f3 -> entry_kept f1 f3.
Proof.
  intros (A1 & A2 & A3 & A4 & A5 & A6 & A7 & A8) (B1 & B2 & B3 & B4 & B5 & B6 & B7 & B8).
  repeat split; try congruence; auto.
Qed.

Lemma entry_kept_merge_function (f func : FunctionInfo) : entry_kept f (merge_function f func).
Proof.
  unfold merge_function. repeat split; simpl.
  - intros c Hc. rewrite Hc. by destruct (Comment func).
  - intros Hv. by destruct (IsVirtual func =? 0).
Qed.

Lemma entry_kept_entry_after (func : FunctionInfo) (fname : string) (f : FunctionInfo) :
  entry_kept f (entry_after func fname f).
Proof.
  unfold entry_after. destruct (sig_match f func fname);
    [apply entry_kept_merge_function|apply entry_kept_refl].
Qed.

Lemma extends_refl names fl chains : extends names fl chains names fl chains.
Proof.
  split; [done|]. split.
  - intros j f Hj. exists f. split; [done|apply entry_kept_refl].
  - intros j ch Hj. by exists ch.
Qed.

Lemma extends_trans n1 f1 c1 n2 f2 c2 n3 f3 c3 :
  extends n1 f1 c1 n2 f2 c2 -> extends n2 f2 c2 n3 f3 c3 -> extends n1 f1 c1 n3 f3 c3.
Proof.
  intros (A1 & A2 & A3) (B1 & B2 & B3). split; [by etrans|]. split.
  - intros j f Hj. destruct (A2 j f Hj) as (f' & Hf' & K1).
    destruct (B2 j f' Hf') as (f'' & Hf'' & K2). exists f''.
    split; [done|by eapply entry_kept_trans].
  - intros j ch Hj. destruct (A3 j ch Hj) as (ch' & Hc' & K1).
    destruct (B3 j ch' Hc') as (ch'' & Hc'' & K2). exists ch''. split; [done|by etrans].
Qed.

Lemma round_abs_extends cname depth func names fl chains :
  length chains = length fl ->
  extends names fl chains names (round_abs cname depth func (fl, chains)).1
    (round_abs cname depth func (fl, chains)).2.
Proof.
  intros Hlen. unfold round_abs.
  destruct (Name func) as [fname|]; [|apply extends_refl].
  destruct (not_inherited fname cname); [apply extends_refl|]. simpl.
  destruct (existsb _ fl); simpl.
  - split; [done|]. split.
    + intros j f Hj. exists (entry_after func fname f). rewrite list_lookup_fmap, Hj.
      split; [done|apply entry_kept_entry_after].
    + intros j ch Hj.
      destruct (lookup_lt_is_Some_2 fl j) as [f Hf].
      { rewrite <- Hlen. by eapply lookup_lt_Some. }
      exists (chain_after func fname depth f ch). rewrite lookup_zip_with, Hf. simpl.
      rewrite Hj. simpl. split; [done|]. unfold chain_after.
      destruct (sig_match f func fname); [apply push_unique_prefix|done].
  - split; [done|]. split.
    + intros j f Hj. exists f. split; [|apply entry_kept_refl].
      apply lookup_app_l_Some. done.
    + intros j ch Hj. exists ch. split; [|done]. by apply lookup_app_l_Some.
Qed.

Lemma Merge_abs_extends cname depth (sfl : list FunctionInfo) names :
  forall fl chains,
    length chains = length fl ->
    extends names fl chains names (Merge_abs cname depth sfl (fl, chains)).1
      (Merge_abs cname depth sfl (fl, chains)).2.
Proof.
  induction sfl as [|g sfl IH]; intros fl chains Hlen; [apply extends_refl|]. simpl.
  pose proof (round_abs_extends cname depth g names fl chains Hlen) as H1.
  pose proof (round_abs_length cname depth g (fl, chains) Hlen) as [_ Hl1].
  destruct (round_abs cname depth g (fl, chains)) as [fl1 chains1].
  eapply extends_trans; [exact H1|]. by apply IH.
Qed.

Lemma round_abs_in_registry cname depth func names fl chains :
  0 <= depth < Z.of_nat (length names) ->
  chains_in_registry names chains ->
  chains_in_registry names (round_abs cname depth func (fl, chains)).2.
Proof.
  intros Hd Hc. unfold round_abs.
  destruct (Name func) as [fname|]; [|done].
  destruct (not_inherited fname cname); [done|]. simpl.
  destruct (existsb _ fl); simpl.
  - unfold chains_in_registry in *. apply Forall_lookup. intros j ch'.
    rewrite lookup_zip_with. destruct (fl !! j) as [f|]; [|done]. simpl.
    destruct (chains !! j) as [ch|] eqn:Ej; [|done]. simpl. intros [= <-].
    pose proof (Forall_lookup_1 _ _ _ _ Hc Ej) as Hch.
    unfold chain_after. destruct (sig_match f func fname); [|done].
    unfold push_unique. destruct (index_of Z.eqb depth ch); [done|].
    apply Forall_app. split; [done|]. by apply Forall_singleton.
  - apply Forall_app. split; [done|]. apply Forall_singleton. by apply Forall_singleton.
Qed.

Lemma Merge_abs_in_registry cname depth (sfl : list FunctionInfo) names :
  0 <= depth < Z.of_nat (length names) ->
  forall fl chains,
    chains_in_registry names chains ->
    chains_in_registry names (Merge_abs cname depth sfl (fl, chains)).2.
Proof.
  intros Hd. induction sfl as [|g sfl IH]; intros fl chains Hc; [done|]. simpl.
  pose proof (round_abs_in_registry cname depth g names fl chains Hd Hc) as H1.
  destruct (round_abs cname depth g (fl, chains)) as [fl1 chains1]. by apply IH.
Qed.

Lemma chains_in_registry_prefix names names' chains :
  names `prefix_of` names' -> chains_in_registry names chains ->
  chains_in_registry names' chains.
Proof.
  intros Hp Hc. apply prefix_length in Hp. unfold chains_in_registry in *.
  eapply Forall_impl; [exact Hc|]. intros ch Hch.
  eapply Forall_impl; [exact Hch|]. simpl. intros d Hd. lia.
Qed.

Lemma push_index_lt (names : list string) (cname : string) :
  (push_index String.eqb names cname < length (push_unique String.eqb names cname))%nat.
Proof.
  pose proof (push_unique_index String.eqb String_eqb_eq names cname) as H.
  apply (index_of_Some _ String_eqb_eq) in H as [H _]. by eapply lookup_lt_Some.
Qed.

(** One call of [vtkParseMerge_Merge], on lists. *)
Lemma Merge_step info merge X names fl chains info' merge' depth :
  rep info merge names fl chains -> chains_in_registry names chains ->
  vtkParseMerge_Merge info merge X = Some (info', merge', depth) ->
  exists names' fl' chains',
    rep info' merge' names' fl' chains' /\ chains_in_registry names' chains' /\
    extends names fl chains names' fl' chains' /\ same_frame merge merge'.
Proof.
  intros Hrep Hreg Hrun.
  destruct (Merge_inv _ _ _ _ _ _ _ _ _ Hrep Hrun) as (sfl & Hsfl & Hd & Hrep' & Hfr).
  destruct Hrep as (_ & _ & Hlen).
  eexists _, _, _. split; [exact Hrep'|].
  pose proof (push_index_lt names (ClassName X)) as Hlt.
  split; [|split; [|done]].
  - apply Merge_abs_in_registry; [lia|].
    eapply chains_in_registry_prefix; [apply push_unique_prefix|done].
  - eapply extends_trans; [|by apply Merge_abs_extends].
    split; [apply push_unique_prefix|]. split.
    + intros j f Hj. exists f. split; [done|apply entry_kept_refl].
    + intros j ch Hj. by exists ch.
Qed.

(** X22. [vtkParseMerge_Merge] never removes, moves or renames a method of
    the flattened list: after a merge every entry is at its old position with
    its name, its arguments, its return class and its signature; a comment
    that it had is the comment that it has, and a virtual flag that was set is
    set.  The registry and every override chain have their old elements at
    their old positions. *)
Theorem Merge_keeps_entries (info : MergeInfo) (merge super : ClassInfo)
    (names : list string) (fl : list FunctionInfo) (chains : list (list Z))
    (info' : MergeInfo) (merge' : ClassInfo) (depth : Z) :
  rep info merge names fl chains ->
  vtkParseMerge_Merge info merge super = Some (info', merge', depth) ->
  exists names' fl' chains',
    rep info' merge' names' fl' chains' /\
    names `prefix_of` names' /\
    (forall (j : nat) f,
       fl !! j = Some f -> exists f', fl' !! j = Some f' /\ entry_kept f f') /\
    (forall (j : nat) ch,
       chains !! j = Some ch -> exists ch', chains' !! j = Some ch' /\ ch `prefix_of` ch').
Proof.
  intros Hrep Hrun.
  destruct (Merge_inv _ _ _ _ _ _ _ _ _ Hrep Hrun) as (sfl & Hsfl & Hd & Hrep' & Hfr).
  destruct Hrep as (_ & _ & Hlen).
  eexists _, _, _. split; [exact Hrep'|].
  destruct (Merge_abs_extends (ClassName super) depth sfl names fl chains Hlen)
    as (_ & H2 & H3).
  split; [apply push_unique_prefix|]. by split.
Qed.

Lemma Merge_keeps_entries_witness :
  rep ex_info ex_B ["B"; "A"] ex_B_methods [[0]] /\
  exists info' merge' depth,
    vtkParseMerge_Merge ex_info ex_B ex_A = Some (info', merge', depth) /\
    exists names' fl' chains',
      rep info' merge' names' fl' chains' /\
      ["B"; "A"] `prefix_of` names' /\
      (forall (j : nat) f,
         ex_B_methods !! j = Some f -> exists f', fl' !! j = Some f' /\ entry_kept f f') /\
      (forall (j : nat) ch,
         [[0]] !! j = Some ch -> exists ch', chains' !! j = Some ch' /\ ch `prefix_of` ch').
Proof.
  split; [exact ex_rep|]. eexists _, _, _. split; [reflexivity|].
  exact (Merge_keeps_entries ex_info ex_B ex_A ["B"; "A"] ex_B_methods [[0]] _ _ _
           ex_rep eq_refl).
Defined.

(** ** The walk keeps the entries *)

(** The state of the walk stands for lists whose chains name registered
    classes. *)
Lemma walk_supers_extends (visit : string -> walk_state -> outcome walk_state) :
  (forall super st st' names fl chains,
     visit super st = Done st' ->
     rep st.1.1 st.1.2 names fl chains -> chains_in_registry names chains ->
     exists names' fl' chains',
       rep st'.1.1 st'.1.2 names' fl' chains' /\ chains_in_registry names' chains' /\
       extends names fl chains names' fl' chains') ->
  forall (supers : list string) st st' names fl chains,
    walk_supers visit supers (Done st) = Done st' ->
    rep st.1.1 st.1.2 names fl chains -> chains_in_registry names chains ->
    exists names' fl' chains',
      rep st'.1.1 st'.1.2 names' fl' chains' /\ chains_in_registry names' chains' /\
      extends names fl chains names' fl' chains'.
Proof.
  intros Hvisit. induction supers as [|s supers IH];
    intros st st' names fl chains Hrun Hrep Hreg.
  - injection Hrun as <-. exists names, fl, chains. split; [done|]. split; [done|].
    apply extends_refl.
  - rewrite walk_supers_cons in Hrun.
    destruct (visit s st) as [st1| | |] eqn:Ev;
      try (rewrite walk_supers_stops in Hrun by done; discriminate).
    destruct (Hvisit s st st1 names fl chains Ev Hrep Hreg)
      as (n1 & f1 & c1 & Hrep1 & Hreg1 & He1).
    destruct (IH st1 st' n1 f1 c1 Hrun Hrep1 Hreg1) as (n2 & f2 & c2 & Hrep2 & Hreg2 & He2).
    exists n2, f2, c2. split; [done|]. split; [done|]. by eapply extends_trans.
Qed.

Lemma MergeHelper_extends (w : World) (hinfo : option HierarchyInfo) (hintfile : bool)
    (fuel : nat) :
  forall data classname st st' names fl chains,
    vtkWrapXML_MergeHelper fuel w data hinfo classname hintfile st = Done st' ->
    rep st.1.1 st.1.2 names fl chains -> chains_in_registry names chains ->
    exists names' fl' chains',
      rep st'.1.1 st'.1.2 names' fl' chains' /\ chains_in_registry names' chains' /\
      extends names fl chains names' fl' chains'.
Proof.
  induction fuel as [|fuel IH];
    intros data classname [[info merge] err] st' names fl chains Hrun Hrep Hreg; [done|].
  simpl in Hrun.
  destruct (resolve w data hinfo classname hintfile) as [data' [cinfo|] e| |status e] eqn:Er;
    try done.
  - destruct (vtkParseMerge_Merge info merge cinfo) as [[[info1 merge1] depth]|] eqn:Em; [|done].
    simpl in Hrep.
    destruct (Merge_step _ _ _ _ _ _ _ _ _ Hrep Hreg Em)
      as (n1 & f1 & c1 & Hrep1 & Hreg1 & He1 & _).
    destruct (walk_supers_extends _ (fun super st st' => IH data' super st st')
                (SuperClasses cinfo) _ st' n1 f1 c1 Hrun Hrep1 Hreg1)
      as (n2 & f2 & c2 & Hrep2 & Hreg2 & He2).
    exists n2, f2, c2. split; [done|]. split; [done|]. by eapply extends_trans.
  - injection Hrun as <-. exists names, fl, chains. split; [done|]. split; [done|].
    apply extends_refl.
  - injection Hrun as <-. exists names, fl, chains. split; [done|]. split; [done|].
    apply extends_refl.
Qed.

(** The context of a method, from the lists. *)
Lemma MethodHelper_classname_spec info merge names fl chains (i : nat) (ch : list Z)
    (d : nat) (name : string) :
  rep info merge names fl chains -> Z.of_nat (length fl) < 2 ^ 64 ->
  chains !! i = Some ch -> ch !! O = Some (Z.of_nat d) -> names !! d = Some name ->
  MethodHelper_classname (Some info) merge (Z.of_nat i) = Some (Some name).
Proof.
  intros (Hinfo & [Hn Hfl] & Hlen) Hbound Hi Hd Hname. unfold MethodHelper_classname.
  pose proof (lookup_lt_Some _ _ _ Hi) as Hlt.
  rewrite Hn, Z.mod_small by lia.
  replace (Z.of_nat i <? Z.of_nat (length fl)) with true by (symmetry; apply Z.ltb_lt; lia).
  rewrite (holds_load _ _ i (Z.of_nat (length ch)) (rep_counts _ _ _ Hinfo))
    by (by rewrite list_lookup_fmap, Hi).
  simpl. assert (Hpos : (0 < length ch)%nat) by (by eapply lookup_lt_Some).
  replace (Z.of_nat (length ch) =? 0) with false by (symmetry; apply Z.eqb_neq; lia).
  simpl. destruct (rep_chains _ _ _ Hinfo) as (blocks & Hb & Hall).
  destruct (Forall2_lookup_r _ _ _ _ _ Hall Hi) as (blk & Hblk & Hch & _).
  rewrite (holds_load _ _ i blk Hb Hblk). simpl.
  pose proof (holds_load _ _ O (Z.of_nat d) Hch Hd) as Hhead.
  change (Z.of_nat 0) with 0 in Hhead. rewrite Hhead. simpl.
  by rewrite (holds_load _ _ d name (rep_names _ _ _ Hinfo) Hname).
Qed.

(** X23. When [vtkWrapXML_MergeSuperClasses] has returned a MergeInfo, the
    context that [vtkWrapXML_MethodHelper] finds for a method of the flattened
    list is the name of a registered class, and for every method that the
    class declares itself it is the name of the class, whatever was merged:
    the first contributor of such a method stays the class at index 0. *)
Theorem MethodHelper_context_of_own_methods
    (fuel : nat) (w : World) (oinfo : OptionInfo) (data : NamespaceInfo)
    (classInfo : ClassInfo) (fl0 : list FunctionInfo)
    (info' : MergeInfo) (merge' : ClassInfo) (err : list string) :
  rep_class classInfo fl0 ->
  vtkWrapXML_MergeSuperClasses fuel w oinfo data classInfo = Done (Some info', merge', err) ->
  Class_NumberOfFunctions merge' < 2 ^ 64 ->
  (forall i : Z, 0 <= i < Class_NumberOfFunctions classInfo ->
     MethodHelper_classname (Some info') merge' i = Some (Some (ClassName classInfo))) /\
  (forall i : Z, 0 <= i < Class_NumberOfFunctions merge' ->
     exists (d : Z) (name : string),
       load (ClassNames info') d = Some name /\ 0 <= d < NumberOfClasses info' /\
       MethodHelper_classname (Some info') merge' i = Some (Some name)).
Proof.
  intros Hroot Hrun Hbound. unfold vtkWrapXML_MergeSuperClasses in Hrun.
  destruct (HierarchyFileName oinfo) as [hf|]; [|done].
  destruct (CreateMergeInfo_rep classInfo fl0 Hroot) as (info0 & Hc & Hrep0).
  rewrite Hc in Hrun.
  destruct (walk_supers _ _ _) as [[[info1 merge1] err1]| | |] eqn:Ew; try done.
  injection Hrun as <- <- <-.
  destruct (walk_supers_extends _
              (fun super st st' =>
                 MergeHelper_extends w (vtkParseHierarchy_ReadFile w hf) (open_hints w oinfo)
                   fuel data super st st')
              (SuperClasses classInfo) _ _ [ClassName classInfo] fl0
              (replicate (length fl0) [0]) Ew Hrep0)
    as (names & fl & chains & Hrep & Hreg & Hpre & Hfl & Hch).
  { apply Forall_replicate. apply Forall_singleton. simpl. lia. }
  simpl in Hrep. pose proof Hrep as (Hinfo & [Hn Hholds] & Hlen).
  rewrite Hn in Hbound. split.
  - intros i Hi. destruct Hroot as [Hn0 _]. rewrite Hn0 in Hi.
    destruct (Hch (Z.to_nat i) [0]) as (ch & Hchi & Hp).
    { apply lookup_replicate. split; [done|lia]. }
    rewrite <- (Z2Nat.id i) by lia.
    apply (MethodHelper_classname_spec info1 merge1 names fl chains _ ch O); try done.
    + by apply (prefix_lookup_Some [0]).
    + by apply (prefix_lookup_Some [ClassName classInfo]).
  - intros i Hi. rewrite Hn in Hi.
    destruct (lookup_lt_is_Some_2 chains (Z.to_nat i)) as [ch Hchi]; [lia|].
    destruct (rep_info_chain_head _ _ _ _ _ Hinfo Hchi) as (c0 & Hc0).
    pose proof (Forall_lookup_1 _ _ _ _ Hreg Hchi) as Hin.
    pose proof (Forall_lookup_1 _ _ _ _ Hin Hc0) as Hd. simpl in Hd.
    destruct (lookup_lt_is_Some_2 names (Z.to_nat c0)) as [name Hname]; [lia|].
    exists c0, name. split.
    + rewrite <- (Z2Nat.id c0) by lia. by apply (holds_load _ _ _ _ (rep_names _ _ _ Hinfo)).
    + split; [rewrite (rep_nclasses _ _ _ Hinfo); lia|].
      rewrite <- (Z2Nat.id i) by lia.
      apply (MethodHelper_classname_spec info1 merge1 names fl chains _ ch (Z.to_nat c0));
        try done.
      by rewrite Z2Nat.id by lia.
Qed.

Lemma MethodHelper_context_of_own_methods_witness :
  rep_class ex_diamond_D ex_diamond_D_methods /\
  vtkWrapXML_MergeSuperClasses 2 ex_world_empty ex_options ex_diamond ex_diamond_D =
    Done (Some ex_diamond_info, ex_diamond_merged, []) /\
  MethodHelper_classname (Some ex_diamond_info) ex_diamond_merged 0 = Some (Some "D") /\
  exists (d : Z) (name : string),
    load (ClassNames ex_diamond_info) d = Some name /\
    0 <= d < NumberOfClasses ex_diamond_info /\
    MethodHelper_classname (Some ex_diamond_info) ex_diamond_merged 2 = Some (Some name).
Proof.
  split; [apply class_of_rep|]. split; [exact ex_diamond_run|].
  destruct (MethodHelper_context_of_own_methods 2 ex_world_empty ex_options ex_diamond
              ex_diamond_D ex_diamond_D_methods ex_diamond_info ex_diamond_merged []
              (class_of_rep _ _ _ _) ex_diamond_run ltac:(simpl; lia)) as [Hown Hall].
  split; [apply Hown; simpl; lia|apply Hall; simpl; lia].
Defined.

(** ** Merging a class again *)

Lemma merge_function_idem (f func : FunctionInfo) :
  merge_function (merge_function f func) func = merge_function f func.
Proof.
  destruct f as [n a t c r cf s vf], func as [n' a' t' c' r' cg s' vg].
  unfold merge_function. simpl. f_equal.
  - by destruct cg, cf.
  - by destruct (vg =? 0).
Qed.

Lemma merge_function_self (func : FunctionInfo) :
  flag_01 func -> merge_function func func = func.
Proof.
  destruct func as [n a t c r cf s vf]. unfold flag_01, merge_function. simpl.
  intros [-> | ->]; f_equal; by destruct cf.
Qed.

Lemma merge_function_absorbed (f g func : FunctionInfo) :
  merge_function f func = f ->
  merge_function (merge_function f g) func = merge_function f g.
Proof.
  destruct f as [n a t c r cf s vf], func as [n' a' t' c' r' cfunc s' vfunc],
    g as [n'' a'' t'' c'' r'' cg s'' vg].
  unfold merge_function. simpl. intros [= Hc Hv]. f_equal.
  - destruct cfunc, cg, cf; simpl in *; congruence.
  - destruct (vfunc =? 0), (vg =? 0); simpl in *; congruence.
Qed.

(** The round of a method leaves it absorbed. *)
Lemma round_abs_absorbs cname depth func fname fl chains :
  Name func = Some fname -> not_inherited fname cname = false -> flag_01 func ->
  absorbed func fname (round_abs cname depth func (fl, chains)).1.
Proof.
  intros Hn Hni Hflag. unfold round_abs. rewrite Hn, Hni. simpl.
  destruct (existsb (fun f2 => name_is f2 fname) fl) eqn:Hex; simpl.
  - intros f2' (f2 & -> & Hin)%list_elem_of_fmap. rewrite sig_match_entry_after.
    intros Hs. unfold entry_after. rewrite Hs. apply merge_function_idem.
  - intros f2 [Hin|Hin]%elem_of_app Hs.
    + exfalso. apply sig_match_name in Hs.
      assert (existsb (fun f2 => name_is f2 fname) fl = true) as Ht
        by (apply existsb_name_is; eauto).
      congruence.
    + apply list_elem_of_singleton in Hin as ->. rewrite copy_function_id.
      by apply merge_function_self.
Qed.

(** The round of another method leaves a method absorbed, when an entry has
    its name. *)
Lemma round_abs_absorbed cname depth g fl chains func fname :
  (exists f0, f0 ∈ fl /\ Name f0 = Some fname) ->
  absorbed func fname fl ->
  absorbed func fname (round_abs cname depth g (fl, chains)).1.
Proof.
  intros Hname Habs. unfold round_abs.
  destruct (Name g) as [gname|] eqn:Eg; [|done].
  destruct (not_inherited gname cname); [done|]. simpl.
  destruct (existsb (fun f2 => name_is f2 gname) fl) eqn:Hex; simpl.
  - intros f2' (f2 & -> & Hin)%list_elem_of_fmap. rewrite sig_match_entry_after.
    intros Hs. unfold entry_after. destruct (sig_match f2 g gname); [|by apply Habs].
    apply merge_function_absorbed. by apply Habs.
  - intros f2 [Hin|Hin]%elem_of_app Hs; [by apply Habs|].
    exfalso. apply list_elem_of_singleton in Hin as ->. rewrite copy_function_id in Hs.
    apply sig_match_name in Hs. rewrite Eg in Hs. injection Hs as ->.
    assert (existsb (fun f2 => name_is f2 fname) fl = true) as Ht
      by (by apply existsb_name_is).
    congruence.
Qed.

Lemma Merge_abs_absorbed cname depth (sfl : list FunctionInfo) d func fname :
  forall fl chains,
    length chains = length fl ->
    covered_func d func fname fl chains -> absorbed func fname fl ->
    absorbed func fname (Merge_abs cname depth sfl (fl, chains)).1.
Proof.
  induction sfl as [|g sfl IH]; intros fl chains Hlen Hcov Habs; [done|]. simpl.
  pose proof (round_abs_covered_func cname depth g fl chains d func fname Hlen Hcov) as H1.
  pose proof (round_abs_absorbed cname depth g fl chains func fname (proj1 Hcov) Habs) as H2.
  pose proof (round_abs_length cname depth g (fl, chains) Hlen) as [_ Hl1].
  destruct (round_abs cname depth g (fl, chains)) as [fl1 chains1]. by apply IH.
Qed.

Lemma Merge_abs_absorbs cname depth (sfl : list FunctionInfo) :
  Forall flag_01 sfl ->
  forall fl chains func fname,
    length chains = length fl ->
    func ∈ sfl -> Name func = Some fname -> not_inherited fname cname = false ->
    absorbed func fname (Merge_abs cname depth sfl (fl, chains)).1.
Proof.
  induction 1 as [|g sfl Hg Hsfl IH]; intros fl chains func fname Hlen Hin Hn Hni.
  { by apply elem_of_nil in Hin. }
  simpl. pose proof (round_abs_length cname depth g (fl, chains) Hlen) as [_ Hl1].
  apply elem_of_cons in Hin as [->|Hin].
  - pose proof (round_abs_covers cname depth g fname fl chains Hlen Hn Hni) as H1.
    pose proof (round_abs_absorbs cname depth g fname fl chains Hn Hni Hg) as H2.
    destruct (round_abs cname depth g (fl, chains)) as [fl1 chains1].
    by eapply Merge_abs_absorbed.
  - destruct (round_abs cname depth g (fl, chains)) as [fl1 chains1]. by apply IH.
Qed.

Lemma zip_with_fixed {A B : Type} (F : A -> B -> B) :
  forall (l : list A) (k : list B),
    length k = length l ->
    (forall (j : nat) a b, l !! j = Some a -> k !! j = Some b -> F a b = b) ->
    zip_with F l k = k.
Proof.
  induction l as [|a l IH]; intros [|b k] Hlen H; simpl in *; try done.
  rewrite (H O a b eq_refl eq_refl). f_equal. apply IH; [lia|].
  intros j a' b' Ha Hb. by apply (H (S j)).
Qed.

(** The round of a method that is covered and absorbed changes nothing. *)
Lemma round_abs_fixed cname (d : Z) func fl chains :
  length chains = length fl ->
  (forall fname, Name func = Some fname -> not_inherited fname cname = false ->
     covered_func d func fname fl chains /\ absorbed func fname fl) ->
  round_abs cname d func (fl, chains) = (fl, chains).
Proof.
  intros Hlen H. unfold round_abs.
  destruct (Name func) as [fname|]; [|done].
  destruct (not_inherited fname cname) eqn:Hni; [done|].
  destruct (H fname eq_refl Hni) as [[Hname Hcov] Habs]. simpl.
  replace (existsb (fun f2 => name_is f2 fname) fl) with true
    by (symmetry; by apply existsb_name_is).
  f_equal.
  - rewrite <- (list_fmap_id fl) at 2. apply list_fmap_ext.
    intros j f2 Hj. unfold entry_after. simpl.
    destruct (sig_match f2 func fname) eqn:Hs; [|done].
    apply Habs; [by eapply list_elem_of_lookup_2|done].
  - apply zip_with_fixed; [done|]. intros j f2 ch Hj Hc. unfold chain_after.
    destruct (sig_match f2 func fname) eqn:Hs; [|done].
    pose proof (Hcov j f2 ch Hj Hc Hs) as Hin.
    unfold push_unique.
    destruct (index_of Z.eqb d ch) eqn:Ei; [done|].
    by apply (index_of_None _ Z.eqb_eq) in Ei.
Qed.

Lemma Merge_abs_fixed cname (d : Z) (sfl : list FunctionInfo) fl chains :
  length chains = length fl ->
  (forall func fname, func ∈ sfl -> Name func = Some fname ->
     not_inherited fname cname = false ->
     covered_func d func fname fl chains /\ absorbed func fname fl) ->
  Merge_abs cname d sfl (fl, chains) = (fl, chains).
Proof.
  intros Hlen. induction sfl as [|g sfl IH]; intros H; [done|]. simpl.
  rewrite round_abs_fixed; [|done|].
  - apply IH. intros func fname Hin. apply H. by apply list_elem_of_further.
  - intros fname. apply H. apply list_elem_of_here.
Qed.

Lemma index_of_prefix (names names' : list string) (cname : string) (d : nat) :
  names `prefix_of` names' ->
  index_of String.eqb cname names = Some d -> index_of String.eqb cname names' = Some d.
Proof.
  intros [more ->]. revert d. induction names as [|y names IH]; intros d; [done|]. simpl.
  destruct (String.eqb y cname); [done|].
  destruct (index_of String.eqb cname names) as [i|]; [|done]. simpl. intros [= <-].
  by rewrite (IH i eq_refl).
Qed.

(** A merge settles the class that it merges ... *)
Lemma Merge_settles info merge X sfl names fl chains info' merge' depth :
  rep info merge names fl chains -> methods_of X sfl -> Forall flag_01 sfl ->
  vtkParseMerge_Merge info merge X = Some (info', merge', depth) ->
  exists (d : nat) names' fl' chains',
    depth = Z.of_nat d /\ rep info' merge' names' fl' chains' /\
    settled (ClassName X) sfl d names' fl' chains'.
Proof.
  intros Hrep Hsfl Hflags Hrun.
  destruct (Merge_inv _ _ _ _ _ _ _ _ _ Hrep Hrun) as (sfl' & Hsfl' & Hd & Hrep' & _).
  rewrite (methods_of_inj X sfl' sfl Hsfl' Hsfl) in *. destruct Hrep as (_ & _ & Hlen).
  eexists _, _, _, _. split; [exact Hd|]. split; [exact Hrep'|]. split.
  - apply (push_unique_index String.eqb String_eqb_eq).
  - intros func fname Hin Hn Hni. rewrite <- Hd. split.
    + by apply Merge_abs_covers.
    + by apply Merge_abs_absorbs.
Qed.

(** ... and leaves settled the classes that were. *)
Lemma Merge_settled info merge Y names fl chains info' merge' depth cname sfl (d : nat) :
  rep info merge names fl chains -> settled cname sfl d names fl chains ->
  vtkParseMerge_Merge info merge Y = Some (info', merge', depth) ->
  exists names' fl' chains',
    rep info' merge' names' fl' chains' /\ settled cname sfl d names' fl' chains'.
Proof.
  intros Hrep [Hidx Hall] Hrun.
  destruct (Merge_inv _ _ _ _ _ _ _ _ _ Hrep Hrun) as (ysfl & _ & _ & Hrep' & _).
  destruct Hrep as (_ & _ & Hlen).
  eexists _, _, _. split; [exact Hrep'|]. split.
  - eapply index_of_prefix; [apply push_unique_prefix|done].
  - intros func fname Hin Hn Hni. destruct (Hall func fname Hin Hn Hni) as [Hcov Habs].
    split.
    + by apply Merge_abs_covered_func.
    + by eapply Merge_abs_absorbed.
Qed.

Lemma Merge_all_settled (others : list ClassInfo) cname sfl (d : nat) :
  forall info merge names fl chains info' merge',
    rep info merge names fl chains -> settled cname sfl d names fl chains ->
    Merge_all info merge others = Some (info', merge') ->
    exists names' fl' chains',
      rep info' merge' names' fl' chains' /\ settled cname sfl d names' fl' chains'.
Proof.
  induction others as [|Y others IH]; intros info merge names fl chains info' merge' Hrep Hs Hrun.
  - injection Hrun as <- <-. by exists names, fl, chains.
  - simpl in Hrun.
    destruct (vtkParseMerge_Merge info merge Y) as [[[info1 merge1] depth]|] eqn:Em; [|done].
    simpl in Hrun.
    destruct (Merge_settled _ _ _ _ _ _ _ _ _ _ _ _ Hrep Hs Em) as (n1 & f1 & c1 & Hrep1 & Hs1).
    by eapply IH.
Qed.

(** X24. Merging a class again changes nothing: when a class whose methods
    have virtual flags of 0 or 1 was merged, and any classes were merged after
    it, a further merge of the class returns the same index and leaves the
    registry, the flattened list and every override chain as they are.  So the
    second visit of the shared ancestor of a diamond adds nothing. *)
Theorem Merge_again_changes_nothing
    (info : MergeInfo) (merge X : ClassInfo) (sfl : list FunctionInfo)
    (others : list ClassInfo) (names : list string) (fl : list FunctionInfo)
    (chains : list (list Z)) (info1 info2 info3 : MergeInfo)
    (merge1 merge2 merge3 : ClassInfo) (depth depth' : Z) :
  rep info merge names fl chains -> methods_of X sfl -> Forall flag_01 sfl ->
  vtkParseMerge_Merge info merge X = Some (info1, merge1, depth) ->
  Merge_all info1 merge1 others = Some (info2, merge2) ->
  vtkParseMerge_Merge info2 merge2 X = Some (info3, merge3, depth') ->
  depth' = depth /\
  exists names2 fl2 chains2,
    rep info2 merge2 names2 fl2 chains2 /\ rep info3 merge3 names2 fl2 chains2.
Proof.
  intros Hrep Hsfl Hflags Hrun1 Hall Hrun3.
  destruct (Merge_settles _ _ _ _ _ _ _ _ _ _ Hrep Hsfl Hflags Hrun1)
    as (d & n1 & f1 & c1 & -> & Hrep1 & Hs1).
  destruct (Merge_all_settled _ _ _ _ _ _ _ _ _ _ _ Hrep1 Hs1 Hall)
    as (n2 & f2 & c2 & Hrep2 & [Hidx Hs2]).
  destruct (Merge_inv _ _ _ _ _ _ _ _ _ Hrep2 Hrun3) as (sfl' & Hsfl' & Hd & Hrep3 & _).
  rewrite (methods_of_inj X sfl' sfl Hsfl' Hsfl) in *.
  assert (Hpi : push_index String.eqb n2 (ClassName X) = d)
    by (unfold push_index; by rewrite Hidx).
  assert (Hpu : push_unique String.eqb n2 (ClassName X) = n2)
    by (unfold push_unique; by rewrite Hidx).
  rewrite Hpi in Hd. subst depth'. split; [done|].
  exists n2, f2, c2. split; [done|].
  rewrite Hpu, Merge_abs_fixed in Hrep3; [done| |done].
  by destruct Hrep2 as (_ & _ & Hlen).
Qed.

Lemma Merge_again_changes_nothing_witness :
  rep ex_info ex_B ["B"; "A"] ex_B_methods [[0]] /\
  methods_of ex_A ex_A_methods /\ Forall flag_01 ex_A_methods /\
  exists info1 merge1 depth info2 merge2 info3 merge3 depth',
    vtkParseMerge_Merge ex_info ex_B ex_A = Some (info1, merge1, depth) /\
    Merge_all info1 merge1 [ex_diamond_C] = Some (info2, merge2) /\
    vtkParseMerge_Merge info2 merge2 ex_A = Some (info3, merge3, depth') /\
    depth' = depth /\
    exists names2 fl2 chains2,
      rep info2 merge2 names2 fl2 chains2 /\ rep info3 merge3 names2 fl2 chains2.
Proof.
  assert (Hm : methods_of ex_A ex_A_methods).
  { apply rep_class_methods_of. apply (class_of_rep "A" [] ex_A_methods 0). }
  assert (Hf : Forall flag_01 ex_A_methods).
  { unfold ex_A_methods. repeat (constructor; [(by left) || (by right)|]). constructor. }
  split; [exact ex_rep|]. split; [exact Hm|]. split; [exact Hf|].
  eexists _, _, _, _, _, _, _, _.
  split; [vm_compute; reflexivity|]. split; [vm_compute; reflexivity|].
  split; [vm_compute; reflexivity|].
  exact (Merge_again_changes_nothing ex_info ex_B ex_A ex_A_methods [ex_diamond_C]
           ["B"; "A"] ex_B_methods [[0]] _ _ _ _ _ _ _ _ ex_rep Hm Hf eq_refl eq_refl eq_refl).
Defined.

(** ** The order of the registry *)

Lemma register_all_app names v1 v2 :
  register_all names (v1 ++ v2) = register_all (register_all names v1) v2.
Proof. unfold register_all. apply fold_left_app. Qed.

Lemma walk_supers_order (visit : string -> walk_state -> outcome walk_state)
    (order : string -> list string) :
  (forall super st st' names fl chains,
     visit super st = Done st' -> rep st.1.1 st.1.2 names fl chains ->
     exists fl' chains', rep st'.1.1 st'.1.2 (register_all names (order super)) fl' chains') ->
  forall (supers : list string) st st' names fl chains,
    walk_supers visit supers (Done st) = Done st' -> rep st.1.1 st.1.2 names fl chains ->
    exists fl' chains',
      rep st'.1.1 st'.1.2 (register_all names (concat (order <$> supers))) fl' chains'.
Proof.
  intros Hvisit. induction supers as [|s supers IH]; intros st st' names fl chains Hrun Hrep.
  - injection Hrun as <-. by exists fl, chains.
  - rewrite walk_supers_cons in Hrun.
    destruct (visit s st) as [st1| | |] eqn:Ev;
      try (rewrite walk_supers_stops in Hrun by done; discriminate).
    destruct (Hvisit s st st1 names fl chains Ev Hrep) as (f1 & c1 & Hrep1).
    destruct (IH st1 st' _ f1 c1 Hrun Hrep1) as (f2 & c2 & Hrep2).
    exists f2, c2. rewrite fmap_cons. simpl concat. by rewrite register_all_app.
Qed.

Lemma MergeHelper_order (w : World) (hinfo : option HierarchyInfo) (hintfile : bool)
    (fuel : nat) :
  forall data classname st st' names fl chains,
    vtkWrapXML_MergeHelper fuel w data hinfo classname hintfile st = Done st' ->
    rep st.1.1 st.1.2 names fl chains ->
    exists fl' chains',
      rep st'.1.1 st'.1.2
        (register_all names (visit_order fuel w data hinfo classname hintfile)) fl' chains'.
Proof.
  induction fuel as [|fuel IH];
    intros data classname [[info merge] err] st' names fl chains Hrun Hrep; [done|].
  simpl in Hrun. simpl visit_order.
  destruct (resolve w data hinfo classname hintfile) as [data' [cinfo|] e| |status e] eqn:Er;
    try done.
  - destruct (vtkParseMerge_Merge info merge cinfo) as [[[info1 merge1] depth]|] eqn:Em; [|done].
    simpl in Hrep.
    destruct (Merge_inv _ _ _ _ _ _ _ _ _ Hrep Em) as (sfl & _ & _ & Hrep1 & _).
    destruct (walk_supers_order _ (fun super => visit_order fuel w data' hinfo super hintfile)
                (fun super st st' => IH data' super st st')
                (SuperClasses cinfo) _ st' _ _ _ Hrun Hrep1) as (f2 & c2 & Hrep2).
    by exists f2, c2.
  - injection Hrun as <-. by exists fl, chains.
  - injection Hrun as <-. by exists fl, chains.
Qed.

(** X25. The resolution order of a class is depth-first: when
    [vtkWrapXML_MergeSuperClasses] returns a MergeInfo, its registry has the
    class at index 0 and then the classes that the walk visits, in the order
    of their first visit, where the walk visits a class before its bases and
    the bases of a class from left to right. *)
Theorem MergeSuperClasses_registry_order
    (fuel : nat) (w : World) (oinfo : OptionInfo) (data : NamespaceInfo)
    (classInfo : ClassInfo) (fl0 : list FunctionInfo)
    (info' : MergeInfo) (merge' : ClassInfo) (err : list string) :
  rep_class classInfo fl0 ->
  vtkWrapXML_MergeSuperClasses fuel w oinfo data classInfo = Done (Some info', merge', err) ->
  exists hierarchyFileName fl chains,
    HierarchyFileName oinfo = Some hierarchyFileName /\
    rep info' merge'
      (register_all [ClassName classInfo]
         (concat ((fun super =>
                     visit_order fuel w data (vtkParseHierarchy_ReadFile w hierarchyFileName)
                       super (open_hints w oinfo)) <$> SuperClasses classInfo)))
      fl chains.
Proof.
  intros Hroot Hrun. unfold vtkWrapXML_MergeSuperClasses in Hrun.
  destruct (HierarchyFileName oinfo) as [hf|]; [|done].
  destruct (CreateMergeInfo_rep classInfo fl0 Hroot) as (info0 & Hc & Hrep0).
  rewrite Hc in Hrun.
  destruct (walk_supers _ _ _) as [[[info1 merge1] err1]| | |] eqn:Ew; try done.
  injection Hrun as <- <- <-.
  destruct (walk_supers_order _
              (fun super => visit_order fuel w data (vtkParseHierarchy_ReadFile w hf) super
                              (open_hints w oinfo))
              (fun super st st' =>
                 MergeHelper_order w (vtkParseHierarchy_ReadFile w hf) (open_hints w oinfo)
                   fuel data super st st')
              (SuperClasses classInfo) _ _ _ _ _ Ew Hrep0) as (fl & chains & Hrep).
  by exists hf, fl, chains.
Qed.

Lemma MergeSuperClasses_registry_order_witness :
  rep_class ex_diamond_D ex_diamond_D_methods /\
  vtkWrapXML_MergeSuperClasses 2 ex_world_empty ex_options ex_diamond ex_diamond_D =
    Done (Some ex_diamond_info, ex_diamond_merged, []) /\
  concat ((fun super => visit_order 2 ex_world_empty ex_diamond
                          (vtkParseHierarchy_ReadFile ex_world_empty "hierarchy.txt") super
                          (open_hints ex_world_empty ex_options))
            <$> SuperClasses ex_diamond_D) = ["B"; "A"; "C"; "A"] /\
  exists fl chains, rep ex_diamond_info ex_diamond_merged ["D"; "B"; "A"; "C"] fl chains.
Proof.
  split; [apply class_of_rep|]. split; [exact ex_diamond_run|]. split; [reflexivity|].
  destruct (MergeSuperClasses_registry_order 2 ex_world_empty ex_options ex_diamond
              ex_diamond_D ex_diamond_D_methods ex_diamond_info ex_diamond_merged []
              (class_of_rep _ _ _ _) ex_diamond_run) as (hf & fl & chains & Hhf & Hrep).
  injection Hhf as <-. by exists fl, chains.
Defined.

(** ** Overloads of one ancestor *)

Lemma Merge_fl_one_per_name cname (sfl : list FunctionInfo) :
  forall fl (k1 k2 : nat) g1 g2,
    (length fl <= k1)%nat -> (length fl <= k2)%nat ->
    Merge_fl cname sfl fl !! k1 = Some g1 -> Merge_fl cname sfl fl !! k2 = Some g2 ->
    Name g1 = Name g2 -> k1 = k2.
Proof.
  induction sfl as [|g0 sfl IH]; intros fl k1 k2 g1 g2 H1 H2 Hg1 Hg2 Hn.
  { apply lookup_lt_Some in Hg1. simpl in Hg1. lia. }
  change (Merge_fl cname (g0 :: sfl) fl)
    with (Merge_fl cname sfl (round_fl cname g0 fl)) in Hg1, Hg2.
  assert (Hold : (length (round_fl cname g0 fl) = length fl)%nat -> k1 = k2).
  { intros Hsame. apply (IH (round_fl cname g0 fl) k1 k2 g1 g2); by rewrite ?Hsame. }
  unfold round_fl in Hg1, Hg2, Hold.
  destruct (Name g0) as [fname0|] eqn:Hn0; [|by apply Hold].
  destruct (not_inherited fname0 cname); [by apply Hold|].
  destruct (existsb (fun f2 => name_is f2 fname0) fl); [apply Hold, length_fmap|].
  clear Hold.
  assert (Hlast : forall (k k' : nat) g g',
            k = length fl -> (length fl < k')%nat ->
            Merge_fl cname sfl (fl ++ [copy_function g0]) !! k = Some g ->
            Merge_fl cname sfl (fl ++ [copy_function g0]) !! k' = Some g' ->
            Name g <> Name g').
  { intros k k' g g' -> Hk' Hg Hg' Heq.
    apply Merge_fl_names in Hg as [(f & Hf & Hnf)|(Hle & _)];
      [|rewrite length_app in Hle; simpl in Hle; lia].
    rewrite lookup_app_r, Nat.sub_diag in Hf by lia. injection Hf as <-.
    apply Merge_fl_names in Hg' as [(f' & Hf' & _)|(_ & func & fname & _ & _ & _ & Hg' & Hnew)].
    - apply lookup_lt_Some in Hf'. rewrite length_app in Hf'. simpl in Hf'. lia.
    - apply (Hnew (copy_function g0)); [apply elem_of_app; right; apply list_elem_of_here|].
      congruence. }
  destruct (decide (k1 = length fl)) as [E1|E1], (decide (k2 = length fl)) as [E2|E2].
  - congruence.
  - exfalso. apply (Hlast k1 k2 g1 g2); try done. lia.
  - exfalso. apply (Hlast k2 k1 g2 g1); try done. lia.
  - apply (IH (fl ++ [copy_function g0]) k1 k2 g1 g2); try done;
      rewrite length_app; simpl; lia.
Qed.

(** X26. A merge appends at most one entry of a name: of the overloads of
    a name in one ancestor, no two are appended.  So when the ancestor
    declares [Foo(int)] and [Foo(double)] and the flattened list has no
    [Foo], the list gets [Foo(int)] and not [Foo(double)]: the loop over the
    flattened list meets the entry that the merge has just appended. *)
Theorem Merge_appends_one_per_name
    (info : MergeInfo) (merge super : ClassInfo) (names : list string)
    (fl : list FunctionInfo) (chains : list (list Z))
    (info' : MergeInfo) (merge' : ClassInfo) (depth : Z) :
  rep info merge names fl chains ->
  vtkParseMerge_Merge info merge super = Some (info', merge', depth) ->
  exists names' fl' chains',
    rep info' merge' names' fl' chains' /\
    forall (k1 k2 : nat) g1 g2,
      (length fl <= k1)%nat -> (length fl <= k2)%nat ->
      fl' !! k1 = Some g1 -> fl' !! k2 = Some g2 ->
      Name g1 = Name g2 -> k1 = k2.
Proof.
  intros Hrep Hrun.
  destruct (Merge_inv _ _ _ _ _ _ _ _ _ Hrep Hrun) as (sfl & _ & _ & Hrep' & _).
  eexists _, _, _. split; [exact Hrep'|].
  intros k1 k2 g1 g2 H1 H2 Hg1 Hg2. rewrite Merge_abs_fl in Hg1, Hg2.
  by apply (Merge_fl_one_per_name (ClassName super) sfl fl k1 k2 g1 g2).
Qed.

Lemma Merge_appends_one_per_name_witness :
  rep ex_info_B ex_B_ctor ["B"] [method "B" [] None 0] [[0]] /\
  exists info' merge',
    vtkParseMerge_Merge ex_info_B ex_B_ctor ex_A_overloads = Some (info', merge', 1) /\
    Class_NumberOfFunctions merge' = 2 /\
    load (Functions merge') 1 = Some (method "Foo" [INT_CODE] None 0) /\
    load (Functions merge') 2 = None /\
    exists names' fl' chains',
      rep info' merge' names' fl' chains' /\
      forall (k1 k2 : nat) g1 g2,
        (1 <= k1)%nat -> (1 <= k2)%nat ->
        fl' !! k1 = Some g1 -> fl' !! k2 = Some g2 -> Name g1 = Name g2 -> k1 = k2.
Proof.
  assert (Hrep : rep ex_info_B ex_B_ctor ["B"] [method "B" [] None 0] [[0]]).
  { destruct ex_info_B_rep as (Hinfo & _ & _). split; [done|]. split; [apply class_of_rep|done]. }
  split; [exact Hrep|].
  eexists _, _. split; [reflexivity|]. split; [reflexivity|]. split; [reflexivity|].
  split; [reflexivity|].
  exact (Merge_appends_one_per_name ex_info_B ex_B_ctor ex_A_overloads ["B"]
           [method "B" [] None 0] [[0]] _ _ 1 Hrep eq_refl).
Defined.
